(** * Settlement engine of the swap broker: autopost scheduler, receipts store
    and settlement driver, embedded from the JavaScript sources.

    - [JS]        : the fragment of JavaScript values and built-ins the code uses
    - [Autopost]  : src/prompt/autopost.js            (AutopostManager)
    - [Receipts]  : the trade receipts store          (TradeReceiptsStore)
    - [TradeAuto] : src/prompt/tradeAuto.js           (TradeAutoManager)

    Modelling conventions.
    - A JavaScript value is a [jsval]; numbers are the integer-valued doubles
      (a [Z]); strings are sequences of Latin-1 code points ([string]).
    - Objects are association lists in insertion order, read at the first
      binding of a key.
    - [Map] and [Set] are insertion-ordered lists with unique keys.
    - [Date.now()] is read from the model state; the clock advances only while
      an asynchronous tool call is awaited, by the duration the environment
      chooses for that call.
    - An asynchronous method runs from its call to its end as one step: other
      events of the same manager do not interleave at its [await]s (for a
      driver tick the code excludes it itself, by [_tickInFlight]).
    - Diagnostic output ([_trace], [_log], error texts of the stats record) is
      left out: no decision of the code reads it. *)

From Stdlib Require Import ZArith List String Ascii Bool Lia DecimalString.
Import ListNotations.

Local Open Scope string_scope.
Local Open Scope Z_scope.

(* ===================================================================== *)
(** * JavaScript values and built-ins *)
(* ===================================================================== *)

Module JS.

#[warnings="-register-all"]
Inductive jsval : Type :=
| JUndef
| JNull
| JBool (b : bool)
| JNum (n : Z)
| JStr (s : string)
| JArr (xs : list jsval)
| JObj (fields : list (string * jsval)).

(** ** Characters and strings *)

(** [String.prototype.trim] strips WhiteSpace and LineTerminator code points;
    in Latin-1 these are U+0009..U+000D, U+0020 and U+00A0. *)
Definition is_ws (c : ascii) : bool :=
  let n := N_of_ascii c in
  ((9 <=? n) && (n <=? 13) || (n =? 32) || (n =? 160))%N.

Fixpoint ltrim (s : string) : string :=
  match s with
  | EmptyString => EmptyString
  | String c r => if is_ws c then ltrim r else s
  end.

Fixpoint rtrim (s : string) : string :=
  match s with
  | EmptyString => EmptyString
  | String c r =>
      match rtrim r with
      | EmptyString => if is_ws c then EmptyString else String c EmptyString
      | r' => String c r'
      end
  end.

Definition trim (s : string) : string := rtrim (ltrim s).

(** [String.prototype.toLowerCase] on Latin-1: A..Z and U+00C0..U+00DE
    (without U+00D7) move up by 32. *)
Definition lower_char (c : ascii) : ascii :=
  let n := N_of_ascii c in
  if ((65 <=? n) && (n <=? 90) ||
      (192 <=? n) && (n <=? 222) && negb (n =? 215))%N
  then ascii_of_N (n + 32) else c.

Fixpoint toLowerCase (s : string) : string :=
  match s with
  | EmptyString => EmptyString
  | String c r => String (lower_char c) (toLowerCase r)
  end.

Fixpoint all_chars (p : ascii -> bool) (s : string) : bool :=
  match s with
  | EmptyString => true
  | String c r => p c && all_chars p r
  end.

Definition is_digit (c : ascii) : bool :=
  let n := N_of_ascii c in ((48 <=? n) && (n <=? 57))%N.

(** The class [[0-9a-f]] under the [i] flag. *)
Definition is_hex_char (c : ascii) : bool :=
  let n := N_of_ascii c in
  ((48 <=? n) && (n <=? 57) || (97 <=? n) && (n <=? 102) ||
   (65 <=? n) && (n <=? 70))%N.

(** The class [[0-9a-f]] without the [i] flag. *)
Definition is_lower_hex_char (c : ascii) : bool :=
  let n := N_of_ascii c in
  ((48 <=? n) && (n <=? 57) || (97 <=? n) && (n <=? 102))%N.

(** [/^[0-9a-f]{k}$/i.test(s)] *)
Definition is_hex (k : nat) (s : string) : bool :=
  Nat.eqb (String.length s) k && all_chars is_hex_char s.

(** [/^[0-9a-f]{k}$/.test(s)] *)
Definition is_lower_hex (k : nat) (s : string) : bool :=
  Nat.eqb (String.length s) k && all_chars is_lower_hex_char s.

(** [/^[0-9]+$/.test(s)] *)
Definition is_digits (s : string) : bool :=
  negb (String.eqb s "") && all_chars is_digit s.

Definition startsWith (s p : string) : bool := String.prefix p s.

(** [s.slice(0, n)] *)
Definition slice0 (n : nat) (s : string) : string := String.substring 0 n s.

(** ** Coercions *)

Definition truthy (v : jsval) : bool :=
  match v with
  | JUndef | JNull => false
  | JBool b => b
  | JNum n => negb (n =? 0)
  | JStr s => negb (String.eqb s "")
  | JArr _ | JObj _ => true
  end.

(** [a || b] *)
Definition jor (a b : jsval) : jsval := if truthy a then a else b.

(** [a ?? b] *)
Definition nullish (v : jsval) : bool :=
  match v with JUndef | JNull => true | _ => false end.

Definition jcoalesce (a b : jsval) : jsval := if nullish a then b else a.

Definition num_to_string (n : Z) : string :=
  NilZero.string_of_int (Z.to_int n).

Fixpoint join_with (sep : string) (l : list string) : string :=
  match l with
  | [] => ""
  | [x] => x
  | x :: r => x ++ sep ++ join_with sep r
  end.

(** [String(v)]; inside an array [null] and [undefined] print as the empty
    string. *)
Fixpoint toStr (v : jsval) : string :=
  match v with
  | JUndef => "undefined"
  | JNull => "null"
  | JBool true => "true"
  | JBool false => "false"
  | JNum n => num_to_string n
  | JStr s => s
  | JArr xs =>
      join_with ","
        (List.map (fun x => match x with
                            | JUndef | JNull => ""
                            | _ => toStr x
                            end) xs)
  | JObj _ => "[object Object]"
  end.

(** [String(v || '')] *)
Definition str_or_empty (v : jsval) : string := toStr (jor v (JStr "")).

Fixpoint assoc {A : Type} (k : string) (l : list (string * A)) : option A :=
  match l with
  | [] => None
  | (k', v) :: r => if String.eqb k k' then Some v else assoc k r
  end.

(** [v?.k] for the property names the code reads (none of them is an own
    property of a string, a number or an array). *)
Definition get (v : jsval) (k : string) : jsval :=
  match v with
  | JObj fs => match assoc k fs with Some x => x | None => JUndef end
  | _ => JUndef
  end.

(** [isObject(v)] as a test. *)
Definition isObject (v : jsval) : bool :=
  match v with JObj _ => true | _ => false end.

(** [v && typeof v === 'object'] as a test. *)
Definition is_object_like (v : jsval) : bool :=
  match v with JObj _ | JArr _ => true | _ => false end.

Definition isArray (v : jsval) : bool :=
  match v with JArr _ => true | _ => false end.

Definition jsval_is_undef (v : jsval) : bool :=
  match v with JUndef => true | _ => false end.

(** [delete o.k] and [o.k = v] on an object. *)
Fixpoint obj_delete (k : string) (fs : list (string * jsval)) :=
  match fs with
  | [] => []
  | (k', v) :: r =>
      if String.eqb k k' then obj_delete k r else (k', v) :: obj_delete k r
  end.

Fixpoint obj_set (k : string) (v : jsval) (fs : list (string * jsval)) :=
  match fs with
  | [] => [(k, v)]
  | (k', v') :: r =>
      if String.eqb k k' then (k, v) :: obj_delete k r
      else (k', v') :: obj_set k v r
  end.

(** ** Numbers *)

Definition digit_val (c : ascii) : Z := Z.of_N (N_of_ascii c) - 48.

Fixpoint parse_digits (acc : Z) (seen : bool) (s : string) : option Z :=
  match s with
  | EmptyString => if seen then Some acc else None
  | String c r =>
      if is_digit c then parse_digits (10 * acc + digit_val c) true r
      else if seen then Some acc else None
  end.

(** [Number.parseInt(s, 10)]; [None] is [NaN]. *)
Definition parseInt10 (s : string) : option Z :=
  match ltrim s with
  | String "-" r => option_map Z.opp (parse_digits 0 false r)
  | String "+" r => parse_digits 0 false r
  | r => parse_digits 0 false r
  end.

(** [toIntOrNull(v)]; [None] is [null]. *)
Definition toIntOrNull (v : jsval) : option Z :=
  match v with
  | JUndef | JNull => None
  | JNum n => Some n
  | _ => parseInt10 (trim (toStr v))
  end.

(** [Math.max(lo, Math.min(hi, x))] *)
Definition clamp (lo hi x : Z) : Z := Z.max lo (Z.min hi x).

(** ** Insertion-ordered [Map] and [Set] with string keys *)

Definition jmap (V : Type) := list (string * V).
Definition jset := list string.

Definition map_has {V} (k : string) (m : jmap V) : bool :=
  match assoc k m with Some _ => true | None => false end.

Definition map_get {V} (k : string) (m : jmap V) : option V := assoc k m.

Fixpoint map_delete {V} (k : string) (m : jmap V) : jmap V :=
  match m with
  | [] => []
  | (k', v) :: r =>
      if String.eqb k k' then map_delete k r else (k', v) :: map_delete k r
  end.

(** [m.set(k, v)]: an existing key keeps its position, a new one goes last. *)
Fixpoint map_set {V} (k : string) (v : V) (m : jmap V) : jmap V :=
  match m with
  | [] => [(k, v)]
  | (k', v') :: r =>
      if String.eqb k k' then (k, v) :: r else (k', v') :: map_set k v r
  end.

Definition set_has (k : string) (s : jset) : bool :=
  existsb (String.eqb k) s.

Definition set_add (k : string) (s : jset) : jset :=
  if set_has k s then s else (s ++ [k])%list.

Definition set_delete (k : string) (s : jset) : jset :=
  filter (fun x => negb (String.eqb k x)) s.

End JS.

Import JS.

(** Outcome of a fallible operation: a value or a thrown error. *)
Inductive result (A : Type) : Type :=
| Ok (a : A)
| Err (msg : string).
Arguments Ok {A} a.
Arguments Err {A} msg.

(** What the environment answers to an awaited tool call: whether the promise
    resolved, its value, and how long it took. *)
Record Outcome : Type := mkOutcome {
  o_ok : bool;
  o_out : jsval;
  o_elapsed : Z
}.

(** The environment: the outcome of the i-th tool call of a run. *)
Definition Env := nat -> Outcome.

(* ===================================================================== *)
(** * Autopost scheduler (src/prompt/autopost.js) *)
(* ===================================================================== *)

Module Autopost.

(** [clampInt(n, { min, max })] of autopost.js: validates, never clamps. *)
Definition clampInt (n : jsval) (min max : option Z) : result Z :=
  match n with
  | JNum z =>
      match min with
      | Some lo =>
          if z <? lo then Err ("must be >= " ++ num_to_string lo)
          else match max with
               | Some hi =>
                   if hi <? z then Err ("must be <= " ++ num_to_string hi)
                   else Ok z
               | None => Ok z
               end
      | None =>
          match max with
          | Some hi =>
              if hi <? z then Err ("must be <= " ++ num_to_string hi)
              else Ok z
          | None => Ok z
          end
      end
  | _ => Err "must be an integer"
  end.

(** [JSON.parse(JSON.stringify(v))]: properties holding [undefined] are
    dropped, [undefined] inside an array becomes [null]. *)
Fixpoint json_clone (v : jsval) : jsval :=
  match v with
  | JArr xs =>
      JArr ((fix items (l : list jsval) : list jsval :=
               match l with
               | [] => []
               | x :: r =>
                   match x with
                   | JUndef => JNull
                   | _ => json_clone x
                   end :: items r
               end) xs)
  | JObj fs =>
      JObj ((fix props (l : list (string * jsval)) : list (string * jsval) :=
               match l with
               | [] => []
               | (k, x) :: r =>
                   match x with
                   | JUndef => props r
                   | _ => (k, json_clone x) :: props r
                   end
               end) fs)
  | _ => v
  end.

Definition safeCloneArgs (args : jsval) : jsval :=
  if isObject args then json_clone args else JObj [].

Definition offer_post : string := "intercomswap_offer_post".
Definition rfq_post : string := "intercomswap_rfq_post".

Record Job : Type := mkJob {
  name : string;
  tool : string;
  intervalSec : Z;
  ttlSec : Z;
  validUntilUnix : Z;
  args : jsval;
  runs : Z;
  startedAt : Z;
  lastRunAt : option Z;
  lastOk : option bool;
  lastError : option string;
  timer : option nat;         (* [_timer]: the interval handle, once set *)
  queued : nat                (* runs chained on [_queue], not yet started *)
}.

(** A publish handed to [runTool]; [c_job] and [c_at] record which job object
    issued it and the clock at that moment. *)
Record Call : Type := mkCall {
  c_job : nat;
  c_tool : string;
  c_args : jsval;
  c_at : Z
}.

(** Job objects live in a heap and are shared by reference between the
    manager's [jobs] map, the interval closure and the run closure. *)
Record State : Type := mkState {
  now : Z;                         (* Date.now(), in ms *)
  heap : list (nat * Job);
  jobs : jmap nat;                 (* this.jobs : name -> job object *)
  timers : list nat;               (* live interval handles *)
  calls : list Call                (* publishes so far, oldest first *)
}.

Definition init : State := mkState 0 [] [] [] [].

Fixpoint heap_get (r : nat) (h : list (nat * Job)) : option Job :=
  match h with
  | [] => None
  | (r', j) :: t => if Nat.eqb r r' then Some j else heap_get r t
  end.

Fixpoint heap_set (r : nat) (j : Job) (h : list (nat * Job)) :=
  match h with
  | [] => [(r, j)]
  | (r', j') :: t =>
      if Nat.eqb r r' then (r, j) :: t else (r', j') :: heap_set r j t
  end.

Definition clearInterval (h : option nat) (ts : list nat) : list nat :=
  match h with
  | Some x => List.filter (fun y => negb (Nat.eqb x y)) ts
  | None => ts
  end.

Definition timer_live (h : option nat) (ts : list nat) : bool :=
  match h with
  | Some x => List.existsb (Nat.eqb x) ts
  | None => false
  end.

Definition set_status (j : Job) (ok : option bool) (err : option string) :=
  mkJob (name j) (tool j) (intervalSec j) (ttlSec j) (validUntilUnix j)
    (args j) (runs j) (startedAt j) (lastRunAt j) ok err (timer j) (queued j).

Definition set_ran (j : Job) (at_ms : Z) (ok : bool) : Job :=
  mkJob (name j) (tool j) (intervalSec j) (ttlSec j) (validUntilUnix j)
    (args j) (runs j + 1) (startedAt j) (Some at_ms) (Some ok)
    (if ok then None else Some "error") (timer j) (queued j).

Definition set_timer (j : Job) (h : option nat) : Job :=
  mkJob (name j) (tool j) (intervalSec j) (ttlSec j) (validUntilUnix j)
    (args j) (runs j) (startedAt j) (lastRunAt j) (lastOk j) (lastError j)
    h (queued j).

Definition set_queued (j : Job) (q : nat) : Job :=
  mkJob (name j) (tool j) (intervalSec j) (ttlSec j) (validUntilUnix j)
    (args j) (runs j) (startedAt j) (lastRunAt j) (lastOk j) (lastError j)
    (timer j) q.

(** The arguments a run hands to the publish tool. *)
Definition runArgs (j : Job) : jsval :=
  match safeCloneArgs (args j) with
  | JObj fs =>
      if String.eqb (tool j) offer_post then
        JObj (obj_set "valid_until_unix" (JNum (validUntilUnix j))
                (obj_delete "ttl_sec" fs))
      else if String.eqb (tool j) rfq_post then
        JObj (obj_set "valid_until_unix" (JNum (validUntilUnix j)) fs)
      else JObj fs
  | v => v
  end.

(** The expiry branch shared by [runOnce] and the interval handler. *)
Definition expire (r : nat) (j : Job) (st : State) : State :=
  mkState (now st)
    (heap_set r (set_status j (Some true) (Some "expired")) (heap st))
    (map_delete (name j) (jobs st))
    (clearInterval (timer j) (timers st))
    (calls st).

(** [runOnce] of the job object [r]. *)
Definition runOnce (env : Env) (r : nat) (st : State) : State :=
  match heap_get r (heap st) with
  | None => st
  | Some j =>
      let nowSec := now st / 1000 in
      if validUntilUnix j <=? nowSec then expire r j st
      else
        let o := env (List.length (calls st)) in
        let t1 := now st + Z.max 0 (o_elapsed o) in
        mkState t1
          (heap_set r (set_ran j (now st) (o_ok o)) (heap st))
          (jobs st)
          (timers st)
          (calls st ++ [mkCall r (tool j) (runArgs j) (now st)])%list
  end.

(** The [setInterval] callback of the job object [r]; it only fires while its
    handle is live. *)
Definition onInterval (r : nat) (st : State) : State :=
  match heap_get r (heap st) with
  | None => st
  | Some j =>
      if timer_live (timer j) (timers st) then
        let nowSec := now st / 1000 in
        if validUntilUnix j <=? nowSec then expire r j st
        else mkState (now st)
               (heap_set r (set_queued j (S (queued j))) (heap st))
               (jobs st) (timers st) (calls st)
      else st
  end.

(** A run chained on [_queue] starts. *)
Definition runQueued (env : Env) (r : nat) (st : State) : State :=
  match heap_get r (heap st) with
  | None => st
  | Some j =>
      match queued j with
      | O => st
      | S q =>
          runOnce env r
            (mkState (now st) (heap_set r (set_queued j q) (heap st))
               (jobs st) (timers st) (calls st))
      end
  end.

Record StartArgs : Type := mkStartArgs {
  a_name : jsval;
  a_tool : jsval;
  a_interval_sec : jsval;
  a_ttl_sec : jsval;
  a_valid_until_unix : jsval;
  a_args : jsval
}.

(** The validation part of [start]: the job object it builds, or the error it
    throws. *)
Definition start_job (a : StartArgs) (st : State) : result Job :=
  let n := trim (str_or_empty (a_name a)) in
  if String.eqb n "" then Err "autopost_start: name is required"
  else if map_has n (jobs st) then Err "autopost_start: name already exists"
  else
    let t := trim (str_or_empty (a_tool a)) in
    if negb (String.eqb t offer_post || String.eqb t rfq_post)
    then Err "autopost_start: tool not allowed"
    else
      match clampInt (a_interval_sec a) (Some 1) (Some (24 * 3600)) with
      | Err m => Err m
      | Ok intervalSec =>
          match (if nullish (a_ttl_sec a) then Ok None
                 else match clampInt (a_ttl_sec a) (Some 10)
                              (Some (7 * 24 * 3600)) with
                      | Ok z => Ok (Some z)
                      | Err m => Err m
                      end)
          with
          | Err m => Err m
          | Ok None => Err "autopost_start: ttl_sec is required"
          | Ok (Some ttl) =>
              if ttl =? 0 then Err "autopost_start: ttl_sec is required"
              else
                let baseArgs := safeCloneArgs (a_args a) in
                if negb (isObject baseArgs)
                then Err "autopost_start: args must be an object"
                else
                  let nowSec := now st / 1000 in
                  match (if nullish (a_valid_until_unix a)
                         then Ok (nowSec + ttl)
                         else clampInt (a_valid_until_unix a) (Some 1) None)
                  with
                  | Err m => Err m
                  | Ok vu =>
                      if vu <=? nowSec
                      then Err "autopost_start: valid_until_unix must be in the future"
                      else if vu - nowSec <? 10
                      then Err "autopost_start: validity horizon too short"
                      else if 7 * 24 * 3600 <? vu - nowSec
                      then Err "autopost_start: validity horizon too long (max 7 days)"
                      else Ok (mkJob n t intervalSec ttl vu baseArgs 0 (now st)
                                 None None None None O)
                  end
          end
      end.

(** [start]: validate, run once at once, arm the interval, register the job.
    The new job object gets the next free reference, also used as its
    interval handle. *)
Definition start (env : Env) (a : StartArgs) (st : State)
  : result nat * State :=
  match start_job a st with
  | Err m => (Err m, st)
  | Ok j =>
      let r := List.length (heap st) in
      let st1 := runOnce env r
                   (mkState (now st) (heap_set r j (heap st)) (jobs st)
                      (timers st) (calls st)) in
      match heap_get r (heap st1) with
      | None => (Err "unreachable", st1)
      | Some j1 =>
          (Ok r,
           mkState (now st1)
             (heap_set r (set_timer j1 (Some r)) (heap st1))
             (map_set (name j1) r (jobs st1))
             (timers st1 ++ [r])%list
             (calls st1))
      end
  end.

(** [stop({ name })] *)
Definition stop (nm : jsval) (st : State) : result unit * State :=
  let n := trim (str_or_empty nm) in
  if String.eqb n "" then (Err "autopost_stop: name is required", st)
  else
    match map_get n (jobs st) with
    | None => (Ok tt, st)
    | Some r =>
        match heap_get r (heap st) with
        | None => (Ok tt, st)
        | Some j =>
            (Ok tt,
             mkState (now st) (heap st) (map_delete n (jobs st))
               (clearInterval (timer j) (timers st)) (calls st))
        end
    end.

(** What can happen to a manager. *)
Inductive Event : Type :=
| EStart (a : StartArgs)
| EStop (nm : jsval)
| ETick (r : nat)          (* the interval of job object r fires *)
| ERun (r : nat)           (* a queued run of job object r starts *)
| EWait (dt : Z).          (* time passes *)

Definition step (env : Env) (ev : Event) (st : State) : State :=
  match ev with
  | EStart a => snd (start env a st)
  | EStop nm => snd (stop nm st)
  | ETick r => onInterval r st
  | ERun r => runQueued env r st
  | EWait dt =>
      mkState (now st + Z.max 0 dt) (heap st) (jobs st) (timers st) (calls st)
  end.

Fixpoint run (env : Env) (evs : list Event) (st : State) : State :=
  match evs with
  | [] => st
  | ev :: r => run env r (step env ev st)
  end.

End Autopost.

(* ===================================================================== *)
(** * Trade receipts store (TradeReceiptsStore) *)
(* ===================================================================== *)

Module Receipts.

(** A value stored in a column. *)
Inductive sqlval : Type :=
| SNull
| SInt (n : Z)
| SText (s : string).

(** The columns of [trades], in the order of CREATE TABLE. *)
Inductive Col : Type :=
| c_trade_id | c_role | c_rfq_channel | c_swap_channel | c_maker_peer
| c_taker_peer | c_btc_sats | c_usdt_amount | c_sol_mint | c_sol_program_id
| c_sol_recipient | c_sol_refund | c_sol_escrow_pda | c_sol_vault_ata
| c_sol_refund_after_unix | c_ln_invoice_bolt11 | c_ln_payment_hash_hex
| c_ln_preimage_hex | c_state | c_created_at | c_updated_at | c_last_error.

Definition all_cols : list Col :=
  [c_trade_id; c_role; c_rfq_channel; c_swap_channel; c_maker_peer;
   c_taker_peer; c_btc_sats; c_usdt_amount; c_sol_mint; c_sol_program_id;
   c_sol_recipient; c_sol_refund; c_sol_escrow_pda; c_sol_vault_ata;
   c_sol_refund_after_unix; c_ln_invoice_bolt11; c_ln_payment_hash_hex;
   c_ln_preimage_hex; c_state; c_created_at; c_updated_at; c_last_error].

Definition col_name (c : Col) : string :=
  match c with
  | c_trade_id => "trade_id" | c_role => "role"
  | c_rfq_channel => "rfq_channel" | c_swap_channel => "swap_channel"
  | c_maker_peer => "maker_peer" | c_taker_peer => "taker_peer"
  | c_btc_sats => "btc_sats" | c_usdt_amount => "usdt_amount"
  | c_sol_mint => "sol_mint" | c_sol_program_id => "sol_program_id"
  | c_sol_recipient => "sol_recipient" | c_sol_refund => "sol_refund"
  | c_sol_escrow_pda => "sol_escrow_pda" | c_sol_vault_ata => "sol_vault_ata"
  | c_sol_refund_after_unix => "sol_refund_after_unix"
  | c_ln_invoice_bolt11 => "ln_invoice_bolt11"
  | c_ln_payment_hash_hex => "ln_payment_hash_hex"
  | c_ln_preimage_hex => "ln_preimage_hex"
  | c_state => "state" | c_created_at => "created_at"
  | c_updated_at => "updated_at" | c_last_error => "last_error"
  end.

(** How [upsertTrade] normalises a column. *)
Inductive Kind : Type := KKey | KText | KInt | KHex | KStamp.

Definition col_kind (c : Col) : Kind :=
  match c with
  | c_trade_id => KKey
  | c_btc_sats | c_sol_refund_after_unix => KInt
  | c_ln_payment_hash_hex | c_ln_preimage_hex => KHex
  | c_created_at | c_updated_at => KStamp
  | _ => KText
  end.

Record Row : Type := mkRow {
  trade_id : sqlval;
  role : sqlval;
  rfq_channel : sqlval;
  swap_channel : sqlval;
  maker_peer : sqlval;
  taker_peer : sqlval;
  btc_sats : sqlval;
  usdt_amount : sqlval;
  sol_mint : sqlval;
  sol_program_id : sqlval;
  sol_recipient : sqlval;
  sol_refund : sqlval;
  sol_escrow_pda : sqlval;
  sol_vault_ata : sqlval;
  sol_refund_after_unix : sqlval;
  ln_invoice_bolt11 : sqlval;
  ln_payment_hash_hex : sqlval;
  ln_preimage_hex : sqlval;
  state : sqlval;
  created_at : sqlval;
  updated_at : sqlval;
  last_error : sqlval
}.

Definition col (c : Col) (r : Row) : sqlval :=
  match c with
  | c_trade_id => trade_id r | c_role => role r
  | c_rfq_channel => rfq_channel r | c_swap_channel => swap_channel r
  | c_maker_peer => maker_peer r | c_taker_peer => taker_peer r
  | c_btc_sats => btc_sats r | c_usdt_amount => usdt_amount r
  | c_sol_mint => sol_mint r | c_sol_program_id => sol_program_id r
  | c_sol_recipient => sol_recipient r | c_sol_refund => sol_refund r
  | c_sol_escrow_pda => sol_escrow_pda r | c_sol_vault_ata => sol_vault_ata r
  | c_sol_refund_after_unix => sol_refund_after_unix r
  | c_ln_invoice_bolt11 => ln_invoice_bolt11 r
  | c_ln_payment_hash_hex => ln_payment_hash_hex r
  | c_ln_preimage_hex => ln_preimage_hex r
  | c_state => state r | c_created_at => created_at r
  | c_updated_at => updated_at r | c_last_error => last_error r
  end.

(** The [trades] table, in rowid order. *)
Definition DB := list Row.

(** A column value as the SQLite binding hands it to JavaScript. *)
Definition js_of_sql (v : sqlval) : jsval :=
  match v with
  | SNull => JNull
  | SInt n => JNum n
  | SText s => JStr s
  end.

(** [mapRow(row)] for a row that was found. *)
Definition mapRow (r : Row) : jsval :=
  JObj (List.map (fun c => (col_name c, js_of_sql (col c r))) all_cols).

Definition sql_eqb (a b : sqlval) : bool :=
  match a, b with
  | SInt x, SInt y => x =? y
  | SText x, SText y => String.eqb x y
  | _, _ => false                  (* NULL equals nothing *)
  end.

(** [SELECT * FROM trades WHERE <c> = ?], first row. *)
Fixpoint select_by (c : Col) (v : sqlval) (db : DB) : option Row :=
  match db with
  | [] => None
  | r :: t => if sql_eqb (col c r) v then Some r else select_by c v t
  end.

(** [getTrade(tradeId)]: the row, if any ([mapRow] is applied by the
    callers that need the JavaScript object). *)
Definition getTrade (tradeId : jsval) (db : DB) : result (option Row) :=
  let id := trim (str_or_empty tradeId) in
  if String.eqb id "" then Err "tradeId is required"
  else Ok (select_by c_trade_id (SText id) db).

(** A coerced patch value: [undefined], or a value to store. *)
Inductive coerced : Type :=
| CUndef
| CVal (v : sqlval).

Definition coerceText (v : jsval) : result coerced :=
  match v with
  | JUndef => Ok CUndef
  | JNull => Ok (CVal SNull)
  | _ => Ok (CVal (SText (toStr v)))
  end.

Section WithNumber.

(** [Math.trunc(Number(s))] for a string [s], [None] when [Number(s)] is not
    finite: the numeric-literal grammar of JavaScript is kept abstract. *)
Variable StringToInt : string -> option Z.

Definition coerceInt (v : jsval) : result coerced :=
  match v with
  | JUndef => Ok CUndef
  | JNull => Ok (CVal SNull)
  | JNum n => Ok (CVal (SInt n))
  | JBool b => Ok (CVal (SInt (if b then 1 else 0)))
  | JObj _ => Err "Invalid int"
  | _ =>
      match StringToInt (toStr v) with
      | Some n => Ok (CVal (SInt n))
      | None => Err "Invalid int"
      end
  end.

Definition coerceHex32 (v : jsval) (label : string) : result coerced :=
  match v with
  | JUndef => Ok CUndef
  | JNull => Ok (CVal SNull)
  | _ =>
      let s := toLowerCase (trim (toStr v)) in
      if is_lower_hex 64 s then Ok (CVal (SText s))
      else Err (label ++ " must be 32-byte hex")
  end.


(** [Object.entries(patch || {})]: one entry per key, holding its first
    binding; a patch that is not an object has no entry naming a column. *)
Fixpoint entries_from (seen : list string) (fs : list (string * jsval))
  : list (string * jsval) :=
  match fs with
  | [] => []
  | (k, v) :: r =>
      if existsb (String.eqb k) seen then entries_from seen r
      else (k, v) :: entries_from (k :: seen) r
  end.

Definition entries (fs : list (string * jsval)) := entries_from [] fs.

(** The loop [for (const [k, v] of entries) { if (v === undefined) continue;
    next[k] = v; }] *)
Fixpoint apply_patch (es : list (string * jsval))
                     (next : list (string * jsval)) :=
  match es with
  | [] => next
  | (k, v) :: r =>
      apply_patch r (if jsval_is_undef v then next else obj_set k v next)
  end.

Definition patch_entries (patch : jsval) : list (string * jsval) :=
  match patch with
  | JObj fs => entries fs
  | _ => []
  end.

(** The coercion [upsertTrade] applies to the column [c] of [next]. *)
Definition coerce_col (c : Col) (next : jsval) : result coerced :=
  let v := get next (col_name c) in
  match col_kind c with
  | KKey => Ok CUndef                       (* row.trade_id is [id] itself *)
  | KText => coerceText v
  | KInt => coerceInt v
  | KHex => coerceHex32 v (col_name c)
  | KStamp => coerceInt v
  end.

(** [undefined] is stored as NULL. *)
Definition to_sql (c : coerced) : sqlval :=
  match c with
  | CUndef => SNull
  | CVal v => v
  end.

Definition is_null (v : sqlval) : bool :=
  match v with SNull => true | _ => false end.

(** The statement [_stmtUpsertTrade]: NOT NULL is checked on the values to
    insert; on a conflicting [trade_id] every column is overwritten except
    [created_at]. *)
Fixpoint upsert_row (r : Row) (db : DB) : DB :=
  match db with
  | [] => [r]
  | old :: t =>
      if sql_eqb (trade_id old) (trade_id r) then
        mkRow (trade_id old) (role r) (rfq_channel r) (swap_channel r)
          (maker_peer r) (taker_peer r) (btc_sats r) (usdt_amount r)
          (sol_mint r) (sol_program_id r) (sol_recipient r) (sol_refund r)
          (sol_escrow_pda r) (sol_vault_ata r) (sol_refund_after_unix r)
          (ln_invoice_bolt11 r) (ln_payment_hash_hex r) (ln_preimage_hex r)
          (state r) (created_at old) (updated_at r) (last_error r) :: t
      else old :: upsert_row r t
  end.

Definition run_upsert (r : Row) (db : DB) : result DB :=
  if is_null (created_at r) || is_null (updated_at r)
  then Err "NOT NULL constraint failed"
  else Ok (upsert_row r db).

(** Sequencing of coercions that may throw. *)
Definition bindc (x : result coerced) (k : sqlval -> result Row)
  : result Row :=
  match x with
  | Err m => Err m
  | Ok c => k (to_sql c)
  end.

(** The coerced row [upsertTrade] writes, from [next]. *)
Definition build_row (id : string) (next : jsval) : result Row :=
  bindc (coerce_col c_role next) (fun v_role =>
  bindc (coerce_col c_rfq_channel next) (fun v_rfq_channel =>
  bindc (coerce_col c_swap_channel next) (fun v_swap_channel =>
  bindc (coerce_col c_maker_peer next) (fun v_maker_peer =>
  bindc (coerce_col c_taker_peer next) (fun v_taker_peer =>
  bindc (coerce_col c_btc_sats next) (fun v_btc_sats =>
  bindc (coerce_col c_usdt_amount next) (fun v_usdt_amount =>
  bindc (coerce_col c_sol_mint next) (fun v_sol_mint =>
  bindc (coerce_col c_sol_program_id next) (fun v_sol_program_id =>
  bindc (coerce_col c_sol_recipient next) (fun v_sol_recipient =>
  bindc (coerce_col c_sol_refund next) (fun v_sol_refund =>
  bindc (coerce_col c_sol_escrow_pda next) (fun v_sol_escrow_pda =>
  bindc (coerce_col c_sol_vault_ata next) (fun v_sol_vault_ata =>
  bindc (coerce_col c_sol_refund_after_unix next) (fun v_refund_after =>
  bindc (coerce_col c_ln_invoice_bolt11 next) (fun v_bolt11 =>
  bindc (coerce_col c_ln_payment_hash_hex next) (fun v_payment_hash =>
  bindc (coerce_col c_ln_preimage_hex next) (fun v_preimage =>
  bindc (coerce_col c_state next) (fun v_state =>
  bindc (coerce_col c_created_at next) (fun v_created_at =>
  bindc (coerce_col c_updated_at next) (fun v_updated_at =>
  bindc (coerce_col c_last_error next) (fun v_last_error =>
  Ok (mkRow (SText id) v_role v_rfq_channel v_swap_channel v_maker_peer
        v_taker_peer v_btc_sats v_usdt_amount v_sol_mint v_sol_program_id
        v_sol_recipient v_sol_refund v_sol_escrow_pda v_sol_vault_ata
        v_refund_after v_bolt11 v_payment_hash v_preimage v_state
        v_created_at v_updated_at v_last_error)))))))))))))))))))))).

(** [upsertTrade(tradeId, patch)] at clock [now]: the new table and the row
    read back, or the error thrown (the table is then unchanged). *)
Definition upsertTrade (tradeId patch : jsval) (now : Z) (db : DB)
  : result (DB * option Row) :=
  match getTrade tradeId db with
  | Err m => Err m
  | Ok existing =>
      let id := trim (str_or_empty tradeId) in
      let base :=
        match existing with
        | Some r => match mapRow r with JObj fs => fs | _ => [] end
        | None => [("trade_id", JStr id); ("created_at", JNum now);
                   ("updated_at", JNum now)]
        end in
      let next0 := obj_set "updated_at" (JNum now) base in
      let next :=
        apply_patch (patch_entries (jor patch (JObj []))) next0 in
      match build_row id (JObj next) with
      | Err m => Err m
      | Ok row =>
          match run_upsert row db with
          | Err m => Err m
          | Ok db' => Ok (db', select_by c_trade_id (SText id) db')
          end
      end
  end.

(** Tables the store can hold: it starts empty and [upsertTrade] is its only
    writer of [trades]. *)
Inductive reachable : DB -> Prop :=
| reach_empty : reachable []
| reach_upsert db tradeId patch now db' row :
    reachable db ->
    upsertTrade tradeId patch now db = Ok (db', row) ->
    reachable db'.

End WithNumber.

End Receipts.

(* ===================================================================== *)
(** * Settlement driver (src/prompt/tradeAuto.js) *)
(* ===================================================================== *)

Module TradeAuto.

(** ** Helpers of the module *)

(** [clampInt(n, { min, max, fallback })] of tradeAuto.js, on the result of
    [toIntOrNull]. *)
Definition clampInt (n : option Z) (min max fallback : Z) : Z :=
  clamp min max (match n with Some v => v | None => fallback end).

Definition envelopeKind (evt : jsval) : string :=
  trim (toStr (jor (get evt "kind")
                 (jor (get (get evt "message") "kind") (JStr "")))).

Definition envelopeTradeId (evt : jsval) : string :=
  trim (toStr (jor (get evt "trade_id")
                 (jor (get (get evt "message") "trade_id") (JStr "")))).

Definition envelopeSigner (evt : jsval) : string :=
  let s := toLowerCase
             (trim (toStr (jor (get (get evt "message") "signer")
                             (jor (get evt "signer") (JStr ""))))) in
  if is_hex 64 s then s else "".

Definition envelopeSig (evt : jsval) : string :=
  let s := toLowerCase (trim (str_or_empty (get (get evt "message") "sig"))) in
  if is_hex 128 s then s else "".

Definition eventTs (evt : jsval) (now : Z) : Z :=
  match get evt "ts" with
  | JNum ts => if 0 <? ts then ts else now
  | _ => now
  end.

Definition isLocalEvent (evt : jsval) : bool :=
  truthy (get evt "local")
  || String.eqb (toLowerCase (trim (str_or_empty (get evt "dir")))) "out"
  || String.eqb (toLowerCase (trim (str_or_empty (get evt "origin")))) "local".

Definition stripSignature (envelope : jsval) : jsval :=
  match envelope with
  | JObj fs => JObj (obj_delete "sig" (obj_delete "signer" fs))
  | _ => JObj []
  end.

Definition isEventStale (evt : jsval) (maxAgeMs now : Z) : bool :=
  maxAgeMs <? now - eventTs evt now.

(** [Math.max(1, Math.trunc(Number(limit) || 1))] *)
Definition limit_max (limit : Z) : Z :=
  Z.max 1 (if limit =? 0 then 1 else limit).

(** [while (c.size > max) delete the first key]; keys are unique, so the
    first key goes with the head entry. *)
Fixpoint drop_oldest {A : Type} (max : Z) (l : list A) : list A :=
  match l with
  | [] => []
  | _ :: t => if max <? Z.of_nat (List.length l) then drop_oldest max t else l
  end.

Definition pruneSetByLimit (s : jset) (limit : Z) : jset :=
  drop_oldest (limit_max limit) s.

Definition pruneMapByLimit {V} (m : jmap V) (limit : Z) : jmap V :=
  drop_oldest (limit_max limit) m.

(** ** matchOfferForRfq *)

(** [Math.max(lo, Math.min(hi, toIntOrNull(v) ?? dflt))] *)
Definition bounded_field (lo hi dflt : Z) (v : jsval) : Z :=
  clamp lo hi (match toIntOrNull v with Some n => n | None => dflt end).

Definition week : Z := 7 * 24 * 3600.

(** [body && typeof body === 'object' ? body : null] *)
Definition body_of (msg : jsval) : option jsval :=
  let b := get msg "body" in
  if is_object_like b then Some b else None.

(** The normalised request an RFQ body stands for. *)
Record RfqView : Type := mkRfqView {
  rfqBtc : Z;
  rfqUsdt : string;
  rfqMaxPlatform : Z;
  rfqMaxTrade : Z;
  rfqMaxTotal : Z;
  rfqMinWin : Z;
  rfqMaxWin : Z
}.

Definition rfq_view (rfqBody : jsval) : option RfqView :=
  match toIntOrNull (get rfqBody "btc_sats") with
  | None => None
  | Some btc =>
      let usdt := trim (str_or_empty (get rfqBody "usdt_amount")) in
      if (btc <? 1) || negb (is_digits usdt) then None
      else
        let v := mkRfqView btc usdt
                   (bounded_field 0 500 500 (get rfqBody "max_platform_fee_bps"))
                   (bounded_field 0 1000 1000 (get rfqBody "max_trade_fee_bps"))
                   (bounded_field 0 1500 1500 (get rfqBody "max_total_fee_bps"))
                   (bounded_field 3600 week 3600
                      (get rfqBody "min_sol_refund_window_sec"))
                   (bounded_field 3600 week week
                      (get rfqBody "max_sol_refund_window_sec")) in
        if rfqMaxWin v <? rfqMinWin v then None else Some v
  end.

(** The refund window the code picks inside [overlapMin, overlapMax]. *)
Definition pick_window (overlapMin overlapMax : Z) : Z :=
  let w0 := 72 * 3600 in
  let w1 := if w0 <? overlapMin then overlapMin else w0 in
  if overlapMax <? w1 then overlapMax else w1.

(** The body of the loop over the lines of one offer: [None] is [continue]. *)
Definition match_line (rv : RfqView) (lineRaw : jsval) : option Z :=
  if negb (isObject lineRaw) then None
  else
    match toIntOrNull (get lineRaw "btc_sats") with
    | None => None
    | Some lineBtc =>
        let lineUsdt := trim (str_or_empty (get lineRaw "usdt_amount")) in
        if (lineBtc <? 1) || negb (is_digits lineUsdt) then None
        else if negb (lineBtc =? rfqBtc rv)
                || negb (String.eqb lineUsdt (rfqUsdt rv)) then None
        else
          let lineMaxPlatform :=
            bounded_field 0 500 500 (get lineRaw "max_platform_fee_bps") in
          let lineMaxTrade :=
            bounded_field 0 1000 1000 (get lineRaw "max_trade_fee_bps") in
          let lineMaxTotal :=
            bounded_field 0 1500 1500 (get lineRaw "max_total_fee_bps") in
          if (rfqMaxPlatform rv <? lineMaxPlatform)
             || (rfqMaxTrade rv <? lineMaxTrade)
             || (rfqMaxTotal rv <? lineMaxTotal) then None
          else
            let lineMinWin :=
              bounded_field 3600 week 3600
                (get lineRaw "min_sol_refund_window_sec") in
            let lineMaxWin :=
              bounded_field 3600 week week
                (get lineRaw "max_sol_refund_window_sec") in
            let overlapMin := Z.max (rfqMinWin rv) lineMinWin in
            let overlapMax := Z.min (rfqMaxWin rv) lineMaxWin in
            if overlapMax <? overlapMin then None
            else Some (pick_window overlapMin overlapMax)
    end.

Fixpoint first_some {A B : Type} (f : A -> option B) (l : list A)
  : option B :=
  match l with
  | [] => None
  | x :: r => match f x with Some y => Some y | None => first_some f r end
  end.

(** The lines of an offer the loop visits: none when the offer is skipped. *)
Definition offer_lines (rfqChannel : string) (nowSec : Z) (offerEvt : jsval)
  : list jsval :=
  match body_of (get offerEvt "message") with
  | None => []
  | Some body =>
      let expired :=
        match toIntOrNull (get body "valid_until_unix") with
        | Some validUntil => validUntil <=? nowSec
        | None => false
        end in
      if expired then []
      else
        let rfqChannels :=
          match get body "rfq_channels" with
          | JArr cs =>
              List.filter (fun c => negb (String.eqb c ""))
                (List.map (fun c => trim (str_or_empty c)) cs)
          | _ => []
          end in
        if negb (Nat.eqb (List.length rfqChannels) 0)
           && negb (String.eqb rfqChannel "")
           && negb (List.existsb (String.eqb rfqChannel) rfqChannels)
        then []
        else match get body "offers" with
             | JArr offers => offers
             | _ => []
             end
  end.

(** [matchOfferForRfq({ rfqEvt, myOfferEvents })] at clock [now]; the result
    is [solRefundWindowSec], [None] is [null]. *)
Definition matchOfferForRfq (rfqEvt : jsval) (myOfferEvents : list jsval)
                            (now : Z) : option Z :=
  match body_of (get rfqEvt "message") with
  | None => None
  | Some rfqBody =>
      match rfq_view rfqBody with
      | None => None
      | Some rv =>
          let rfqChannel := trim (str_or_empty (get rfqEvt "channel")) in
          let nowSec := now / 1000 in
          first_some
            (fun offerEvt =>
               first_some (match_line rv)
                 (offer_lines rfqChannel nowSec offerEvt))
            myOfferEvents
      end
  end.

(** ** Manager state *)

Record Opts : Type := mkOpts {
  channels : list string;
  max_events : Z;
  max_trades : Z;
  event_max_age_ms : Z;
  default_sol_refund_window_sec : Z;
  welcome_ttl_sec : Z;
  ln_liquidity_mode : string;
  usdt_mint : string;                (* "" stands for null *)
  enable_quote_from_offers : bool;
  enable_accept_quotes : bool;
  enable_invite_from_accepts : bool;
  enable_join_invites : bool;
  enable_settlement : bool;
  sol_cu_limit : option Z;
  sol_cu_price : option Z
}.

Record Mgr : Type := mkMgr {
  running : bool;
  tickInFlight : bool;
  opts : Opts;
  lastSeq : Z;
  events : list jsval;
  eventsMax : Z;
  dedupeMax : Z;
  stageMax : Z;
  preimageMax : Z;
  lockMaxAgeMs : Z;
  doneMaxAgeMs : Z;
  scEnsureIntervalMs : Z;
  nextScEnsureAt : Z;
  autoQuotedRfqSig : jset;
  autoAcceptedQuoteSig : jset;
  autoAcceptedTradeLock : jmap Z;       (* trade_id -> locked_at_ms *)
  autoInvitedAcceptSig : jset;
  autoJoinedInviteSig : jset;
  stageDone : jmap Z;                   (* stage_key -> done_at_ms *)
  stageInFlight : jset;
  stageRetryAfter : jmap Z;
  tradePreimage : jmap string;
  stats_ticks : Z;
  stats_actions : Z
}.

(** The caches of a manager, the part of it the pipelines write. *)
Record Caches : Type := mkCaches {
  k_quoted : jset;
  k_accepted : jset;
  k_lock : jmap Z;
  k_invited : jset;
  k_joined : jset;
  k_done : jmap Z;
  k_inflight : jset;
  k_retry : jmap Z;
  k_preimage : jmap string
}.

Definition caches (m : Mgr) : Caches :=
  mkCaches (autoQuotedRfqSig m) (autoAcceptedQuoteSig m)
    (autoAcceptedTradeLock m) (autoInvitedAcceptSig m)
    (autoJoinedInviteSig m) (stageDone m) (stageInFlight m)
    (stageRetryAfter m) (tradePreimage m).

Definition with_caches (m : Mgr) (k : Caches) : Mgr :=
  mkMgr (running m) (tickInFlight m) (opts m) (lastSeq m) (events m)
    (eventsMax m) (dedupeMax m) (stageMax m) (preimageMax m)
    (lockMaxAgeMs m) (doneMaxAgeMs m) (scEnsureIntervalMs m)
    (nextScEnsureAt m)
    (k_quoted k) (k_accepted k) (k_lock k) (k_invited k) (k_joined k)
    (k_done k) (k_inflight k) (k_retry k) (k_preimage k)
    (stats_ticks m) (stats_actions m).

Definition with_stats (m : Mgr) (ticks actions : Z) : Mgr :=
  mkMgr (running m) (tickInFlight m) (opts m) (lastSeq m) (events m)
    (eventsMax m) (dedupeMax m) (stageMax m) (preimageMax m)
    (lockMaxAgeMs m) (doneMaxAgeMs m) (scEnsureIntervalMs m)
    (nextScEnsureAt m)
    (autoQuotedRfqSig m) (autoAcceptedQuoteSig m) (autoAcceptedTradeLock m)
    (autoInvitedAcceptSig m) (autoJoinedInviteSig m) (stageDone m)
    (stageInFlight m) (stageRetryAfter m) (tradePreimage m)
    ticks actions.

Definition with_log (m : Mgr) (inflight : bool) (seq : Z) (evs : list jsval)
                    (ensureAt : Z) : Mgr :=
  mkMgr (running m) inflight (opts m) seq evs
    (eventsMax m) (dedupeMax m) (stageMax m) (preimageMax m)
    (lockMaxAgeMs m) (doneMaxAgeMs m) (scEnsureIntervalMs m)
    ensureAt
    (autoQuotedRfqSig m) (autoAcceptedQuoteSig m) (autoAcceptedTradeLock m)
    (autoInvitedAcceptSig m) (autoJoinedInviteSig m) (stageDone m)
    (stageInFlight m) (stageRetryAfter m) (tradePreimage m)
    (stats_ticks m) (stats_actions m).

(** ** Cache maintenance *)

Definition has_prefix (prefix : string) (key : string) : bool :=
  startsWith key prefix.

(** [_pruneTradeCachesById(tradeId)] *)
Definition pruneTradeCachesById (tradeId : string) (k : Caches) : Caches :=
  if String.eqb tradeId "" then k
  else
    let prefix := tradeId ++ ":" in
    mkCaches (k_quoted k) (k_accepted k)
      (map_delete tradeId (k_lock k))
      (k_invited k) (k_joined k)
      (List.filter (fun e => negb (has_prefix prefix (fst e))) (k_done k))
      (List.filter (fun e => negb (has_prefix prefix e)) (k_inflight k))
      (List.filter (fun e => negb (has_prefix prefix (fst e))) (k_retry k))
      (map_delete tradeId (k_preimage k)).

(** The age and size sweeps of [_pruneCaches], at clock [now]. *)
Definition sweep (m : Mgr) (now : Z) (k : Caches) : Caches :=
  let lock1 :=
    List.filter
      (fun e => negb (String.eqb (fst e) "")
                && negb (lockMaxAgeMs m <? now - snd e))
      (k_lock k) in
  let done1 :=
    List.filter (fun e => negb (doneMaxAgeMs m <? now - snd e)) (k_done k) in
  let retry1 :=
    List.filter (fun e => negb (doneMaxAgeMs m <? now - snd e)) (k_retry k) in
  mkCaches
    (pruneSetByLimit (k_quoted k) (dedupeMax m))
    (pruneSetByLimit (k_accepted k) (dedupeMax m))
    (pruneMapByLimit lock1
       (Z.max (if max_trades (opts m) =? 0 then 120 else max_trades (opts m))
          (preimageMax m)))
    (pruneSetByLimit (k_invited k) (dedupeMax m))
    (pruneSetByLimit (k_joined k) (dedupeMax m))
    (pruneMapByLimit done1 (stageMax m))
    (pruneSetByLimit (k_inflight k) (stageMax m))
    (pruneMapByLimit retry1 (stageMax m))
    (pruneMapByLimit (k_preimage k) (preimageMax m)).

(** [_pruneCaches({ terminalTradeIds })] *)
Definition pruneCaches (terminalTradeIds : list string) (now : Z) (m : Mgr)
  : Mgr :=
  let k0 := List.fold_left
              (fun k tid => pruneTradeCachesById (trim tid) k)
              terminalTradeIds (caches m) in
  with_caches m (sweep m now k0).

Definition stage_retry_of (key : string) (k : Caches) : Z :=
  match map_get key (k_retry k) with
  | Some t => t
  | None => 0
  end.

(** [_canRunStage(stageKey)] *)
Definition canRunStage (stageKey : string) (now : Z) (m : Mgr) : bool :=
  if String.eqb stageKey "" then false
  else if map_has stageKey (stageDone m) then false
  else if set_has stageKey (stageInFlight m) then false
  else stage_retry_of stageKey (caches m) <=? now.

Definition set_inflight (m : Mgr) (s : jset) : Mgr :=
  let k := caches m in
  with_caches m (mkCaches (k_quoted k) (k_accepted k) (k_lock k) (k_invited k)
                   (k_joined k) (k_done k) s (k_retry k) (k_preimage k)).

Definition set_retry (m : Mgr) (r : jmap Z) : Mgr :=
  let k := caches m in
  with_caches m (mkCaches (k_quoted k) (k_accepted k) (k_lock k) (k_invited k)
                   (k_joined k) (k_done k) (k_inflight k) r (k_preimage k)).

Definition set_done (m : Mgr) (d : jmap Z) : Mgr :=
  let k := caches m in
  with_caches m (mkCaches (k_quoted k) (k_accepted k) (k_lock k) (k_invited k)
                   (k_joined k) d (k_inflight k) (k_retry k) (k_preimage k)).

Definition set_preimage (m : Mgr) (p : jmap string) : Mgr :=
  let k := caches m in
  with_caches m (mkCaches (k_quoted k) (k_accepted k) (k_lock k) (k_invited k)
                   (k_joined k) (k_done k) (k_inflight k) (k_retry k) p).

(** [_markStageInFlight(stageKey)] *)
Definition markStageInFlight (stageKey : string) (m : Mgr) : Mgr :=
  if String.eqb stageKey "" then m
  else set_inflight m (set_add stageKey (stageInFlight m)).

(** [Math.max(1000, Math.trunc(cooldownMs || 1000))] *)
Definition cooldown_of (cooldownMs : Z) : Z :=
  Z.max 1000 (if cooldownMs =? 0 then 1000 else cooldownMs).

(** [_markStageSuccess(stageKey)] *)
Definition markStageSuccess (stageKey : string) (now : Z) (m : Mgr) : Mgr :=
  if String.eqb stageKey "" then m
  else
    let m1 := set_inflight m (set_delete stageKey (stageInFlight m)) in
    let m2 := set_retry m1 (map_delete stageKey (stageRetryAfter m1)) in
    set_done m2 (map_set stageKey now (stageDone m2)).

(** [_markStageRetry(stageKey, cooldownMs)] *)
Definition markStageRetry (stageKey : string) (cooldownMs now : Z) (m : Mgr)
  : Mgr :=
  if String.eqb stageKey "" then m
  else
    let m1 := set_inflight m (set_delete stageKey (stageInFlight m)) in
    set_retry m1
      (map_set stageKey (now + cooldown_of cooldownMs) (stageRetryAfter m1)).

Definition eventRetryKey (flow sig : string) : string :=
  "evt:" ++ flow ++ ":" ++ sig.

(** [_canRunEvent(flow, sig)] *)
Definition canRunEvent (flow sig : string) (now : Z) (m : Mgr) : bool :=
  if String.eqb sig "" then false
  else stage_retry_of (eventRetryKey flow sig) (caches m) <=? now.

(** [_markEventRetry(flow, sig, cooldownMs)] *)
Definition markEventRetry (flow sig : string) (cooldownMs now : Z) (m : Mgr)
  : Mgr :=
  if String.eqb sig "" then m
  else set_retry m
         (map_set (eventRetryKey flow sig) (now + cooldown_of cooldownMs)
            (stageRetryAfter m)).

(** [_clearEventRetry(flow, sig)] *)
Definition clearEventRetry (flow sig : string) (m : Mgr) : Mgr :=
  if String.eqb sig "" then m
  else set_retry m (map_delete (eventRetryKey flow sig) (stageRetryAfter m)).

(** ** Contexts folded from the event window *)

Record Neg : Type := mkNeg {
  n_trade_id : string;
  n_rfq : jsval;
  n_quote : jsval;
  n_quote_accept : jsval;
  n_swap_invite : jsval;
  n_swap_channel : string
}.

Record TradeCtx : Type := mkTradeCtx {
  t_trade_id : string;
  t_channel : string;
  t_last_ts : Z;
  t_terms : jsval;
  t_accept : jsval;
  t_invoice : jsval;
  t_escrow : jsval;
  t_ln_paid : jsval;
  t_claimed : jsval;
  t_refunded : jsval;
  t_canceled : jsval
}.

Record QuoteInfo : Type := mkQuoteInfo {
  q_event : jsval;
  q_envelope : jsval;
  q_channel : string
}.

Record Ctx : Type := mkCtx {
  myRfqTradeIds : jset;
  myQuoteById : jmap QuoteInfo;
  myOfferEvents : list jsval;
  quoteEvents : list jsval;
  acceptEvents : list jsval;
  inviteEvents : list jsval;
  swapNegotiationByTrade : jmap Neg;
  swapTradeContextsByTrade : jmap TradeCtx;
  terminalTradeIds : jset
}.

Definition empty_ctx : Ctx := mkCtx [] [] [] [] [] [] [] [] [].

Definition empty_neg (tradeId : string) : Neg :=
  mkNeg tradeId JNull JNull JNull JNull "".

Definition empty_trade_ctx (tradeId ch : string) : TradeCtx :=
  mkTradeCtx tradeId ch 0 JNull JNull JNull JNull JNull JNull JNull JNull.

(** The update of the negotiation record by one message. *)
Definition neg_update (kind : string) (msg : jsval) (neg : Neg) : Neg :=
  if String.eqb kind "swap.rfq" && negb (truthy (n_rfq neg)) then
    mkNeg (n_trade_id neg) msg (n_quote neg) (n_quote_accept neg)
      (n_swap_invite neg) (n_swap_channel neg)
  else if String.eqb kind "swap.quote" && negb (truthy (n_quote neg)) then
    mkNeg (n_trade_id neg) (n_rfq neg) msg (n_quote_accept neg)
      (n_swap_invite neg) (n_swap_channel neg)
  else if String.eqb kind "swap.quote_accept"
          && negb (truthy (n_quote_accept neg)) then
    mkNeg (n_trade_id neg) (n_rfq neg) (n_quote neg) msg
      (n_swap_invite neg) (n_swap_channel neg)
  else if String.eqb kind "swap.swap_invite" then
    let ch := trim (str_or_empty (get (get msg "body") "swap_channel")) in
    mkNeg (n_trade_id neg) (n_rfq neg) (n_quote neg) (n_quote_accept neg)
      (if truthy (n_swap_invite neg) then n_swap_invite neg else msg)
      (if String.eqb ch "" then n_swap_channel neg else ch)
  else neg.

(** The update of the trade context by one message on a swap channel; the
    flag tells whether the message is terminal. *)
Definition trade_ctx_update (kind ch : string) (ts : Z) (msg : jsval)
                            (c : TradeCtx) : TradeCtx * bool :=
  let last := if t_last_ts c <? ts then ts else t_last_ts c in
  let chn := if String.eqb ch "" then t_channel c else ch in
  let mk terms accept invoice escrow ln_paid claimed refunded canceled :=
    mkTradeCtx (t_trade_id c) chn last terms accept invoice escrow ln_paid
      claimed refunded canceled in
  if String.eqb kind "swap.terms" then
    (mk msg (t_accept c) (t_invoice c) (t_escrow c) (t_ln_paid c)
       (t_claimed c) (t_refunded c) (t_canceled c), false)
  else if String.eqb kind "swap.accept" then
    (mk (t_terms c) msg (t_invoice c) (t_escrow c) (t_ln_paid c)
       (t_claimed c) (t_refunded c) (t_canceled c), false)
  else if String.eqb kind "swap.ln_invoice" then
    (mk (t_terms c) (t_accept c) msg (t_escrow c) (t_ln_paid c)
       (t_claimed c) (t_refunded c) (t_canceled c), false)
  else if String.eqb kind "swap.sol_escrow_created" then
    (mk (t_terms c) (t_accept c) (t_invoice c) msg (t_ln_paid c)
       (t_claimed c) (t_refunded c) (t_canceled c), false)
  else if String.eqb kind "swap.ln_paid" then
    (mk (t_terms c) (t_accept c) (t_invoice c) (t_escrow c) msg
       (t_claimed c) (t_refunded c) (t_canceled c), false)
  else if String.eqb kind "swap.sol_claimed" then
    (mk (t_terms c) (t_accept c) (t_invoice c) (t_escrow c) (t_ln_paid c)
       msg (t_refunded c) (t_canceled c), true)
  else if String.eqb kind "swap.sol_refunded" then
    (mk (t_terms c) (t_accept c) (t_invoice c) (t_escrow c) (t_ln_paid c)
       (t_claimed c) msg (t_canceled c), true)
  else if String.eqb kind "swap.cancel" then
    (mk (t_terms c) (t_accept c) (t_invoice c) (t_escrow c) (t_ln_paid c)
       (t_claimed c) (t_refunded c) msg, true)
  else
    (mk (t_terms c) (t_accept c) (t_invoice c) (t_escrow c) (t_ln_paid c)
       (t_claimed c) (t_refunded c) (t_canceled c), false).

Section Contexts.

(** [hashUnsignedEnvelope] of ../swap/hash.js, which may throw. *)
Variable hashUnsignedEnvelope : jsval -> result jsval.

Definition quote_id (e msg : jsval) (now : Z) : string :=
  match hashUnsignedEnvelope (stripSignature msg) with
  | Ok id => toLowerCase (trim (str_or_empty id))
  | Err _ =>
      let s := trim (str_or_empty (get (get msg "body") "rfq_id")) in
      let t := trim (str_or_empty (get msg "trade_id")) in
      t ++ ":" ++ s ++ ":" ++ num_to_string (eventTs e now)
  end.

(** The body of the loop of [_buildContexts] for one event. *)
Definition fold_event (localPeer : string) (now : Z) (c : Ctx) (e : jsval)
  : Ctx :=
  let kind := envelopeKind e in
  if negb (startsWith kind "swap.") then c
  else
    let msg := get e "message" in
    if negb (is_object_like msg) then c
    else
      let tradeId := envelopeTradeId e in
      let signer := envelopeSigner e in
      let local :=
        isLocalEvent e
        || (negb (String.eqb localPeer "") && String.eqb signer localPeer) in
      let has_id := negb (String.eqb tradeId "") in
      let rfqIds :=
        if String.eqb kind "swap.rfq" && local && has_id
        then set_add tradeId (myRfqTradeIds c) else myRfqTradeIds c in
      let is_quote := String.eqb kind "swap.quote" in
      let quotes :=
        if is_quote && local
        then map_set (quote_id e msg now)
               (mkQuoteInfo e msg (trim (str_or_empty (get e "channel"))))
               (myQuoteById c)
        else myQuoteById c in
      let quoteEvs :=
        if is_quote && negb local then (quoteEvents c ++ [e])%list
        else quoteEvents c in
      let offers :=
        if String.eqb kind "swap.svc_announce" && local
        then (myOfferEvents c ++ [e])%list else myOfferEvents c in
      let accepts :=
        if String.eqb kind "swap.quote_accept" && negb local
        then (acceptEvents c ++ [e])%list else acceptEvents c in
      let invites :=
        if String.eqb kind "swap.swap_invite" && negb local
        then (inviteEvents c ++ [e])%list else inviteEvents c in
      let negs :=
        if has_id then
          let neg := match map_get tradeId (swapNegotiationByTrade c) with
                     | Some n => n
                     | None => empty_neg tradeId
                     end in
          map_set tradeId (neg_update kind msg neg) (swapNegotiationByTrade c)
        else swapNegotiationByTrade c in
      let ch := trim (str_or_empty (get e "channel")) in
      let '(ctxs, terminal) :=
        if has_id && startsWith ch "swap:" then
          let tc := match map_get tradeId (swapTradeContextsByTrade c) with
                    | Some t => t
                    | None => empty_trade_ctx tradeId ch
                    end in
          let '(tc', term) := trade_ctx_update kind ch (eventTs e now) msg tc in
          (map_set tradeId tc' (swapTradeContextsByTrade c),
           if term then set_add tradeId (terminalTradeIds c)
           else terminalTradeIds c)
        else (swapTradeContextsByTrade c, terminalTradeIds c) in
      mkCtx rfqIds quotes offers quoteEvs accepts invites negs ctxs terminal.

(** [_buildContexts({ events, localPeer })] *)
Definition buildContexts (evs : list jsval) (localPeer : string) (now : Z)
  : Ctx :=
  List.fold_left (fold_event localPeer now) evs empty_ctx.

End Contexts.

(** [Array.prototype.sort((a, b) => b.last_ts - a.last_ts)], which is stable. *)
Fixpoint insert_by_ts (x : TradeCtx) (l : list TradeCtx) : list TradeCtx :=
  match l with
  | [] => [x]
  | y :: r =>
      if t_last_ts x <? t_last_ts y then y :: insert_by_ts x r else x :: l
  end.

Definition swapTradeContexts (c : Ctx) : list TradeCtx :=
  List.fold_right insert_by_ts [] (List.map snd (swapTradeContextsByTrade c)).

(** ** The world a tick runs in *)

(** A tool invocation, with whether its promise resolved. *)
Record Call : Type := mkCall {
  c_tool : string;
  c_args : jsval;
  c_ok : bool
}.

Record World : Type := mkWorld {
  w_mgr : Mgr;
  w_now : Z;                 (* Date.now() *)
  w_calls : list Call        (* tool invocations so far, oldest first *)
}.

Definition M (A : Type) : Type := World -> A * World.

Definition ret {A} (a : A) : M A := fun w => (a, w).

Definition bind {A B} (c : M A) (k : A -> M B) : M B :=
  fun w => let '(a, w1) := c w in k a w1.

Notation "x <- c ;; k" := (bind c (fun x => k))
  (at level 61, c at next level, right associativity).
Notation "c ;;; k" := (bind c (fun _ => k))
  (at level 61, right associativity).

Definition getMgr : M Mgr := fun w => (w_mgr w, w).
Definition getNow : M Z := fun w => (w_now w, w).

(** A synchronous update of the manager, reading the clock. *)
Definition update (f : Z -> Mgr -> Mgr) : M unit :=
  fun w => (tt, mkWorld (f (w_now w) (w_mgr w)) (w_now w) (w_calls w)).

Definition countAction : M unit :=
  update (fun _ m => with_stats m (stats_ticks m) (stats_actions m + 1)).

Section Driver.

Variable env : Env.

(** [await this._runToolWithTimeout({ tool, args })]: the call is recorded,
    the clock moves by the time the environment takes, and the promise
    resolves or rejects (a timeout is one way to reject). *)
Definition runTool (tool : string) (args : jsval) : M (result jsval) :=
  fun w =>
    let o := env (List.length (w_calls w)) in
    (if o_ok o then Ok (o_out o) else Err "rejected",
     mkWorld (w_mgr w) (w_now w + Z.max 0 (o_elapsed o))
       (w_calls w ++ [mkCall tool args (o_ok o)])%list).

(** [for (const x of q) { if (actionsLeft <= 0) break; body }] *)
Fixpoint budget_loop {A} (body : A -> Z -> M Z) (q : list A) (al : Z) : M Z :=
  match q with
  | [] => ret al
  | x :: r =>
      if al <=? 0 then ret al
      else al' <- body x al ;; budget_loop body r al'
  end.

(** ** Quote-from-offer *)

Definition quote_tool : string := "intercomswap_quote_post_from_rfq".

Definition quote_step (localSolSigner : string) (ctx : Ctx)
                      (rfqEvt : jsval) (al : Z) : M Z :=
  if isLocalEvent rfqEvt then ret al
  else
    let sig := envelopeSig rfqEvt in
    m <- getMgr ;;
    now <- getNow ;;
    if String.eqb sig "" || set_has sig (autoQuotedRfqSig m) then ret al
    else if negb (canRunEvent "quote_from_offer" sig now m) then ret al
    else
      match matchOfferForRfq rfqEvt (myOfferEvents ctx) now with
      | None => ret al
      | Some solRefundWindowSec =>
          let ch := trim (str_or_empty (get rfqEvt "channel")) in
          if String.eqb ch "" then ret al
          else
            r <- runTool quote_tool
                   (JObj [("channel", JStr ch);
                          ("rfq_envelope", get rfqEvt "message");
                          ("trade_fee_collector", JStr localSolSigner);
                          ("sol_refund_window_sec", JNum solRefundWindowSec);
                          ("valid_for_sec", JNum 180)]) ;;
            match r with
            | Ok _ =>
                update (fun now m =>
                  let k := caches m in
                  let m1 := with_caches m
                              (mkCaches (set_add sig (k_quoted k))
                                 (k_accepted k) (k_lock k) (k_invited k)
                                 (k_joined k) (k_done k) (k_inflight k)
                                 (k_retry k) (k_preimage k)) in
                  pruneCaches [] now (clearEventRetry "quote_from_offer" sig m1))
                ;;; countAction ;;; ret (al - 1)
            | Err _ =>
                update (markEventRetry "quote_from_offer" sig 5000) ;;; ret al
            end
      end.

(** ** Accept-quote *)

Definition accept_tool : string := "intercomswap_quote_accept".

Definition accept_step (ctx : Ctx) (quoteEvt : jsval) (al : Z) : M Z :=
  m <- getMgr ;;
  now <- getNow ;;
  if isEventStale quoteEvt (event_max_age_ms (opts m)) now then ret al
  else
    let sig := envelopeSig quoteEvt in
    if String.eqb sig "" || set_has sig (autoAcceptedQuoteSig m) then ret al
    else if negb (canRunEvent "accept_quote" sig now m) then ret al
    else
      let tradeId := envelopeTradeId quoteEvt in
      if String.eqb tradeId "" || negb (set_has tradeId (myRfqTradeIds ctx))
      then ret al
      else if set_has tradeId (terminalTradeIds ctx) then ret al
      else if map_has tradeId (autoAcceptedTradeLock m) then ret al
      else
        r <- runTool accept_tool
               (JObj [("channel",
                       JStr (trim (str_or_empty (get quoteEvt "channel"))));
                      ("quote_envelope", get quoteEvt "message");
                      ("ln_liquidity_mode",
                       JStr (ln_liquidity_mode (opts m)))]) ;;
        match r with
        | Ok _ =>
            update (fun now m =>
              let k := caches m in
              let m1 := with_caches m
                          (mkCaches (k_quoted k)
                             (set_add sig (k_accepted k)) (k_lock k)
                             (k_invited k) (k_joined k) (k_done k)
                             (k_inflight k) (k_retry k) (k_preimage k)) in
              let m2 := clearEventRetry "accept_quote" sig m1 in
              let k2 := caches m2 in
              let m3 := with_caches m2
                          (mkCaches (k_quoted k2) (k_accepted k2)
                             (map_set tradeId now (k_lock k2))
                             (k_invited k2) (k_joined k2) (k_done k2)
                             (k_inflight k2) (k_retry k2) (k_preimage k2)) in
              pruneCaches [] now m3)
            ;;; countAction ;;; ret (al - 1)
        | Err _ =>
            update (markEventRetry "accept_quote" sig 5000) ;;; ret al
        end.

(** ** Invite-from-accept *)

Definition invite_tool : string := "intercomswap_swap_invite_from_accept".
Definition subscribe_tool : string := "intercomswap_sc_subscribe".

(** The subscription to the swap channel that ends an invite or a join. *)
Definition subscribe_then_count (flow sig swapCh : string) (al : Z) : M Z :=
  if String.eqb swapCh "" then countAction ;;; ret (al - 1)
  else
    r <- runTool subscribe_tool
           (JObj [("channels", JArr [JStr swapCh])]) ;;
    match r with
    | Ok _ => countAction ;;; ret (al - 1)
    | Err _ => update (markEventRetry flow sig 5000) ;;; ret al
    end.

Definition invite_step (ctx : Ctx) (e : jsval) (al : Z) : M Z :=
  m <- getMgr ;;
  now <- getNow ;;
  if isEventStale e (event_max_age_ms (opts m)) now then ret al
  else
    let sig := envelopeSig e in
    if String.eqb sig "" || set_has sig (autoInvitedAcceptSig m) then ret al
    else if negb (canRunEvent "invite_from_accept" sig now m) then ret al
    else
      let quoteId :=
        toLowerCase
          (trim (str_or_empty
                   (get (get (get e "message") "body") "quote_id"))) in
      match map_get quoteId (myQuoteById ctx) with
      | None => ret al
      | Some myQuote =>
          let tradeId := envelopeTradeId e in
          r <- runTool invite_tool
                 (JObj [("channel",
                         JStr (trim (str_or_empty
                                       (jor (get e "channel")
                                          (JStr (q_channel myQuote))))));
                        ("accept_envelope", get e "message");
                        ("quote_envelope", q_envelope myQuote);
                        ("welcome_text",
                         JStr (if String.eqb tradeId "" then "Welcome to swap"
                               else "Welcome to " ++ tradeId));
                        ("ttl_sec", JNum (welcome_ttl_sec (opts m)))]) ;;
          match r with
          | Ok out =>
              update (fun now m =>
                let k := caches m in
                let m1 := with_caches m
                            (mkCaches (k_quoted k) (k_accepted k) (k_lock k)
                               (set_add sig (k_invited k)) (k_joined k)
                               (k_done k) (k_inflight k) (k_retry k)
                               (k_preimage k)) in
                pruneCaches [] now
                  (clearEventRetry "invite_from_accept" sig m1))
              ;;; subscribe_then_count "invite_from_accept" sig
                    (trim (str_or_empty (get out "swap_channel"))) al
          | Err _ =>
              update (markEventRetry "invite_from_accept" sig 5000) ;;; ret al
          end
      end.

(** ** Join-invite *)

Definition join_tool : string := "intercomswap_join_from_swap_invite".

Definition join_step (localPeer : string) (ctx : Ctx) (e : jsval) (al : Z)
  : M Z :=
  m <- getMgr ;;
  now <- getNow ;;
  if isEventStale e (event_max_age_ms (opts m)) now then ret al
  else
    let sig := envelopeSig e in
    if String.eqb sig "" || set_has sig (autoJoinedInviteSig m) then ret al
    else if negb (canRunEvent "join_invite" sig now m) then ret al
    else
      let tradeId := envelopeTradeId e in
      if negb (String.eqb tradeId "") && set_has tradeId (terminalTradeIds ctx)
      then ret al
      else
        let body := get (get e "message") "body" in
        let invitee :=
          toLowerCase
            (trim (str_or_empty
                     (get (get (get body "invite") "payload")
                        "inviteePubKey"))) in
        if negb (String.eqb invitee "") && negb (String.eqb localPeer "")
           && negb (String.eqb invitee localPeer)
        then ret al
        else
          r <- runTool join_tool
                 (JObj [("swap_invite_envelope", get e "message")]) ;;
          match r with
          | Ok out =>
              update (fun now m =>
                let k := caches m in
                let m1 := with_caches m
                            (mkCaches (k_quoted k) (k_accepted k) (k_lock k)
                               (k_invited k) (set_add sig (k_joined k))
                               (k_done k) (k_inflight k) (k_retry k)
                               (k_preimage k)) in
                pruneCaches [] now (clearEventRetry "join_invite" sig m1))
              ;;; subscribe_then_count "join_invite" sig
                    (trim (str_or_empty
                             (jor (get out "swap_channel")
                                (get body "swap_channel")))) al
          | Err _ =>
              update (markEventRetry "join_invite" sig 5000) ;;; ret al
          end.

(** ** Settlement state machine *)

(** [isObject(v) ? v : null] *)
Definition env_or_null (v : jsval) : jsval := if isObject v then v else JNull.

(** [isObject(env?.body) ? env.body : {}] *)
Definition body_or_empty (envl : jsval) : jsval :=
  let b := get envl "body" in if isObject b then b else JObj [].

Definition makerSigner (termsEnv quoteEnv : jsval) : string :=
  toLowerCase
    (trim (toStr (jor (get termsEnv "signer")
                    (jor (get quoteEnv "signer") (JStr ""))))).

Definition takerSigner (acceptEnv quoteAcceptEnv rfqEnv : jsval) : string :=
  toLowerCase
    (trim (toStr (jor (get acceptEnv "signer")
                    (jor (get quoteAcceptEnv "signer")
                       (jor (get rfqEnv "signer") (JStr "")))))).

Definition iAmMaker (localPeer : string) (termsEnv quoteEnv : jsval) : bool :=
  negb (String.eqb localPeer "")
  && negb (String.eqb (makerSigner termsEnv quoteEnv) "")
  && String.eqb (makerSigner termsEnv quoteEnv) localPeer.

Definition iAmTaker (localPeer : string) (myRfqTradeIds : jset)
                    (tradeId : string)
                    (acceptEnv quoteAcceptEnv rfqEnv : jsval) : bool :=
  (negb (String.eqb localPeer "")
   && negb (String.eqb (takerSigner acceptEnv quoteAcceptEnv rfqEnv) "")
   && String.eqb (takerSigner acceptEnv quoteAcceptEnv rfqEnv) localPeer)
  || set_has tradeId myRfqTradeIds.

Definition termsLnPayerPeer (termsEnv : jsval) : string :=
  toLowerCase
    (trim (str_or_empty (get (body_or_empty termsEnv) "ln_payer_peer"))).

Definition termsSolRecipient (termsEnv : jsval) : string :=
  trim (str_or_empty (get (body_or_empty termsEnv) "sol_recipient")).

Definition termsBoundToLocalIdentity (localPeer : string) (termsEnv : jsval)
  : bool :=
  if negb (truthy termsEnv) then true
  else if String.eqb localPeer "" then false
  else if negb (is_hex 64 (termsLnPayerPeer termsEnv)) then false
  else String.eqb (termsLnPayerPeer termsEnv) localPeer.

Definition termsBoundToLocalSolRecipient (localSolSigner : string)
                                         (termsEnv : jsval) : bool :=
  if negb (truthy termsEnv) then true
  else if String.eqb localSolSigner "" then false
  else negb (String.eqb (termsSolRecipient termsEnv) "")
       && String.eqb (termsSolRecipient termsEnv) localSolSigner.

(** The frame every stage shares: gate on [_canRunStage], mark in flight,
    prepare the call (a failed check throws), await the tool, then mark
    success and spend one action, or mark a retry. *)
Definition run_stage (stageKey : string) (cooldownMs : Z)
                     (prep : Z -> Mgr -> result (string * jsval))
                     (post : jsval -> Z -> Mgr -> Mgr) (al : Z) : M Z :=
  m <- getMgr ;;
  now <- getNow ;;
  if canRunStage stageKey now m then
    update (fun _ => markStageInFlight stageKey) ;;;
    match prep now m with
    | Err _ => update (markStageRetry stageKey cooldownMs) ;;; ret al
    | Ok (tool, args) =>
        r <- runTool tool args ;;
        match r with
        | Ok out =>
            update (post out) ;;;
            update (markStageSuccess stageKey) ;;;
            countAction ;;; ret (al - 1)
        | Err _ => update (markStageRetry stageKey cooldownMs) ;;; ret al
        end
    end
  else ret al.

Definition no_post : jsval -> Z -> Mgr -> Mgr := fun _ _ m => m.

Definition terms_post_tool : string := "intercomswap_terms_post".
Definition terms_accept_tool : string := "intercomswap_terms_accept_from_terms".
Definition ln_invoice_tool : string :=
  "intercomswap_swap_ln_invoice_create_and_post".
Definition sol_escrow_tool : string :=
  "intercomswap_swap_sol_escrow_init_and_post".
Definition ln_pay_tool : string := "intercomswap_swap_ln_pay_and_post_verified".
Definition receipts_show_tool : string := "intercomswap_receipts_show".
Definition sol_claim_tool : string := "intercomswap_swap_sol_claim_and_post".

Definition prep_terms_post (localPeer localSolSigner tradeId swapChannel : string)
                           (rfqEnv quoteEnv quoteAcceptEnv : jsval)
                           (now : Z) (m : Mgr) : result (string * jsval) :=
  let quoteBody := body_or_empty quoteEnv in
  let rfqBody := body_or_empty rfqEnv in
  let btcSats :=
    toIntOrNull (jcoalesce (get quoteBody "btc_sats") (get rfqBody "btc_sats")) in
  let usdtAmount :=
    trim (toStr (jcoalesce (get quoteBody "usdt_amount")
                   (jcoalesce (get rfqBody "usdt_amount") (JStr "")))) in
  let solRecipient := trim (str_or_empty (get rfqBody "sol_recipient")) in
  let solRefund := localSolSigner in
  let tradeFeeCollector :=
    trim (str_or_empty (get quoteBody "trade_fee_collector")) in
  let lnPayerPeer :=
    toLowerCase
      (trim (toStr (jor (get quoteAcceptEnv "signer")
                      (jor (get rfqEnv "signer") (JStr ""))))) in
  let solMint :=
    trim (toStr (jor (JStr (usdt_mint (opts m)))
                   (jor (get rfqBody "sol_mint")
                      (jor (get quoteBody "sol_mint") (JStr ""))))) in
  match btcSats with
  | None => Err "terms_post: missing btc_sats"
  | Some btc =>
      if btc <? 1 then Err "terms_post: missing btc_sats"
      else if negb (is_digits usdtAmount)
      then Err "terms_post: missing usdt_amount"
      else if String.eqb solMint "" then Err "terms_post: missing usdt_mint"
      else if String.eqb solRecipient ""
      then Err "terms_post: missing sol_recipient"
      else if String.eqb solRefund "" then Err "terms_post: missing sol_refund"
      else if String.eqb tradeFeeCollector ""
      then Err "terms_post: missing trade_fee_collector"
      else if String.eqb lnPayerPeer ""
      then Err "terms_post: missing ln_payer_peer"
      else
        let quoteRefundWindowSec :=
          clampInt (toIntOrNull (get quoteBody "sol_refund_window_sec"))
            3600 week (default_sol_refund_window_sec (opts m)) in
        let refundAfterUnix := now / 1000 + quoteRefundWindowSec in
        let validUntil :=
          match toIntOrNull (get quoteBody "valid_until_unix") with
          | Some v => if 0 <? v then [("terms_valid_until_unix", JNum v)]
                      else []
          | None => []
          end in
        Ok (terms_post_tool,
            JObj ([("channel", JStr swapChannel);
                   ("trade_id", JStr tradeId);
                   ("btc_sats", JNum btc);
                   ("usdt_amount", JStr usdtAmount);
                   ("sol_mint", JStr solMint);
                   ("sol_recipient", JStr solRecipient);
                   ("sol_refund", JStr solRefund);
                   ("sol_refund_after_unix", JNum refundAfterUnix);
                   ("ln_receiver_peer", JStr localPeer);
                   ("ln_payer_peer", JStr lnPayerPeer);
                   ("trade_fee_collector", JStr tradeFeeCollector)]
                  ++ validUntil)%list)
  end.

Definition prep_terms_accept (localPeer localSolSigner swapChannel : string)
                             (termsEnv : jsval) (now : Z) (m : Mgr)
  : result (string * jsval) :=
  if negb (termsBoundToLocalIdentity localPeer termsEnv)
  then Err "terms_accept: terms.ln_payer_peer mismatch"
  else if negb (termsBoundToLocalSolRecipient localSolSigner termsEnv)
  then Err "terms_accept: terms.sol_recipient mismatch"
  else Ok (terms_accept_tool,
           JObj [("channel", JStr swapChannel); ("terms_envelope", termsEnv)]).

Definition prep_ln_invoice (tradeId swapChannel : string) (termsEnv : jsval)
                           (now : Z) (m : Mgr) : result (string * jsval) :=
  match toIntOrNull (get (body_or_empty termsEnv) "btc_sats") with
  | None => Err "ln_invoice: missing btc_sats"
  | Some btc =>
      if btc <? 1 then Err "ln_invoice: missing btc_sats"
      else
        Ok (ln_invoice_tool,
            JObj [("channel", JStr swapChannel);
                  ("trade_id", JStr tradeId);
                  ("btc_sats", JNum btc);
                  ("label",
                   JStr (slice0 120
                           ("swap-" ++ tradeId ++ "-" ++ num_to_string now)));
                  ("description",
                   JStr (slice0 500 ("intercomswap " ++ tradeId)))])
  end.

Definition cu_field (key : string) (v : option Z) : list (string * jsval) :=
  match v with
  | Some n => if (negb (n =? 0)) && (0 <? n) then [(key, JNum n)] else []
  | None => []
  end.

Definition prep_sol_escrow (tradeId swapChannel : string)
                           (termsEnv invoiceEnv : jsval)
                           (now : Z) (m : Mgr) : result (string * jsval) :=
  let termsBody := body_or_empty termsEnv in
  let invBody := body_or_empty invoiceEnv in
  let paymentHashHex :=
    toLowerCase (trim (str_or_empty (get invBody "payment_hash_hex"))) in
  let mint :=
    trim (toStr (jor (get termsBody "sol_mint")
                   (jor (JStr (usdt_mint (opts m))) (JStr "")))) in
  let amount := trim (str_or_empty (get termsBody "usdt_amount")) in
  let recipient := trim (str_or_empty (get termsBody "sol_recipient")) in
  let refund := trim (str_or_empty (get termsBody "sol_refund")) in
  let refundAfterUnix := toIntOrNull (get termsBody "sol_refund_after_unix") in
  let tradeFeeCollector :=
    trim (str_or_empty (get termsBody "trade_fee_collector")) in
  if negb (is_hex 64 paymentHashHex)
  then Err "sol_escrow: missing payment_hash_hex"
  else if String.eqb mint "" then Err "sol_escrow: missing mint"
  else if negb (is_digits amount) then Err "sol_escrow: missing amount"
  else if String.eqb recipient "" then Err "sol_escrow: missing recipient"
  else if String.eqb refund "" then Err "sol_escrow: missing refund"
  else
    match refundAfterUnix with
    | None => Err "sol_escrow: missing refund_after_unix"
    | Some ra =>
        if ra <? 1 then Err "sol_escrow: missing refund_after_unix"
        else if String.eqb tradeFeeCollector ""
        then Err "sol_escrow: missing trade_fee_collector"
        else
          Ok (sol_escrow_tool,
              JObj ([("channel", JStr swapChannel);
                     ("trade_id", JStr tradeId);
                     ("payment_hash_hex", JStr paymentHashHex);
                     ("mint", JStr mint);
                     ("amount", JStr amount);
                     ("recipient", JStr recipient);
                     ("refund", JStr refund);
                     ("refund_after_unix", JNum ra);
                     ("trade_fee_collector", JStr tradeFeeCollector)]
                    ++ cu_field "cu_limit" (sol_cu_limit (opts m))
                    ++ cu_field "cu_price" (sol_cu_price (opts m)))%list)
    end.

Definition prep_ln_pay (localPeer localSolSigner swapChannel : string)
                       (termsEnv invoiceEnv escrowEnv : jsval)
                       (now : Z) (m : Mgr) : result (string * jsval) :=
  if negb (termsBoundToLocalIdentity localPeer termsEnv)
  then Err "ln_pay: terms.ln_payer_peer mismatch"
  else if negb (termsBoundToLocalSolRecipient localSolSigner termsEnv)
  then Err "ln_pay: terms.sol_recipient mismatch"
  else Ok (ln_pay_tool,
           JObj [("channel", JStr swapChannel);
                 ("terms_envelope", termsEnv);
                 ("invoice_envelope", invoiceEnv);
                 ("escrow_envelope", escrowEnv)]).

(** What [ln_pay] does with the tool's answer before marking success. *)
Definition post_ln_pay (tradeId : string) (out : jsval) (now : Z) (m : Mgr)
  : Mgr :=
  let preimageHex :=
    toLowerCase (trim (str_or_empty (get out "preimage_hex"))) in
  let m1 := if is_hex 64 preimageHex
            then set_preimage m (map_set tradeId preimageHex (tradePreimage m))
            else m in
  pruneCaches [] now m1.

(** The [sol_claim] stage, which may look the preimage up before claiming. *)
Definition sol_claim_stage (localSolSigner tradeId swapChannel : string)
                           (termsEnv : jsval) (al : Z) : M Z :=
  let stageKey := tradeId ++ ":sol_claim" in
  let retry := update (markStageRetry stageKey 15000) ;;; ret al in
  m <- getMgr ;;
  now <- getNow ;;
  if canRunStage stageKey now m then
    update (fun _ => markStageInFlight stageKey) ;;;
    if negb (termsBoundToLocalSolRecipient localSolSigner termsEnv) then retry
    else
      let mint :=
        trim (toStr (jor (get (body_or_empty termsEnv) "sol_mint")
                       (jor (JStr (usdt_mint (opts m))) (JStr "")))) in
      if String.eqb mint "" then retry
      else
        let cached :=
          toLowerCase
            (trim (match map_get tradeId (tradePreimage m) with
                   | Some p => str_or_empty (JStr p)
                   | None => ""
                   end)) in
        let claim (preimageHex : string) : M Z :=
          if negb (is_hex 64 preimageHex) then retry
          else
            r <- runTool sol_claim_tool
                   (JObj [("channel", JStr swapChannel);
                          ("trade_id", JStr tradeId);
                          ("preimage_hex", JStr preimageHex);
                          ("mint", JStr mint)]) ;;
            match r with
            | Ok _ =>
                update (markStageSuccess stageKey) ;;;
                countAction ;;; ret (al - 1)
            | Err _ => retry
            end in
        if is_hex 64 cached then claim cached
        else
          r <- runTool receipts_show_tool (JObj [("trade_id", JStr tradeId)]) ;;
          match r with
          | Err _ => retry
          | Ok rec =>
              let fromReceipt :=
                toLowerCase
                  (trim (str_or_empty (get rec "ln_preimage_hex"))) in
              update (fun now m =>
                pruneCaches [] now
                  (if is_hex 64 fromReceipt
                   then set_preimage m
                          (map_set tradeId fromReceipt (tradePreimage m))
                   else m)) ;;;
              claim fromReceipt
          end
  else ret al.

(** The body of the settlement loop for one trade context. *)
Definition settle_trade (localPeer localSolSigner : string) (ctx : Ctx)
                        (tradeCtx : TradeCtx) (al : Z) : M Z :=
  let tradeId := trim (str_or_empty (JStr (t_trade_id tradeCtx))) in
  if String.eqb tradeId "" then ret al
  else if truthy (t_claimed tradeCtx) || truthy (t_refunded tradeCtx)
          || truthy (t_canceled tradeCtx) then ret al
  else
    let neg := match map_get tradeId (swapNegotiationByTrade ctx) with
               | Some n => n
               | None => empty_neg ""
               end in
    let rfqEnv := env_or_null (n_rfq neg) in
    let quoteEnv := env_or_null (n_quote neg) in
    let quoteAcceptEnv := env_or_null (n_quote_accept neg) in
    let termsEnv := env_or_null (t_terms tradeCtx) in
    let acceptEnv := env_or_null (t_accept tradeCtx) in
    let invoiceEnv := env_or_null (t_invoice tradeCtx) in
    let escrowEnv := env_or_null (t_escrow tradeCtx) in
    let lnPaidEnv := env_or_null (t_ln_paid tradeCtx) in
    let maker := iAmMaker localPeer termsEnv quoteEnv in
    let taker := iAmTaker localPeer (myRfqTradeIds ctx) tradeId
                   acceptEnv quoteAcceptEnv rfqEnv in
    if negb maker && negb taker then ret al
    else
      let swapChannel :=
        trim (toStr (jor (JStr (t_channel tradeCtx))
                       (jor (JStr (n_swap_channel neg))
                          (JStr ("swap:" ++ tradeId))))) in
      if negb (startsWith swapChannel "swap:") then ret al
      else if maker && negb (truthy termsEnv) && truthy quoteEnv
              && truthy rfqEnv && truthy quoteAcceptEnv then
        run_stage (tradeId ++ ":terms_post") 10000
          (prep_terms_post localPeer localSolSigner tradeId swapChannel
             rfqEnv quoteEnv quoteAcceptEnv)
          no_post al
      else if taker && truthy termsEnv && negb (truthy acceptEnv) then
        run_stage (tradeId ++ ":terms_accept") 10000
          (prep_terms_accept localPeer localSolSigner swapChannel termsEnv)
          no_post al
      else if maker && truthy termsEnv && truthy acceptEnv
              && negb (truthy invoiceEnv) then
        run_stage (tradeId ++ ":ln_invoice") 10000
          (prep_ln_invoice tradeId swapChannel termsEnv) no_post al
      else if maker && truthy termsEnv && truthy invoiceEnv
              && negb (truthy escrowEnv) then
        run_stage (tradeId ++ ":sol_escrow") 10000
          (prep_sol_escrow tradeId swapChannel termsEnv invoiceEnv) no_post al
      else if taker && truthy termsEnv && truthy invoiceEnv
              && truthy escrowEnv && negb (truthy lnPaidEnv) then
        run_stage (tradeId ++ ":ln_pay") 10000
          (prep_ln_pay localPeer localSolSigner swapChannel termsEnv
             invoiceEnv escrowEnv)
          (post_ln_pay tradeId) al
      else if taker && truthy termsEnv && truthy lnPaidEnv
              && negb (truthy (t_claimed tradeCtx)) then
        sol_claim_stage localSolSigner tradeId swapChannel termsEnv al
      else ret al.

(** [arr.slice(0, n)] *)
Definition take_z {A} (n : Z) (l : list A) : list A :=
  List.firstn (Z.to_nat n) l.

(** ** The five pipelines of a tick, from [let actionsLeft = 12] on *)

Definition pipelines (localPeer localSolSigner : string)
                     (activeEvents : list jsval) (ctx : Ctx) (al0 : Z) : M Z :=
  m <- getMgr ;;
  let o := opts m in
  al1 <- (if enable_quote_from_offers o && (0 <? al0) then
            budget_loop (quote_step localSolSigner ctx)
              (List.rev
                 (List.filter
                    (fun e => String.eqb (envelopeKind e) "swap.rfq")
                    activeEvents))
              al0
          else ret al0) ;;
  al2 <- (if enable_accept_quotes o && (0 <? al1) then
            budget_loop (accept_step ctx) (List.rev (quoteEvents ctx)) al1
          else ret al1) ;;
  al3 <- (if enable_invite_from_accepts o && (0 <? al2) then
            budget_loop (invite_step ctx) (List.rev (acceptEvents ctx)) al2
          else ret al2) ;;
  al4 <- (if enable_join_invites o && (0 <? al3) then
            budget_loop (join_step localPeer ctx)
              (List.rev (inviteEvents ctx)) al3
          else ret al3) ;;
  (if enable_settlement o && (0 <? al4) then
     budget_loop (settle_trade localPeer localSolSigner ctx)
       (take_z (max_trades o) (swapTradeContexts ctx)) al4
   else ret al4).

(** ** [_tick] *)

Section Tick.

Variable hashUnsignedEnvelope : jsval -> result jsval.

(** [this.scLogInfo()] and [this.scLogRead({ sinceSeq, limit })] *)
Variable scLogInfo : jsval.
Variable scLogRead : Z -> Z -> jsval.

Definition sc_info_tool : string := "intercomswap_sc_info".
Definition sol_signer_tool : string := "intercomswap_sol_signer_pubkey".

(** [_appendEvents(events)] *)
Definition appendEvents (evs : list jsval) (m : Mgr) : list jsval :=
  match evs with
  | [] => events m
  | _ =>
      let all := (events m ++ evs)%list in
      if eventsMax m <? Z.of_nat (List.length all)
      then List.skipn (Z.to_nat (Z.of_nat (List.length all) - eventsMax m)) all
      else all
  end.

Definition seq_of (v : jsval) : option Z :=
  match v with JNum n => Some n | _ => None end.

(** The result is [Err] when the tick throws (identity could not be
    resolved). *)
Definition tick : M (result unit) :=
  m0 <- getMgr ;;
  if negb (running m0) then ret (Ok tt)
  else if tickInFlight m0 then ret (Ok tt)
  else
    update (fun _ m => with_log m true (lastSeq m) (events m)
                         (nextScEnsureAt m)) ;;;
    let finish (r : result unit) : M (result unit) :=
      update (fun _ m => with_log m false (lastSeq m) (events m)
                           (nextScEnsureAt m)) ;;; ret r in
    let logInfo := jor scLogInfo (JObj []) in
    now0 <- getNow ;;
    (if nextScEnsureAt m0 <=? now0 then
       _ <- runTool subscribe_tool
              (JObj [("channels",
                      JArr (List.map JStr (channels (opts m0))))]) ;;
       update (fun now m => with_log m (tickInFlight m) (lastSeq m) (events m)
                              (now + scEnsureIntervalMs m))
     else ret tt) ;;;
    let latestSeq := match seq_of (get logInfo "latest_seq") with
                     | Some n => Z.max 0 n
                     | None => 0
                     end in
    let sinceSeq := if 0 <? lastSeq m0 then lastSeq m0
                    else Z.max 0 (latestSeq - max_events (opts m0)) in
    let read := jor (scLogRead sinceSeq (max_events (opts m0))) (JObj []) in
    let evs := match get read "events" with JArr l => l | _ => [] end in
    update (fun _ m =>
      with_log m (tickInFlight m)
        (match seq_of (get read "latest_seq") with
         | Some n => Z.max (lastSeq m) n
         | None => lastSeq m
         end)
        (appendEvents evs m) (nextScEnsureAt m)) ;;;
    info <- runTool sc_info_tool (JObj []) ;;
    match info with
    | Err e => finish (Err e)
    | Ok infoOut =>
        let localPeer :=
          toLowerCase (trim (str_or_empty (get infoOut "peer"))) in
        signer <- runTool sol_signer_tool (JObj []) ;;
        match signer with
        | Err e => finish (Err e)
        | Ok signerOut =>
            let localSolSigner :=
              trim (str_or_empty (get signerOut "pubkey")) in
            m1 <- getMgr ;;
            now1 <- getNow ;;
            let activeEvents :=
              List.filter
                (fun e => negb (isEventStale e (event_max_age_ms (opts m1))
                                  now1))
                (events m1) in
            let ctx := buildContexts hashUnsignedEnvelope activeEvents
                         localPeer now1 in
            update (fun now m =>
              let k := caches m in
              let m' := with_caches m
                          (mkCaches (k_quoted k) (k_accepted k)
                             (List.filter
                                (fun e => negb (set_has (fst e)
                                                  (terminalTradeIds ctx)))
                                (k_lock k))
                             (k_invited k) (k_joined k) (k_done k)
                             (k_inflight k) (k_retry k) (k_preimage k)) in
              pruneCaches (terminalTradeIds ctx) now m') ;;;
            _ <- pipelines localPeer localSolSigner activeEvents ctx 12 ;;
            update (fun _ m => with_stats m (stats_ticks m + 1)
                                 (stats_actions m)) ;;;
            finish (Ok tt)
        end
    end.

End Tick.

End Driver.

End TradeAuto.

From Stdlib Require Import Sorted Permutation.

(* ===================================================================== *)
(** * Autopost scheduler: status (src/prompt/autopost.js) *)
(* ===================================================================== *)

Module AutopostStatus.
Import Autopost.

(** [out.sort((a, b) => (b.started_at || 0) - (a.started_at || 0))]: newest
    first; the sort is stable. *)
Fixpoint insert_by_start (j : Job) (l : list Job) : list Job :=
  match l with
  | [] => [j]
  | y :: r =>
      if startedAt j <? startedAt y then y :: insert_by_start j r else j :: l
  end.

(** [status({ name })]: the job objects of [this.jobs], in the order of the
    map, those of another name left out when a name is given, then sorted.
    The objects pushed hold the fields of the job records. *)
Definition status (nm : jsval) (st : State) : list Job :=
  let filter := trim (str_or_empty nm) in
  let out :=
    List.flat_map
      (fun e : string * nat =>
         match heap_get (snd e) (heap st) with
         | Some j =>
             if negb (String.eqb filter "")
                && negb (String.eqb (name j) filter)
             then [] else [j]
         | None => []
         end)
      (jobs st) in
  List.fold_right insert_by_start [] out.

End AutopostStatus.

(* ===================================================================== *)
(** * Trade receipts store: list queries *)
(* ===================================================================== *)

Module ReceiptsQueries.
Import Receipts.

(** [Number.isFinite(limit) ? Math.max(1, Math.min(hi, Math.trunc(limit)))
    : dflt]; a default parameter turns [undefined] into [dflt], which the
    clamp leaves as it is. *)
Definition limit_of (hi dflt : Z) (v : jsval) : Z :=
  match v with
  | JNum n => clamp 1 hi n
  | _ => dflt
  end.

(** [Number.isFinite(offset) ? Math.max(0, Math.trunc(offset)) : 0] *)
Definition offset_of (v : jsval) : Z :=
  match v with
  | JNum n => Z.max 0 n
  | _ => 0
  end.

(** The order of SQLite on stored values: NULL, then numbers, then text
    (compared byte by byte). *)
Definition sql_leb (a b : sqlval) : bool :=
  match a, b with
  | SNull, _ => true
  | SInt _, SNull => false
  | SInt x, SInt y => x <=? y
  | SInt _, SText _ => true
  | SText x, SText y => String.leb x y
  | SText _, _ => false
  end.

Definition sql_ltb (a b : sqlval) : bool := negb (sql_leb b a).

Section OrderBy.

Variable A : Type.
Variable key : A -> sqlval.

(** [ORDER BY key DESC] as an insertion sort that keeps rows of equal key in
    table order; SQLite leaves the order of such rows open. *)
Fixpoint insert_desc (r : A) (l : list A) : list A :=
  match l with
  | [] => [r]
  | y :: t =>
      if sql_ltb (key r) (key y) then y :: insert_desc r t else r :: l
  end.

Definition order_desc (l : list A) : list A :=
  List.fold_right insert_desc [] l.

(** [LIMIT n OFFSET off] *)
Definition page (n off : Z) (l : list A) : list A :=
  List.firstn (Z.to_nat n) (List.skipn (Z.to_nat off) l).

End OrderBy.

Arguments insert_desc {A} key r l.
Arguments order_desc {A} key l.
Arguments page {A} n off l.

(** The destructured options argument [{ ... } = {}]: [undefined] stands
    for the empty object, [null] cannot be destructured. *)
Definition with_opts {B : Type} (opts : jsval) (k : jsval -> result B)
  : result B :=
  match opts with
  | JNull => Err "Cannot destructure null"
  | JUndef => k (JObj [])
  | _ => k opts
  end.

(** [listTrades({ limit })] *)
Definition listTrades (opts : jsval) (db : DB) : result (list Row) :=
  with_opts opts (fun o =>
    let n := limit_of 1000 50 (get o "limit") in
    Ok (page n 0 (order_desc updated_at db))).

(** [listTradesPaged({ limit, offset })] *)
Definition listTradesPaged (opts : jsval) (db : DB) : result (list Row) :=
  with_opts opts (fun o =>
    let n := limit_of 1000 50 (get o "limit") in
    let off := offset_of (get o "offset") in
    Ok (page n off (order_desc updated_at db))).

(** [String(state || '').trim() || dflt], with the default parameter. *)
Definition state_of (dflt : string) (v : jsval) : string :=
  let v := match v with JUndef => JStr dflt | _ => v end in
  let s := trim (str_or_empty v) in
  if String.eqb s "" then dflt else s.

(** [WHERE state = ? AND ln_preimage_hex IS NOT NULL] *)
Definition open_claim (st : string) (r : Row) : bool :=
  sql_eqb (state r) (SText st) && negb (is_null (ln_preimage_hex r)).

(** [WHERE state = ? AND sol_refund_after_unix IS NOT NULL AND
    sol_refund_after_unix <= ?] *)
Definition open_refund (st : string) (now : Z) (r : Row) : bool :=
  sql_eqb (state r) (SText st) &&
  negb (is_null (sol_refund_after_unix r)) &&
  sql_leb (sol_refund_after_unix r) (SInt now).

(** [listOpenClaims({ limit, offset, state })] *)
Definition listOpenClaims (opts : jsval) (db : DB) : result (list Row) :=
  with_opts opts (fun o =>
    let n := limit_of 1000 50 (get o "limit") in
    let off := offset_of (get o "offset") in
    let st := state_of "ln_paid" (get o "state") in
    Ok (page n off (order_desc updated_at (List.filter (open_claim st) db)))).

Section WithNumber.

Variable StringToInt : string -> option Z.

(** [listOpenRefunds({ nowUnix, limit, offset, state })] at clock [now]
    (milliseconds). *)
Definition listOpenRefunds (opts : jsval) (now : Z) (db : DB)
  : result (list Row) :=
  with_opts opts (fun o =>
    let n := limit_of 1000 50 (get o "limit") in
    let off := offset_of (get o "offset") in
    let st := state_of "escrow" (get o "state") in
    let nowUnix := get o "nowUnix" in
    let bound :=
      if nullish nowUnix then Ok (CVal (SInt (now / 1000)))
      else coerceInt StringToInt nowUnix in
    match bound with
    | Err m => Err m
    | Ok c =>
        match to_sql c with
        | SInt t =>
            Ok (page n off
                  (order_desc updated_at (List.filter (open_refund st t) db)))
        | _ => Ok []                 (* not reached: the bound is a number *)
        end
    end).

End WithNumber.

End ReceiptsQueries.

(* ===================================================================== *)
(** * Trade receipts store: listing locks *)
(* ===================================================================== *)

Module ListingLocks.
Import Receipts ReceiptsQueries.

(** A row of [listing_locks], in the order of CREATE TABLE. *)
Record Lock : Type := mkLock {
  listing_key : sqlval;
  listing_type : sqlval;
  listing_id : sqlval;
  trade_id : sqlval;
  state : sqlval;
  note : sqlval;
  meta_json : sqlval;
  created_at : sqlval;
  updated_at : sqlval
}.

(** The [listing_locks] table, in rowid order. *)
Definition Locks := list Lock.

(** [mapListingLockRow(row)] for a row that was found. *)
Definition mapListingLockRow (r : Lock) : jsval :=
  JObj [("listing_key", js_of_sql (listing_key r));
        ("listing_type", js_of_sql (listing_type r));
        ("listing_id", js_of_sql (listing_id r));
        ("trade_id", js_of_sql (trade_id r));
        ("state", js_of_sql (state r));
        ("note", js_of_sql (note r));
        ("meta_json", js_of_sql (meta_json r));
        ("created_at", js_of_sql (created_at r));
        ("updated_at", js_of_sql (updated_at r))].

(** [SELECT * FROM listing_locks WHERE listing_key = ?], first row. *)
Fixpoint select_lock (key : sqlval) (t : Locks) : option Lock :=
  match t with
  | [] => None
  | r :: rest =>
      if sql_eqb (listing_key r) key then Some r else select_lock key rest
  end.

(** [getListingLock(listingKey)] *)
Definition getListingLock (listingKey : jsval) (t : Locks)
  : result (option Lock) :=
  let key := trim (str_or_empty listingKey) in
  if String.eqb key "" then Err "listingKey is required"
  else Ok (select_lock (SText key) t).

(** [listListingLocksByTrade(tradeId, { limit })] *)
Definition listListingLocksByTrade (tradeId opts : jsval) (t : Locks)
  : result (list Lock) :=
  let id := trim (str_or_empty tradeId) in
  with_opts opts (fun o =>
    if String.eqb id "" then Err "tradeId is required"
    else
      let n := limit_of 2000 500 (get o "limit") in
      Ok (page n 0
            (order_desc updated_at
               (List.filter (fun r => sql_eqb (trade_id r) (SText id)) t)))).

(** [isNonEmptyString(v)] on a coerced value. *)
Definition isNonEmptyString (c : coerced) : bool :=
  match c with
  | CVal (SText s) => negb (String.eqb (trim s) "")
  | _ => false
  end.

(** The statement [_stmtUpsertListingLock]: on a conflicting [listing_key]
    every column is overwritten except [created_at]. *)
Fixpoint upsert_lock (r : Lock) (t : Locks) : Locks :=
  match t with
  | [] => [r]
  | old :: rest =>
      if sql_eqb (listing_key old) (listing_key r) then
        mkLock (listing_key old) (listing_type r) (listing_id r)
          (trade_id r) (state r) (note r) (meta_json r) (created_at old)
          (updated_at r) :: rest
      else old :: upsert_lock r rest
  end.

(** NOT NULL is checked on the values to insert. *)
Definition run_upsert_lock (r : Lock) (t : Locks) : result Locks :=
  if is_null (listing_type r) || is_null (listing_id r) ||
     is_null (state r) || is_null (created_at r) || is_null (updated_at r)
  then Err "NOT NULL constraint failed"
  else Ok (upsert_lock r t).

Section WithSerializer.

Variable StringToInt : string -> option Z.

(** [stableStringify] of [../util/stableStringify.js]: the text it returns
    for a value that is neither [undefined], [null] nor a string, or the
    error it throws. *)
Variable stableStringify : jsval -> result string.

Definition coerceJson (v : jsval) : result coerced :=
  match v with
  | JUndef => Ok CUndef
  | JNull => Ok (CVal SNull)
  | JStr s => Ok (CVal (SText s))
  | _ =>
      match stableStringify v with
      | Ok s => Ok (CVal (SText s))
      | Err m => Err m
      end
  end.

(** [upsertListingLock(listingKey, patch)] at clock [now]: the new table and
    the row read back, or the error thrown (the table is then unchanged). *)
Definition upsertListingLock (listingKey patch : jsval) (now : Z) (t : Locks)
  : result (Locks * option Lock) :=
  match getListingLock listingKey t with
  | Err m => Err m
  | Ok existing =>
      let key := trim (str_or_empty listingKey) in
      let base :=
        match existing with
        | Some r => match mapListingLockRow r with JObj fs => fs | _ => [] end
        | None => [("listing_key", JStr key); ("created_at", JNum now);
                   ("updated_at", JNum now)]
        end in
      let next0 := obj_set "updated_at" (JNum now) base in
      let next :=
        JObj (apply_patch (patch_entries (jor patch (JObj []))) next0) in
      let st := toLowerCase (trim (str_or_empty (get next "state"))) in
      if negb (String.eqb st "in_flight") && negb (String.eqb st "filled")
      then Err "listing lock state must be in_flight or filled"
      else
        match coerceText (get next "listing_type") with
        | Err m => Err m
        | Ok v_type =>
        match coerceText (get next "listing_id") with
        | Err m => Err m
        | Ok v_id =>
        match coerceText (get next "trade_id") with
        | Err m => Err m
        | Ok v_trade =>
        match coerceText (get next "note") with
        | Err m => Err m
        | Ok v_note =>
        match coerceJson (get next "meta_json") with
        | Err m => Err m
        | Ok v_meta =>
        match coerceInt StringToInt (get next "created_at") with
        | Err m => Err m
        | Ok v_created =>
        match coerceInt StringToInt (get next "updated_at") with
        | Err m => Err m
        | Ok v_updated =>
            if negb (isNonEmptyString v_type)
            then Err "listing_type is required"
            else if negb (isNonEmptyString v_id)
            then Err "listing_id is required"
            else
              let row :=
                mkLock (SText key) (to_sql v_type) (to_sql v_id)
                  (to_sql v_trade) (SText st) (to_sql v_note)
                  (to_sql v_meta) (to_sql v_created) (to_sql v_updated) in
              match run_upsert_lock row t with
              | Err m => Err m
              | Ok t' => Ok (t', select_lock (SText key) t')
              end
        end end end end end end end
  end.

End WithSerializer.

(** [deleteListingLock(listingKey)] *)
Definition deleteListingLock (listingKey : jsval) (t : Locks)
  : result Locks :=
  let key := trim (str_or_empty listingKey) in
  if String.eqb key "" then Err "listingKey is required"
  else Ok (List.filter (fun r => negb (sql_eqb (listing_key r) (SText key))) t).

(** [deleteListingLocksByTrade(tradeId)] *)
Definition deleteListingLocksByTrade (tradeId : jsval) (t : Locks)
  : result Locks :=
  let id := trim (str_or_empty tradeId) in
  if String.eqb id "" then Err "tradeId is required"
  else Ok (List.filter (fun r => negb (sql_eqb (trade_id r) (SText id))) t).

(** The writers of [listing_locks]. *)
Inductive LockOp : Type :=
| OpUpsert (listingKey patch : jsval) (now : Z)
| OpDelete (listingKey : jsval)
| OpDeleteByTrade (tradeId : jsval).

Section Store.

Variable StringToInt : string -> option Z.
Variable stableStringify : jsval -> result string.

(** One call; a call that throws leaves the table as it was. *)
Definition apply_op (op : LockOp) (t : Locks) : Locks :=
  match op with
  | OpUpsert k p now =>
      match upsertListingLock StringToInt stableStringify k p now t with
      | Ok (t', _) => t'
      | Err _ => t
      end
  | OpDelete k =>
      match deleteListingLock k t with Ok t' => t' | Err _ => t end
  | OpDeleteByTrade id =>
      match deleteListingLocksByTrade id t with Ok t' => t' | Err _ => t end
  end.

Definition apply_ops (ops : list LockOp) (t : Locks) : Locks :=
  List.fold_left (fun t op => apply_op op t) ops t.

End Store.

End ListingLocks.

(* ===================================================================== *)
(** * Trade receipts store: sequences of writes *)
(* ===================================================================== *)

Module ReceiptsLog.
Import Receipts.

(** A call [upsertTrade(tradeId, patch)] and the clock it reads. *)
Record Write : Type := mkWrite {
  w_tradeId : jsval;
  w_patch : jsval;
  w_now : Z
}.

Section WithNumber.

Variable StringToInt : string -> option Z.

(** One call; a call that throws leaves the table as it was. *)
Definition write (w : Write) (db : DB) : DB :=
  match upsertTrade StringToInt (w_tradeId w) (w_patch w) (w_now w) db with
  | Ok (db', _) => db'
  | Err _ => db
  end.

Definition writes (ws : list Write) (db : DB) : DB :=
  List.fold_left (fun db w => write w db) ws db.

End WithNumber.

End ReceiptsLog.

(* ===================================================================== *)
(** * Settlement driver: start and stop *)
(* ===================================================================== *)

Module TradeAutoControl.
Import TradeAuto.

(** [/\s/.test(c)]; in Latin-1 the class [\s] is the set [trim] strips. *)
Definition has_space (c : string) : bool :=
  negb (all_chars (fun x => negb (is_ws x)) c).

(** The filter of [sanitizeChannels]. *)
Definition channel_ok (c : string) : bool :=
  (0 <? Z.of_nat (String.length c)) &&
  (Z.of_nat (String.length c) <=? 128) &&
  negb (has_space c).

(** [Array.from(new Set(l))] *)
Definition set_of (l : list string) : jset :=
  List.fold_left (fun s c => set_add c s) l [].

Definition sanitizeChannels (raw : jsval) : list string :=
  match raw with
  | JArr xs =>
      set_of
        (List.firstn 64
           (List.filter channel_ok
              (List.map (fun c => trim (str_or_empty c)) xs)))
  | _ => []
  end.

(** The values [start] clamps that [this.opts] does not hold alone. *)
Record Limits : Type := mkLimits {
  l_interval_ms : Z;
  l_dedupe_max : Z;
  l_stage_max : Z;
  l_preimage_max : Z;
  l_lock_max_age_ms : Z;
  l_done_max_age_ms : Z;
  l_debug_max_events : Z;
  l_tool_timeout_ms : Z;
  l_sc_ensure_interval_ms : Z
}.

(** [opts.enable_x !== false] *)
Definition not_false (v : jsval) : bool :=
  match v with JBool false => false | _ => true end.

(** The options [start] derives from its argument, or the error it throws
    before touching the manager. *)
Definition start_options (o : jsval) : result (Opts * Limits) :=
  let chans := sanitizeChannels (jor (get o "channels") (JArr [])) in
  if Z.of_nat (List.length chans) <? 1
  then Err "tradeauto_start: channels must be a non-empty array"
  else
    let intervalMs := clampInt (toIntOrNull (get o "interval_ms"))
                        250 10000 1000 in
    let maxEvents := clampInt (toIntOrNull (get o "max_events"))
                       200 4000 1500 in
    let maxTrades := clampInt (toIntOrNull (get o "max_trades"))
                       10 500 120 in
    let eventMaxAgeMs := clampInt (toIntOrNull (get o "event_max_age_ms"))
                           30000 (60 * 60 * 1000) (10 * 60 * 1000) in
    let dedupeMax := clampInt (toIntOrNull (get o "dedupe_max"))
                       500 50000 (Z.max 2000 (maxEvents * 3)) in
    let stageMax := clampInt (toIntOrNull (get o "stage_max"))
                      500 50000 (Z.max 2000 (maxTrades * 25)) in
    let preimageMax := clampInt (toIntOrNull (get o "preimage_max"))
                         100 20000 (Z.max 500 (maxTrades * 8)) in
    let lockMaxAgeMs := clampInt (toIntOrNull (get o "lock_max_age_ms"))
                          30000 (24 * 60 * 60 * 1000)
                          (Z.max (eventMaxAgeMs * 2) (5 * 60 * 1000)) in
    let doneMaxAgeMs := clampInt (toIntOrNull (get o "done_max_age_ms"))
                          60000 (24 * 60 * 60 * 1000)
                          (Z.max (eventMaxAgeMs * 4) (20 * 60 * 1000)) in
    let debugMax := clampInt (toIntOrNull (get o "debug_max_events"))
                      50 10000 600 in
    let toolTimeoutMs := clampInt (toIntOrNull (get o "tool_timeout_ms"))
                           250 120000 25000 in
    let scEnsureIntervalMs :=
      clampInt (toIntOrNull (get o "sc_ensure_interval_ms")) 500 60000 5000 in
    let defaultSolRefundWindowSec :=
      clampInt (toIntOrNull (get o "default_sol_refund_window_sec"))
        3600 (7 * 24 * 3600) (72 * 3600) in
    let welcomeTtlSec := clampInt (toIntOrNull (get o "welcome_ttl_sec"))
                           30 (7 * 24 * 3600) 3600 in
    let lnLiquidityModeRaw :=
      toLowerCase
        (trim (toStr (jor (get o "ln_liquidity_mode") (JStr "aggregate")))) in
    let lnLiquidityMode :=
      if String.eqb lnLiquidityModeRaw "single_channel"
      then "single_channel" else "aggregate" in
    let usdtMint := trim (str_or_empty (get o "usdt_mint")) in
    Ok (mkOpts chans maxEvents maxTrades eventMaxAgeMs
          defaultSolRefundWindowSec welcomeTtlSec lnLiquidityMode usdtMint
          (not_false (get o "enable_quote_from_offers"))
          (not_false (get o "enable_accept_quotes"))
          (not_false (get o "enable_invite_from_accepts"))
          (not_false (get o "enable_join_invites"))
          (not_false (get o "enable_settlement"))
          (toIntOrNull (get o "sol_cu_limit"))
          (toIntOrNull (get o "sol_cu_price")),
        mkLimits intervalMs dedupeMax stageMax preimageMax lockMaxAgeMs
          doneMaxAgeMs debugMax toolTimeoutMs scEnsureIntervalMs).

(** The assignments of [start] up to the subscribe call: options and limits
    installed, sequence, events, caches and counters reset.  The debug
    buffer, the tool timeout and the timestamps of [_stats] are not part of
    the manager record; [running] and [_tickInFlight] are not assigned
    here. *)
Definition installed (op : Opts) (lim : Limits) (m : Mgr) : Mgr :=
  mkMgr (running m) (tickInFlight m) op 0 []
    (max_events op) (l_dedupe_max lim) (l_stage_max lim)
    (l_preimage_max lim) (l_lock_max_age_ms lim) (l_done_max_age_ms lim)
    (l_sc_ensure_interval_ms lim) 0
    [] [] [] [] [] [] [] [] [] 0 0.

(** [this._nextScEnsureAt = Date.now() + this._scEnsureIntervalMs;
    this.running = true] *)
Definition set_running (now : Z) (m : Mgr) : Mgr :=
  mkMgr true (tickInFlight m) (opts m) (lastSeq m) (events m)
    (eventsMax m) (dedupeMax m) (stageMax m) (preimageMax m)
    (lockMaxAgeMs m) (doneMaxAgeMs m) (scEnsureIntervalMs m)
    (now + scEnsureIntervalMs m)
    (autoQuotedRfqSig m) (autoAcceptedQuoteSig m) (autoAcceptedTradeLock m)
    (autoInvitedAcceptSig m) (autoJoinedInviteSig m) (stageDone m)
    (stageInFlight m) (stageRetryAfter m) (tradePreimage m)
    (stats_ticks m) (stats_actions m).

(** The assignments of [stop]; the options, the limits and the counters
    stay.  The reason goes to [_stats.last_error] and to the debug buffer,
    which the manager record does not hold. *)
Definition stopped (m : Mgr) : Mgr :=
  mkMgr false false (opts m) 0 []
    (eventsMax m) (dedupeMax m) (stageMax m) (preimageMax m)
    (lockMaxAgeMs m) (doneMaxAgeMs m) (scEnsureIntervalMs m)
    (nextScEnsureAt m)
    [] [] [] [] [] [] [] [] []
    (stats_ticks m) (stats_actions m).

(** The [type] of the object [start] returns. *)
Inductive Started : Type :=
| tradeauto_started
| tradeauto_already_running.

Section Control.

Variable env : Env.
Variable hashUnsignedEnvelope : jsval -> result jsval.
Variable scLogInfo : jsval.
Variable scLogRead : Z -> Z -> jsval.

(** [start(opts)]: the interval timer it sets calls [_tick], which the
    model runs whenever asked; the first tick is awaited here. *)
Definition start (o : jsval) : M (result Started) :=
  m <- getMgr ;;
  if running m then ret (Ok tradeauto_already_running)
  else
    match o with
    | JNull => ret (Err "Cannot read properties of null")
    | _ =>
        match start_options (match o with JUndef => JObj [] | _ => o end) with
        | Err e => ret (Err e)
        | Ok (op, lim) =>
            update (fun _ m => installed op lim m) ;;;
            r <- runTool env subscribe_tool
                   (JObj [("channels", JArr (List.map JStr (channels op)))]) ;;
            match r with
            | Err e => ret (Err e)
            | Ok _ =>
                update (fun now m => set_running now m) ;;;
                t <- tick env hashUnsignedEnvelope scLogInfo scLogRead ;;
                match t with
                | Err e => ret (Err e)
                | Ok _ => ret (Ok tradeauto_started)
                end
            end
        end
    end.

(** [stop({ reason })] *)
Definition stop : M unit := update (fun _ m => stopped m).

End Control.

End TradeAutoControl.

(* ===================================================================== *)
(** * Facts about the JavaScript fragment *)
(* ===================================================================== *)

Module JSFacts.

Lemma lower_char_hex (c : ascii) : is_hex_char (lower_char c) = is_hex_char c.
Proof.
  destruct c as [b0 b1 b2 b3 b4 b5 b6 b7].
  destruct b0, b1, b2, b3, b4, b5, b6, b7; reflexivity.
Qed.

Lemma lower_char_lower_hex (c : ascii) :
  is_lower_hex_char (lower_char c) = is_hex_char c.
Proof.
  destruct c as [b0 b1 b2 b3 b4 b5 b6 b7].
  destruct b0, b1, b2, b3, b4, b5, b6, b7; reflexivity.
Qed.


Lemma toLowerCase_length (s : string) :
  String.length (toLowerCase s) = String.length s.
Proof. induction s as [|c s IH]; simpl; congruence. Qed.


Lemma all_hex_lower (s : string) :
  all_chars is_hex_char (toLowerCase s) = all_chars is_hex_char s.
Proof.
  induction s as [|c s IH]; simpl; [reflexivity|].
  now rewrite lower_char_hex, IH.
Qed.

Lemma all_lower_hex_lower (s : string) :
  all_chars is_lower_hex_char (toLowerCase s) = all_chars is_hex_char s.
Proof.
  induction s as [|c s IH]; simpl; [reflexivity|].
  now rewrite lower_char_lower_hex, IH.
Qed.

(** Lowercasing does not change the verdict of the case-insensitive test. *)
Lemma is_hex_lower (k : nat) (s : string) :
  is_hex k (toLowerCase s) = is_hex k s.
Proof. unfold is_hex. now rewrite toLowerCase_length, all_hex_lower. Qed.

(** The case-sensitive test of a lowercased string is the case-insensitive
    test of the string. *)
Lemma is_lower_hex_lower (k : nat) (s : string) :
  is_lower_hex k (toLowerCase s) = is_hex k s.
Proof.
  unfold is_lower_hex, is_hex.
  now rewrite toLowerCase_length, all_lower_hex_lower.
Qed.

Lemma is_hex_nonempty (k : nat) (s : string) :
  is_hex (S k) s = true -> s <> "".
Proof. intros H ->. discriminate H. Qed.

Lemma eqb_neq_empty (s : string) : String.eqb s "" = false <-> s <> "".
Proof. apply String.eqb_neq. Qed.

Lemma clamp_in_range (lo hi x : Z) :
  lo <= hi -> lo <= clamp lo hi x <= hi.
Proof. unfold clamp. lia. Qed.

Lemma clamp_id (lo hi x : Z) : lo <= x <= hi -> clamp lo hi x = x.
Proof. unfold clamp. lia. Qed.

End JSFacts.

(* ===================================================================== *)
(** * Autopost: validation of [start] *)
(* ===================================================================== *)

Module AutopostFacts.
Import Autopost.

Lemma clampInt_ok (n : jsval) (lo hi z : Z) :
  clampInt n (Some lo) (Some hi) = Ok z -> n = JNum z /\ lo <= z <= hi.
Proof.
  unfold clampInt. destruct n; try discriminate.
  destruct (Z.ltb_spec n lo); [discriminate|].
  destruct (Z.ltb_spec hi n); [discriminate|].
  intros [= <-]. split; [reflexivity | lia].
Qed.

Lemma clampInt_out_of_range (lo hi z : Z) :
  z < lo \/ hi < z -> exists m, clampInt (JNum z) (Some lo) (Some hi) = Err m.
Proof.
  intros H. unfold clampInt.
  destruct (Z.ltb_spec z lo); [eauto|].
  destruct (Z.ltb_spec hi z); [eauto|]. lia.
Qed.

(** A job that [start_job] builds took its interval and its ttl from the
    arguments unchanged, and both are in range. *)
Lemma start_job_ok (a : StartArgs) (st : State) (j : Job) :
  start_job a st = Ok j ->
  a_interval_sec a = JNum (intervalSec j) /\ 1 <= intervalSec j <= 86400 /\
  a_ttl_sec a = JNum (ttlSec j) /\ 10 <= ttlSec j <= 604800.
Proof.
  unfold start_job.
  destruct (String.eqb _ ""); [discriminate|].
  destruct (map_has _ _); [discriminate|].
  destruct (negb _); [discriminate|].
  destruct (clampInt (a_interval_sec a) _ _) as [iv|] eqn:Hi; [|discriminate].
  apply clampInt_ok in Hi. destruct Hi as [Hi1 Hi2].
  destruct (nullish (a_ttl_sec a)) eqn:Hn; [discriminate|].
  destruct (clampInt (a_ttl_sec a) _ _) as [ttl|] eqn:Ht; [|discriminate].
  apply clampInt_ok in Ht. destruct Ht as [Ht1 Ht2].
  destruct (ttl =? 0); [discriminate|].
  destruct (negb (isObject _)); [discriminate|].
  destruct (if nullish (a_valid_until_unix a) then _ else _) as [vu|];
    [|discriminate].
  destruct (vu <=? _); [discriminate|].
  destruct (_ <? 10); [discriminate|].
  destruct (_ <? _); [discriminate|].
  intros [= <-]. simpl. repeat split; try assumption; lia.
Qed.

Lemma start_fails_with_job (env : Env) (a : StartArgs) (st : State) :
  (forall j, start_job a st <> Ok j) ->
  exists m, start env a st = (Err m, st).
Proof.
  intros H. unfold start.
  destruct (start_job a st) as [j|m]; [now elim (H j)|eauto].
Qed.

Definition sample_args (interval ttl : jsval) : StartArgs :=
  mkStartArgs (JStr "job1") (JStr "intercomswap_rfq_post") interval ttl JUndef
    (JObj [("channel", JStr "c"); ("trade_id", JStr "rfq-1");
           ("btc_sats", JNum 1); ("usdt_amount", JStr "1")]).

Definition always_ok : Env := fun _ => mkOutcome true (JObj []) 5.

End AutopostFacts.

Module AutopostStart.
Import Autopost AutopostFacts.

(** C4, as amended: [start] does not clamp.  It succeeds only when
    [interval_sec] is an integer in [1, 86400] and [ttl_sec] an integer in
    [10, 604800]; an integer interval outside [1, 86400] makes it throw and
    leaves the manager as it was, and so does a missing or out-of-range
    [ttl_sec]. *)
Theorem start_validates_interval_and_ttl
    (env : Env) (a : StartArgs) (st : State) :
  (forall r st', start env a st = (Ok r, st') ->
     exists iv ttl,
       a_interval_sec a = JNum iv /\ 1 <= iv <= 86400 /\
       a_ttl_sec a = JNum ttl /\ 10 <= ttl <= 604800) /\
  (forall z, a_interval_sec a = JNum z -> z < 1 \/ 86400 < z ->
     exists m, start env a st = (Err m, st)) /\
  (nullish (a_ttl_sec a) = true \/
   (exists z, a_ttl_sec a = JNum z /\ (z < 10 \/ 604800 < z)) ->
     exists m, start env a st = (Err m, st)).
Proof.
  split; [|split].
  - intros r st' H. unfold start in H.
    destruct (start_job a st) as [j|m] eqn:Hj; [|discriminate].
    apply start_job_ok in Hj. destruct Hj as (H1 & H2 & H3 & H4).
    exists (intervalSec j), (ttlSec j). auto.
  - intros z Hz Hr. apply start_fails_with_job. intros j Hj.
    apply start_job_ok in Hj. destruct Hj as (H1 & H2 & _).
    rewrite Hz in H1. injection H1 as ->. lia.
  - intros H. apply start_fails_with_job. intros j Hj.
    apply start_job_ok in Hj. destruct Hj as (_ & _ & H3 & H4).
    destruct H as [H | (z & Hz & Hr)].
    + rewrite H3 in H. discriminate.
    + rewrite Hz in H3. injection H3 as ->. lia.
Qed.

Lemma start_validates_interval_and_ttl_witness :
  exists m,
    start always_ok (sample_args (JNum 0) (JNum 60)) init = (Err m, init).
Proof.
  apply (proj1 (proj2 (start_validates_interval_and_ttl always_ok
                         (sample_args (JNum 0) (JNum 60)) init)) 0).
  - reflexivity.
  - left. reflexivity.
Defined.

(** C4 as stated fails: with an interval of 0 (or 86401) and otherwise valid
    arguments no job starts, although the same call with interval 1 does. *)
Lemma start_does_not_clamp_interval :
  start always_ok (sample_args (JNum 0) (JNum 60)) init
    = (Err "must be >= 1", init) /\
  start always_ok (sample_args (JNum 86401) (JNum 60)) init
    = (Err "must be <= 86400", init) /\
  ~ (exists r st,
       start always_ok (sample_args (JNum 0) (JNum 60)) init = (Ok r, st)) /\
  (exists st,
     start always_ok (sample_args (JNum 1) (JNum 60)) init = (Ok 0%nat, st)).
Proof.
  split; [vm_compute; reflexivity|].
  split; [vm_compute; reflexivity|].
  split.
  - intros (r & st & H). vm_compute in H. discriminate H.
  - eexists. vm_compute. reflexivity.
Qed.

End AutopostStart.

(* ===================================================================== *)
(** * Autopost: the validity horizon is never extended *)
(* ===================================================================== *)

Module AutopostInv.
Import Autopost AutopostFacts.

(** The fields of a job object no code path writes after [start]. *)
Definition same_job (j j' : Job) : Prop :=
  name j' = name j /\ tool j' = tool j /\ args j' = args j /\
  validUntilUnix j' = validUntilUnix j.

Lemma same_job_refl j : same_job j j.
Proof. repeat split. Qed.

Lemma same_job_trans a b c : same_job a b -> same_job b c -> same_job a c.
Proof. unfold same_job. intuition congruence. Qed.

Lemma runArgs_same j j' : same_job j j' -> runArgs j' = runArgs j.
Proof. intros (_ & Ht & Ha & Hv). unfold runArgs. now rewrite Ht, Ha, Hv. Qed.

(** ** The heap *)

Lemma heap_get_set_same r j h : heap_get r (heap_set r j h) = Some j.
Proof.
  induction h as [|[r' j'] t IH]; simpl.
  - now rewrite Nat.eqb_refl.
  - destruct (Nat.eqb r r') eqn:E; simpl; rewrite ?E, ?Nat.eqb_refl; auto.
Qed.

Lemma heap_get_set_other r r' j h :
  r' <> r -> heap_get r' (heap_set r j h) = heap_get r' h.
Proof.
  intros Hn. induction h as [|[r1 j1] t IH]; simpl.
  - destruct (Nat.eqb_spec r' r); congruence.
  - destruct (Nat.eqb_spec r r1) as [->|H1]; simpl.
    + destruct (Nat.eqb_spec r' r1); congruence.
    + now rewrite IH.
Qed.

Lemma heap_set_length_present r j j0 h :
  heap_get r h = Some j0 -> List.length (heap_set r j h) = List.length h.
Proof.
  induction h as [|[r1 j1] t IH]; simpl; [discriminate|].
  destruct (Nat.eqb r r1); simpl; auto.
Qed.

Lemma heap_set_length_absent r j h :
  heap_get r h = None -> List.length (heap_set r j h) = S (List.length h).
Proof.
  induction h as [|[r1 j1] t IH]; simpl; [reflexivity|].
  destruct (Nat.eqb r r1); simpl; [discriminate|auto].
Qed.

(** ** What the published arguments carry *)

Lemma get_obj_set_same k v fs : get (JObj (obj_set k v fs)) k = v.
Proof.
  unfold get. induction fs as [|[k1 v1] r IH]; simpl.
  - now rewrite String.eqb_refl.
  - destruct (String.eqb k k1) eqn:E; simpl; rewrite ?E, ?String.eqb_refl;
      auto.
Qed.

Lemma assoc_delete_same k (fs : list (string * jsval)) :
  assoc k (obj_delete k fs) = None.
Proof.
  induction fs as [|[k1 v1] r IH]; simpl; [reflexivity|].
  destruct (String.eqb k k1) eqn:E; simpl; rewrite ?E; auto.
Qed.

Lemma assoc_set_other k k' v (fs : list (string * jsval)) :
  String.eqb k k' = false ->
  assoc k (obj_set k' v fs) = assoc k fs.
Proof.
  intros Hk. induction fs as [|[k1 v1] r IH]; simpl.
  - now rewrite Hk.
  - destruct (String.eqb_spec k' k1) as [->|H1]; simpl.
    + rewrite Hk. clear IH.
      induction r as [|[k2 v2] r IH]; simpl; [reflexivity|].
      destruct (String.eqb_spec k1 k2) as [->|H2]; simpl.
      * now rewrite Hk.
      * now rewrite IH.
    + now rewrite IH.
Qed.

Lemma safeCloneArgs_object a : exists fs, safeCloneArgs a = JObj fs.
Proof.
  unfold safeCloneArgs. destruct a; simpl; eauto.
Qed.

Definition allowed (t : string) : Prop := t = offer_post \/ t = rfq_post.

(** The arguments of a run: the job's horizon, and for an offer no ttl. *)
Lemma runArgs_horizon j :
  allowed (tool j) ->
  get (runArgs j) "valid_until_unix" = JNum (validUntilUnix j) /\
  (tool j = offer_post -> get (runArgs j) "ttl_sec" = JUndef).
Proof.
  intros Ha. unfold runArgs.
  destruct (safeCloneArgs_object (args j)) as [fs ->].
  destruct Ha as [Ht|Ht]; rewrite Ht; simpl.
  - split; [apply get_obj_set_same|]. intros _. unfold get.
    rewrite assoc_set_other by reflexivity. now rewrite assoc_delete_same.
  - split; [apply get_obj_set_same|]. discriminate.
Qed.

(** ** The invariant of reachable managers *)

Record Inv (st : State) : Prop := mkInv {
  inv_calls : forall c, In c (calls st) ->
    exists j, heap_get (c_job c) (heap st) = Some j /\
              c_tool c = tool j /\ c_args c = runArgs j /\
              c_at c / 1000 < validUntilUnix j;
  inv_refs : forall r j, heap_get r (heap st) = Some j ->
    (r < List.length (heap st))%nat;
  inv_tools : forall r j, heap_get r (heap st) = Some j -> allowed (tool j)
}.

(** How a later state extends an earlier one. *)
Record Ext (st st' : State) : Prop := mkExt {
  ext_now : now st <= now st';
  ext_calls : exists new, calls st' = (calls st ++ new)%list /\
                forall c, In c new -> now st <= c_at c;
  ext_heap : forall r j, heap_get r (heap st) = Some j ->
    exists j', heap_get r (heap st') = Some j' /\ same_job j j'
}.

Lemma Ext_refl st : Ext st st.
Proof.
  split; [lia| |].
  - exists []. rewrite app_nil_r. split; [reflexivity|]. intros c [].
  - intros r j H. exists j. split; [exact H|apply same_job_refl].
Qed.

Lemma Ext_trans a b c : Ext a b -> Ext b c -> Ext a c.
Proof.
  intros [N1 (n1 & C1 & T1) H1] [N2 (n2 & C2 & T2) H2]. split; [lia| |].
  - exists (n1 ++ n2)%list. rewrite C2, C1, app_assoc. split; [reflexivity|].
    intros x Hx. apply in_app_or in Hx. destruct Hx as [Hx|Hx].
    + now apply T1.
    + specialize (T2 x Hx). lia.
  - intros r j Hj. destruct (H1 r j Hj) as (j1 & Hj1 & S1).
    destruct (H2 r j1 Hj1) as (j2 & Hj2 & S2).
    exists j2. split; [exact Hj2|]. eapply same_job_trans; eauto.
Qed.

(** Rewriting a job object in place, the map and the timers. *)
Lemma inv_update st r j j' jobs' timers' :
  Inv st -> heap_get r (heap st) = Some j -> same_job j j' ->
  let st' := mkState (now st) (heap_set r j' (heap st)) jobs' timers'
               (calls st) in
  Inv st' /\ Ext st st'.
Proof.
  intros [Ic Ir It] Hj Hs st'.
  assert (Hget : forall r0 j0, heap_get r0 (heap st) = Some j0 ->
            exists j1, heap_get r0 (heap st') = Some j1 /\ same_job j0 j1).
  { intros r0 j0 H0. simpl. destruct (Nat.eq_dec r0 r) as [->|Hne].
    - rewrite heap_get_set_same. exists j'. split; [reflexivity|]. congruence.
    - rewrite heap_get_set_other by assumption. exists j0.
      split; [exact H0|apply same_job_refl]. }
  assert (Hback : forall r0 j1, heap_get r0 (heap st') = Some j1 ->
            exists j0, heap_get r0 (heap st) = Some j0 /\ same_job j0 j1).
  { intros r0 j1 H1. simpl in H1. destruct (Nat.eq_dec r0 r) as [->|Hne].
    - rewrite heap_get_set_same in H1. injection H1 as <-. eauto.
    - rewrite heap_get_set_other in H1 by assumption. exists j1.
      split; [exact H1|apply same_job_refl]. }
  split; split.
  - intros c Hc. destruct (Ic c Hc) as (j0 & H0 & Ht & Ha & Hv).
    destruct (Hget _ _ H0) as (j1 & H1 & S1). exists j1.
    split; [exact H1|]. rewrite (runArgs_same _ _ S1).
    destruct S1 as (_ & St & _ & Sv). rewrite St, Sv. auto.
  - intros r0 j1 H1. destruct (Hback _ _ H1) as (j0 & H0 & _).
    simpl. rewrite (heap_set_length_present r j' j (heap st) Hj). eauto.
  - intros r0 j1 H1. destruct (Hback _ _ H1) as (j0 & H0 & (_ & St & _)).
    unfold allowed. rewrite St. exact (It _ _ H0).
  - simpl. lia.
  - exists []. simpl. rewrite app_nil_r. split; [reflexivity|]. intros c [].
  - exact Hget.
Qed.

(** Letting time pass, or a publish of the job object [r] before its
    horizon. *)
Lemma inv_publish st r j t1 :
  Inv st -> heap_get r (heap st) = Some j ->
  now st / 1000 < validUntilUnix j -> now st <= t1 ->
  let st' := mkState t1 (heap st) (jobs st) (timers st)
               (calls st ++ [mkCall r (tool j) (runArgs j) (now st)])%list in
  Inv st' /\ Ext st st'.
Proof.
  intros [Ic Ir It] Hj Hv Ht st'. split; split; simpl; auto.
  - intros c Hc. apply in_app_or in Hc. destruct Hc as [Hc|[<-|[]]]; auto.
    simpl. exists j. auto.
  - exists [mkCall r (tool j) (runArgs j) (now st)]. split; [reflexivity|].
    intros c [<-|[]]. simpl. lia.
  - intros r0 j0 H0. exists j0. split; [exact H0|apply same_job_refl].
Qed.

Lemma inv_frame st t1 jobs' timers' :
  Inv st -> now st <= t1 ->
  let st' := mkState t1 (heap st) jobs' timers' (calls st) in
  Inv st' /\ Ext st st'.
Proof.
  intros [Ic Ir It] Ht st'. split; split; simpl; auto.
  - exists []. rewrite app_nil_r. split; [reflexivity|]. intros c [].
  - intros r0 j0 H0. exists j0. split; [exact H0|apply same_job_refl].
Qed.

(** A fresh job object. *)
Lemma inv_alloc st j :
  Inv st -> allowed (tool j) ->
  let r := List.length (heap st) in
  let st' := mkState (now st) (heap_set r j (heap st)) (jobs st) (timers st)
               (calls st) in
  Inv st' /\ Ext st st' /\ heap_get r (heap st') = Some j.
Proof.
  intros [Ic Ir It] Ha r st'.
  assert (Hfree : heap_get r (heap st) = None).
  { destruct (heap_get r (heap st)) as [j0|] eqn:E; [|reflexivity].
    apply Ir in E. unfold r in E. lia. }
  assert (Hold : forall r0 j0, heap_get r0 (heap st) = Some j0 ->
            heap_get r0 (heap st') = Some j0).
  { intros r0 j0 H0. simpl. rewrite heap_get_set_other; [exact H0|].
    intros ->. congruence. }
  assert (Hnew : forall r0 j0, heap_get r0 (heap st') = Some j0 ->
            (r0 = r /\ j0 = j) \/ heap_get r0 (heap st) = Some j0).
  { intros r0 j0 H0. simpl in H0. destruct (Nat.eq_dec r0 r) as [->|Hne].
    - rewrite heap_get_set_same in H0. injection H0 as <-. auto.
    - rewrite heap_get_set_other in H0 by assumption. auto. }
  split; [split|split; [split|]]; simpl.
  - intros c Hc. destruct (Ic c Hc) as (j0 & H0 & Hrest).
    exists j0. split; [now apply Hold|exact Hrest].
  - intros r0 j0 H0. rewrite (heap_set_length_absent _ _ _ Hfree).
    destruct (Hnew _ _ H0) as [[-> _]|H1]; [unfold r; lia|].
    apply Ir in H1. lia.
  - intros r0 j0 H0. destruct (Hnew _ _ H0) as [[_ ->]|H1]; eauto.
  - lia.
  - exists []. rewrite app_nil_r. split; [reflexivity|]. intros c [].
  - intros r0 j0 H0. exists j0. split; [now apply Hold|apply same_job_refl].
  - apply heap_get_set_same.
Qed.

End AutopostInv.

Module AutopostSteps.
Import Autopost AutopostFacts AutopostInv.

Section WithEnv.

Variable env : Env.

Lemma expire_step st r j :
  Inv st -> heap_get r (heap st) = Some j ->
  Inv (expire r j st) /\ Ext st (expire r j st).
Proof.
  intros Hi Hj. unfold expire.
  apply (inv_update st r j _ _ _ Hi Hj). repeat split.
Qed.

Lemma runOnce_step st r :
  Inv st -> Inv (runOnce env r st) /\ Ext st (runOnce env r st).
Proof.
  intros Hi. unfold runOnce.
  destruct (heap_get r (heap st)) as [j|] eqn:Hj; [|split; [exact Hi|apply Ext_refl]].
  destruct (Z.leb_spec (validUntilUnix j) (now st / 1000)) as [Hle|Hlt].
  - now apply expire_step.
  - set (o := env (List.length (calls st))).
    set (t1 := now st + Z.max 0 (o_elapsed o)).
    destruct (inv_publish st r j t1 Hi Hj Hlt) as [Hi1 He1]; [unfold t1; lia|].
    match type of Hi1 with Inv ?s => set (st1 := s) in * end.
    destruct (inv_update st1 r j (set_ran j (now st) (o_ok o))
                (jobs st) (timers st) Hi1 Hj) as [Hi2 He2];
      [repeat split|].
    split; [exact Hi2|]. eapply Ext_trans; eauto.
Qed.

Lemma onInterval_step st r :
  Inv st -> Inv (onInterval r st) /\ Ext st (onInterval r st).
Proof.
  intros Hi. unfold onInterval.
  destruct (heap_get r (heap st)) as [j|] eqn:Hj; [|split; [exact Hi|apply Ext_refl]].
  destruct (timer_live _ _); [|split; [exact Hi|apply Ext_refl]].
  destruct (validUntilUnix j <=? now st / 1000).
  - now apply expire_step.
  - apply (inv_update st r j _ _ _ Hi Hj). repeat split.
Qed.

Lemma runQueued_step st r :
  Inv st -> Inv (runQueued env r st) /\ Ext st (runQueued env r st).
Proof.
  intros Hi. unfold runQueued.
  destruct (heap_get r (heap st)) as [j|] eqn:Hj; [|split; [exact Hi|apply Ext_refl]].
  destruct (queued j) as [|q]; [split; [exact Hi|apply Ext_refl]|].
  destruct (inv_update st r j (set_queued j q) (jobs st) (timers st) Hi Hj)
    as [Hi1 He1]; [repeat split|].
  match type of Hi1 with Inv ?s => destruct (runOnce_step s r Hi1) as [Hi2 He2] end.
  split; [exact Hi2|]. eapply Ext_trans; eauto.
Qed.

Lemma start_job_allowed a st j : start_job a st = Ok j -> allowed (tool j).
Proof.
  unfold start_job.
  destruct (String.eqb _ ""); [discriminate|].
  destruct (map_has _ _); [discriminate|].
  destruct (negb _) eqn:Ht; [discriminate|].
  destruct (clampInt _ _ _); [|discriminate].
  destruct (if nullish _ then _ else _) as [[ttl|]|]; try discriminate.
  destruct (ttl =? 0); [discriminate|].
  destruct (negb (isObject _)); [discriminate|].
  destruct (if nullish (a_valid_until_unix a) then _ else _) as [vu|];
    [|discriminate].
  destruct (vu <=? _); [discriminate|].
  destruct (_ <? 10); [discriminate|].
  destruct (_ <? _); [discriminate|].
  intros [= <-]. simpl. apply negb_false_iff, orb_prop in Ht.
  destruct Ht as [Ht|Ht]; apply String.eqb_eq in Ht; [left|right]; exact Ht.
Qed.

Lemma start_step st a :
  Inv st -> Inv (snd (start env a st)) /\ Ext st (snd (start env a st)).
Proof.
  intros Hi. unfold start.
  destruct (start_job a st) as [j|m] eqn:Hs; [|split; [exact Hi|apply Ext_refl]].
  destruct (inv_alloc st j Hi (start_job_allowed _ _ _ Hs)) as (Hi1 & He1 & _).
  match type of Hi1 with Inv ?s => set (st1 := s) in * end.
  destruct (runOnce_step st1 (List.length (heap st)) Hi1) as [Hi2 He2].
  set (st2 := runOnce env (List.length (heap st)) st1) in *.
  destruct (heap_get (List.length (heap st)) (heap st2)) as [j1|] eqn:Hj1.
  - simpl.
    destruct (inv_update st2 (List.length (heap st)) j1
                (set_timer j1 (Some (List.length (heap st))))
                (map_set (name j1) (List.length (heap st)) (jobs st2))
                (timers st2 ++ [List.length (heap st)])%list Hi2 Hj1)
      as [Hi3 He3]; [repeat split|].
    split; [exact Hi3|]. eapply Ext_trans; [|exact He3].
    eapply Ext_trans; eauto.
  - simpl. split; [exact Hi2|]. eapply Ext_trans; eauto.
Qed.

Lemma stop_step st nm :
  Inv st -> Inv (snd (stop nm st)) /\ Ext st (snd (stop nm st)).
Proof.
  intros Hi. unfold stop.
  destruct (String.eqb _ ""); [split; [exact Hi|apply Ext_refl]|].
  destruct (map_get _ _) as [r|]; [|split; [exact Hi|apply Ext_refl]].
  destruct (heap_get r (heap st)) as [j|]; [|split; [exact Hi|apply Ext_refl]].
  simpl. apply (inv_frame st (now st) _ _ Hi). lia.
Qed.

Lemma step_ok st ev :
  Inv st -> Inv (step env ev st) /\ Ext st (step env ev st).
Proof.
  intros Hi. destruct ev; simpl.
  - now apply start_step.
  - now apply stop_step.
  - now apply onInterval_step.
  - now apply runQueued_step.
  - apply (inv_frame st _ _ _ Hi). lia.
Qed.

Lemma run_ok evs st :
  Inv st -> Inv (run env evs st) /\ Ext st (run env evs st).
Proof.
  revert st. induction evs as [|ev r IH]; intros st Hi; simpl.
  - split; [exact Hi|apply Ext_refl].
  - destruct (step_ok st ev Hi) as [Hi1 He1].
    destruct (IH _ Hi1) as [Hi2 He2].
    split; [exact Hi2|]. eapply Ext_trans; eauto.
Qed.

Lemma init_ok : Inv init.
Proof. split; simpl; [intros c []| |]; discriminate. Qed.

Lemma run_app evs1 evs2 st :
  run env (evs1 ++ evs2)%list st = run env evs2 (run env evs1 st).
Proof. revert st. induction evs1; intros st; simpl; auto. Qed.

Lemma map_has_delete {V} k (m : jmap V) : map_has k (map_delete k m) = false.
Proof.
  unfold map_has. induction m as [|[k1 v1] r IH]; simpl; [reflexivity|].
  destruct (String.eqb k k1) eqn:E; simpl; rewrite ?E; auto.
Qed.

Lemma timer_dead_after_clear h ts : timer_live h (clearInterval h ts) = false.
Proof.
  destruct h as [x|]; simpl; [|reflexivity].
  induction ts as [|y t IH]; simpl; [reflexivity|].
  destruct (Nat.eqb x y) eqn:E; simpl; rewrite ?E; auto.
Qed.

End WithEnv.

End AutopostSteps.

Module AutopostHorizon.
Import Autopost AutopostFacts AutopostInv AutopostSteps.

(** C2: in every manager reachable by starts, stops, interval ticks, queued
    runs and the passing of time, each publish carries as
    [valid_until_unix] the horizon of the job object that issued it (and no
    [ttl_sec] for an offer), and was issued before that horizon; the horizon
    of a job object never changes; a run or a live interval tick at or after
    the horizon removes the job, clears its timer and publishes nothing; and
    from then on the job never publishes again. *)
Theorem autopost_horizon_fixed (env : Env) (evs : list Event) :
  let st := run env evs init in
  (forall c, In c (calls st) ->
     exists j, heap_get (c_job c) (heap st) = Some j /\
       c_tool c = tool j /\
       get (c_args c) "valid_until_unix" = JNum (validUntilUnix j) /\
       (c_tool c = offer_post -> get (c_args c) "ttl_sec" = JUndef) /\
       c_at c / 1000 < validUntilUnix j) /\
  (forall r j evs2, heap_get r (heap st) = Some j ->
     exists j', heap_get r (heap (run env evs2 st)) = Some j' /\
       validUntilUnix j' = validUntilUnix j) /\
  (forall r j, heap_get r (heap st) = Some j ->
     validUntilUnix j <= now st / 1000 ->
     let gone st' :=
       calls st' = calls st /\ map_has (name j) (jobs st') = false /\
       timer_live (timer j) (timers st') = false in
     gone (runOnce env r st) /\
     (timer_live (timer j) (timers st) = true -> gone (onInterval r st)) /\
     (queued j <> O -> gone (runQueued env r st))) /\
  (forall r j evs2, heap_get r (heap st) = Some j ->
     validUntilUnix j <= now st / 1000 ->
     forall c, In c (calls (run env evs2 st)) -> c_job c = r ->
       In c (calls st)).
Proof.
  intros st.
  destruct (run_ok env evs init init_ok) as [Hi _]. fold st in Hi.
  split; [|split; [|split]].
  - intros c Hc. destruct (inv_calls st Hi c Hc) as (j & Hj & Ht & Ha & Hv).
    exists j. split; [exact Hj|]. split; [exact Ht|].
    destruct (runArgs_horizon j (inv_tools st Hi _ _ Hj)) as [H1 H2].
    rewrite Ha, Ht. auto.
  - intros r j evs2 Hj. destruct (run_ok env evs2 st Hi) as [_ He].
    destruct (ext_heap _ _ He r j Hj) as (j' & Hj' & (_ & _ & _ & Hv)). eauto.
  - intros r j Hj Hv gone.
    assert (Hexp : forall st0 j0, calls st0 = calls st ->
              name j0 = name j -> timer j0 = timer j ->
              gone (expire r j0 st0)).
    { intros st0 j0 Hc Hn Ht. unfold gone, expire. simpl.
      rewrite Hn, Ht. split; [exact Hc|].
      split; [apply map_has_delete|apply timer_dead_after_clear]. }
    apply Z.leb_le in Hv. split; [|split].
    + unfold runOnce. rewrite Hj, Hv. now apply Hexp.
    + intros Hl. unfold onInterval. rewrite Hj, Hl, Hv. now apply Hexp.
    + intros Hq. unfold runQueued. rewrite Hj.
      destruct (queued j) as [|q]; [congruence|].
      unfold runOnce. simpl. rewrite heap_get_set_same. simpl. rewrite Hv.
      now apply Hexp.
  - intros r j evs2 Hj Hv c Hc Hr.
    destruct (run_ok env evs2 st Hi) as [Hi2 He].
    destruct (ext_calls _ _ He) as (new & Hnew & Hat).
    rewrite Hnew in Hc. apply in_app_or in Hc. destruct Hc as [Hc|Hc];
      [exact Hc|exfalso].
    assert (Hin : In c (calls (run env evs2 st)))
      by (rewrite Hnew; apply in_or_app; now right).
    destruct (inv_calls _ Hi2 c Hin) as (j2 & Hj2 & _ & _ & Hlt).
    destruct (ext_heap _ _ He r j Hj) as (j' & Hj' & (_ & _ & _ & Hvu)).
    rewrite Hr, Hj' in Hj2. injection Hj2 as <-.
    specialize (Hat c Hc).
    pose proof (Z.div_le_mono (now st) (c_at c) 1000 ltac:(lia) Hat). lia.
Qed.

(** A job with a horizon of ten seconds, eleven seconds later. *)
Definition expired_run : list Event :=
  [EStart (sample_args (JNum 1) (JNum 10)); EWait 11000].

Lemma autopost_horizon_fixed_witness :
  let st := run always_ok expired_run init in
  calls (onInterval 0 st) = calls st /\
  map_has "job1" (jobs (onInterval 0 st)) = false /\
  timer_live (Some 0%nat) (timers (onInterval 0 st)) = false.
Proof.
  refine (proj1 (proj2 (proj1 (proj2 (proj2
            (autopost_horizon_fixed always_ok expired_run)))
            0%nat _ eq_refl _)) eq_refl).
  apply Z.leb_le. vm_compute. reflexivity.
Defined.

End AutopostHorizon.

(* ===================================================================== *)
(** * Receipts store: lookups *)
(* ===================================================================== *)

Module ReceiptsFacts.
Import Receipts JSFacts.

Lemma sql_eqb_text (x : sqlval) (s : string) :
  sql_eqb x (SText s) = true -> x = SText s.
Proof.
  destruct x; simpl; try discriminate.
  intros H. apply String.eqb_eq in H. now subst.
Qed.

Lemma select_by_found (c : Col) (v : sqlval) (db : DB) (r : Row) :
  select_by c v db = Some r -> In r db /\ sql_eqb (col c r) v = true.
Proof.
  induction db as [|x t IH]; simpl; [discriminate|].
  destruct (sql_eqb (col c x) v) eqn:E.
  - intros [= <-]. auto.
  - intros H. destruct (IH H). auto.
Qed.


End ReceiptsFacts.

Module ReceiptsLookup.
Import Receipts JSFacts ReceiptsFacts.




End ReceiptsLookup.

(* ===================================================================== *)
(** * Receipts store: merging a patch *)
(* ===================================================================== *)

Module ReceiptsMergeFacts.
Import Receipts JSFacts ReceiptsFacts.


Lemma rtrim_no_ws (s : string) :
  all_chars (fun c => negb (is_ws c)) s = true -> rtrim s = s.
Proof.
  induction s as [|c r IH]; simpl; [reflexivity|].
  intros H. apply andb_prop in H. destruct H as [Hc Hr].
  rewrite (IH Hr). apply negb_true_iff in Hc. rewrite Hc.
  now destruct r.
Qed.

Lemma ltrim_no_ws (s : string) :
  all_chars (fun c => negb (is_ws c)) s = true -> ltrim s = s.
Proof.
  destruct s as [|c r]; simpl; [reflexivity|].
  intros H. apply andb_prop in H. destruct H as [Hc _].
  apply negb_true_iff in Hc. now rewrite Hc.
Qed.



(** ** Association lists *)




Lemma entries_from_seen (k : string) (seen : list string)
                        (fs : list (string * jsval)) :
  existsb (String.eqb k) seen = true -> assoc k (entries_from seen fs) = None.
Proof.
  revert seen. induction fs as [|[k1 v1] r IH]; intros seen Hs; simpl;
    [reflexivity|].
  destruct (existsb (String.eqb k1) seen) eqn:H1; [now apply IH|].
  simpl. destruct (String.eqb_spec k k1) as [->|Hk]; [congruence|].
  apply IH. simpl. rewrite Hs. now rewrite orb_true_r.
Qed.


(** Every key of [entries_from seen fs] occurs once. *)
Inductive uniq : list (string * jsval) -> Prop :=
| uniq_nil : uniq []
| uniq_cons k v r : assoc k r = None -> uniq r -> uniq ((k, v) :: r).

Lemma entries_from_uniq (seen : list string) (fs : list (string * jsval)) :
  uniq (entries_from seen fs).
Proof.
  revert seen. induction fs as [|[k1 v1] r IH]; intros seen; simpl;
    [constructor|].
  destruct (existsb (String.eqb k1) seen); [apply IH|].
  constructor; [|apply IH].
  apply entries_from_seen. simpl. now rewrite String.eqb_refl.
Qed.


End ReceiptsMergeFacts.

Module ReceiptsMerge.
Import Receipts JSFacts ReceiptsFacts ReceiptsMergeFacts.


(** What a column holds in a table the store wrote. *)
Definition val_wf (k : Kind) (v : sqlval) : Prop :=
  match k with
  | KKey => exists s, v = SText s
  | KText => v = SNull \/ exists s, v = SText s
  | KInt => v = SNull \/ exists n, v = SInt n
  | KHex => v = SNull \/ exists s, v = SText s /\ is_lower_hex 64 s = true
  | KStamp => exists n, v = SInt n
  end.

Definition row_wf (r : Row) : Prop := forall c, val_wf (col_kind c) (col c r).

Definition base_of (r : Row) : list (string * jsval) :=
  List.map (fun c => (col_name c, js_of_sql (col c r))) all_cols.



Section WithNumber.

Variable StringToInt : string -> option Z.



(** Whatever is coerced for a column has the column's type. *)
Lemma coerce_typed (c : Col) (next : jsval) (x : coerced) :
  coerce_col StringToInt c next = Ok x ->
  match col_kind c with
  | KKey => True
  | KStamp => to_sql x = SNull \/ exists n, to_sql x = SInt n
  | k => val_wf k (to_sql x)
  end.
Proof.
  unfold coerce_col. destruct (col_kind c); simpl; [auto| | | |].
  - destruct (get next (col_name c)); intros [= <-]; simpl; eauto.
  - unfold coerceInt. destruct (get next (col_name c)); try discriminate;
      try (intros [= <-]; simpl; eauto);
      destruct (StringToInt _); try discriminate; intros [= <-]; simpl; eauto.
  - unfold coerceHex32.
    destruct (get next (col_name c)); try (intros [= <-]; simpl; now eauto);
      match goal with
      | |- context [is_lower_hex 64 ?s] =>
          destruct (is_lower_hex 64 s) eqn:E; [|discriminate];
          intros [= <-]; simpl; eauto
      end.
  - unfold coerceInt. destruct (get next (col_name c)); try discriminate;
      try (intros [= <-]; simpl; eauto);
      destruct (StringToInt _); try discriminate; intros [= <-]; simpl; eauto.
Qed.

(** The row [build_row] returns holds the coerced value of every column. *)
Lemma build_row_inv (id : string) (next : jsval) (row : Row) :
  build_row StringToInt id next = Ok row ->
  trade_id row = SText id /\
  forall c, col_kind c <> KKey ->
    exists x, coerce_col StringToInt c next = Ok x /\ col c row = to_sql x.
Proof.
  unfold build_row, bindc. intros H.
  repeat match type of H with
         | match ?e with Ok _ => _ | Err _ => _ end = _ =>
             let E := fresh "E" in destruct e eqn:E; [|discriminate H]
         end.
  injection H as <-. split; [reflexivity|].
  intros c Hc. destruct c; simpl; try (now elim Hc); eauto.
Qed.


(** The merged row the statement leaves for an existing [trade_id]. *)
Definition merged (old r : Row) : Row :=
  mkRow (trade_id old) (role r) (rfq_channel r) (swap_channel r)
    (maker_peer r) (taker_peer r) (btc_sats r) (usdt_amount r)
    (sol_mint r) (sol_program_id r) (sol_recipient r) (sol_refund r)
    (sol_escrow_pda r) (sol_vault_ata r) (sol_refund_after_unix r)
    (ln_invoice_bolt11 r) (ln_payment_hash_hex r) (ln_preimage_hex r)
    (state r) (created_at old) (updated_at r) (last_error r).

Lemma select_after_upsert (id : string) (old r : Row) (db : DB) :
  select_by c_trade_id (SText id) db = Some old ->
  trade_id r = SText id ->
  select_by c_trade_id (SText id) (upsert_row r db) = Some (merged old r).
Proof.
  intros Hs Hr. induction db as [|x t IH]; simpl in *; [discriminate|].
  rewrite Hr.
  destruct (sql_eqb (trade_id x) (SText id)) eqn:E.
  - injection Hs as ->. simpl. now rewrite E.
  - simpl. rewrite E. now apply IH.
Qed.

Lemma select_after_insert (id : string) (r : Row) (db : DB) :
  select_by c_trade_id (SText id) db = None ->
  trade_id r = SText id ->
  select_by c_trade_id (SText id) (upsert_row r db) = Some r.
Proof.
  intros Hs Hr. induction db as [|x t IH]; simpl in *.
  - rewrite Hr. simpl. now rewrite String.eqb_refl.
  - rewrite Hr.
    destruct (sql_eqb (trade_id x) (SText id)) eqn:E; [discriminate|].
    simpl. rewrite E. now apply IH.
Qed.



Lemma patch_entries_uniq (p : jsval) : uniq (patch_entries p).
Proof. destruct p; simpl; try constructor. apply entries_from_uniq. Qed.

(** Every row of a table the store wrote is well typed. *)
Lemma reachable_wf (db : DB) :
  reachable StringToInt db -> Forall row_wf db.
Proof.
  induction 1 as [|db tradeId patch now db' row Hr IH Hu]; [constructor|].
  unfold upsertTrade in Hu.
  destruct (getTrade tradeId db) as [existing|] eqn:Hg; [|discriminate].
  destruct (build_row _ _ _) as [r|] eqn:Hb; [|discriminate].
  unfold run_upsert in Hu.
  destruct (is_null (created_at r) || is_null (updated_at r)) eqn:Hn;
    [discriminate|].
  injection Hu as <- _.
  apply orb_false_elim in Hn. destruct Hn as [Hn1 Hn2].
  apply build_row_inv in Hb. destruct Hb as [Hid Hcols].
  assert (Hwf : row_wf r).
  { intros c. destruct (col_kind c) eqn:Hk.
    - destruct c; try discriminate Hk. simpl. rewrite Hid. eauto.
    - destruct (Hcols c) as (x & Hx & ->); [congruence|].
      apply coerce_typed in Hx. now rewrite Hk in Hx.
    - destruct (Hcols c) as (x & Hx & ->); [congruence|].
      apply coerce_typed in Hx. now rewrite Hk in Hx.
    - destruct (Hcols c) as (x & Hx & ->); [congruence|].
      apply coerce_typed in Hx. now rewrite Hk in Hx.
    - destruct (Hcols c) as (x & Hx & Hc); [congruence|].
      apply coerce_typed in Hx. rewrite Hk in Hx. rewrite <- Hc in Hx.
      destruct Hx as [Hx|Hx]; [|exact Hx].
      destruct c; try discriminate Hk; simpl in Hx;
        [rewrite Hx in Hn1 | rewrite Hx in Hn2]; discriminate. }
  clear Hcols Hg Hr. induction IH as [|x t Hx Ht IHt]; simpl.
  - constructor; [exact Hwf|constructor].
  - destruct (sql_eqb (trade_id x) (trade_id r)).
    + constructor; [|exact Ht].
      intros c. specialize (Hwf c). specialize (Hx c).
      destruct c; simpl in *; assumption.
    + constructor; [exact Hx|exact IHt].
Qed.

End WithNumber.

End ReceiptsMerge.

Module ReceiptsUpsert.
Import Receipts JSFacts ReceiptsFacts ReceiptsMergeFacts ReceiptsMerge.


Section WithNumber.

Variable StringToInt : string -> option Z.






End WithNumber.

(** The scenario of the spec: a trade is stored as [ln_paid] with its
    preimage, then patched with the empty object. *)
Definition no_numbers : string -> option Z := fun _ => None.

Definition preimage_H : string :=
  "00112233445566778899aabbccddeeff00112233445566778899aabbccddeeff".


Definition row_paid : Row :=
  mkRow (SText "t1") SNull SNull SNull SNull SNull SNull SNull SNull SNull
    SNull SNull SNull SNull SNull SNull SNull (SText preimage_H)
    (SText "ln_paid") (SInt 1000) (SInt 1000) SNull.

Definition db_paid : DB := [row_paid].





End ReceiptsUpsert.

(* ===================================================================== *)
(** * Settlement driver: roles *)
(* ===================================================================== *)

Module Roles.
Import TradeAuto JSFacts.

(** The first truthy value of a chain [a || b || ... || '']. *)
Fixpoint first_truthy (l : list jsval) : jsval :=
  match l with
  | [] => JStr ""
  | v :: r => if truthy v then v else first_truthy r
  end.

(** A signer as the driver compares it: trimmed and lowercased. *)
Definition norm_signer (v : jsval) : string := toLowerCase (trim (toStr v)).

Lemma andb3_nonempty (a b : string) :
  negb (String.eqb a "") && negb (String.eqb b "") && String.eqb b a = true
  <-> a <> "" /\ b = a.
Proof.
  split.
  - intros H. apply andb_prop in H. destruct H as [H H3].
    apply andb_prop in H. destruct H as [H1 H2].
    apply negb_true_iff, String.eqb_neq in H1. apply String.eqb_eq in H3. auto.
  - intros [H1 ->]. apply String.eqb_neq in H1.
    now rewrite H1, String.eqb_refl.
Qed.

(** C3, as amended: the local peer is maker iff it is known and equals the
    signer of terms when terms carry one, else the signer of the quote; it is
    taker iff it is known and equals the first signer present among accept,
    quote_accept and rfq, or the trade is one of its own RFQs.  So the signer
    of the quote decides the maker only when terms carry no signer. *)
Theorem roles_follow_first_signer
    (localPeer tradeId : string) (myRfqTradeIds : jset)
    (termsEnv quoteEnv acceptEnv quoteAcceptEnv rfqEnv : jsval) :
  (iAmMaker localPeer termsEnv quoteEnv = true <->
     localPeer <> "" /\
     norm_signer (first_truthy [get termsEnv "signer"; get quoteEnv "signer"])
       = localPeer) /\
  (iAmTaker localPeer myRfqTradeIds tradeId acceptEnv quoteAcceptEnv rfqEnv
     = true <->
     (localPeer <> "" /\
      norm_signer (first_truthy [get acceptEnv "signer";
                                 get quoteAcceptEnv "signer";
                                 get rfqEnv "signer"]) = localPeer) \/
     set_has tradeId myRfqTradeIds = true) /\
  (truthy (get termsEnv "signer") = false ->
   truthy (get quoteEnv "signer") = true ->
     (iAmMaker localPeer termsEnv quoteEnv = true <->
        localPeer <> "" /\ norm_signer (get quoteEnv "signer") = localPeer)) /\
  (truthy (get termsEnv "signer") = true ->
     (iAmMaker localPeer termsEnv quoteEnv = true <->
        localPeer <> "" /\ norm_signer (get termsEnv "signer") = localPeer)).
Proof.
  assert (Hm : iAmMaker localPeer termsEnv quoteEnv = true <->
               localPeer <> "" /\
               norm_signer (first_truthy [get termsEnv "signer";
                                          get quoteEnv "signer"]) = localPeer).
  { unfold iAmMaker. rewrite andb3_nonempty.
    unfold makerSigner, norm_signer, jor. simpl.
    destruct (truthy (get termsEnv "signer"));
      [|destruct (truthy (get quoteEnv "signer"))]; reflexivity. }
  split; [exact Hm|]. split.
  - unfold iAmTaker. rewrite orb_true_iff, andb3_nonempty.
    unfold takerSigner, norm_signer, jor. simpl.
    destruct (truthy (get acceptEnv "signer"));
      [|destruct (truthy (get quoteAcceptEnv "signer"));
        [|destruct (truthy (get rfqEnv "signer"))]]; reflexivity.
  - split.
    + intros Ht Hq. rewrite Hm. simpl. now rewrite Ht, Hq.
    + intros Ht. rewrite Hm. simpl. now rewrite Ht.
Qed.

Definition peer_a : string :=
  "aaaaaaaaaaaaaaaaaaaaaaaaaaaaaaaaaaaaaaaaaaaaaaaaaaaaaaaaaaaaaaaa".
Definition peer_b : string :=
  "bbbbbbbbbbbbbbbbbbbbbbbbbbbbbbbbbbbbbbbbbbbbbbbbbbbbbbbbbbbbbbbb".

Definition signed_by (p : string) : jsval := JObj [("signer", JStr p)].

Lemma roles_follow_first_signer_witness :
  iAmMaker peer_b JNull (signed_by peer_b) = true <->
  peer_b <> "" /\ norm_signer (get (signed_by peer_b) "signer") = peer_b.
Proof.
  apply (proj1 (proj2 (proj2 (roles_follow_first_signer peer_b "t1" []
                                JNull (signed_by peer_b) JNull JNull JNull))));
    reflexivity.
Defined.

(** C3 as stated fails.  The quote is signed by the local peer but the terms
    by someone else: the local peer is not treated as maker.  And the signer
    of the RFQ alone makes the local peer taker, with no accept, no
    quote_accept and the trade not among its own RFQs. *)
Lemma roles_are_not_disjunctions :
  (toStr (get (signed_by peer_b) "signer") = peer_b /\
   iAmMaker peer_b (signed_by peer_a) (signed_by peer_b) = false) /\
  (toStr (get JNull "signer") <> peer_b /\
   set_has "t1" [] = false /\
   iAmTaker peer_b [] "t1" JNull JNull (signed_by peer_b) = true).
Proof.
  repeat split; try reflexivity. discriminate.
Qed.

End Roles.

(* ===================================================================== *)
(** * Settlement driver: reasoning about a tick *)
(* ===================================================================== *)

Module DriverLogic.
Import TradeAuto JSFacts.

(** ** Running a computation *)

Lemma run_bind {A B} (c : M A) (k : A -> M B) (w : World) :
  bind c k w = k (fst (c w)) (snd (c w)).
Proof. unfold bind. now destruct (c w). Qed.

Lemma run_runTool env tool args w :
  runTool env tool args w =
    (if o_ok (env (List.length (w_calls w)))
     then Ok (o_out (env (List.length (w_calls w)))) else Err "rejected",
     mkWorld (w_mgr w)
       (w_now w + Z.max 0 (o_elapsed (env (List.length (w_calls w)))))
       (w_calls w ++ [mkCall tool args
                        (o_ok (env (List.length (w_calls w))))])%list).
Proof. reflexivity. Qed.

(** ** Which calls a computation adds *)

(** Every call the computation adds to the record satisfies [P]. *)
Definition emits {A} (P : Call -> Prop) (c : M A) : Prop :=
  forall w, exists new,
    w_calls (snd (c w)) = (w_calls w ++ new)%list /\ Forall P new.

Lemma emits_silent {A} (P : Call -> Prop) (c : M A) :
  (forall w, w_calls (snd (c w)) = w_calls w) -> emits P c.
Proof.
  intros H w. exists []. rewrite app_nil_r. split; [apply H|constructor].
Qed.

Lemma emits_ret {A} P (a : A) : emits P (ret a).
Proof. now apply emits_silent. Qed.

Lemma emits_getMgr P : emits P getMgr.
Proof. now apply emits_silent. Qed.

Lemma emits_getNow P : emits P getNow.
Proof. now apply emits_silent. Qed.

Lemma emits_update P f : emits P (update f).
Proof. now apply emits_silent. Qed.

Lemma emits_countAction P : emits P countAction.
Proof. now apply emits_silent. Qed.

Lemma emits_bind {A B} P (c : M A) (k : A -> M B) :
  emits P c -> (forall a, emits P (k a)) -> emits P (bind c k).
Proof.
  intros Hc Hk w. unfold bind.
  destruct (Hc w) as (n1 & E1 & F1). destruct (c w) as [a w1]. simpl in *.
  destruct (Hk a w1) as (n2 & E2 & F2).
  exists (n1 ++ n2)%list. rewrite E2, E1, app_assoc.
  split; [reflexivity|]. apply Forall_app. auto.
Qed.

Lemma emits_runTool env P tool args :
  (forall ok, P (mkCall tool args ok)) -> emits P (runTool env tool args).
Proof.
  intros H w. unfold runTool. simpl. eexists. split; [reflexivity|].
  constructor; [apply H|constructor].
Qed.

Lemma emits_loop {A} P (body : A -> Z -> M Z) (q : list A) :
  (forall x al, In x q -> emits P (body x al)) ->
  forall al, emits P (budget_loop body q al).
Proof.
  induction q as [|x r IH]; intros Hb al; simpl.
  - apply emits_ret.
  - destruct (al <=? 0); [apply emits_ret|].
    apply emits_bind; [apply Hb; now left|].
    intros al'. apply IH. intros y al0 Hy. apply Hb. now right.
Qed.

(** ** Where the action counter moves *)

Definition actions (w : World) : Z := stats_actions (w_mgr w).


















(** ** The manager updates leave the action counter alone *)











End DriverLogic.

(* ===================================================================== *)
(** * Settlement driver: matching an RFQ against the local offers *)
(* ===================================================================== *)

Module OfferMatch.
Import TradeAuto JSFacts DriverLogic.














End OfferMatch.

Module DriverBudget.
Import TradeAuto JSFacts DriverLogic.



Section WithEnv.

Variable env : Env.











End WithEnv.

End DriverBudget.

Module DriverGuards.
Import TradeAuto JSFacts DriverLogic.

(** The signature test the pipelines rely on, on the message itself. *)
Definition sig_ok (msg : jsval) : Prop :=
  is_hex 128 (trim (str_or_empty (get msg "sig"))) = true.

(** What the driver has checked when it issues a call of one of the four
    guarded tools. *)
Definition guarded (localPeer localSolSigner : string)
                   (ctxs : list TradeCtx) (c : Call) : Prop :=
  (c_tool c = quote_tool -> sig_ok (get (c_args c) "rfq_envelope")) /\
  (c_tool c = accept_tool -> sig_ok (get (c_args c) "quote_envelope")) /\
  (c_tool c = ln_pay_tool ->
     let T := get (c_args c) "terms_envelope" in
     isObject T = true /\
     termsLnPayerPeer T = localPeer /\ termsSolRecipient T = localSolSigner) /\
  (c_tool c = sol_claim_tool ->
     exists tc, In tc ctxs /\
       get (c_args c) "trade_id" = JStr (trim (t_trade_id tc)) /\
       isObject (t_terms tc) = true /\
       termsSolRecipient (t_terms tc) = localSolSigner).

Lemma envelopeSig_ok (e : jsval) :
  String.eqb (envelopeSig e) "" = false -> sig_ok (get e "message").
Proof.
  unfold envelopeSig, sig_ok.
  destruct (is_hex 128 (toLowerCase _)) eqn:E; [|discriminate].
  intros _. now rewrite is_hex_lower in E.
Qed.

Lemma str_or_empty_str (s : string) : str_or_empty (JStr s) = s.
Proof.
  unfold str_or_empty, jor. simpl.
  destruct (String.eqb_spec s ""); simpl; congruence.
Qed.

Lemma env_or_null_truthy (v : jsval) :
  truthy (env_or_null v) = true -> isObject v = true /\ env_or_null v = v.
Proof. unfold env_or_null. destruct v; simpl; auto; discriminate. Qed.

Lemma bound_identity (lp : string) (T : jsval) :
  truthy T = true -> termsBoundToLocalIdentity lp T = true ->
  termsLnPayerPeer T = lp.
Proof.
  unfold termsBoundToLocalIdentity. intros ->. simpl.
  destruct (String.eqb lp ""); [discriminate|].
  destruct (is_hex 64 _); simpl; [|discriminate].
  apply String.eqb_eq.
Qed.

Lemma bound_recipient (ls : string) (T : jsval) :
  truthy T = true -> termsBoundToLocalSolRecipient ls T = true ->
  termsSolRecipient T = ls.
Proof.
  unfold termsBoundToLocalSolRecipient. intros ->. simpl.
  destruct (String.eqb ls ""); [discriminate|].
  intros H. apply andb_prop in H. destruct H as [_ H].
  now apply String.eqb_eq.
Qed.

(** Closes the side condition of a call to a tool that is not guarded. *)
Ltac other_tool :=
  let ok := fresh "ok" in
  intros ok; unfold guarded; cbn [c_tool c_args];
  (split; [|split; [|split]]);
  (let Hx := fresh "Hx" in intros Hx; cbv in Hx; discriminate Hx).

Ltac emits_walk extra :=
  repeat (cbv zeta; first
    [ apply emits_ret | apply emits_getMgr | apply emits_getNow
    | apply emits_update | apply emits_countAction
    | extra
    | apply emits_runTool; other_tool
    | apply emits_bind; [|intros ?]
    | match goal with
      | |- emits _ (if ?b then _ else _) => destruct b eqn:?
      | |- emits _ (match ?x with _ => _ end) => destruct x eqn:?
      end ]).

Section WithEnv.

Variable env : Env.
Variables localPeer localSolSigner : string.
Variable ctxs : list TradeCtx.

Let G := guarded localPeer localSolSigner ctxs.

Lemma quote_step_emits ctx e al :
  emits G (quote_step env localSolSigner ctx e al).
Proof.
  unfold G, quote_step. emits_walk fail.
  apply emits_runTool. intros ok. unfold guarded. cbn [c_tool c_args].
  (split; [|split; [|split]]); intros Ht; try (cbv in Ht; discriminate Ht).
  match goal with
  | H : (String.eqb (envelopeSig e) "" || _) = false |- _ =>
      apply orb_false_elim in H; destruct H as [H _];
      exact (envelopeSig_ok e H)
  end.
Qed.

Lemma accept_step_emits ctx e al : emits G (accept_step env ctx e al).
Proof.
  unfold G, accept_step. emits_walk fail.
  apply emits_runTool. intros ok. unfold guarded. cbn [c_tool c_args].
  (split; [|split; [|split]]); intros Ht; try (cbv in Ht; discriminate Ht).
  match goal with
  | H : (String.eqb (envelopeSig e) "" || _) = false |- _ =>
      apply orb_false_elim in H; destruct H as [H _];
      exact (envelopeSig_ok e H)
  end.
Qed.

Lemma subscribe_emits flow sig ch al :
  emits G (subscribe_then_count env flow sig ch al).
Proof. unfold G, subscribe_then_count. emits_walk fail. Qed.

Lemma invite_step_emits ctx e al : emits G (invite_step env ctx e al).
Proof. unfold G, invite_step. emits_walk ltac:(apply subscribe_emits). Qed.

Lemma join_step_emits ctx e al :
  emits G (join_step env localPeer ctx e al).
Proof. unfold G, join_step. emits_walk ltac:(apply subscribe_emits). Qed.

Lemma run_stage_emits key cd prep post al :
  (forall now m t a ok, prep now m = Ok (t, a) -> G (mkCall t a ok)) ->
  emits G (run_stage env key cd prep post al).
Proof.
  unfold G. intros Hp. unfold run_stage. emits_walk fail.
  apply emits_runTool. intros ok. eapply Hp. eassumption.
Qed.

End WithEnv.

End DriverGuards.

Module DriverSettle.
Import TradeAuto JSFacts DriverLogic DriverGuards.

(** Inverts a successful preparation of a stage. *)
Ltac prep_inv H :=
  cbv zeta in H;
  repeat match type of H with
         | (if ?b then _ else _) = _ => destruct b eqn:?; try discriminate H
         | match ?x with _ => _ end = _ =>
             destruct x eqn:?; try discriminate H
         end;
  injection H as <- <-.

Lemma prep_terms_post_tool lp ls tid ch rfq quote qa now m t a :
  prep_terms_post lp ls tid ch rfq quote qa now m = Ok (t, a) ->
  t = terms_post_tool.
Proof. unfold prep_terms_post. intros H. prep_inv H; reflexivity. Qed.

Lemma prep_terms_accept_tool lp ls ch T now m t a :
  prep_terms_accept lp ls ch T now m = Ok (t, a) -> t = terms_accept_tool.
Proof. unfold prep_terms_accept. intros H. prep_inv H. reflexivity. Qed.

Lemma prep_ln_invoice_tool tid ch T now m t a :
  prep_ln_invoice tid ch T now m = Ok (t, a) -> t = ln_invoice_tool.
Proof. unfold prep_ln_invoice. intros H. prep_inv H. reflexivity. Qed.

Lemma prep_sol_escrow_tool tid ch T I now m t a :
  prep_sol_escrow tid ch T I now m = Ok (t, a) -> t = sol_escrow_tool.
Proof. unfold prep_sol_escrow. intros H. prep_inv H. reflexivity. Qed.

(** [ln_pay] is prepared only when both binding checks pass. *)
Lemma prep_ln_pay_inv lp ls ch T I E now m t a :
  prep_ln_pay lp ls ch T I E now m = Ok (t, a) ->
  t = ln_pay_tool /\ get a "terms_envelope" = T /\
  termsBoundToLocalIdentity lp T = true /\
  termsBoundToLocalSolRecipient ls T = true.
Proof.
  unfold prep_ln_pay. intros H.
  destruct (termsBoundToLocalIdentity lp T); simpl in H; [|discriminate].
  destruct (termsBoundToLocalSolRecipient ls T); simpl in H; [|discriminate].
  injection H as <- <-. auto.
Qed.

Section WithEnv.

Variable env : Env.
Variables localPeer localSolSigner : string.
Variable ctxs : list TradeCtx.

Let G := guarded localPeer localSolSigner ctxs.

Lemma unguarded_tool t a ok :
  t <> quote_tool -> t <> accept_tool -> t <> ln_pay_tool ->
  t <> sol_claim_tool -> G (mkCall t a ok).
Proof.
  intros H1 H2 H3 H4. unfold G, guarded. cbn [c_tool].
  split; [|split; [|split]]; intros Ht; congruence.
Qed.

Lemma sol_claim_stage_emits tc ch al :
  In tc ctxs ->
  truthy (env_or_null (t_terms tc)) = true ->
  emits G (sol_claim_stage env localSolSigner
             (trim (str_or_empty (JStr (t_trade_id tc)))) ch
             (env_or_null (t_terms tc)) al).
Proof.
  intros Hin Ht. unfold G, sol_claim_stage.
  destruct (env_or_null_truthy _ Ht) as [Ho He].
  assert (Hclaim : forall p mint ok,
            negb (termsBoundToLocalSolRecipient localSolSigner
                    (env_or_null (t_terms tc))) = false ->
            guarded localPeer localSolSigner ctxs
              (mkCall sol_claim_tool
                 (JObj [("channel", JStr ch);
                        ("trade_id",
                         JStr (trim (str_or_empty (JStr (t_trade_id tc)))));
                        ("preimage_hex", JStr p); ("mint", JStr mint)]) ok)).
  { intros p mint ok Hb. apply negb_false_iff in Hb.
    unfold guarded. cbn [c_tool c_args].
    (split; [|split; [|split]]); intros Hc; try (cbv in Hc; discriminate Hc).
    exists tc. rewrite str_or_empty_str.
    split; [exact Hin|]. split; [reflexivity|]. split; [exact Ho|].
    rewrite <- He. now apply bound_recipient. }
  emits_walk fail; apply emits_runTool; intros ok; now apply Hclaim.
Qed.

Lemma settle_trade_emits ctx tc al :
  In tc ctxs ->
  emits G (settle_trade env localPeer localSolSigner ctx tc al).
Proof.
  intros Hin. unfold settle_trade. cbv zeta.
  repeat match goal with
         | |- emits _ (if ?b then _ else _) =>
             destruct b eqn:?; [try apply emits_ret|]
         end; try apply emits_ret.
  - apply run_stage_emits. intros now m t a ok Hp.
    apply prep_terms_post_tool in Hp. subst t.
    apply unguarded_tool; discriminate.
  - apply run_stage_emits. intros now m t a ok Hp.
    apply prep_terms_accept_tool in Hp. subst t.
    apply unguarded_tool; discriminate.
  - apply run_stage_emits. intros now m t a ok Hp.
    apply prep_ln_invoice_tool in Hp. subst t.
    apply unguarded_tool; discriminate.
  - apply run_stage_emits. intros now m t a ok Hp.
    apply prep_sol_escrow_tool in Hp. subst t.
    apply unguarded_tool; discriminate.
  - apply run_stage_emits. intros now m t a ok Hp.
    apply prep_ln_pay_inv in Hp. destruct Hp as (-> & Ha & Hb1 & Hb2).
    match goal with
    | H : (_ && truthy (env_or_null (t_terms tc)) && _ && _ && _) = true |- _ =>
        apply andb_prop in H; destruct H as [H _];
        apply andb_prop in H; destruct H as [H _];
        apply andb_prop in H; destruct H as [H _];
        apply andb_prop in H; destruct H as [_ Ht]
    end.
    destruct (env_or_null_truthy _ Ht) as [Ho He].
    unfold G, guarded. cbn [c_tool c_args].
    (split; [|split; [|split]]); intros Hc; try (cbv in Hc; discriminate Hc).
    cbv zeta. rewrite Ha. rewrite He in *.
    split; [exact Ho|]. split.
    + now apply bound_identity.
    + now apply bound_recipient.
  - match goal with
    | H : (_ && truthy (env_or_null (t_terms tc)) && _ && _) = true |- _ =>
        apply andb_prop in H; destruct H as [H _];
        apply andb_prop in H; destruct H as [H _];
        apply andb_prop in H; destruct H as [_ Ht]
    end.
    now apply sol_claim_stage_emits.
Qed.

Lemma firstn_incl {A} (n : nat) (l : list A) x : In x (firstn n l) -> In x l.
Proof.
  revert l. induction n as [|n IH]; intros [|y r]; simpl; try tauto.
  intros [->|H]; auto.
Qed.

Lemma pipelines_emits ae ctx al :
  (forall tc, In tc (swapTradeContexts ctx) -> In tc ctxs) ->
  emits G (pipelines env localPeer localSolSigner ae ctx al).
Proof.
  intros Hsub. unfold pipelines.
  apply emits_bind; [apply emits_getMgr|]. intros m. cbv zeta.
  repeat (apply emits_bind;
          [match goal with
           | |- emits _ (if ?b then _ else _) =>
               destruct b; [apply emits_loop|apply emits_ret]
           end | intros ?]).
  5: destruct (_ && _); [apply emits_loop|apply emits_ret].
  - intros; apply quote_step_emits.
  - intros; apply accept_step_emits.
  - intros; apply invite_step_emits.
  - intros; apply join_step_emits.
  - intros tc al0 Htc. apply settle_trade_emits. apply Hsub.
    unfold take_z in Htc. eapply firstn_incl; eauto.
Qed.

End WithEnv.

End DriverSettle.

(* ===================================================================== *)
(** * Settlement driver: what a tick runs *)
(* ===================================================================== *)

Module DriverTick.
Import TradeAuto JSFacts DriverLogic DriverGuards DriverSettle.

Lemma last_two {A} (l : list A) (a b : A) :
  nth_error ((l ++ [a]) ++ [b]) (List.length l) = Some a /\
  nth_error ((l ++ [a]) ++ [b]) (S (List.length l)) = Some b /\
  List.length ((l ++ [a]) ++ [b]) = S (S (List.length l)).
Proof.
  rewrite <- app_assoc. cbn [app]. split; [|split].
  - rewrite nth_error_app2 by lia. now rewrite Nat.sub_diag.
  - rewrite nth_error_app2 by lia.
    now replace (S (List.length l) - List.length l)%nat with 1%nat by lia.
  - rewrite length_app. simpl. lia.
Qed.

(** The calls a tick makes for itself, before the pipelines. *)
Definition bookkeeping (c : Call) : Prop :=
  c_tool c = subscribe_tool \/ c_tool c = sc_info_tool \/
  c_tool c = sol_signer_tool.

(** The identity the tick reads from the answers to those calls. *)
Definition peer_of (out : jsval) : string :=
  toLowerCase (trim (str_or_empty (get out "peer"))).
Definition signer_of (out : jsval) : string :=
  trim (str_or_empty (get out "pubkey")).

(** The events a tick works on: those the manager holds that are not
    stale. *)
Definition active_events (w : World) : list jsval :=
  List.filter
    (fun e => negb (isEventStale e (event_max_age_ms (opts (w_mgr w)))
                      (w_now w)))
    (events (w_mgr w)).

Lemma tick_runs_pipelines env hash info read w :
  let r := tick env hash info read w in
  (exists pre,
     w_calls (snd r) = (w_calls w ++ pre)%list /\ Forall bookkeeping pre) \/
  (exists pre i w1,
     Forall bookkeeping pre /\
     w_calls w1 = (w_calls w ++ pre)%list /\
     nth_error (w_calls w1) i = Some (mkCall sc_info_tool (JObj []) true) /\
     nth_error (w_calls w1) (S i)
       = Some (mkCall sol_signer_tool (JObj []) true) /\
     List.length (w_calls w1) = S (S i) /\
     let localPeer := peer_of (o_out (env i)) in
     let localSolSigner := signer_of (o_out (env (S i))) in
     let ctx := buildContexts hash (active_events w1) localPeer (w_now w1) in
     w_calls (snd r) =
       w_calls (snd (pipelines env localPeer localSolSigner
                       (active_events w1) ctx 12 w1))).
Proof.
  intros r0. set (r := r0).
  assert (Hr : r = tick env hash info read w) by reflexivity.
  clearbody r. subst r0. unfold tick in Hr.
  rewrite run_bind in Hr. cbn [fst snd getMgr] in Hr.
  destruct (running (w_mgr w)); cbn [negb] in Hr;
    [|left; exists []; rewrite Hr, app_nil_r; split; [reflexivity|constructor]].
  destruct (tickInFlight (w_mgr w));
    [left; exists []; rewrite Hr, app_nil_r; split; [reflexivity|constructor]|].
  rewrite run_bind in Hr. cbn [fst snd update] in Hr.
  rewrite run_bind in Hr. cbn [fst snd getNow w_now] in Hr.
  rewrite run_bind in Hr.
  match type of Hr with
  | _ = _ (snd ?c) => set (wk := snd c) in Hr
  end.
  assert (Hk : exists pre, w_calls wk = (w_calls w ++ pre)%list /\
                 Forall bookkeeping pre).
  { unfold wk. destruct (_ <=? _).
    - rewrite run_bind. unfold runTool, update. cbn [fst snd w_calls].
      eexists. split; [reflexivity|].
      constructor; [now left|constructor].
    - exists []. cbn [ret snd w_calls]. rewrite app_nil_r.
      split; [reflexivity|constructor]. }
  clearbody wk. destruct Hk as (pre0 & Hk & Hb0).
  rewrite run_bind in Hr. cbn [fst snd update] in Hr.
  match type of Hr with
  | _ = _ (mkWorld ?m _ _) => set (m2 := m) in Hr; clearbody m2
  end.
  rewrite run_bind, run_runTool in Hr.
  cbn [fst snd w_mgr w_now w_calls] in Hr.
  set (i := List.length (w_calls wk)) in Hr.
  destruct (o_ok (env i)) eqn:Ho1.
  2:{ left. rewrite run_bind in Hr. cbn [fst snd update ret w_calls] in Hr.
      rewrite Hr. cbn [snd w_calls]. rewrite Hk, <- app_assoc.
      eexists. split; [reflexivity|]. apply Forall_app. split; [exact Hb0|].
      constructor; [right; now left|constructor]. }
  rewrite run_bind, run_runTool in Hr.
  cbn [fst snd w_mgr w_now w_calls] in Hr.
  rewrite length_app in Hr. cbn [List.length] in Hr.
  fold i in Hr. rewrite Nat.add_1_r in Hr.
  destruct (o_ok (env (S i))) eqn:Ho2.
  2:{ left. rewrite run_bind in Hr. cbn [fst snd update ret w_calls] in Hr.
      rewrite Hr. cbn [snd w_calls]. rewrite Hk, <- !app_assoc.
      eexists. split; [reflexivity|]. apply Forall_app. split; [exact Hb0|].
      cbn [app]. constructor; [right; now left|].
      constructor; [right; now right|constructor]. }
  rewrite run_bind in Hr. cbn [fst snd getMgr w_mgr] in Hr.
  rewrite run_bind in Hr. cbn [fst snd getNow w_now] in Hr.
  rewrite run_bind in Hr. cbn [fst snd update w_mgr w_now w_calls] in Hr.
  rewrite run_bind in Hr.
  rewrite run_bind in Hr. cbn [fst snd update] in Hr.
  rewrite run_bind in Hr. cbn [fst snd update ret w_calls] in Hr.
  right.
  match type of Hr with
  | context [pipelines env _ _ _ _ 12 ?w1] =>
      exists (pre0 ++ [mkCall sc_info_tool (JObj []) true;
                       mkCall sol_signer_tool (JObj []) true])%list,
             i, w1
  end.
  cbn [w_calls w_now].
  destruct (last_two (w_calls wk)
              (mkCall sc_info_tool (JObj []) true)
              (mkCall sol_signer_tool (JObj []) true)) as (L1 & L2 & L3).
  fold i in L1, L2, L3.
  split.
  { apply Forall_app. split; [exact Hb0|].
    constructor; [right; now left|].
    constructor; [right; now right|constructor]. }
  split; [rewrite Hk, <- !app_assoc; reflexivity|].
  split; [exact L1|]. split; [exact L2|]. split; [exact L3|].
  cbv zeta. rewrite Hr. reflexivity.
Qed.

(** Every call of a tick is one of its own three, or a call of the pipelines
    run with the identity that the tick's [sc_info] and signer calls
    returned. *)
Lemma tick_guarded env hash info read w :
  exists new,
    w_calls (snd (tick env hash info read w)) = (w_calls w ++ new)%list /\
    Forall (fun c =>
      bookkeeping c \/
      exists i w1,
        w_calls w1 = List.firstn (S (S i)) (w_calls w ++ new) /\
        nth_error (w_calls w ++ new) i
          = Some (mkCall sc_info_tool (JObj []) true) /\
        nth_error (w_calls w ++ new) (S i)
          = Some (mkCall sol_signer_tool (JObj []) true) /\
        let localPeer := peer_of (o_out (env i)) in
        let localSolSigner := signer_of (o_out (env (S i))) in
        guarded localPeer localSolSigner
          (swapTradeContexts
             (buildContexts hash (active_events w1) localPeer (w_now w1)))
          c) new.
Proof.
  destruct (tick_runs_pipelines env hash info read w)
    as [(pre & E & Hb) | (pre & i & w1 & Hb & E1 & N1 & N2 & Hl & E)].
  - exists pre. split; [exact E|].
    eapply Forall_impl; [|exact Hb]. intros c H. now left.
  - cbv zeta in E.
    destruct (pipelines_emits env (peer_of (o_out (env i)))
                (signer_of (o_out (env (S i))))
                (swapTradeContexts
                   (buildContexts hash (active_events w1)
                      (peer_of (o_out (env i))) (w_now w1)))
                (active_events w1) _ 12 (fun _ H => H) w1)
      as (new2 & E2 & Hg).
    exists (pre ++ new2)%list. rewrite E, E2, E1, <- app_assoc.
    split; [reflexivity|].
    assert (Hi : forall k x, nth_error (w_calls w ++ pre) k = Some x ->
              nth_error (w_calls w ++ pre ++ new2) k = Some x).
    { intros k x H. rewrite app_assoc, nth_error_app1; [exact H|].
      apply nth_error_Some. congruence. }
    assert (Hw1 : w_calls w1
                  = List.firstn (S (S i)) (w_calls w ++ pre ++ new2)).
    { rewrite app_assoc, <- E1, <- Hl, firstn_app, Nat.sub_diag, firstn_all.
      cbn [firstn]. now rewrite app_nil_r. }
    rewrite E1 in N1, N2.
    apply Forall_app. split.
    + eapply Forall_impl; [|exact Hb]. intros c H. now left.
    + eapply Forall_impl; [|exact Hg]. intros c H. right.
      exists i, w1. split; [exact Hw1|]. split; [now apply Hi|].
      split; [now apply Hi|exact H].
Qed.

End DriverTick.

Module DriverSamples.
Import TradeAuto.

(** A manager as [start] leaves it with default options, mid-run. *)
Definition opts0 : Opts :=
  mkOpts ["rfq-main"] 1500 120 600000 259200 3600 "aggregate" ""
    true true true true true None None.

Definition mgr0 : Mgr :=
  mkMgr true false opts0 0 [] 1500 4500 3000 960 1200000 2400000 5000 0
    [] [] [] [] [] [] [] [] [] 0 0.

Definition w0 : World := mkWorld mgr0 1000000 [].

Fixpoint repeat_char (c : ascii) (n : nat) : string :=
  match n with
  | O => EmptyString
  | S k => String c (repeat_char c k)
  end.

(** A signature, or a key, made of one hexadecimal digit. *)
Definition sig_of (c : ascii) : string := repeat_char c 128.
Definition key_of (c : ascii) : string := repeat_char c 64.

Definition identity_out : jsval :=
  JObj [("peer", JStr (key_of "a")); ("pubkey", JStr "SoL1");
        ("swap_channel", JStr "swap:t")].

Definition env_all_resolve : Env := fun _ => mkOutcome true identity_out 1.

Definition no_hash : jsval -> result jsval := fun _ => Err "no hash".

End DriverSamples.

Module DriverBindings.
Import TradeAuto JSFacts DriverLogic DriverGuards DriverSettle DriverTick
  DriverSamples.










(** Terms that name another peer as Lightning payer. *)
Definition foreign_terms : jsval :=
  JObj [("kind", JStr "swap.terms");
        ("body", JObj [("ln_payer_peer", JStr (key_of "b"));
                       ("sol_recipient", JStr "SoL1")])].


(** The same stage with terms bound to the local keys, and with the foreign
    terms: the first tick pays, the second makes no call and schedules a
    retry. *)
Definition local_terms : jsval :=
  JObj [("kind", JStr "swap.terms");
        ("body", JObj [("ln_payer_peer", JStr (key_of "a"));
                       ("sol_recipient", JStr "SoL1")])].

Definition ctx_pay (T : jsval) : Ctx :=
  mkCtx ["t1"] [] [] [] [] [] []
    [("t1", mkTradeCtx "t1" "swap:t1" 0 T
              (JObj [("kind", JStr "swap.accept")])
              (JObj [("kind", JStr "swap.ln_invoice")])
              (JObj [("kind", JStr "swap.sol_escrow_created")])
              JNull JNull JNull JNull)] [].

Lemma ln_pay_follows_binding :
  (let r := pipelines env_all_resolve (key_of "a") "SoL1" []
              (ctx_pay local_terms) 12 w0 in
   List.map c_tool (w_calls (snd r)) = [ln_pay_tool] /\ fst r = 11) /\
  (let r := pipelines env_all_resolve (key_of "a") "SoL1" []
              (ctx_pay foreign_terms) 12 w0 in
   w_calls (snd r) = [] /\ fst r = 12 /\
   stageRetryAfter (w_mgr (snd r)) = [("t1:ln_pay", 1010000)]).
Proof. vm_compute. repeat split. Qed.

End DriverBindings.

Module DriverBudgetClaim.
Import TradeAuto JSFacts DriverLogic DriverBudget DriverSamples.

(** The action counter grows by at most [n]. *)
Definition within (n : Z) {A} (c : M A) : Prop :=
  forall w, actions w <= actions (snd (c w)) <= actions w + n.






(** ** A tick that joins thirteen swaps *)








End DriverBudgetClaim.

Module DriverSignatures.
Import TradeAuto JSFacts DriverLogic DriverGuards DriverSettle DriverTick
  DriverSamples.

Lemma envelopeSig_spec (e : jsval) :
  let s := trim (str_or_empty (get (get e "message") "sig")) in
  envelopeSig e = if is_hex 128 s then toLowerCase s else "".
Proof.
  cbv zeta. unfold envelopeSig. now rewrite is_hex_lower.
Qed.

Lemma quote_step_unsigned env ls ctx e al w :
  envelopeSig e = "" -> quote_step env ls ctx e al w = (al, w).
Proof.
  intros H. unfold quote_step.
  destruct (isLocalEvent e); [reflexivity|].
  unfold bind, getMgr, getNow, ret. now rewrite H.
Qed.

Lemma accept_step_unsigned env ctx e al w :
  envelopeSig e = "" -> accept_step env ctx e al w = (al, w).
Proof.
  intros H. unfold accept_step, bind, getMgr, getNow, ret.
  destruct (isEventStale _ _ _); [reflexivity|]. now rewrite H.
Qed.

(** C10, as amended: [envelopeSig] is empty exactly when the message's [sig],
    as a string with surrounding blanks removed, is not 128 hexadecimal
    digits (of either case).  An event whose [envelopeSig] is empty makes
    neither pipeline do anything, and every quote or accept that the
    pipelines, or a whole tick, post is for a message whose [sig] passes that
    test. *)
Theorem unsigned_events_never_trigger
    (env : Env) (localPeer localSolSigner : string)
    (activeEvents : list jsval) (ctx : Ctx) (al : Z) (w : World)
    (e : jsval) :
  (envelopeSig e <> "" <-> sig_ok (get e "message")) /\
  (envelopeSig e = "" ->
     quote_step env localSolSigner ctx e al w = (al, w) /\
     accept_step env ctx e al w = (al, w)) /\
  (exists new,
     w_calls (snd (pipelines env localPeer localSolSigner activeEvents ctx
                     al w)) = (w_calls w ++ new)%list /\
     Forall (fun c =>
       (c_tool c = quote_tool -> sig_ok (get (c_args c) "rfq_envelope")) /\
       (c_tool c = accept_tool -> sig_ok (get (c_args c) "quote_envelope")))
       new) /\
  (forall hash scLogInfo scLogRead,
   exists new,
     w_calls (snd (tick env hash scLogInfo scLogRead w))
       = (w_calls w ++ new)%list /\
     Forall (fun c =>
       (c_tool c = quote_tool -> sig_ok (get (c_args c) "rfq_envelope")) /\
       (c_tool c = accept_tool -> sig_ok (get (c_args c) "quote_envelope")))
       new).
Proof.
  split; [|split; [|split]].
  - pose proof (envelopeSig_spec e) as Hs. cbv zeta in Hs. unfold sig_ok.
    destruct (is_hex 128 _) eqn:E; rewrite Hs.
    + split; [reflexivity|]. intros _ Hl.
      assert (Hlen : String.length (toLowerCase
                (trim (str_or_empty (get (get e "message") "sig")))) = 128%nat).
      { rewrite toLowerCase_length. unfold is_hex in E.
        apply andb_prop in E. destruct E as [E _].
        now apply Nat.eqb_eq in E. }
      rewrite Hl in Hlen. discriminate Hlen.
    + split; [congruence|discriminate].
  - intros H. split;
      [now apply quote_step_unsigned | now apply accept_step_unsigned].
  - destruct (pipelines_emits env localPeer localSolSigner
                (swapTradeContexts ctx) activeEvents ctx al (fun _ H => H) w)
      as (new & Hn & Hf).
    exists new. split; [exact Hn|].
    eapply Forall_impl; [|exact Hf].
    intros c (H1 & H2 & _). auto.
  - intros hash scLogInfo scLogRead.
    destruct (tick_guarded env hash scLogInfo scLogRead w) as (new & E & Hf).
    exists new. split; [exact E|].
    eapply Forall_impl; [|exact Hf].
    intros c [Hb | (i & w1 & _ & _ & _ & H1 & H2 & _)]; [|auto].
    split; intros Ht; exfalso; destruct Hb as [Hb|[Hb|Hb]];
      rewrite Hb in Ht; cbv in Ht; discriminate Ht.
Qed.

(** A quote for the local RFQ [t1] whose [sig] is 128 digits after a blank. *)
Definition padded_sig : string := String " " (sig_of "a").

Definition my_rfq : jsval :=
  JObj [("kind", JStr "swap.rfq"); ("trade_id", JStr "t1");
        ("channel", JStr "rfq-main"); ("dir", JStr "out");
        ("message", JObj [("kind", JStr "swap.rfq");
                          ("trade_id", JStr "t1");
                          ("sig", JStr (sig_of "1"))])].

Definition padded_quote_msg : jsval :=
  JObj [("kind", JStr "swap.quote"); ("trade_id", JStr "t1");
        ("signer", JStr (key_of "b")); ("sig", JStr padded_sig)].

Definition padded_quote : jsval :=
  JObj [("kind", JStr "swap.quote"); ("trade_id", JStr "t1");
        ("channel", JStr "rfq-main"); ("message", padded_quote_msg)].

Definition read_padded : Z -> Z -> jsval :=
  fun _ _ => JObj [("events", JArr [my_rfq; padded_quote]);
                   ("latest_seq", JNum 2)].

Definition unsigned_quote : jsval :=
  JObj [("kind", JStr "swap.quote"); ("trade_id", JStr "t1");
        ("channel", JStr "rfq-main");
        ("message", JObj [("kind", JStr "swap.quote");
                          ("trade_id", JStr "t1")])].

Lemma unsigned_events_never_trigger_witness :
  quote_step env_all_resolve "SoL1" empty_ctx unsigned_quote 12 w0 = (12, w0) /\
  accept_step env_all_resolve empty_ctx unsigned_quote 12 w0 = (12, w0).
Proof.
  apply (proj1 (proj2 (unsigned_events_never_trigger env_all_resolve
                         (key_of "a") "SoL1" [] empty_ctx 12 w0
                         unsigned_quote))).
  reflexivity.
Defined.

(** C10 as stated fails: this [sig] is not exactly 128 hexadecimal
    characters (it has 129, the first a blank), yet [envelopeSig] is not empty
    and the tick accepts the quote. *)
Lemma padded_signature_triggers_accept :
  String.length padded_sig = 129%nat /\
  is_hex 128 padded_sig = false /\
  envelopeSig padded_quote = sig_of "a" /\
  List.filter (fun c => String.eqb (c_tool c) accept_tool)
    (w_calls (snd (tick env_all_resolve no_hash JNull read_padded w0)))
  = [mkCall accept_tool
       (JObj [("channel", JStr "rfq-main");
              ("quote_envelope", padded_quote_msg);
              ("ln_liquidity_mode", JStr "aggregate")]) true].
Proof. vm_compute. repeat split. Qed.

End DriverSignatures.

Module LockFacts.
Import TradeAuto JSFacts.

Lemma assoc_app {V} k (a b : list (string * V)) :
  assoc k (a ++ b)%list =
    match assoc k a with Some v => Some v | None => assoc k b end.
Proof.
  induction a as [|[k1 v1] r IH]; simpl; [reflexivity|].
  destruct (String.eqb k k1); auto.
Qed.

Lemma assoc_app_none {V} k (a b : list (string * V)) :
  assoc k (a ++ b)%list = None -> assoc k a = None /\ assoc k b = None.
Proof.
  rewrite assoc_app. destruct (assoc k a); [discriminate|auto].
Qed.

Lemma assoc_filter_none {V} k (f : string * V -> bool) l :
  assoc k l = None -> assoc k (filter f l) = None.
Proof.
  induction l as [|[k1 v1] r IH]; simpl; [reflexivity|].
  destruct (String.eqb k k1) eqn:E; [discriminate|].
  intros H. destruct (f (k1, v1)); simpl; rewrite ?E; auto.
Qed.

Lemma map_set_fresh {V} k (v : V) m :
  map_has k m = false -> map_set k v m = (m ++ [(k, v)])%list.
Proof.
  unfold map_has. induction m as [|[k1 v1] r IH]; simpl; [reflexivity|].
  destruct (String.eqb k k1); [discriminate|].
  intros H. now rewrite IH.
Qed.

Lemma map_has_assoc {V} k (m : jmap V) :
  map_has k m = false <-> assoc k m = None.
Proof. unfold map_has. destruct (assoc k m); split; congruence. Qed.

Lemma drop_oldest_fits {A} max (l : list A) :
  Z.of_nat (List.length l) <= max -> drop_oldest max l = l.
Proof.
  destruct l as [|x r]; simpl; [reflexivity|].
  intros H. destruct (Z.ltb_spec max (Z.pos (Pos.of_succ_nat (List.length r))));
    [lia|reflexivity].
Qed.

(** What is young enough to fit survives the size sweep. *)
Lemma drop_oldest_keeps {A} max (pre suf : list A) :
  Z.of_nat (List.length suf) <= max ->
  exists p1 p2, pre = (p1 ++ p2)%list /\
                drop_oldest max (pre ++ suf) = (p2 ++ suf)%list.
Proof.
  intros H. induction pre as [|x r IH].
  - exists [], []. split; [reflexivity|]. now apply drop_oldest_fits.
  - destruct IH as (p1 & p2 & E1 & E2).
    change ((x :: r) ++ suf)%list with (x :: (r ++ suf))%list.
    unfold drop_oldest at 1. fold (@drop_oldest A).
    destruct (max <? _).
    + exists (x :: p1), p2. split; [now rewrite E1|exact E2].
    + exists [], (x :: r). split; reflexivity.
Qed.

Lemma set_has_app k a b : set_has k (a ++ b)%list = set_has k a || set_has k b.
Proof. unfold set_has. apply existsb_app. Qed.

Lemma set_add_last k s :
  set_has k s = false -> set_add k s = (s ++ [k])%list.
Proof. unfold set_add. now intros ->. Qed.

(** A signature just added survives the size sweep of its set. *)
Lemma pruneSet_keeps_new k s limit :
  set_has k s = false ->
  set_has k (pruneSetByLimit (set_add k s) limit) = true.
Proof.
  intros E. unfold pruneSetByLimit. rewrite (set_add_last _ _ E).
  destruct (drop_oldest_keeps (limit_max limit) s [k]) as (p1 & p2 & _ & ->).
  - unfold limit_max. simpl. lia.
  - rewrite set_has_app. unfold set_has at 2. simpl.
    rewrite String.eqb_refl. now rewrite orb_true_r.
Qed.

End LockFacts.

Module AcceptLock.
Import TradeAuto JSFacts DriverLogic LockFacts.

(** The size bound of the lock map in [_pruneCaches]. *)
Definition lock_limit (m : Mgr) : Z :=
  limit_max (Z.max (if max_trades (opts m) =? 0 then 120
                    else max_trades (opts m)) (preimageMax m)).

(** The age sweep of the lock map. *)
Definition lock_young (m : Mgr) (now : Z) (e : string * Z) : bool :=
  negb (String.eqb (fst e) "") && negb (lockMaxAgeMs m <? now - snd e).

(** The manager after an accept resolved, before the action is counted. *)
Definition accepted_mgr (sig tradeId : string) (now : Z) (m : Mgr) : Mgr :=
  let k := caches m in
  let m1 := with_caches m
              (mkCaches (k_quoted k)
                 (set_add sig (k_accepted k)) (k_lock k)
                 (k_invited k) (k_joined k) (k_done k)
                 (k_inflight k) (k_retry k) (k_preimage k)) in
  let m2 := clearEventRetry "accept_quote" sig m1 in
  let k2 := caches m2 in
  let m3 := with_caches m2
              (mkCaches (k_quoted k2) (k_accepted k2)
                 (map_set tradeId now (k_lock k2))
                 (k_invited k2) (k_joined k2) (k_done k2)
                 (k_inflight k2) (k_retry k2) (k_preimage k2)) in
  pruneCaches [] now m3.

Definition counted (m : Mgr) : Mgr :=
  with_stats m (stats_ticks m) (stats_actions m + 1).

Definition accept_args (m : Mgr) (e : jsval) : jsval :=
  JObj [("channel", JStr (trim (str_or_empty (get e "channel"))));
        ("quote_envelope", get e "message");
        ("ln_liquidity_mode", JStr (ln_liquidity_mode (opts m)))].

(** Whether the accept pipeline acts on the event. *)
Definition accept_fires (ctx : Ctx) (e : jsval) (w : World) : bool :=
  let m := w_mgr w in
  let sig := envelopeSig e in
  let tradeId := envelopeTradeId e in
  negb (isEventStale e (event_max_age_ms (opts m)) (w_now w))
  && negb (String.eqb sig "" || set_has sig (autoAcceptedQuoteSig m))
  && canRunEvent "accept_quote" sig (w_now w) m
  && negb (String.eqb tradeId "" || negb (set_has tradeId (myRfqTradeIds ctx)))
  && negb (set_has tradeId (terminalTradeIds ctx))
  && negb (map_has tradeId (autoAcceptedTradeLock m)).

Section WithEnv.

Variable env : Env.

(** The three outcomes of the accept step. *)
Lemma accept_step_cases ctx e al w :
  let o := env (List.length (w_calls w)) in
  let now1 := w_now w + Z.max 0 (o_elapsed o) in
  accept_step env ctx e al w =
    if accept_fires ctx e w then
      if o_ok o then
        (al - 1,
         mkWorld (counted (accepted_mgr (envelopeSig e) (envelopeTradeId e)
                             now1 (w_mgr w)))
           now1
           (w_calls w ++ [mkCall accept_tool (accept_args (w_mgr w) e) true]))
      else
        (al,
         mkWorld (markEventRetry "accept_quote" (envelopeSig e) 5000 now1
                    (w_mgr w))
           now1
           (w_calls w ++ [mkCall accept_tool (accept_args (w_mgr w) e) false]))
    else (al, w).
Proof.
  cbv zeta. unfold accept_step, accept_fires, bind, getMgr, getNow, ret.
  cbv zeta.
  set (b1 := isEventStale _ _ _). clearbody b1.
  set (b2 := (String.eqb (envelopeSig e) "" || _)). clearbody b2.
  set (b3 := canRunEvent _ _ _ _). clearbody b3.
  set (b4 := (String.eqb (envelopeTradeId e) "" || _)). clearbody b4.
  set (b5 := set_has _ (terminalTradeIds ctx)). clearbody b5.
  set (b6 := map_has _ _). clearbody b6.
  destruct b1; [reflexivity|]. destruct b2; [reflexivity|].
  destruct b3; [|reflexivity]. destruct b4; [reflexivity|].
  destruct b5; [reflexivity|]. destruct b6; [reflexivity|].
  cbn [negb andb].
  unfold runTool, update, countAction, update, accept_args.
  cbn [fst snd w_mgr w_now w_calls].
  destruct (o_ok _); reflexivity.
Qed.

Lemma lock_clearEventRetry f s m :
  autoAcceptedTradeLock (clearEventRetry f s m) = autoAcceptedTradeLock m /\
  autoAcceptedQuoteSig (clearEventRetry f s m) = autoAcceptedQuoteSig m.
Proof. unfold clearEventRetry. now destruct (String.eqb s ""). Qed.

Lemma lock_markEventRetry f s c now m :
  autoAcceptedTradeLock (markEventRetry f s c now m)
    = autoAcceptedTradeLock m.
Proof. unfold markEventRetry. now destruct (String.eqb s ""). Qed.

(** The lock map after an accept: the new lock goes last, then the sweeps. *)
Lemma lock_accepted sig t now m :
  map_has t (autoAcceptedTradeLock m) = false ->
  autoAcceptedTradeLock (accepted_mgr sig t now m) =
    drop_oldest (lock_limit m)
      (filter (lock_young m now)
         (autoAcceptedTradeLock m ++ [(t, now)]))%list.
Proof.
  intros Hf. unfold accepted_mgr. cbv zeta.
  unfold pruneCaches. simpl.
  destruct (lock_clearEventRetry "accept_quote" sig
              (with_caches m
                 (mkCaches (autoQuotedRfqSig m)
                    (set_add sig (autoAcceptedQuoteSig m))
                    (autoAcceptedTradeLock m) (autoInvitedAcceptSig m)
                    (autoJoinedInviteSig m) (stageDone m) (stageInFlight m)
                    (stageRetryAfter m) (tradePreimage m)))) as [H1 _].
  simpl in H1.
  unfold clearEventRetry in *. destruct (String.eqb sig ""); simpl in *;
    rewrite (map_set_fresh _ _ _ Hf); reflexivity.
Qed.

Lemma accepted_sig sig t now m :
  set_has sig (autoAcceptedQuoteSig m) = false ->
  set_has sig (autoAcceptedQuoteSig (accepted_mgr sig t now m)) = true.
Proof.
  intros Hf. unfold accepted_mgr. cbv zeta. unfold pruneCaches. simpl.
  unfold clearEventRetry. destruct (String.eqb sig ""); simpl;
    now apply pruneSet_keeps_new.
Qed.

(** The configuration the sweeps read is not touched by an accept. *)
Lemma accepted_config sig t now m :
  lock_limit (accepted_mgr sig t now m) = lock_limit m /\
  lockMaxAgeMs (accepted_mgr sig t now m) = lockMaxAgeMs m /\
  opts (accepted_mgr sig t now m) = opts m.
Proof.
  unfold accepted_mgr, lock_limit. cbv zeta. unfold pruneCaches. simpl.
  unfold clearEventRetry. destruct (String.eqb sig ""); simpl; auto.
Qed.

Lemma retry_config f s c now m :
  lock_limit (markEventRetry f s c now m) = lock_limit m /\
  lockMaxAgeMs (markEventRetry f s c now m) = lockMaxAgeMs m /\
  opts (markEventRetry f s c now m) = opts m.
Proof.
  unfold markEventRetry, lock_limit. destruct (String.eqb s ""); simpl; auto.
Qed.

Lemma counted_frame m :
  autoAcceptedTradeLock (counted m) = autoAcceptedTradeLock m /\
  autoAcceptedQuoteSig (counted m) = autoAcceptedQuoteSig m /\
  lock_limit (counted m) = lock_limit m /\
  lockMaxAgeMs (counted m) = lockMaxAgeMs m.
Proof. repeat split. Qed.

(** A fresh lock survives the sweeps that follow its insertion. *)
Lemma fresh_lock_survives sig t now m :
  t <> "" -> 0 <= lockMaxAgeMs m ->
  map_has t (autoAcceptedTradeLock m) = false ->
  map_get t (autoAcceptedTradeLock (accepted_mgr sig t now m)) = Some now.
Proof.
  intros Ht Hage Hf. rewrite (lock_accepted _ _ _ _ Hf).
  rewrite filter_app. simpl.
  assert (Hy : lock_young m now (t, now) = true).
  { unfold lock_young. simpl. apply String.eqb_neq in Ht. rewrite Ht. simpl.
    apply negb_true_iff, Z.ltb_ge. lia. }
  rewrite Hy.
  destruct (drop_oldest_keeps (lock_limit m)
              (filter (lock_young m now) (autoAcceptedTradeLock m))
              [(t, now)]) as (p1 & p2 & E1 & ->).
  - unfold lock_limit, limit_max. simpl. lia.
  - unfold map_get. rewrite assoc_app.
    assert (Hn : assoc t p2 = None).
    { apply map_has_assoc in Hf.
      apply (assoc_filter_none t (lock_young m now)) in Hf.
      rewrite E1 in Hf. now apply assoc_app_none in Hf. }
    rewrite Hn. simpl. now rewrite String.eqb_refl.
Qed.

End WithEnv.

End AcceptLock.

Module AcceptOnce.
Import TradeAuto JSFacts DriverLogic LockFacts AcceptLock DriverSamples.

(** While a pass of the accept pipeline runs: the lock of trade [t], taken at
    [tau], is in the map, and at most [K - al] locks were taken after it. *)
Definition held (t : string) (tau K L A : Z) (al : Z) (w : World) : Prop :=
  (exists pre post,
     autoAcceptedTradeLock (w_mgr w) = (pre ++ (t, tau) :: post)%list /\
     assoc t pre = None /\ Z.of_nat (List.length post) + al <= K) /\
  lock_limit (w_mgr w) = L /\ lockMaxAgeMs (w_mgr w) = A.

Lemma held_has t tau K L A al w :
  held t tau K L A al w ->
  map_has t (autoAcceptedTradeLock (w_mgr w)) = true.
Proof.
  intros [(pre & post & E & Hn & _) _]. unfold map_has.
  rewrite E, assoc_app, Hn. simpl. now rewrite String.eqb_refl.
Qed.

Lemma filter_length_le {A} (f : A -> bool) l :
  (List.length (filter f l) <= List.length l)%nat.
Proof.
  induction l as [|x r IH]; simpl; [lia|]. destruct (f x); simpl; lia.
Qed.

Section WithEnv.

Variable env : Env.
Variable ctx : Ctx.

Lemma skipped_when_locked e al w :
  map_has (envelopeTradeId e) (autoAcceptedTradeLock (w_mgr w)) = true ->
  accept_step env ctx e al w = (al, w).
Proof.
  intros H. rewrite accept_step_cases. unfold accept_fires. cbv zeta.
  rewrite H. cbn [negb]. now rewrite andb_false_r.
Qed.

Lemma accept_step_now e al w :
  w_now w <= w_now (snd (accept_step env ctx e al w)).
Proof.
  rewrite accept_step_cases. cbv zeta.
  destruct (accept_fires ctx e w); [|simpl; lia].
  destruct (o_ok _); simpl; lia.
Qed.

Lemma accept_loop_now q al w :
  w_now w <= w_now (snd (budget_loop (accept_step env ctx) q al w)).
Proof.
  revert al w. induction q as [|x r IH]; intros al w; simpl; [lia|].
  destruct (al <=? 0); [simpl; lia|].
  unfold bind. pose proof (accept_step_now x al w) as H1.
  destruct (accept_step env ctx x al w) as [al1 w1]. simpl in H1.
  specialize (IH al1 w1). lia.
Qed.

Lemma held_step t tau K L A e al w :
  t <> "" -> K < L -> 1 <= al ->
  held t tau K L A al w ->
  w_now (snd (accept_step env ctx e al w)) - tau <= A ->
  held t tau K L A (fst (accept_step env ctx e al w))
    (snd (accept_step env ctx e al w)).
Proof.
  intros Ht HK Hal Hh. pose proof (held_has _ _ _ _ _ _ _ Hh) as Hlocked.
  destruct Hh as [(pre & post & E & Hn & Hlen) [HL HA]].
  rewrite accept_step_cases. cbv zeta.
  destruct (accept_fires ctx e w) eqn:Hf;
    [|intros _; split; [exists pre, post; auto|auto]].
  assert (Hfree : map_has (envelopeTradeId e)
                    (autoAcceptedTradeLock (w_mgr w)) = false).
  { unfold accept_fires in Hf. cbv zeta in Hf.
    apply andb_prop in Hf. destruct Hf as [_ Hf].
    now apply negb_true_iff in Hf. }
  set (now1 := w_now w + Z.max 0 (o_elapsed (env (List.length (w_calls w))))).
  destruct (o_ok _); unfold held; cbn [fst snd w_mgr w_now]; intros Hage.
  - (* the accept resolved: a lock goes last, then the sweeps *)
    destruct (accepted_config (envelopeSig e) (envelopeTradeId e) now1
                (w_mgr w)) as (C1 & C2 & _).
    destruct (counted_frame (accepted_mgr (envelopeSig e) (envelopeTradeId e)
                               now1 (w_mgr w))) as (F1 & _ & F3 & F4).
    rewrite F1, F3, F4.
    split; [|split; [rewrite C1; exact HL|rewrite C2; exact HA]].
    rewrite (lock_accepted _ _ _ _ Hfree), E.
    rewrite <- app_assoc. cbn [app]. rewrite filter_app. cbn [filter].
    assert (Hy : lock_young (w_mgr w) now1 (t, tau) = true).
    { unfold lock_young. simpl. apply String.eqb_neq in Ht. rewrite Ht. simpl.
      apply negb_true_iff, Z.ltb_ge. lia. }
    rewrite Hy.
    set (post' := filter (lock_young (w_mgr w) now1)
                    (post ++ [(envelopeTradeId e, now1)])%list).
    assert (Hpost : (List.length post' <= S (List.length post))%nat).
    { unfold post'. etransitivity; [apply filter_length_le|].
      rewrite length_app. simpl. lia. }
    destruct (drop_oldest_keeps (lock_limit (w_mgr w))
                (filter (lock_young (w_mgr w) now1) pre)
                ((t, tau) :: post')) as (p1 & p2 & E1 & ->).
    + simpl List.length. lia.
    + exists p2, post'. split; [reflexivity|]. split; [|lia].
      apply (assoc_filter_none t (lock_young (w_mgr w) now1)) in Hn.
      rewrite E1 in Hn. now apply assoc_app_none in Hn.
  - (* the accept was rejected: only the retry map moves *)
    destruct (retry_config "accept_quote" (envelopeSig e) 5000 now1
                (w_mgr w)) as (C1 & C2 & _).
    split; [|split; [rewrite C1; exact HL|rewrite C2; exact HA]].
    rewrite lock_markEventRetry. exists pre, post. auto.
Qed.

Lemma held_loop t tau K L A q al w :
  t <> "" -> K < L ->
  held t tau K L A al w ->
  w_now (snd (budget_loop (accept_step env ctx) q al w)) - tau <= A ->
  held t tau K L A (fst (budget_loop (accept_step env ctx) q al w))
    (snd (budget_loop (accept_step env ctx) q al w)).
Proof.
  intros Ht HK. revert al w. induction q as [|x r IH]; intros al w Hh;
    simpl; [auto|].
  destruct (Z.leb_spec al 0); [simpl; auto|].
  unfold bind. pose proof (held_step t tau K L A x al w Ht HK) as Hs.
  destruct (accept_step env ctx x al w) as [al1 w1]. cbn [fst snd] in Hs.
  intros Hage. apply IH; [|exact Hage]. apply Hs; [lia|exact Hh|].
  pose proof (accept_loop_now r al1 w1). lia.
Qed.

End WithEnv.

(** C7: when the accept pipeline acts on a quote and the accept resolves,
    the trade is locked at that moment, the quote's signature is recorded and
    one action is spent; any quote of a locked trade is skipped, untouched;
    so a later quote of the same trade in the same pass is skipped, as long
    as the lock is kept (the pass does not outlast [lock_max_age_ms] and the
    tick's budget does not exceed the size bound of the lock map). *)
Theorem accept_locks_the_trade
    (env : Env) (ctx : Ctx) (e1 e2 : jsval) (mid : list jsval)
    (al : Z) (w : World) :
  let t := envelopeTradeId e1 in
  let r1 := accept_step env ctx e1 al w in
  let r2 := budget_loop (accept_step env ctx) mid (fst r1) (snd r1) in
  0 <= lockMaxAgeMs (w_mgr w) ->
  accept_fires ctx e1 w = true ->
  o_ok (env (List.length (w_calls w))) = true ->
  (map_get t (autoAcceptedTradeLock (w_mgr (snd r1))) = Some (w_now (snd r1)) /\
   set_has (envelopeSig e1) (autoAcceptedQuoteSig (w_mgr (snd r1))) = true /\
   fst r1 = al - 1) /\
  (forall e al' w',
     map_has (envelopeTradeId e) (autoAcceptedTradeLock (w_mgr w')) = true ->
     accept_step env ctx e al' w' = (al', w')) /\
  (envelopeTradeId e2 = t ->
   al <= lock_limit (w_mgr w) ->
   w_now (snd r2) - w_now (snd r1) <= lockMaxAgeMs (w_mgr w) ->
   accept_step env ctx e2 (fst r2) (snd r2) = r2).
Proof.
  intros t r1 r2 Hage Hf Hok.
  assert (Hguards : t <> "" /\
            set_has (envelopeSig e1) (autoAcceptedQuoteSig (w_mgr w)) = false /\
            map_has t (autoAcceptedTradeLock (w_mgr w)) = false).
  { unfold accept_fires in Hf. cbv zeta in Hf. fold t in Hf.
    repeat (apply andb_prop in Hf; destruct Hf as [Hf ?]).
    repeat match goal with
           | H : negb _ = true |- _ => apply negb_true_iff in H
           | H : (_ || _) = false |- _ => apply orb_false_elim in H; destruct H
           end.
    split; [now apply String.eqb_neq|auto]. }
  destruct Hguards as (Ht & Hsig & Hfree).
  set (now1 := w_now w + Z.max 0 (o_elapsed (env (List.length (w_calls w))))).
  assert (Hr1 : r1 = (al - 1,
            mkWorld (counted (accepted_mgr (envelopeSig e1) t now1 (w_mgr w)))
              now1
              (w_calls w ++
               [mkCall accept_tool (accept_args (w_mgr w) e1) true]))).
  { unfold r1. rewrite accept_step_cases. cbv zeta. now rewrite Hf, Hok. }
  assert (Hlock : map_get t (autoAcceptedTradeLock (w_mgr (snd r1)))
                  = Some (w_now (snd r1))).
  { rewrite Hr1. cbn [fst snd w_mgr w_now].
    rewrite (proj1 (counted_frame _)).
    now apply fresh_lock_survives. }
  split; [|split].
  - split; [exact Hlock|]. rewrite Hr1. cbn [fst snd w_mgr].
    split; [|reflexivity].
    rewrite (proj1 (proj2 (counted_frame _))).
    now apply accepted_sig.
  - intros e al' w' H. now apply skipped_when_locked.
  - intros He2 Hal Hpass.
    assert (Hheld : held t (w_now (snd r1)) (al - 1) (lock_limit (w_mgr w))
                      (lockMaxAgeMs (w_mgr w)) (fst r1) (snd r1)).
    { destruct (accepted_config (envelopeSig e1) t now1 (w_mgr w))
        as (C1 & C2 & _).
      split.
      - clear Hlock. rewrite Hr1. cbn [fst snd w_mgr w_now].
        rewrite (proj1 (counted_frame _)).
        rewrite (lock_accepted _ _ _ _ Hfree), filter_app.
        cbn [filter].
        assert (Hy : lock_young (w_mgr w) now1 (t, now1) = true).
        { unfold lock_young. simpl. apply String.eqb_neq in Ht. rewrite Ht.
          simpl. apply negb_true_iff, Z.ltb_ge. lia. }
        rewrite Hy.
        destruct (drop_oldest_keeps (lock_limit (w_mgr w))
                    (filter (lock_young (w_mgr w) now1)
                       (autoAcceptedTradeLock (w_mgr w)))
                    [(t, now1)]) as (p1 & p2 & E1 & ->).
        + unfold lock_limit, limit_max. simpl. lia.
        + exists p2, []. split; [reflexivity|]. split; [|simpl; lia].
          apply map_has_assoc in Hfree.
          apply (assoc_filter_none t (lock_young (w_mgr w) now1)) in Hfree.
          rewrite E1 in Hfree. now apply assoc_app_none in Hfree.
      - rewrite Hr1. cbn [fst snd w_mgr].
        destruct (counted_frame (accepted_mgr (envelopeSig e1) t now1
                                   (w_mgr w))) as (_ & _ & F3 & F4).
        rewrite F3, F4. auto. }
    assert (HK : al - 1 < lock_limit (w_mgr w)) by lia.
    pose proof (held_loop env ctx t _ _ _ _ mid _ _ Ht HK Hheld Hpass)
      as Hend.
    fold r2 in Hend. apply held_has in Hend.
    rewrite <- He2 in Hend.
    rewrite (skipped_when_locked env ctx e2 _ _ Hend). now destruct r2.
Qed.

(** Scenario S3 of the spec: two quotes on the local RFQ [t1]. *)
Definition quote_signed (c : ascii) : jsval :=
  JObj [("kind", JStr "swap.quote"); ("trade_id", JStr "t1");
        ("channel", JStr "rfq-main");
        ("message", JObj [("kind", JStr "swap.quote");
                          ("trade_id", JStr "t1");
                          ("sig", JStr (sig_of c))])].

Definition ctx_s3 : Ctx :=
  mkCtx ["t1"] [] [] [quote_signed "a"; quote_signed "b"] [] [] [] [] [].

Lemma accept_locks_the_trade_witness :
  let r1 := accept_step env_all_resolve ctx_s3 (quote_signed "b") 12 w0 in
  accept_step env_all_resolve ctx_s3 (quote_signed "a") (fst r1) (snd r1) = r1.
Proof.
  refine (proj2 (proj2 (accept_locks_the_trade env_all_resolve ctx_s3
                          (quote_signed "b") (quote_signed "a") [] 12 w0
                          _ eq_refl eq_refl)) eq_refl _ _).
  - apply Z.leb_le. reflexivity.
  - apply Z.leb_le. vm_compute. reflexivity.
  - apply Z.leb_le. vm_compute. reflexivity.
Defined.

End AcceptOnce.

(* ===================================================================== *)
(** * Autopost scheduler: bookkeeping of reachable managers *)
(* ===================================================================== *)

Module AutopostBooks.
Import Autopost AutopostFacts AutopostInv AutopostSteps.

(** ** Maps and timers *)

Lemma map_get_set {V} (n k : string) (v : V) (m : jmap V) :
  map_get n (map_set k v m) = if String.eqb n k then Some v else map_get n m.
Proof.
  unfold map_get. induction m as [|[k1 v1] r IH]; simpl.
  - reflexivity.
  - destruct (String.eqb_spec k k1) as [->|Hk]; simpl.
    + destruct (String.eqb n k1); reflexivity.
    + rewrite IH. destruct (String.eqb_spec n k1) as [->|Hn]; [|reflexivity].
      destruct (String.eqb_spec k1 k); [congruence|reflexivity].
Qed.

Lemma map_get_delete {V} (n k : string) (m : jmap V) :
  map_get n (map_delete k m) = if String.eqb n k then None else map_get n m.
Proof.
  unfold map_get. induction m as [|[k1 v1] r IH]; simpl.
  - now destruct (String.eqb n k).
  - destruct (String.eqb_spec k k1) as [->|Hk]; simpl.
    + rewrite IH. destruct (String.eqb_spec n k1); reflexivity.
    + rewrite IH. destruct (String.eqb_spec n k1) as [->|Hn]; [|reflexivity].
      destruct (String.eqb_spec k1 k); [congruence|reflexivity].
Qed.

Lemma keys_delete {V} (k : string) (m : jmap V) :
  NoDup (List.map fst m) -> NoDup (List.map fst (map_delete k m)).
Proof.
  induction m as [|[k1 v1] r IH]; simpl; [auto|].
  intros H. inversion H as [|? ? Hn Hr]; subst.
  destruct (String.eqb k k1); [now apply IH|]. simpl. constructor; [|auto].
  intros Hin. apply Hn. clear -Hin.
  induction r as [|[k2 v2] r IH]; simpl in *; [auto|].
  destruct (String.eqb k k2); simpl in *; intuition.
Qed.

Lemma keys_set {V} (k : string) (v : V) (m : jmap V) :
  NoDup (List.map fst m) -> NoDup (List.map fst (map_set k v m)).
Proof.
  induction m as [|[k1 v1] r IH]; simpl.
  - intros _. constructor; [intros []|constructor].
  - intros H. inversion H as [|? ? Hn Hr]; subst.
    destruct (String.eqb_spec k k1) as [->|Hk]; simpl.
    + constructor; assumption.
    + constructor; [|auto]. intros Hin. apply Hn. clear -Hin Hk.
      induction r as [|[k2 v2] r IH]; simpl in *.
      * destruct Hin as [->|[]]. congruence.
      * destruct (String.eqb k k2); simpl in *; intuition.
Qed.

Lemma live_app h ts x :
  timer_live (Some h) ts = true -> timer_live (Some h) (ts ++ [x]) = true.
Proof. simpl. rewrite existsb_app. intros ->. reflexivity. Qed.

Lemma live_last h ts : timer_live (Some h) (ts ++ [h]) = true.
Proof.
  simpl. rewrite existsb_app. simpl. rewrite Nat.eqb_refl.
  now rewrite orb_true_r.
Qed.

Lemma live_clear_other h x ts :
  h <> x -> timer_live (Some h) (clearInterval (Some x) ts)
            = timer_live (Some h) ts.
Proof.
  intros Hn. simpl. induction ts as [|y t IH]; simpl; [reflexivity|].
  destruct (Nat.eqb_spec x y) as [->|Hxy]; simpl.
  - rewrite IH. destruct (Nat.eqb_spec h y); [congruence|reflexivity].
  - now rewrite IH.
Qed.

(** ** The books of a manager *)

(** The publishes issued by the job object [r]. *)
Definition issued (r : nat) (cs : list Call) : list Call :=
  List.filter (fun c => Nat.eqb (c_job c) r) cs.

Lemma issued_app r a b : issued r (a ++ b) = (issued r a ++ issued r b)%list.
Proof. apply filter_app. Qed.

Lemma issued_none r cs :
  (forall c, In c cs -> c_job c <> r) -> issued r cs = [].
Proof.
  unfold issued. induction cs as [|c t IH]; simpl; intros H; [reflexivity|].
  destruct (Nat.eqb_spec (c_job c) r) as [E|E].
  - now elim (H c (or_introl eq_refl)).
  - apply IH. intros c0 Hc0. apply H. now right.
Qed.

Lemma issued_all r cs :
  (forall c, In c cs -> c_job c = r) -> issued r cs = cs.
Proof.
  intros H. unfold issued. apply forallb_filter_id, forallb_forall.
  intros c Hc. apply Nat.eqb_eq. now apply H.
Qed.

Record Books (st : State) : Prop := mkBooks {
  bk_job : forall r j, heap_get r (heap st) = Some j ->
    name j <> "" /\
    10 <= validUntilUnix j - startedAt j / 1000 <= 604800 /\
    startedAt j <= now st /\
    runs j = Z.of_nat (List.length (issued r (calls st))) /\
    (timer j = None \/ timer j = Some r);
  bk_calls : forall c j, In c (calls st) ->
    heap_get (c_job c) (heap st) = Some j -> startedAt j <= c_at c <= now st;
  bk_reg : forall n r, map_get n (jobs st) = Some r ->
    exists j, heap_get r (heap st) = Some j /\ name j = n /\
              timer j = Some r /\ timer_live (Some r) (timers st) = true;
  bk_keys : NoDup (List.map fst (jobs st))
}.

(** One job object is rewritten; it may have published [new]. *)
Lemma books_cell st r j j' now' jobs' timers' calls' new :
  Books st -> heap_get r (heap st) = Some j ->
  now st <= now' ->
  calls' = (calls st ++ new)%list ->
  name j' = name j -> validUntilUnix j' = validUntilUnix j ->
  startedAt j' = startedAt j ->
  (timer j' = timer j \/ (timer j = None /\ timer j' = Some r)) ->
  runs j' = runs j + Z.of_nat (List.length new) ->
  (forall c, In c new -> c_job c = r /\ now st <= c_at c <= now') ->
  NoDup (List.map fst jobs') ->
  (forall n r0, map_get n jobs' = Some r0 ->
     timer_live (Some r0) timers' = true /\
     (map_get n (jobs st) = Some r0 \/
      (r0 = r /\ n = name j /\ timer j' = Some r))) ->
  Books (mkState now' (heap_set r j' (heap st)) jobs' timers' calls').
Proof.
  intros [Bj Bc Br Bk] Hj Hnow -> Hn Hv Hs Ht Hr Hnew Hkeys Hreg.
  destruct (Bj r j Hj) as (J1 & J2 & J3 & J4 & J5).
  assert (Hcell : forall r0 j0,
            heap_get r0 (heap_set r j' (heap st)) = Some j0 ->
            (r0 = r /\ j0 = j') \/
            (r0 <> r /\ heap_get r0 (heap st) = Some j0)).
  { intros r0 j0 H0. destruct (Nat.eq_dec r0 r) as [->|Hne].
    - rewrite heap_get_set_same in H0. injection H0 as <-. auto.
    - rewrite heap_get_set_other in H0 by assumption. auto. }
  split; simpl.
  - intros r0 j0 H0. destruct (Hcell _ _ H0) as [[-> ->]|[Hne H1]].
    + rewrite Hn, Hv, Hs. split; [exact J1|]. split; [exact J2|].
      split; [lia|]. split.
      * rewrite issued_app, length_app, Nat2Z.inj_add, <- J4, Hr.
        rewrite issued_all; [reflexivity|]. intros c Hc.
        exact (proj1 (Hnew c Hc)).
      * destruct Ht as [Ht|[_ Ht]]; rewrite Ht; auto.
    + destruct (Bj r0 j0 H1) as (K1 & K2 & K3 & K4 & K5).
      split; [exact K1|]. split; [exact K2|]. split; [lia|].
      split; [|exact K5].
      rewrite issued_app, length_app, K4.
      rewrite (issued_none r0 new); [simpl; lia|].
      intros c Hc E. apply Hne. rewrite <- E.
      exact (proj1 (Hnew c Hc)).
  - intros c j0 Hc H0. apply in_app_or in Hc.
    destruct (Hcell _ _ H0) as [[E ->]|[Hne H1]].
    + rewrite Hs. destruct Hc as [Hc|Hc].
      * rewrite <- E in Hj. destruct (Bc c j Hc Hj). lia.
      * destruct (Hnew c Hc) as [_ Hat]. lia.
    + destruct Hc as [Hc|Hc].
      * destruct (Bc c j0 Hc H1). lia.
      * exfalso. apply Hne. exact (proj1 (Hnew c Hc)).
  - intros n r0 Hg. destruct (Hreg n r0 Hg) as [Hl [Hold|(-> & -> & Ht')]].
    + destruct (Br n r0 Hold) as (j0 & H0 & N0 & T0 & _).
      destruct (Nat.eq_dec r0 r) as [->|Hne].
      * rewrite Hj in H0. injection H0 as <-.
        exists j'. rewrite heap_get_set_same.
        split; [reflexivity|]. split; [congruence|]. split; [|exact Hl].
        destruct Ht as [Ht|[Ht _]]; congruence.
      * exists j0. rewrite heap_get_set_other by assumption. auto.
    + exists j'. rewrite heap_get_set_same. auto.
  - exact Hkeys.
Qed.

(** The heap is left alone. *)
Lemma books_frame st now' jobs' timers' :
  Books st -> now st <= now' ->
  NoDup (List.map fst jobs') ->
  (forall n r0, map_get n jobs' = Some r0 ->
     map_get n (jobs st) = Some r0 /\ timer_live (Some r0) timers' = true) ->
  Books (mkState now' (heap st) jobs' timers' (calls st)).
Proof.
  intros [Bj Bc Br Bk] Hnow Hkeys Hreg. split; simpl.
  - intros r j Hj. destruct (Bj r j Hj) as (J1 & J2 & J3 & J4 & J5).
    repeat split; auto; lia.
  - intros c j Hc Hj. destruct (Bc c j Hc Hj). lia.
  - intros n r0 Hg. destruct (Hreg n r0 Hg) as [Hold Hl].
    destruct (Br n r0 Hold) as (j0 & H0 & N0 & T0 & _). eauto.
  - exact Hkeys.
Qed.

(** A fresh job object, not yet registered. *)
Lemma books_alloc st j :
  Inv st -> Books st ->
  name j <> "" -> 10 <= validUntilUnix j - startedAt j / 1000 <= 604800 ->
  startedAt j <= now st -> runs j = 0 -> timer j = None ->
  Books (mkState (now st) (heap_set (List.length (heap st)) j (heap st))
           (jobs st) (timers st) (calls st)).
Proof.
  intros [Ic Ir It] [Bj Bc Br Bk] Hn Hh Hs Hr Ht.
  set (r := List.length (heap st)).
  assert (Hfree : heap_get r (heap st) = None).
  { destruct (heap_get r (heap st)) as [j0|] eqn:E; [|reflexivity].
    apply Ir in E. unfold r in E. lia. }
  assert (Hcell : forall r0 j0,
            heap_get r0 (heap_set r j (heap st)) = Some j0 ->
            (r0 = r /\ j0 = j) \/
            (r0 <> r /\ heap_get r0 (heap st) = Some j0)).
  { intros r0 j0 H0. destruct (Nat.eq_dec r0 r) as [->|Hne].
    - rewrite heap_get_set_same in H0. injection H0 as <-. auto.
    - rewrite heap_get_set_other in H0 by assumption. auto. }
  assert (Hnone : issued r (calls st) = []).
  { apply issued_none. intros c Hc E.
    destruct (Ic c Hc) as (j0 & H0 & _). rewrite E, Hfree in H0.
    discriminate. }
  split; simpl.
  - intros r0 j0 H0. destruct (Hcell _ _ H0) as [[-> ->]|[Hne H1]].
    + rewrite Hnone, Hr, Ht. simpl. repeat split; auto; lia.
    + exact (Bj r0 j0 H1).
  - intros c j0 Hc H0. destruct (Hcell _ _ H0) as [[E ->]|[Hne H1]].
    + exfalso. destruct (Ic c Hc) as (j1 & H1 & _).
      rewrite E, Hfree in H1. discriminate.
    + exact (Bc c j0 Hc H1).
  - intros n r0 Hg. destruct (Br n r0 Hg) as (j0 & H0 & N0 & T0 & L0).
    exists j0. rewrite heap_get_set_other; [auto|].
    intros ->. congruence.
  - exact Bk.
Qed.

(** ** Every step keeps the books *)

Section WithEnv.

Variable env : Env.

(** The registrations left once the entry of [name j] is deleted and the
    timer of [j] cleared. *)
Lemma reg_after_removal st r j n r0 :
  Books st -> heap_get r (heap st) = Some j ->
  map_get n (map_delete (name j) (jobs st)) = Some r0 ->
  timer_live (Some r0) (clearInterval (timer j) (timers st)) = true /\
  map_get n (jobs st) = Some r0.
Proof.
  intros Hb Hj Hg. rewrite map_get_delete in Hg.
  destruct (String.eqb_spec n (name j)) as [->|Hn]; [discriminate|].
  destruct (bk_reg st Hb n r0 Hg) as (j0 & H0 & N0 & T0 & L0).
  split; [|exact Hg].
  destruct (bk_job st Hb r j Hj) as (_ & _ & _ & _ & [Ht|Ht]); rewrite Ht.
  - exact L0.
  - rewrite live_clear_other; [exact L0|].
    intros ->. rewrite Hj in H0. injection H0 as <-. congruence.
Qed.

Lemma expire_books st r j :
  Books st -> heap_get r (heap st) = Some j -> Books (expire r j st).
Proof.
  intros Hb Hj. unfold expire.
  apply (books_cell st r j _ (now st) _ _ (calls st) [] Hb Hj);
    try reflexivity; try lia.
  - now rewrite app_nil_r.
  - now left.
  - simpl. lia.
  - intros c [].
  - apply keys_delete, (bk_keys st Hb).
  - intros n r0 Hg. destruct (reg_after_removal st r j n r0 Hb Hj Hg).
    auto.
Qed.

Lemma runOnce_books st r : Books st -> Books (runOnce env r st).
Proof.
  intros Hb. unfold runOnce.
  destruct (heap_get r (heap st)) as [j|] eqn:Hj; [|exact Hb].
  destruct (validUntilUnix j <=? now st / 1000); [now apply expire_books|].
  cbv zeta.
  apply (books_cell st r j _ _ _ _ _
           [mkCall r (tool j) (runArgs j) (now st)] Hb Hj);
    try reflexivity; try lia.
  - now left.
  - intros c [<-|[]]. simpl. split; [reflexivity|lia].
  - apply (bk_keys st Hb).
  - intros n r0 Hg.
    destruct (bk_reg st Hb n r0 Hg) as (j0 & _ & _ & _ & L0). auto.
Qed.

Lemma requeue_books st r j q :
  Books st -> heap_get r (heap st) = Some j ->
  Books (mkState (now st) (heap_set r (set_queued j q) (heap st))
           (jobs st) (timers st) (calls st)).
Proof.
  intros Hb Hj.
  apply (books_cell st r j _ (now st) _ _ (calls st) [] Hb Hj);
    try reflexivity; try lia.
  - now rewrite app_nil_r.
  - now left.
  - simpl. lia.
  - intros c [].
  - apply (bk_keys st Hb).
  - intros n r0 Hg.
    destruct (bk_reg st Hb n r0 Hg) as (j0 & _ & _ & _ & L0). auto.
Qed.

Lemma onInterval_books st r : Books st -> Books (onInterval r st).
Proof.
  intros Hb. unfold onInterval.
  destruct (heap_get r (heap st)) as [j|] eqn:Hj; [|exact Hb].
  destruct (timer_live _ _); [|exact Hb].
  destruct (validUntilUnix j <=? now st / 1000); [now apply expire_books|].
  now apply requeue_books.
Qed.

Lemma runQueued_books st r : Books st -> Books (runQueued env r st).
Proof.
  intros Hb. unfold runQueued.
  destruct (heap_get r (heap st)) as [j|] eqn:Hj; [|exact Hb].
  destruct (queued j) as [|q]; [exact Hb|].
  apply runOnce_books. now apply requeue_books.
Qed.

(** What [start_job] puts in the record it builds. *)
Lemma start_job_fields a st j :
  start_job a st = Ok j ->
  name j = trim (str_or_empty (a_name a)) /\ name j <> "" /\
  map_has (name j) (jobs st) = false /\
  tool j = trim (str_or_empty (a_tool a)) /\
  args j = safeCloneArgs (a_args a) /\
  startedAt j = now st /\ runs j = 0 /\ timer j = None /\ queued j = O /\
  10 <= validUntilUnix j - now st / 1000 <= 604800 /\
  (nullish (a_valid_until_unix a) = true ->
     validUntilUnix j = now st / 1000 + ttlSec j) /\
  (nullish (a_valid_until_unix a) = false ->
     a_valid_until_unix a = JNum (validUntilUnix j)).
Proof.
  unfold start_job.
  destruct (String.eqb_spec (trim (str_or_empty (a_name a))) "") as [|Hn];
    [discriminate|].
  destruct (map_has _ _) eqn:Hm; [discriminate|].
  destruct (negb _); [discriminate|].
  destruct (clampInt (a_interval_sec a) _ _) as [iv|]; [|discriminate].
  destruct (nullish (a_ttl_sec a)); [discriminate|].
  destruct (clampInt (a_ttl_sec a) _ _) as [ttl|]; [|discriminate].
  destruct (ttl =? 0); [discriminate|].
  destruct (negb (isObject _)); [discriminate|].
  destruct (nullish (a_valid_until_unix a)) eqn:Hv.
  - destruct (Z.leb_spec (now st / 1000 + ttl) (now st / 1000));
      [discriminate|].
    destruct (Z.ltb_spec (now st / 1000 + ttl - now st / 1000) 10);
      [discriminate|].
    destruct (Z.ltb_spec (7 * 24 * 3600)
                (now st / 1000 + ttl - now st / 1000)); [discriminate|].
    intros [= <-]. simpl. repeat split; auto; try lia; discriminate.
  - destruct (clampInt (a_valid_until_unix a) _ _) as [vu|] eqn:Hc;
      [|discriminate].
    destruct (Z.leb_spec vu (now st / 1000)); [discriminate|].
    destruct (Z.ltb_spec (vu - now st / 1000) 10); [discriminate|].
    destruct (Z.ltb_spec (7 * 24 * 3600) (vu - now st / 1000));
      [discriminate|].
    intros [= <-]. simpl. repeat split; auto; try lia; try discriminate.
    intros _. unfold clampInt in Hc.
    destruct (a_valid_until_unix a); try discriminate.
    destruct (n <? 1); [discriminate|]. now injection Hc as ->.
Qed.

(** The cell of the job object itself after one of its runs. *)
Lemma runOnce_cell st r j :
  heap_get r (heap st) = Some j ->
  exists j1, heap_get r (heap (runOnce env r st)) = Some j1 /\
             name j1 = name j /\ timer j1 = timer j /\
             tool j1 = tool j /\ args j1 = args j /\
             validUntilUnix j1 = validUntilUnix j /\
             startedAt j1 = startedAt j /\ queued j1 = queued j.
Proof.
  intros Hj. unfold runOnce. rewrite Hj.
  destruct (validUntilUnix j <=? now st / 1000); simpl;
    rewrite heap_get_set_same; eexists; (split; [reflexivity|]);
    simpl; repeat split.
Qed.

Lemma start_books st a :
  Inv st -> Books st -> Books (snd (start env a st)).
Proof.
  intros Hi Hb. unfold start.
  destruct (start_job a st) as [j|m] eqn:Hs; [|exact Hb].
  destruct (start_job_fields a st j Hs)
    as (_ & F2 & _ & _ & _ & F6 & F7 & F8 & _ & F10 & _).
  set (r := List.length (heap st)).
  assert (Hb1 : Books (mkState (now st) (heap_set r j (heap st)) (jobs st)
                         (timers st) (calls st))).
  { apply books_alloc; auto; rewrite ?F6; lia. }
  set (st1 := mkState (now st) (heap_set r j (heap st)) (jobs st)
                (timers st) (calls st)) in *.
  assert (Hj : heap_get r (heap st1) = Some j) by apply heap_get_set_same.
  pose proof (runOnce_books st1 r Hb1) as Hb2.
  destruct (runOnce_cell st1 r j Hj) as (j1 & Hj1 & N1 & T1 & _).
  set (st2 := runOnce env r st1) in *. rewrite Hj1. cbn [snd].
  apply (books_cell st2 r j1 _ (now st2) _ _ (calls st2) [] Hb2 Hj1);
    try reflexivity; try lia.
  - now rewrite app_nil_r.
  - right. split; [congruence|reflexivity].
  - simpl. lia.
  - intros c [].
  - apply keys_set, (bk_keys st2 Hb2).
  - intros n r0 Hg. rewrite map_get_set in Hg.
    destruct (String.eqb_spec n (name j1)) as [->|Hn].
    + injection Hg as <-. split; [apply live_last|]. right. auto.
    + destruct (bk_reg st2 Hb2 n r0 Hg) as (j0 & _ & _ & _ & L0).
      split; [now apply live_app|now left].
Qed.

Lemma stop_books st nm : Books st -> Books (snd (stop nm st)).
Proof.
  intros Hb. unfold stop.
  destruct (String.eqb _ ""); [exact Hb|].
  destruct (map_get _ (jobs st)) as [r|] eqn:Hg; [|exact Hb].
  destruct (heap_get r (heap st)) as [j|] eqn:Hj; [|exact Hb].
  cbn [snd].
  destruct (bk_reg st Hb _ r Hg) as (j0 & H0 & N0 & _).
  rewrite Hj in H0. injection H0 as <-. rewrite <- N0.
  apply books_frame; [exact Hb|lia| |].
  - apply keys_delete, (bk_keys st Hb).
  - intros n r0 Hg0.
    destruct (reg_after_removal st r j n r0 Hb Hj Hg0). auto.
Qed.

Lemma step_books st ev : Inv st -> Books st -> Books (step env ev st).
Proof.
  intros Hi Hb. destruct ev; simpl.
  - now apply start_books.
  - now apply stop_books.
  - now apply onInterval_books.
  - now apply runQueued_books.
  - apply books_frame; [exact Hb|lia|apply (bk_keys st Hb)|].
    intros n r0 Hg.
    destruct (bk_reg st Hb n r0 Hg) as (j0 & _ & _ & _ & L0). auto.
Qed.

Lemma run_books evs st :
  Inv st -> Books st -> Books (run env evs st).
Proof.
  revert st. induction evs as [|ev r IH]; intros st Hi Hb; simpl.
  - exact Hb.
  - apply IH; [apply (step_ok env st ev Hi)|now apply step_books].
Qed.

Lemma init_books : Books init.
Proof.
  split; simpl.
  - discriminate.
  - intros c j [].
  - discriminate.
  - constructor.
Qed.

(** The books of every manager that starts, stops, ticks, runs and waits. *)
Lemma reachable_books evs :
  Inv (run env evs init) /\ Books (run env evs init).
Proof.
  split; [apply (run_ok env evs init init_ok)|].
  apply run_books; [apply init_ok|apply init_books].
Qed.

End WithEnv.

End AutopostBooks.

(* ===================================================================== *)
(** * Autopost scheduler: what reachable managers guarantee *)
(* ===================================================================== *)

Module AutopostGuarantees.
Import Autopost AutopostFacts AutopostInv AutopostSteps AutopostBooks.

(** A job that is queued once, then stopped: the scenario of the examples. *)
Definition one_job : list Event :=
  [EStart (sample_args (JNum 1) (JNum 60))].

(** X1: only the two posting tools are ever called: every publish of every
    reachable manager is an offer post or an RFQ post, and [start] throws,
    leaving the manager as it was, for any other tool name. *)
Theorem publishes_only_allowlisted_tools (env : Env) (evs : list Event) :
  (forall c, In c (calls (run env evs init)) ->
     c_tool c = offer_post \/ c_tool c = rfq_post) /\
  (forall a st,
     trim (str_or_empty (a_tool a)) <> offer_post ->
     trim (str_or_empty (a_tool a)) <> rfq_post ->
     exists m, start env a st = (Err m, st)).
Proof.
  split.
  - intros c Hc. destruct (reachable_books env evs) as [Hi _].
    destruct (inv_calls _ Hi c Hc) as (j & Hj & Ht & _).
    rewrite Ht. exact (inv_tools _ Hi _ _ Hj).
  - intros a st H1 H2. apply start_fails_with_job. intros j Hj.
    pose proof (start_job_allowed a st j Hj) as Ha.
    destruct (start_job_fields a st j Hj) as (_ & _ & _ & Ft & _).
    rewrite Ft in Ha. destruct Ha; contradiction.
Qed.

Lemma publishes_only_allowlisted_tools_witness :
  exists m,
    start always_ok
      (mkStartArgs (JStr "job1") (JStr "intercomswap_terms_post") (JNum 1)
         (JNum 60) JUndef (JObj []))
      init = (Err m, init).
Proof.
  apply (proj2 (publishes_only_allowlisted_tools always_ok [])
           (mkStartArgs (JStr "job1") (JStr "intercomswap_terms_post")
              (JNum 1) (JNum 60) JUndef (JObj []))
           init); discriminate.
Defined.

(** X2: no job outlives seven days: every publish of a reachable manager was
    issued by a job object no earlier than that job started, before the job's
    horizon, and the horizon lies between 10 seconds and 7 days after the
    start; the publish carries that horizon. *)
Theorem publishes_within_seven_days
    (env : Env) (evs : list Event) (c : Call) :
  In c (calls (run env evs init)) ->
  exists j,
    heap_get (c_job c) (heap (run env evs init)) = Some j /\
    startedAt j <= c_at c /\
    c_at c / 1000 < validUntilUnix j /\
    startedAt j / 1000 + 10 <= validUntilUnix j <= startedAt j / 1000 + 604800 /\
    get (c_args c) "valid_until_unix" = JNum (validUntilUnix j).
Proof.
  intros Hc. destruct (reachable_books env evs) as [Hi Hb].
  destruct (inv_calls _ Hi c Hc) as (j & Hj & Ht & Ha & Hv).
  exists j. split; [exact Hj|].
  destruct (bk_job _ Hb _ _ Hj) as (_ & J2 & _).
  destruct (bk_calls _ Hb c j Hc Hj) as [C1 _].
  split; [exact C1|]. split; [exact Hv|]. split; [lia|].
  rewrite Ha. apply runArgs_horizon. exact (inv_tools _ Hi _ _ Hj).
Qed.

Lemma publishes_within_seven_days_witness :
  exists j,
    heap_get 0 (heap (run always_ok one_job init)) = Some j /\
    startedAt j <= 0 /\ 0 / 1000 < validUntilUnix j /\
    startedAt j / 1000 + 10 <= validUntilUnix j <= startedAt j / 1000 + 604800 /\
    get (runArgs j) "valid_until_unix" = JNum (validUntilUnix j).
Proof.
  destruct (publishes_within_seven_days always_ok one_job
              (mkCall 0 rfq_post
                 (JObj [("channel", JStr "c"); ("trade_id", JStr "rfq-1");
                        ("btc_sats", JNum 1); ("usdt_amount", JStr "1");
                        ("valid_until_unix", JNum 60)]) 0))
    as (j & H1 & H2 & H3 & H4 & H5).
  - vm_compute. left. reflexivity.
  - exists j. simpl in *. repeat split; try assumption; try lia.
    vm_compute in H1. injection H1 as <-. vm_compute. reflexivity.
Defined.

(** X3: the run counter of a job object is the number of publishes it issued,
    whether they resolved or not, in every reachable manager. *)
Theorem runs_counts_publishes
    (env : Env) (evs : list Event) (r : nat) (j : Job) :
  heap_get r (heap (run env evs init)) = Some j ->
  runs j = Z.of_nat (List.length (issued r (calls (run env evs init)))) /\
  (runs j = 0 <-> forall c, In c (calls (run env evs init)) -> c_job c <> r).
Proof.
  intros Hj. destruct (reachable_books env evs) as [_ Hb].
  destruct (bk_job _ Hb _ _ Hj) as (_ & _ & _ & J4 & _).
  split; [exact J4|]. rewrite J4. split.
  - intros H c Hc E.
    assert (Hin : In c (issued r (calls (run env evs init)))).
    { apply filter_In. split; [exact Hc|now apply Nat.eqb_eq]. }
    destruct (issued r (calls (run env evs init))); [destruct Hin|].
    simpl in H. lia.
  - intros H. now rewrite (issued_none r _ H).
Qed.

Lemma runs_counts_publishes_witness :
  exists j, heap_get 0 (heap (run always_ok one_job init)) = Some j /\
            runs j = 1.
Proof.
  eexists. split; [vm_compute; reflexivity|].
  refine (proj1 (runs_counts_publishes always_ok one_job 0%nat _ _)).
  vm_compute. reflexivity.
Defined.

End AutopostGuarantees.

Module AutopostControl.
Import Autopost AutopostFacts AutopostInv AutopostSteps AutopostBooks
  AutopostStatus AutopostGuarantees.

Lemma heap_set_same r j h : heap_get r h = Some j -> heap_set r j h = h.
Proof.
  induction h as [|[r1 j1] t IH]; simpl; [discriminate|].
  destruct (Nat.eqb_spec r r1) as [->|Hne].
  - now intros [= ->].
  - intros H. now rewrite IH.
Qed.

(** What [stop] does to a registered job. *)
Lemma stop_registered st nm r j :
  trim (str_or_empty nm) <> "" ->
  map_get (trim (str_or_empty nm)) (jobs st) = Some r ->
  heap_get r (heap st) = Some j ->
  stop nm st =
    (Ok tt, mkState (now st) (heap st)
              (map_delete (trim (str_or_empty nm)) (jobs st))
              (clearInterval (timer j) (timers st)) (calls st)).
Proof.
  intros Hn Hg Hj. unfold stop. apply String.eqb_neq in Hn.
  now rewrite Hn, Hg, Hj.
Qed.

(** X4: [stop]: an empty name throws; a name that is not registered is answered
    without any change; a registered job is removed from the map and its
    interval cleared, nothing is published, the other jobs stay registered
    with their intervals, the interval of the stopped job does nothing any
    more, and a second [stop] changes nothing.  A run that was already
    queued is not cancelled: it still publishes when it starts before the
    horizon. *)
Theorem stop_unregisters_the_job
    (env : Env) (evs : list Event) (nm : jsval) :
  let st := run env evs init in
  let n := trim (str_or_empty nm) in
  (n = "" -> exists m, stop nm st = (Err m, st)) /\
  (n <> "" -> map_get n (jobs st) = None -> stop nm st = (Ok tt, st)) /\
  (forall r, n <> "" -> map_get n (jobs st) = Some r ->
     let st' := snd (stop nm st) in
     fst (stop nm st) = Ok tt /\
     map_get n (jobs st') = None /\
     timer_live (Some r) (timers st') = false /\
     calls st' = calls st /\ heap st' = heap st /\ now st' = now st /\
     onInterval r st' = st' /\
     stop nm st' = (Ok tt, st') /\
     (forall n' r', n' <> n -> map_get n' (jobs st) = Some r' ->
        map_get n' (jobs st') = Some r' /\
        timer_live (Some r') (timers st') = true) /\
     (forall j, heap_get r (heap st) = Some j -> queued j <> O ->
        now st / 1000 < validUntilUnix j ->
        calls (runQueued env r st') =
          (calls st ++ [mkCall r (tool j) (runArgs j) (now st)])%list)).
Proof.
  intros st n. destruct (reachable_books env evs) as [Hi Hb]. fold st in Hi, Hb.
  split; [|split].
  - intros Hn. unfold stop. fold n. rewrite Hn. simpl. eauto.
  - intros Hn Hg. unfold stop. fold n. apply String.eqb_neq in Hn.
    now rewrite Hn, Hg.
  - intros r Hn Hg st'.
    destruct (bk_reg st Hb n r Hg) as (j & Hj & Nj & Tj & Lj).
    assert (Hs : stop nm st =
              (Ok tt, mkState (now st) (heap st) (map_delete n (jobs st))
                        (clearInterval (Some r) (timers st)) (calls st))).
    { rewrite <- Tj. now apply (stop_registered st nm r j). }
    assert (Hgone : map_get n (map_delete n (jobs st)) = None).
    { rewrite map_get_delete. now rewrite String.eqb_refl. }
    unfold st'. rewrite Hs. cbn [fst snd jobs timers calls heap now].
    split; [reflexivity|]. split; [exact Hgone|].
    split; [apply (timer_dead_after_clear (Some r))|].
    split; [reflexivity|]. split; [reflexivity|]. split; [reflexivity|].
    split.
    { unfold onInterval. cbn [heap timers]. rewrite Hj, Tj.
      now rewrite (timer_dead_after_clear (Some r)). }
    split.
    { unfold stop. fold n. apply String.eqb_neq in Hn. rewrite Hn.
      cbn [jobs]. now rewrite Hgone. }
    split.
    { intros n' r' Hn' Hg'. rewrite map_get_delete.
      apply String.eqb_neq in Hn'. rewrite Hn'. split; [exact Hg'|].
      destruct (bk_reg st Hb n' r' Hg') as (j' & Hj' & Nj' & _ & Lj').
      rewrite live_clear_other; [exact Lj'|].
      intros ->. rewrite Hj in Hj'. injection Hj' as <-.
      apply String.eqb_neq in Hn'. congruence. }
    intros j0 Hj0 Hq Hv. rewrite Hj in Hj0. injection Hj0 as <-.
    unfold runQueued. cbn [heap]. rewrite Hj.
    destruct (queued j) as [|q]; [congruence|].
    unfold runOnce. cbn [heap now calls]. rewrite heap_get_set_same.
    cbn [validUntilUnix set_queued].
    destruct (Z.leb_spec (validUntilUnix j) (now st / 1000)); [lia|].
    reflexivity.
Qed.

(** A job stopped while one run is still queued. *)
Definition queued_job : list Event :=
  [EStart (sample_args (JNum 1) (JNum 60)); ETick 0%nat].

Lemma stop_unregisters_the_job_witness :
  let st := run always_ok queued_job init in
  let st' := snd (stop (JStr "job1") st) in
  map_get "job1" (jobs st') = None /\
  timer_live (Some 0%nat) (timers st') = false /\
  calls st' = calls st /\
  List.length (calls (runQueued always_ok 0%nat st'))
    = S (List.length (calls st)).
Proof.
  destruct (proj2 (proj2 (stop_unregisters_the_job always_ok queued_job
                            (JStr "job1"))) 0%nat)
    as (_ & H2 & H3 & H4 & _ & _ & _ & _ & _ & H10).
  - discriminate.
  - vm_compute. reflexivity.
  - cbv zeta. split; [exact H2|]. split; [exact H3|]. split; [exact H4|].
    erewrite H10.
    + rewrite length_app. simpl. lia.
    + vm_compute. reflexivity.
    + vm_compute. discriminate.
    + vm_compute. reflexivity.
Defined.

(** X5: [start] of a reachable manager, when it succeeds: the job object is
    fresh, it published exactly once, at once, the arguments it was given
    (cloned) with its horizon, whether or not that publish resolved; it is
    registered under its trimmed name with a live interval; and the same
    name cannot be started again. *)
Theorem start_publishes_and_registers
    (env : Env) (evs : list Event) (a : StartArgs) (r : nat) (st' : State) :
  let st := run env evs init in
  start env a st = (Ok r, st') ->
  r = List.length (heap st) /\
  (exists j,
     heap_get r (heap st') = Some j /\
     name j = trim (str_or_empty (a_name a)) /\
     args j = safeCloneArgs (a_args a) /\
     startedAt j = now st /\ runs j = 1 /\
     lastOk j = Some (o_ok (env (List.length (calls st)))) /\
     map_get (name j) (jobs st') = Some r /\
     timer_live (Some r) (timers st') = true /\
     calls st' = (calls st ++ [mkCall r (tool j) (runArgs j) (now st)])%list /\
     now st' = now st + Z.max 0 (o_elapsed (env (List.length (calls st))))) /\
  (exists m, start env a st' = (Err m, st')).
Proof.
  intros st Hs. destruct (reachable_books env evs) as [Hi Hb].
  fold st in Hi, Hb. unfold start in Hs.
  destruct (start_job a st) as [j|m] eqn:Hj; [|discriminate].
  destruct (start_job_fields a st j Hj)
    as (F1 & F2 & F3 & F4 & F5 & F6 & F7 & F8 & F9 & F10 & _).
  set (r0 := List.length (heap st)) in *.
  assert (Hrun :
    runOnce env r0 (mkState (now st) (heap_set r0 j (heap st)) (jobs st)
                      (timers st) (calls st)) =
    mkState (now st + Z.max 0 (o_elapsed (env (List.length (calls st)))))
      (heap_set r0
         (set_ran j (now st) (o_ok (env (List.length (calls st)))))
         (heap_set r0 j (heap st)))
      (jobs st) (timers st)
      (calls st ++ [mkCall r0 (tool j) (runArgs j) (now st)])%list).
  { unfold runOnce. cbn [heap now calls jobs timers].
    rewrite heap_get_set_same.
    destruct (Z.leb_spec (validUntilUnix j) (now st / 1000)); [lia|].
    reflexivity. }
  rewrite Hrun in Hs. cbn [heap] in Hs. rewrite heap_get_set_same in Hs.
  injection Hs as <- <-.
  split; [reflexivity|]. split.
  - eexists. cbn [heap jobs timers calls now].
    rewrite heap_get_set_same. split; [reflexivity|].
    cbn [name set_timer set_ran args startedAt runs lastOk tool].
    split; [exact F1|]. split; [exact F5|]. split; [exact F6|].
    split; [rewrite F7; reflexivity|]. split; [reflexivity|].
    split; [rewrite map_get_set; now rewrite String.eqb_refl|].
    split; [apply live_last|].
    split; [|reflexivity].
    unfold runArgs. reflexivity.
  - apply start_fails_with_job. intros j2 Hj2.
    destruct (start_job_fields a _ j2 Hj2) as (G1 & _ & G3 & _).
    cbn [jobs] in G3. unfold map_has in G3.
    change (assoc (name j2)) with (@map_get nat (name j2)) in G3.
    rewrite map_get_set in G3. cbn [name set_timer set_ran] in G3.
    rewrite G1, <- F1, String.eqb_refl in G3. discriminate.
Qed.

Lemma start_publishes_and_registers_witness :
  exists m,
    start always_ok (sample_args (JNum 1) (JNum 60))
      (snd (start always_ok (sample_args (JNum 1) (JNum 60)) init))
    = (Err m, snd (start always_ok (sample_args (JNum 1) (JNum 60)) init)).
Proof.
  refine (proj2 (proj2 (start_publishes_and_registers always_ok []
                          (sample_args (JNum 1) (JNum 60)) 0%nat _ _))).
  vm_compute. reflexivity.
Defined.

End AutopostControl.

Module AutopostListing.
Import Autopost AutopostFacts AutopostInv AutopostSteps AutopostBooks
  AutopostStatus AutopostGuarantees AutopostControl.

(** Newest first. *)
Fixpoint newest_first (l : list Job) : Prop :=
  match l with
  | [] => True
  | a :: r => (forall b, In b r -> startedAt b <= startedAt a) /\ newest_first r
  end.

Lemma in_insert_by_start x j l :
  In x (insert_by_start j l) <-> x = j \/ In x l.
Proof.
  induction l as [|y r IH]; simpl; [intuition|].
  destruct (startedAt j <? startedAt y); simpl; rewrite ?IH; intuition.
Qed.

Lemma insert_by_start_length j l :
  List.length (insert_by_start j l) = S (List.length l).
Proof.
  induction l as [|y r IH]; simpl; [reflexivity|].
  destruct (startedAt j <? startedAt y); simpl; [now rewrite IH|reflexivity].
Qed.

Lemma insert_by_start_sorted j l :
  newest_first l -> newest_first (insert_by_start j l).
Proof.
  induction l as [|y r IH]; simpl; [intuition|].
  intros [Hy Hr]. destruct (Z.ltb_spec (startedAt j) (startedAt y)); simpl.
  - split; [|now apply IH]. intros b Hb. apply in_insert_by_start in Hb.
    destruct Hb as [->|Hb]; [lia|now apply Hy].
  - split; [|split; assumption]. intros b [<-|Hb]; [lia|].
    specialize (Hy b Hb). lia.
Qed.

Lemma sort_facts (out : list Job) :
  let l := List.fold_right insert_by_start [] out in
  (forall x, In x l <-> In x out) /\
  List.length l = List.length out /\ newest_first l.
Proof.
  induction out as [|j r IH]; simpl; [intuition|].
  destruct IH as (I1 & I2 & I3). split; [|split].
  - intros x. rewrite in_insert_by_start, I1. intuition.
  - now rewrite insert_by_start_length, I2.
  - now apply insert_by_start_sorted.
Qed.

Lemma entry_of_map {V} (n : string) (v : V) (m : jmap V) :
  NoDup (List.map fst m) -> (In (n, v) m <-> map_get n m = Some v).
Proof.
  unfold map_get. induction m as [|[k1 v1] r IH]; simpl; intros H.
  - split; [intros []|discriminate].
  - inversion H as [|? ? Hn Hr]; subst.
    destruct (String.eqb_spec n k1) as [->|Hne].
    + split.
      * intros [[= ->]|Hin]; [reflexivity|].
        elim Hn. apply (in_map fst) in Hin. exact Hin.
      * intros [= ->]. now left.
    + rewrite <- (IH Hr). split; [|auto].
      intros [[= -> ->]|Hin]; [congruence|exact Hin].
Qed.

Lemma flat_map_none {A B} (g : A -> list B) (l : list A) :
  (forall e, In e l -> g e = []) -> List.flat_map g l = [].
Proof.
  induction l as [|e r IH]; simpl; intros H; [reflexivity|].
  rewrite (H e (or_introl eq_refl)). apply IH. intros e0 H0. apply H.
  now right.
Qed.

(** At most one entry of a map with unique keys has the key [f]. *)
Lemma one_per_key {V A} (f : string) (g : string * V -> list A)
                  (m : jmap V) :
  NoDup (List.map fst m) ->
  (forall e, In e m -> g e <> [] -> fst e = f) ->
  (forall e, (List.length (g e) <= 1)%nat) ->
  (List.length (List.flat_map g m) <= 1)%nat.
Proof.
  induction m as [|e r IH]; simpl; intros Hd Hk Hl; [lia|].
  inversion Hd as [|? ? Hn Hr]; subst.
  destruct (g e) as [|x t] eqn:Ge.
  - simpl. apply IH; auto.
  - assert (He : fst e = f) by (apply Hk; [now left|now rewrite Ge]).
    assert (Hrest : List.flat_map g r = []).
    { apply flat_map_none. intros e2 H2.
      destruct (g e2) as [|y u] eqn:G2; [reflexivity|].
      exfalso. apply Hn. rewrite He.
      rewrite <- (Hk e2 (or_intror H2)) by now rewrite G2.
      now apply in_map. }
    rewrite Hrest, app_nil_r. rewrite <- Ge. apply Hl.
Qed.

(** X6: [status] of a reachable manager lists the registered jobs: a job is
    listed iff it is the job object registered under its own name (and, when
    a name is asked for, that is its name); the list is sorted newest first;
    asking for one name lists at most one job; and a job that was just
    stopped is no longer listed. *)
Theorem status_lists_registered_jobs
    (env : Env) (evs : list Event) (nm : jsval) :
  let st := run env evs init in
  let f := trim (str_or_empty nm) in
  (forall j, In j (status nm st) <->
     exists r, map_get (name j) (jobs st) = Some r /\
               heap_get r (heap st) = Some j /\ (f = "" \/ name j = f)) /\
  newest_first (status nm st) /\
  (f <> "" -> (List.length (status nm st) <= 1)%nat) /\
  (f <> "" -> status nm (snd (stop nm st)) = []).
Proof.
  intros st f. destruct (reachable_books env evs) as [Hi Hb].
  fold st in Hi, Hb.
  set (g := fun (s : State) (e : string * nat) =>
         match heap_get (snd e) (heap s) with
         | Some j =>
             if negb (String.eqb f "") && negb (String.eqb (name j) f)
             then [] else [j]
         | None => []
         end).
  assert (Hst : forall s, status nm s
                  = List.fold_right insert_by_start []
                      (List.flat_map (g s) (jobs s))) by reflexivity.
  assert (Hin : forall j, In j (List.flat_map (g st) (jobs st)) <->
            exists r, map_get (name j) (jobs st) = Some r /\
                      heap_get r (heap st) = Some j /\
                      (f = "" \/ name j = f)).
  { intros j. rewrite in_flat_map. split.
    - intros ([n r] & He & Hj). unfold g in Hj. simpl in Hj.
      apply (entry_of_map n r _ (bk_keys st Hb)) in He.
      destruct (bk_reg st Hb n r He) as (j0 & H0 & N0 & _).
      rewrite H0 in Hj.
      destruct (String.eqb_spec f "") as [Hf|Hf]; simpl in Hj.
      + destruct Hj as [<-|[]]. exists r. rewrite N0.
        split; [exact He|]. split; [exact H0|now left].
      + destruct (String.eqb_spec (name j0) f) as [Hn|Hn]; simpl in Hj;
          [|destruct Hj].
        destruct Hj as [<-|[]]. exists r. rewrite N0.
        split; [exact He|]. split; [exact H0|]. right. congruence.
    - intros (r & Hg & Hj & Hf). exists (name j, r).
      split; [now apply (entry_of_map _ _ _ (bk_keys st Hb))|].
      unfold g. simpl. rewrite Hj. destruct Hf as [Hf|Hf].
      + apply String.eqb_eq in Hf. rewrite Hf. simpl. now left.
      + apply String.eqb_eq in Hf. rewrite Hf, andb_false_r. now left. }
  destruct (sort_facts (List.flat_map (g st) (jobs st))) as (S1 & S2 & S3).
  split; [|split; [|split]].
  - intros j. rewrite Hst, S1. apply Hin.
  - rewrite Hst. exact S3.
  - intros Hf. rewrite Hst, S2.
    apply (one_per_key f (g st) (jobs st) (bk_keys st Hb)).
    + intros [n r] He Hne. simpl.
      apply (entry_of_map n r _ (bk_keys st Hb)) in He.
      destruct (bk_reg st Hb n r He) as (j0 & H0 & N0 & _).
      unfold g in Hne. simpl in Hne. rewrite H0 in Hne.
      apply String.eqb_neq in Hf. rewrite Hf in Hne. simpl in Hne.
      destruct (String.eqb_spec (name j0) f) as [Hn|Hn]; simpl in Hne;
        congruence.
    + intros e. unfold g. destruct (heap_get _ _); [|simpl; lia].
      destruct (_ && _); simpl; lia.
  - intros Hf.
    pose proof (stop_books st nm Hb) as Hb'.
    set (st' := snd (stop nm st)) in *.
    assert (Hnone : map_get f (jobs st') = None).
    { unfold st', stop. fold f. pose proof Hf as Hf'.
      apply String.eqb_neq in Hf'. rewrite Hf'.
      destruct (map_get f (jobs st)) as [r|] eqn:Hg; [|exact Hg].
      destruct (bk_reg st Hb f r Hg) as (j0 & H0 & _). rewrite H0.
      cbn [snd jobs]. rewrite map_get_delete. now rewrite String.eqb_refl. }
    rewrite Hst.
    replace (List.flat_map (g st') (jobs st')) with (@nil Job);
      [reflexivity|].
    symmetry. apply flat_map_none. intros [n r] He. unfold g. simpl.
    apply (entry_of_map n r _ (bk_keys st' Hb')) in He.
    destruct (bk_reg st' Hb' n r He) as (j0 & H0 & N0 & _). rewrite H0.
    pose proof Hf as Hf'. apply String.eqb_neq in Hf'. rewrite Hf'. simpl.
    destruct (String.eqb_spec (name j0) f) as [Hn|Hn]; [|reflexivity].
    congruence.
Qed.

Lemma status_lists_registered_jobs_witness :
  (List.length (status (JStr "job1") (run always_ok one_job init)) <= 1)%nat /\
  status (JStr "job1")
    (snd (stop (JStr "job1") (run always_ok one_job init))) = [].
Proof.
  destruct (status_lists_registered_jobs always_ok one_job (JStr "job1"))
    as (_ & _ & H3 & H4).
  split; [apply H3|apply H4]; discriminate.
Defined.

End AutopostListing.

(* ===================================================================== *)
(** * Receipts store: rows are keyed by the trimmed trade id *)
(* ===================================================================== *)

Module ReceiptsKeys.
Import Receipts JSFacts ReceiptsFacts ReceiptsMergeFacts ReceiptsMerge.

(** ** Trimming *)

Lemma rtrim_idem (s : string) : rtrim (rtrim s) = rtrim s.
Proof.
  induction s as [|c r IH]; simpl; [reflexivity|].
  destruct (rtrim r) as [|c' r'] eqn:E.
  - destruct (is_ws c) eqn:W; simpl; [reflexivity|]. now rewrite W.
  - simpl. simpl in IH. rewrite IH. reflexivity.
Qed.

Lemma rtrim_head (c : ascii) (r : string) :
  is_ws c = false -> exists r', rtrim (String c r) = String c r'.
Proof.
  intros W. simpl. destruct (rtrim r); [rewrite W|]; eauto.
Qed.

Lemma ltrim_head (s : string) :
  ltrim s = "" \/ exists c r, ltrim s = String c r /\ is_ws c = false.
Proof.
  induction s as [|c r IH]; simpl; [now left|].
  destruct (is_ws c) eqn:W; [exact IH|]. right. eauto.
Qed.

Lemma trim_idem (s : string) : trim (trim s) = trim s.
Proof.
  unfold trim. destruct (ltrim_head s) as [E|(c & r & E & W)]; rewrite E.
  - reflexivity.
  - destruct (rtrim_head c r W) as [r' E']. rewrite E'.
    simpl ltrim. rewrite W. rewrite <- E'. apply rtrim_idem.
Qed.

(** The key [String(id || '').trim()] of a text that is already a key. *)
Lemma key_of_key (s : string) :
  s <> "" -> trim s = s -> trim (str_or_empty (JStr s)) = s.
Proof.
  intros Hs Ht. unfold str_or_empty, jor. simpl.
  destruct (String.eqb_spec s ""); [contradiction|]. exact Ht.
Qed.

(** ** The upsert statement *)

Definition has_key (k : sqlval) (db : DB) : bool :=
  existsb (fun x => sql_eqb (trade_id x) k) db.

Lemma select_none_has_key (k : sqlval) (db : DB) :
  select_by c_trade_id k db = None <-> has_key k db = false.
Proof.
  induction db as [|x t IH]; simpl; [tauto|].
  destruct (sql_eqb (trade_id x) k); simpl; [split; discriminate|exact IH].
Qed.


Lemma upsert_row_keys (r : Row) (db : DB) :
  List.map trade_id (upsert_row r db) =
    if has_key (trade_id r) db then List.map trade_id db
    else (List.map trade_id db ++ [trade_id r])%list.
Proof.
  induction db as [|x t IH]; simpl; [reflexivity|].
  destruct (sql_eqb (trade_id x) (trade_id r)); simpl; [reflexivity|].
  rewrite IH. now destruct (has_key (trade_id r) t).
Qed.

Lemma upsert_row_length (r : Row) (db : DB) :
  List.length (upsert_row r db) =
    if has_key (trade_id r) db then List.length db else S (List.length db).
Proof.
  rewrite <- !(length_map trade_id), upsert_row_keys.
  destruct (has_key _ db); [reflexivity|].
  rewrite length_app. simpl. lia.
Qed.

(** Rows under another key are not touched. *)
Lemma upsert_row_other (r : Row) (db : DB) (k k' : string) :
  trade_id r = SText k -> k' <> k ->
  select_by c_trade_id (SText k') (upsert_row r db) =
  select_by c_trade_id (SText k') db.
Proof.
  intros Hr Hk. induction db as [|x t IH]; simpl.
  - rewrite Hr. simpl. destruct (String.eqb_spec k k'); congruence.
  - rewrite Hr. destruct (sql_eqb (trade_id x) (SText k)) eqn:E; simpl.
    + apply sql_eqb_text in E. rewrite E. simpl.
      destruct (String.eqb_spec k k'); congruence.
    + now rewrite IH.
Qed.

(** What a row of the table becomes. *)
Lemma upsert_row_in (r x : Row) (db : DB) :
  In x (upsert_row r db) ->
  x = r \/ In x db \/ exists old, In old db /\ x = merged old r.
Proof.
  induction db as [|y t IH]; simpl.
  - intros [<-|[]]. now left.
  - destruct (sql_eqb (trade_id y) (trade_id r)).
    + intros [<-|H]; [|now auto]. right. right. exists y. auto.
    + intros [<-|H]; [now auto|].
      destruct (IH H) as [?|[?|(old & ? & ?)]]; eauto 6.
Qed.

Lemma has_key_in (s : string) (db : DB) :
  has_key (SText s) db = true <-> In (SText s) (List.map trade_id db).
Proof.
  unfold has_key. rewrite existsb_exists, in_map_iff. split.
  - intros (x & Hx & E). apply sql_eqb_text in E. eauto.
  - intros (x & E & Hx). exists x. split; [exact Hx|].
    rewrite E. simpl. apply String.eqb_refl.
Qed.

Lemma NoDup_snoc {A : Type} (l : list A) (a : A) :
  NoDup l -> ~ In a l -> NoDup (l ++ [a])%list.
Proof.
  induction 1 as [|x l Hx Hl IH]; simpl; intros Ha.
  - constructor; [intros []|constructor].
  - constructor.
    + rewrite in_app_iff. simpl. intros [H|[H|[]]]; [auto|]. subst. auto.
    + apply IH. auto.
Qed.


Section WithNumber.

Variable StringToInt : string -> option Z.

(** The base object of a call: the stored row, or a fresh one. *)
Definition base_for (id : string) (now : Z) (db : DB)
  : list (string * jsval) :=
  match select_by c_trade_id (SText id) db with
  | Some r => base_of r
  | None => [("trade_id", JStr id); ("created_at", JNum now);
             ("updated_at", JNum now)]
  end.

(** How a successful [upsertTrade] unfolds. *)
Lemma upsertTrade_inv (tradeId patch : jsval) (now : Z) (db db' : DB)
                      (o : option Row) :
  upsertTrade StringToInt tradeId patch now db = Ok (db', o) ->
  let id := trim (str_or_empty tradeId) in
  id <> "" /\
  exists row,
    build_row StringToInt id
      (JObj (apply_patch (patch_entries (jor patch (JObj [])))
               (obj_set "updated_at" (JNum now) (base_for id now db))))
      = Ok row /\
    trade_id row = SText id /\
    is_null (created_at row) = false /\
    is_null (updated_at row) = false /\
    db' = upsert_row row db /\
    o = select_by c_trade_id (SText id) db'.
Proof.
  unfold upsertTrade, getTrade. cbv zeta.
  destruct (String.eqb_spec (trim (str_or_empty tradeId)) "") as [|Hid];
    [discriminate|].
  unfold base_for.
  change (fun r : Row => match mapRow r with JObj fs => fs | _ => [] end)
    with base_of.
  match goal with
  | |- context [build_row StringToInt ?i ?n] =>
      destruct (build_row StringToInt i n) as [row|] eqn:Hb; [|discriminate]
  end.
  unfold run_upsert.
  destruct (is_null (created_at row) || is_null (updated_at row)) eqn:Hn;
    [discriminate|].
  intros [= <- <-]. apply orb_false_elim in Hn. destruct Hn as [H1 H2].
  split; [exact Hid|]. exists row.
  pose proof (build_row_inv StringToInt _ _ _ Hb) as [Ht _].
  change (match select_by c_trade_id
                  (SText (trim (str_or_empty tradeId))) db with
          | Some r => match mapRow r with JObj fs => fs | _ => [] end
          | None => [("trade_id", JStr (trim (str_or_empty tradeId)));
                     ("created_at", JNum now); ("updated_at", JNum now)]
          end)
    with (base_for (trim (str_or_empty tradeId)) now db) in Hb.
  auto 10.
Qed.

(** The keys a table of the store holds. *)
Definition keyed (db : DB) : Prop :=
  NoDup (List.map trade_id db) /\
  forall r, In r db ->
    exists s, trade_id r = SText s /\ s <> "" /\ trim s = s.

Lemma reachable_keyed (db : DB) : reachable StringToInt db -> keyed db.
Proof.
  induction 1 as [|db tradeId patch now db' o Hr [Hn Hk] Hu].
  - split; [constructor|intros r []].
  - apply upsertTrade_inv in Hu. cbv zeta in Hu.
    destruct Hu as (Hid & row & _ & Ht & _ & _ & -> & _).
    split.
    + rewrite upsert_row_keys.
      destruct (has_key (trade_id row) db) eqn:E; [exact Hn|].
      apply NoDup_snoc; [exact Hn|].
      rewrite Ht in *. rewrite <- has_key_in. congruence.
    + intros r Hin. apply upsert_row_in in Hin.
      destruct Hin as [->|[Hin|(old & Hin & ->)]].
      * eexists. split; [exact Ht|]. split; [exact Hid|apply trim_idem].
      * now apply Hk.
      * destruct (Hk old Hin) as (s & Hs & Hne & Htr). exists s. simpl. auto.
Qed.


(** X8: a call of [upsertTrade] that returns writes the row of its own
    trade id and nothing else: it returns that row, a later [getTrade] of
    the id reads the same row, every other trade id reads as before, and the
    table grows by one row exactly when the id was new. *)
Theorem upsertTrade_writes_one_row
    (tradeId patch : jsval) (now : Z) (db db' : DB) (o : option Row) :
  upsertTrade StringToInt tradeId patch now db = Ok (db', o) ->
  (exists r, o = Some r /\ In r db' /\
             trade_id r = SText (trim (str_or_empty tradeId))) /\
  getTrade tradeId db' = Ok o /\
  (forall other,
     trim (str_or_empty other) <> trim (str_or_empty tradeId) ->
     getTrade other db' = getTrade other db) /\
  List.length db' =
    match getTrade tradeId db with
    | Ok (Some _) => List.length db
    | _ => S (List.length db)
    end.
Proof.
  intros Hu. apply upsertTrade_inv in Hu. cbv zeta in Hu.
  destruct Hu as (Hid & row & _ & Ht & _ & _ & -> & ->).
  set (id := trim (str_or_empty tradeId)) in *.
  assert (Hsel : exists r,
             select_by c_trade_id (SText id) (upsert_row row db) = Some r).
  { destruct (select_by c_trade_id (SText id) db) as [old|] eqn:E.
    - rewrite (select_after_upsert id old row db E Ht). eauto.
    - rewrite (select_after_insert id row db E Ht). eauto. }
  destruct Hsel as [r Hsel].
  split; [|split; [|split]].
  - exists r. split; [exact Hsel|].
    apply select_by_found in Hsel. destruct Hsel as [Hin E].
    split; [exact Hin|]. now apply sql_eqb_text in E.
  - unfold getTrade. fold id. destruct (String.eqb_spec id ""); congruence.
  - intros other Ho. unfold getTrade.
    destruct (String.eqb _ ""); [reflexivity|].
    now rewrite (upsert_row_other row db id _ Ht Ho).
  - rewrite upsert_row_length, Ht. unfold getTrade. fold id.
    destruct (String.eqb_spec id ""); [congruence|].
    destruct (select_by c_trade_id (SText id) db) eqn:E.
    + destruct (has_key (SText id) db) eqn:K; [reflexivity|].
      apply select_none_has_key in K. congruence.
    + apply select_none_has_key in E. now rewrite E.
Qed.



End WithNumber.

(** A first write. *)
Definition row_new : Row :=
  mkRow (SText "t2") SNull SNull SNull SNull SNull SNull SNull SNull SNull
    SNull SNull SNull SNull SNull SNull SNull SNull
    (SText "escrow") (SInt 3000) (SInt 3000) SNull.

Lemma row_new_written :
  upsertTrade ReceiptsUpsert.no_numbers (JStr " t2 ")
    (JObj [("state", JStr "escrow")]) 3000 ReceiptsUpsert.db_paid
    = Ok ((ReceiptsUpsert.db_paid ++ [row_new])%list, Some row_new).
Proof. vm_compute. reflexivity. Defined.



Lemma upsertTrade_writes_one_row_witness :
  getTrade (JStr " t2 ") (ReceiptsUpsert.db_paid ++ [row_new])%list
    = Ok (Some row_new) /\
  getTrade (JStr "t1") (ReceiptsUpsert.db_paid ++ [row_new])%list
    = getTrade (JStr "t1") ReceiptsUpsert.db_paid.
Proof.
  pose proof (upsertTrade_writes_one_row ReceiptsUpsert.no_numbers
                (JStr " t2 ") (JObj [("state", JStr "escrow")]) 3000
                ReceiptsUpsert.db_paid _ _ row_new_written)
    as (_ & Hget & Hother & _).
  split; [exact Hget|]. apply Hother. vm_compute. discriminate.
Defined.


End ReceiptsKeys.

(* ===================================================================== *)
(** * Receipts store: what a sequence of writes keeps *)
(* ===================================================================== *)

Module ReceiptsHistory.
Import Receipts JSFacts ReceiptsFacts ReceiptsMergeFacts ReceiptsMerge.
Import ReceiptsKeys ReceiptsLog.


Section WithNumber.

Variable StringToInt : string -> option Z.



Lemma write_reachable (w : Write) (db : DB) :
  reachable StringToInt db -> reachable StringToInt (write StringToInt w db).
Proof.
  intros Hr. unfold write.
  destruct (upsertTrade StringToInt _ _ _ db) as [[db' o]|] eqn:Hu;
    [|exact Hr].
  eapply reach_upsert; eauto.
Defined.

Lemma writes_reachable (ws : list Write) (db : DB) :
  reachable StringToInt db -> reachable StringToInt (writes StringToInt ws db).
Proof.
  revert db. unfold writes.
  induction ws as [|w ws IH]; intros db Hr; simpl; [exact Hr|].
  apply IH. now apply write_reachable.
Defined.



End WithNumber.







End ReceiptsHistory.

(* ===================================================================== *)
(** * Receipts store: list queries *)
(* ===================================================================== *)

Module OrderFacts.
Import Receipts ReceiptsQueries.

Section Sorting.

Variable A : Type.
Variable key : A -> sqlval.

(** The integer a stamp column holds. *)
Definition int_of (v : sqlval) : Z :=
  match v with SInt n => n | _ => 0 end.

Definition is_int (v : sqlval) : Prop := exists n, v = SInt n.

(** [a] is listed before [b]: it is not older. *)
Definition not_older (a b : A) : Prop := int_of (key b) <= int_of (key a).

Lemma insert_desc_perm (r : A) (l : list A) :
  Permutation (insert_desc key r l) (r :: l).
Proof.
  induction l as [|y t IH]; simpl; [reflexivity|].
  destruct (sql_ltb (key r) (key y)); [|reflexivity].
  rewrite IH. apply perm_swap.
Qed.

Lemma order_desc_perm (l : list A) : Permutation (order_desc key l) l.
Proof.
  induction l as [|x t IH]; simpl; [constructor|].
  rewrite insert_desc_perm. now constructor.
Qed.

Lemma insert_desc_sorted (r : A) (l : list A) :
  is_int (key r) -> Forall (fun x => is_int (key x)) l ->
  StronglySorted not_older l ->
  StronglySorted not_older (insert_desc key r l).
Proof.
  intros [n Hn] Hi Hs. induction Hs as [|y t Ht IH Hy]; simpl.
  - constructor; constructor.
  - inversion Hi as [|? ? [m Hm] Hi']; subst.
    unfold sql_ltb. rewrite Hn, Hm. simpl.
    destruct (Z.leb_spec m n) as [Hle|Hlt]; simpl.
    + constructor; [now constructor|].
      constructor; [unfold not_older; rewrite Hn, Hm; simpl; lia|].
      rewrite Forall_forall in *. intros z Hz. specialize (Hy z Hz).
      unfold not_older in *. rewrite Hn, Hm in *. simpl in *. lia.
    + constructor; [now apply IH|].
      apply (Permutation_Forall (Permutation_sym (insert_desc_perm r t))).
      constructor; [|exact Hy].
      unfold not_older. rewrite Hn, Hm. simpl. lia.
Qed.

Lemma order_desc_sorted (l : list A) :
  Forall (fun x => is_int (key x)) l ->
  StronglySorted not_older (order_desc key l).
Proof.
  induction 1 as [|x t Hx Ht IH]; simpl; [constructor|].
  apply insert_desc_sorted; [exact Hx| |exact IH].
  exact (Permutation_Forall (Permutation_sym (order_desc_perm t)) Ht).
Qed.

Lemma in_firstn (k : nat) (l : list A) (x : A) :
  In x (firstn k l) -> In x l.
Proof.
  intros H. rewrite <- (firstn_skipn k l). apply in_or_app. now left.
Qed.

Lemma in_skipn (k : nat) (l : list A) (x : A) :
  In x (skipn k l) -> In x l.
Proof.
  intros H. rewrite <- (firstn_skipn k l). apply in_or_app. now right.
Qed.

Lemma nodup_firstn (k : nat) (l : list A) : NoDup l -> NoDup (firstn k l).
Proof.
  intros H. rewrite <- (firstn_skipn k l) in H.
  now apply NoDup_app_remove_r in H.
Qed.

Lemma nodup_skipn (k : nat) (l : list A) : NoDup l -> NoDup (skipn k l).
Proof.
  intros H. rewrite <- (firstn_skipn k l) in H.
  now apply NoDup_app_remove_l in H.
Qed.

Lemma sorted_skipn (R : A -> A -> Prop) (k : nat) (l : list A) :
  StronglySorted R l -> StronglySorted R (skipn k l).
Proof.
  revert l. induction k as [|k IH]; intros l Hs; simpl; [exact Hs|].
  destruct l as [|x t]; [constructor|].
  apply IH. now inversion Hs.
Qed.

Lemma sorted_firstn (R : A -> A -> Prop) (k : nat) (l : list A) :
  StronglySorted R l -> StronglySorted R (firstn k l).
Proof.
  revert l. induction k as [|k IH]; intros l Hs; simpl; [constructor|].
  destruct l as [|x t]; [constructor|].
  inversion Hs as [|? ? Ht Hx]; subst. constructor; [now apply IH|].
  rewrite Forall_forall in *. intros z Hz. apply Hx.
  now apply (in_firstn k).
Qed.

(** In a sorted list, what the first [k] rows leave out comes after them. *)
Lemma sorted_firstn_rest (R : A -> A -> Prop) (k : nat) (l : list A)
                         (a b : A) :
  StronglySorted R l -> In a (firstn k l) -> In b l ->
  In b (firstn k l) \/ R a b.
Proof.
  revert l. induction k as [|k IH]; intros l Hs Ha Hb; simpl in *; [easy|].
  destruct l as [|x t]; [easy|].
  inversion Hs as [|? ? Ht Hx]; subst. rewrite Forall_forall in Hx.
  destruct Hb as [->|Hb]; [left; now left|].
  destruct Ha as [->|Ha].
  - right. now apply Hx.
  - destruct (IH t Ht Ha Hb) as [H|H]; [left; now right|now right].
Qed.

Lemma page_length (n off : Z) (l : list A) :
  List.length (page n off l) =
    Nat.min (Z.to_nat n) (List.length l - Z.to_nat off).
Proof. unfold page. now rewrite length_firstn, length_skipn. Qed.

Lemma page_in (n off : Z) (l : list A) (x : A) :
  In x (page n off l) -> In x l.
Proof.
  unfold page. intros H. apply in_firstn in H.
  now apply in_skipn in H.
Qed.

Lemma page_sorted (R : A -> A -> Prop) (n off : Z) (l : list A) :
  StronglySorted R l -> StronglySorted R (page n off l).
Proof. intros H. unfold page. now apply sorted_firstn, sorted_skipn. Qed.

Lemma page_nodup (n off : Z) (l : list A) : NoDup l -> NoDup (page n off l).
Proof.
  intros H. unfold page. apply nodup_firstn, nodup_skipn. exact H.
Qed.

(** What a query returns: [WHERE p ORDER BY key DESC LIMIT n OFFSET off]. *)
Lemma query_rows (p : A -> bool) (n off : Z) (t : list A) :
  Forall (fun x => is_int (key x)) t ->
  let l := page n off (order_desc key (List.filter p t)) in
  (forall x, In x l -> In x t /\ p x = true) /\
  List.length l =
    Nat.min (Z.to_nat n) (List.length (List.filter p t) - Z.to_nat off) /\
  StronglySorted not_older l /\
  (NoDup t -> NoDup l) /\
  (off <= 0 -> forall a b,
     In a l -> In b t -> p b = true -> In b l \/ not_older a b).
Proof.
  intros Hi l.
  assert (Hif : Forall (fun x => is_int (key x)) (List.filter p t)).
  { rewrite Forall_forall in *. intros x Hx. apply filter_In in Hx.
    now apply Hi. }
  pose proof (order_desc_perm (List.filter p t)) as Hp.
  pose proof (order_desc_sorted _ Hif) as Hs.
  split; [|split; [|split; [|split]]].
  - intros x Hx. apply page_in in Hx.
    apply (Permutation_in _ Hp) in Hx. now apply filter_In in Hx.
  - unfold l. rewrite page_length. now rewrite (Permutation_length Hp).
  - now apply page_sorted.
  - intros Hn. apply page_nodup.
    apply (Permutation_NoDup (Permutation_sym Hp)). now apply NoDup_filter.
  - intros Hoff a b Ha Hb Hpb. unfold l, page in *.
    replace (Z.to_nat off) with 0%nat in * by lia. simpl skipn in *.
    apply (sorted_firstn_rest _ _ _ a b Hs Ha).
    apply (Permutation_in _ (Permutation_sym Hp)). apply filter_In. auto.
Qed.

End Sorting.

Arguments not_older {A} key a b.

Lemma limit_of_range (hi dflt : Z) (v : jsval) :
  1 <= dflt <= hi -> 1 <= limit_of hi dflt v <= hi.
Proof.
  intros H. unfold limit_of, clamp. destruct v; lia.
Qed.

Lemma offset_of_range (v : jsval) : 0 <= offset_of v.
Proof. unfold offset_of. destruct v; lia. Qed.

End OrderFacts.

Module ReceiptsListing.
Import Receipts JSFacts ReceiptsFacts ReceiptsMerge ReceiptsKeys.
Import ReceiptsQueries OrderFacts.

(** The options object a query reads. *)
Definition opts_of (opts : jsval) : jsval :=
  match opts with JUndef => JObj [] | _ => opts end.

Lemma with_opts_inv {B : Type} (opts : jsval) (k : jsval -> result B)
                    (b : B) :
  with_opts opts k = Ok b -> opts <> JNull /\ k (opts_of opts) = Ok b.
Proof.
  destruct opts; simpl; intros H; try discriminate H;
    (split; [congruence|exact H]).
Qed.

Section WithNumber.

Variable StringToInt : string -> option Z.

Lemma reachable_stamps (db : DB) :
  reachable StringToInt db -> Forall (fun r => is_int (updated_at r)) db.
Proof.
  intros Hr. apply reachable_wf in Hr. rewrite Forall_forall in *.
  intros r Hin. exact (Hr r Hin c_updated_at).
Qed.

Lemma reachable_nodup (db : DB) : reachable StringToInt db -> NoDup db.
Proof.
  intros Hr. apply reachable_keyed in Hr. destruct Hr as [Hn _].
  now apply NoDup_map_inv in Hn.
Qed.

(** X12: on a table written by the store, [listTradesPaged] returns rows of
    the table without repetition, newest [updated_at] first, exactly
    min(limit, rows - offset) of them, where the limit is clamped into
    [1, 1000] (50 when it is not a number) and the offset is raised to 0;
    with offset 0 no row left out is newer than a listed one.  [listTrades]
    is the query at offset 0. *)
Theorem listTradesPaged_pages_by_recency
    (db : DB) (opts : jsval) (l : list Row) :
  reachable StringToInt db ->
  listTradesPaged opts db = Ok l ->
  let n := limit_of 1000 50 (get (opts_of opts) "limit") in
  let off := offset_of (get (opts_of opts) "offset") in
  1 <= n <= 1000 /\ 0 <= off /\
  List.length l = Nat.min (Z.to_nat n) (List.length db - Z.to_nat off) /\
  (forall r, In r l -> In r db) /\
  NoDup l /\
  StronglySorted (not_older updated_at) l /\
  (off = 0 -> forall a b, In a l -> In b db ->
     In b l \/ not_older updated_at a b) /\
  (off = 0 -> listTrades opts db = Ok l).
Proof.
  intros Hr Hl n off. apply with_opts_inv in Hl. destruct Hl as [Hnull Hl].
  injection Hl as <-. fold n off.
  destruct (query_rows Row updated_at (fun _ => true) n off db
              (reachable_stamps db Hr)) as (H1 & H2 & H3 & H4 & H5).
  assert (Hf : List.filter (fun _ : Row => true) db = db).
  { clear. induction db as [|x t IH]; simpl; congruence. }
  rewrite Hf in *.
  split; [apply limit_of_range; lia|].
  split; [apply offset_of_range|].
  split; [exact H2|].
  split; [intros r Hin; now apply H1|].
  split; [apply H4; now apply reachable_nodup|].
  split; [exact H3|].
  split.
  - intros Hoff a b Ha Hb. apply H5; auto. lia.
  - intros Hoff. unfold listTrades.
    destruct opts; try congruence; simpl; fold n; now rewrite <- Hoff.
Qed.

(** X13: [listOpenClaims] returns only rows of the table whose state is the
    requested one ("ln_paid" when none is given) and that hold a payment
    preimage (64 lowercase hexadecimal characters), newest first, at most
    the clamped limit; with offset 0 every such row is listed or is not
    newer than each listed row. *)
Theorem listOpenClaims_lists_claimable_trades
    (db : DB) (opts : jsval) (l : list Row) :
  reachable StringToInt db ->
  listOpenClaims opts db = Ok l ->
  let st := state_of "ln_paid" (get (opts_of opts) "state") in
  let off := offset_of (get (opts_of opts) "offset") in
  (get (opts_of opts) "state" = JUndef -> st = "ln_paid") /\
  (Z.of_nat (List.length l) <= 1000) /\
  (forall r, In r l ->
     In r db /\ state r = SText st /\
     exists h, ln_preimage_hex r = SText h /\ is_lower_hex 64 h = true) /\
  StronglySorted (not_older updated_at) l /\
  (off = 0 -> forall a b, In a l -> In b db ->
     state b = SText st -> ln_preimage_hex b <> SNull ->
     In b l \/ not_older updated_at a b).
Proof.
  intros Hr Hl st off. apply with_opts_inv in Hl. destruct Hl as [Hnull Hl].
  injection Hl as <-. fold st off.
  set (n := limit_of 1000 50 (get (opts_of opts) "limit")).
  destruct (query_rows Row updated_at (open_claim st) n off db
              (reachable_stamps db Hr)) as (H1 & H2 & H3 & H4 & H5).
  assert (Hn : 1 <= n <= 1000) by (apply limit_of_range; lia).
  split; [intros E; unfold st; rewrite E; reflexivity|].
  split; [rewrite H2; lia|].
  split; [|split; [exact H3|]].
  - intros r Hin. destruct (H1 r Hin) as [Hdb Hp]. split; [exact Hdb|].
    unfold open_claim in Hp. apply andb_prop in Hp. destruct Hp as [Hs Hx].
    split; [now apply sql_eqb_text|].
    apply reachable_wf in Hr. rewrite Forall_forall in Hr.
    destruct (Hr r Hdb c_ln_preimage_hex) as [E|(h & E & Hh)]; simpl in E.
    + rewrite E in Hx. discriminate.
    + eauto.
  - intros Hoff a b Ha Hb Hs Hx. apply H5; auto; [lia|].
    unfold open_claim. rewrite Hs. simpl. rewrite String.eqb_refl. simpl.
    destruct (ln_preimage_hex b); [congruence|reflexivity|reflexivity].
Qed.

Lemma refund_bound (nu : jsval) (now : Z) (c : coerced) :
  (if nullish nu then Ok (CVal (SInt (now / 1000)))
   else coerceInt StringToInt nu) = Ok c ->
  exists bound,
    c = CVal (SInt bound) /\
    (nullish nu = true -> bound = now / 1000) /\
    (forall t, nu = JNum t -> bound = t).
Proof.
  destruct nu as [| |b|n|s|xs|fs]; simpl; intros H.
  - injection H as <-. eexists. split; [reflexivity|]. split; congruence.
  - injection H as <-. eexists. split; [reflexivity|]. split; congruence.
  - injection H as <-. eexists. split; [reflexivity|]. split; congruence.
  - injection H as <-. eexists. split; [reflexivity|]. split; congruence.
  - destruct (StringToInt s); [|discriminate]. injection H as <-.
    eexists. split; [reflexivity|]. split; congruence.
  - destruct (StringToInt _); [|discriminate]. injection H as <-.
    eexists. split; [reflexivity|]. split; congruence.
  - discriminate.
Qed.

(** X14: [listOpenRefunds] returns only rows whose state is the requested one
    ("escrow" when none is given) and whose [sol_refund_after_unix] is a
    number not above the bound: [nowUnix] when given, the clock in seconds
    otherwise; the rows come newest first, at most the clamped limit. *)
Theorem listOpenRefunds_lists_due_refunds
    (db : DB) (opts : jsval) (now : Z) (l : list Row) :
  reachable StringToInt db ->
  listOpenRefunds StringToInt opts now db = Ok l ->
  let st := state_of "escrow" (get (opts_of opts) "state") in
  exists bound,
    (nullish (get (opts_of opts) "nowUnix") = true -> bound = now / 1000) /\
    (forall t, get (opts_of opts) "nowUnix" = JNum t -> bound = t) /\
    (Z.of_nat (List.length l) <= 1000) /\
    (forall r, In r l ->
       In r db /\ state r = SText st /\
       exists t, sol_refund_after_unix r = SInt t /\ t <= bound) /\
    StronglySorted (not_older updated_at) l /\
    (offset_of (get (opts_of opts) "offset") = 0 ->
     forall a b t, In a l -> In b db -> state b = SText st ->
       sol_refund_after_unix b = SInt t -> t <= bound ->
       In b l \/ not_older updated_at a b).
Proof.
  intros Hr Hl st. apply with_opts_inv in Hl. destruct Hl as [Hnull Hl].
  cbv zeta in Hl. fold st in Hl.
  set (n := limit_of 1000 50 (get (opts_of opts) "limit")) in *.
  set (off := offset_of (get (opts_of opts) "offset")) in *.
  set (nu := get (opts_of opts) "nowUnix") in *.
  match type of Hl with
  | match ?e with Ok _ => _ | Err _ => _ end = _ =>
      destruct e as [c|] eqn:Hc; [|discriminate Hl]
  end.
  destruct (refund_bound nu now c Hc) as (bound & -> & Hb1 & Hb2).
  simpl in Hl.
  injection Hl as <-. exists bound.
  destruct (query_rows Row updated_at (open_refund st bound) n off db
              (reachable_stamps db Hr)) as (H1 & H2 & H3 & H4 & H5).
  assert (Hn : 1 <= n <= 1000) by (apply limit_of_range; lia).
  split; [exact Hb1|]. split; [exact Hb2|].
  split; [rewrite H2; lia|].
  split; [|split; [exact H3|]].
  - intros r Hin. destruct (H1 r Hin) as [Hdb Hp]. split; [exact Hdb|].
    unfold open_refund in Hp. apply andb_prop in Hp. destruct Hp as [Hp Hle].
    apply andb_prop in Hp. destruct Hp as [Hs Hx].
    split; [now apply sql_eqb_text|].
    destruct (sol_refund_after_unix r) as [|t|s]; try discriminate.
    exists t. split; [reflexivity|]. simpl in Hle. lia.
  - intros Hoff a b t Ha Hdb Hs Ht Hle. apply H5; auto; [lia|].
    unfold open_refund. rewrite Hs, Ht. simpl. rewrite String.eqb_refl.
    simpl. lia.
Qed.

End WithNumber.

(** Three trades, the second one open for a claim and for a refund. *)
Definition three_writes : list ReceiptsLog.Write :=
  [ReceiptsLog.mkWrite (JStr "a") (JObj [("state", JStr "escrow")]) 1000;
   ReceiptsLog.mkWrite (JStr "b")
     (JObj [("state", JStr "ln_paid");
            ("ln_preimage_hex", JStr ReceiptsUpsert.preimage_H);
            ("sol_refund_after_unix", JNum 50)]) 3000;
   ReceiptsLog.mkWrite (JStr "c") (JObj []) 2000].

Definition three_trades : DB :=
  ReceiptsLog.writes ReceiptsUpsert.no_numbers three_writes [].

Lemma three_trades_reachable :
  reachable ReceiptsUpsert.no_numbers three_trades.
Proof.
  exact (ReceiptsHistory.writes_reachable ReceiptsUpsert.no_numbers
           three_writes [] (reach_empty _)).
Defined.

Definition two_newest : list Row :=
  Eval vm_compute in
    match listTradesPaged (JObj [("limit", JNum 2)]) three_trades with
    | Ok l => l
    | Err _ => []
    end.

Lemma two_newest_listed :
  listTradesPaged (JObj [("limit", JNum 2)]) three_trades = Ok two_newest.
Proof. vm_compute. reflexivity. Defined.

Lemma listTradesPaged_pages_by_recency_witness :
  List.length two_newest = 2%nat /\
  StronglySorted (not_older updated_at) two_newest /\
  listTrades (JObj [("limit", JNum 2)]) three_trades = Ok two_newest.
Proof.
  pose proof (listTradesPaged_pages_by_recency ReceiptsUpsert.no_numbers
                three_trades (JObj [("limit", JNum 2)]) two_newest
                three_trades_reachable two_newest_listed) as H.
  cbv zeta in H. destruct H as (_ & _ & Hlen & _ & _ & Hs & _ & Hl).
  split; [exact Hlen|]. split; [exact Hs|]. apply Hl. reflexivity.
Defined.

Definition claimable : list Row :=
  Eval vm_compute in
    match listOpenClaims JUndef three_trades with
    | Ok l => l
    | Err _ => []
    end.

Lemma claimable_listed : listOpenClaims JUndef three_trades = Ok claimable.
Proof. vm_compute. reflexivity. Defined.

Lemma listOpenClaims_lists_claimable_trades_witness :
  listOpenClaims JUndef three_trades = Ok claimable /\
  (forall r, In r claimable ->
     In r three_trades /\ state r = SText "ln_paid" /\
     exists h, ln_preimage_hex r = SText h /\ is_lower_hex 64 h = true).
Proof.
  pose proof (listOpenClaims_lists_claimable_trades
                ReceiptsUpsert.no_numbers three_trades JUndef claimable
                three_trades_reachable claimable_listed) as H.
  cbv zeta in H. destruct H as (_ & _ & Hin & _).
  split; [exact claimable_listed|exact Hin].
Defined.

Definition refundable : list Row :=
  Eval vm_compute in
    match listOpenRefunds ReceiptsUpsert.no_numbers
            (JObj [("state", JStr "ln_paid")]) 60000 three_trades with
    | Ok l => l
    | Err _ => []
    end.

Lemma refundable_listed :
  listOpenRefunds ReceiptsUpsert.no_numbers
    (JObj [("state", JStr "ln_paid")]) 60000 three_trades = Ok refundable.
Proof. vm_compute. reflexivity. Defined.

Lemma listOpenRefunds_lists_due_refunds_witness :
  exists bound,
    bound = 60 /\
  forall r, In r refundable ->
      In r three_trades /\ state r = SText "ln_paid" /\
  exists t, sol_refund_after_unix r = SInt t /\ t <= bound.
Proof.
  pose proof (listOpenRefunds_lists_due_refunds
                ReceiptsUpsert.no_numbers three_trades
                (JObj [("state", JStr "ln_paid")]) 60000 refundable
                three_trades_reachable refundable_listed) as H.
  cbv zeta in H. destruct H as (bound & Hb & _ & _ & Hin & _).
  exists bound. split; [now apply Hb|exact Hin].
Defined.

End ReceiptsListing.

(* ===================================================================== *)
(** * Receipts store: listing locks *)
(* ===================================================================== *)

Module ListingLockFacts.
Import Receipts JSFacts ReceiptsFacts ReceiptsMergeFacts ReceiptsKeys.
Import ReceiptsQueries OrderFacts ListingLocks.

(** What a column of [listing_locks] holds in a table the store wrote. *)
Definition text_or_null (v : sqlval) : Prop :=
  v = SNull \/ exists s, v = SText s.

Definition filled_text (v : sqlval) : Prop :=
  exists s, v = SText s /\ trim s <> "".

Record lock_wf (r : Lock) : Prop := mkLockWf {
  wf_key : exists k, listing_key r = SText k /\ k <> "" /\ trim k = k;
  wf_type : filled_text (listing_type r);
  wf_id : filled_text (listing_id r);
  wf_trade : text_or_null (trade_id r);
  wf_state : state r = SText "in_flight" \/ state r = SText "filled";
  wf_note : text_or_null (note r);
  wf_meta : text_or_null (meta_json r);
  wf_created : is_int (created_at r);
  wf_updated : is_int (updated_at r)
}.

Definition locks_wf (t : Locks) : Prop :=
  NoDup (List.map listing_key t) /\ Forall lock_wf t.

(** The merged row the statement leaves for an existing [listing_key]. *)
Definition merged_lock (old r : Lock) : Lock :=
  mkLock (listing_key old) (listing_type r) (listing_id r) (trade_id r)
    (state r) (note r) (meta_json r) (created_at old) (updated_at r).

Definition has_lock (k : sqlval) (t : Locks) : bool :=
  existsb (fun x => sql_eqb (listing_key x) k) t.

Lemma select_lock_found (k : sqlval) (t : Locks) (r : Lock) :
  select_lock k t = Some r -> In r t /\ sql_eqb (listing_key r) k = true.
Proof.
  induction t as [|x rest IH]; simpl; [discriminate|].
  destruct (sql_eqb (listing_key x) k) eqn:E.
  - intros [= <-]. auto.
  - intros H. destruct (IH H). auto.
Qed.

Lemma select_lock_none (k : sqlval) (t : Locks) :
  select_lock k t = None <-> has_lock k t = false.
Proof.
  induction t as [|x rest IH]; simpl; [tauto|].
  destruct (sql_eqb (listing_key x) k); simpl; [split; discriminate|exact IH].
Qed.

Lemma select_lock_after_upsert (k : string) (old r : Lock) (t : Locks) :
  select_lock (SText k) t = Some old -> listing_key r = SText k ->
  select_lock (SText k) (upsert_lock r t) = Some (merged_lock old r).
Proof.
  intros Hs Hr. induction t as [|x rest IH]; simpl in *; [discriminate|].
  rewrite Hr. destruct (sql_eqb (listing_key x) (SText k)) eqn:E.
  - injection Hs as ->. simpl. now rewrite E.
  - simpl. rewrite E. now apply IH.
Qed.

Lemma select_lock_after_insert (k : string) (r : Lock) (t : Locks) :
  select_lock (SText k) t = None -> listing_key r = SText k ->
  select_lock (SText k) (upsert_lock r t) = Some r /\
  upsert_lock r t = (t ++ [r])%list.
Proof.
  intros Hs Hr. induction t as [|x rest IH]; simpl in *.
  - rewrite Hr. simpl. now rewrite String.eqb_refl.
  - rewrite Hr.
    destruct (sql_eqb (listing_key x) (SText k)) eqn:E; [discriminate|].
    simpl. rewrite E. destruct (IH Hs) as [H1 H2]. now rewrite H1, H2.
Qed.

Lemma upsert_lock_other (r : Lock) (t : Locks) (k k' : string) :
  listing_key r = SText k -> k' <> k ->
  select_lock (SText k') (upsert_lock r t) = select_lock (SText k') t.
Proof.
  intros Hr Hk. induction t as [|x rest IH]; simpl.
  - rewrite Hr. simpl. destruct (String.eqb_spec k k'); congruence.
  - rewrite Hr. destruct (sql_eqb (listing_key x) (SText k)) eqn:E; simpl.
    + apply sql_eqb_text in E. rewrite E. simpl.
      destruct (String.eqb_spec k k'); congruence.
    + now rewrite IH.
Qed.

Lemma upsert_lock_keys (r : Lock) (t : Locks) :
  List.map listing_key (upsert_lock r t) =
    if has_lock (listing_key r) t then List.map listing_key t
    else (List.map listing_key t ++ [listing_key r])%list.
Proof.
  induction t as [|x rest IH]; simpl; [reflexivity|].
  destruct (sql_eqb (listing_key x) (listing_key r)); simpl; [reflexivity|].
  rewrite IH. now destruct (has_lock (listing_key r) rest).
Qed.

Lemma upsert_lock_in (r x : Lock) (t : Locks) :
  In x (upsert_lock r t) ->
  x = r \/ In x t \/ exists old, In old t /\ x = merged_lock old r.
Proof.
  induction t as [|y rest IH]; simpl.
  - intros [<-|[]]. now left.
  - destruct (sql_eqb (listing_key y) (listing_key r)).
    + intros [<-|H]; [|now auto]. right. right. exists y. auto.
    + intros [<-|H]; [now auto|].
      destruct (IH H) as [?|[?|(old & ? & ?)]]; eauto 6.
Qed.

Lemma has_lock_in (s : string) (t : Locks) :
  has_lock (SText s) t = true <-> In (SText s) (List.map listing_key t).
Proof.
  unfold has_lock. rewrite existsb_exists, in_map_iff. split.
  - intros (x & Hx & E). apply sql_eqb_text in E. eauto.
  - intros (x & E & Hx). exists x. split; [exact Hx|].
    rewrite E. simpl. apply String.eqb_refl.
Qed.


Lemma nodup_map_filter {A B : Type} (f : A -> B) (p : A -> bool)
                       (l : list A) :
  NoDup (List.map f l) -> NoDup (List.map f (List.filter p l)).
Proof.
  induction l as [|x t IH]; simpl; [auto|].
  intros Hn. inversion Hn as [|? ? Hx Ht]; subst.
  destruct (p x); simpl; [|now apply IH].
  constructor; [|now apply IH].
  intros Hin. apply Hx. rewrite in_map_iff in *.
  destruct Hin as (y & E & Hy). apply filter_In in Hy. exists y. tauto.
Qed.

Lemma select_lock_filter (p : Lock -> bool) (k : sqlval) (t : Locks) :
  (forall x, sql_eqb (listing_key x) k = true -> p x = true) ->
  select_lock k (List.filter p t) = select_lock k t.
Proof.
  intros Hp. induction t as [|x rest IH]; simpl; [reflexivity|].
  destruct (p x) eqn:P; simpl.
  - now rewrite IH.
  - destruct (sql_eqb (listing_key x) k) eqn:E; [|exact IH].
    rewrite (Hp x E) in P. discriminate.
Qed.

Lemma select_lock_removed (k : sqlval) (t : Locks) :
  select_lock k
    (List.filter (fun r => negb (sql_eqb (listing_key r) k)) t) = None.
Proof.
  induction t as [|x rest IH]; simpl; [reflexivity|].
  destruct (sql_eqb (listing_key x) k) eqn:E; simpl; [exact IH|].
  now rewrite E.
Qed.

Section WithSerializer.

Variable StringToInt : string -> option Z.
Variable stableStringify : jsval -> result string.

(** The object [next] of a call. *)
Definition lock_next (key : string) (patch : jsval) (now : Z) (t : Locks)
  : jsval :=
  JObj (apply_patch (patch_entries (jor patch (JObj [])))
          (obj_set "updated_at" (JNum now)
             match select_lock (SText key) t with
             | Some r =>
                 match mapListingLockRow r with JObj fs => fs | _ => [] end
             | None => [("listing_key", JStr key); ("created_at", JNum now);
                        ("updated_at", JNum now)]
             end)).

Lemma coerceText_typed (v : jsval) (c : coerced) :
  coerceText v = Ok c -> text_or_null (to_sql c).
Proof.
  unfold text_or_null.
  destruct v; simpl; intros [= <-]; simpl; eauto.
Qed.

Lemma coerceJson_typed (v : jsval) (c : coerced) :
  coerceJson stableStringify v = Ok c -> text_or_null (to_sql c).
Proof.
  unfold text_or_null, coerceJson.
  destruct v; try (intros [= <-]; simpl; now eauto);
    destruct (stableStringify _); try discriminate;
    intros [= <-]; simpl; eauto.
Qed.

Lemma coerceInt_typed (v : jsval) (c : coerced) :
  coerceInt StringToInt v = Ok c -> is_null (to_sql c) = false ->
  is_int (to_sql c).
Proof.
  unfold is_int, coerceInt.
  destruct v; try discriminate; try (intros [= <-]; simpl; now eauto);
    destruct (StringToInt _); try discriminate; intros [= <-]; simpl; eauto.
Qed.

Lemma nonEmpty_filled (c : coerced) :
  isNonEmptyString c = true -> filled_text (to_sql c).
Proof.
  unfold filled_text. destruct c as [|[| |s]]; simpl; try discriminate.
  intros H. exists s. split; [reflexivity|].
  apply negb_true_iff in H. now apply eqb_neq_empty.
Qed.

(** How a successful [upsertListingLock] unfolds. *)
Lemma upsertListingLock_inv (listingKey patch : jsval) (now : Z)
                            (t t' : Locks) (o : option Lock) :
  upsertListingLock StringToInt stableStringify listingKey patch now t
    = Ok (t', o) ->
  let key := trim (str_or_empty listingKey) in
  let next := lock_next key patch now t in
  let st := toLowerCase (trim (str_or_empty (get next "state"))) in
  key <> "" /\
  exists row,
    lock_wf row /\
    listing_key row = SText key /\
    state row = SText st /\
    coerceText (get next "listing_type") = Ok (CVal (listing_type row)) /\
    coerceText (get next "listing_id") = Ok (CVal (listing_id row)) /\
    (exists c, coerceText (get next "trade_id") = Ok c /\
               trade_id row = to_sql c) /\
    (exists c, coerceText (get next "note") = Ok c /\ note row = to_sql c) /\
    (exists c, coerceJson stableStringify (get next "meta_json") = Ok c /\
               meta_json row = to_sql c) /\
    (exists c, coerceInt StringToInt (get next "created_at") = Ok c /\
               created_at row = to_sql c) /\
    (exists c, coerceInt StringToInt (get next "updated_at") = Ok c /\
               updated_at row = to_sql c) /\
    t' = upsert_lock row t /\
    o = select_lock (SText key) t'.
Proof.
  unfold upsertListingLock, getListingLock. cbv zeta.
  destruct (String.eqb_spec (trim (str_or_empty listingKey)) "") as [|Hk];
    [discriminate|].
  fold (lock_next (trim (str_or_empty listingKey)) patch now t).
  set (key := trim (str_or_empty listingKey)) in *.
  set (next := lock_next key patch now t).
  set (st := toLowerCase (trim (str_or_empty (get next "state")))).
  destruct (negb (String.eqb st "in_flight") && negb (String.eqb st "filled"))
    eqn:Hst; [discriminate|].
  destruct (coerceText (get next "listing_type")) as [v1|] eqn:E1;
    [|discriminate].
  destruct (coerceText (get next "listing_id")) as [v2|] eqn:E2;
    [|discriminate].
  destruct (coerceText (get next "trade_id")) as [v3|] eqn:E3;
    [|discriminate].
  destruct (coerceText (get next "note")) as [v4|] eqn:E4; [|discriminate].
  destruct (coerceJson stableStringify (get next "meta_json")) as [v5|] eqn:E5;
    [|discriminate].
  destruct (coerceInt StringToInt (get next "created_at")) as [v6|] eqn:E6;
    [|discriminate].
  destruct (coerceInt StringToInt (get next "updated_at")) as [v7|] eqn:E7;
    [|discriminate].
  destruct (isNonEmptyString v1) eqn:N1; [|discriminate].
  destruct (isNonEmptyString v2) eqn:N2; [|discriminate].
  simpl negb. cbv iota. unfold run_upsert_lock. cbn [listing_type listing_id
    state created_at updated_at].
  match goal with
  | |- context [if ?b then Err _ else Ok (upsert_lock _ _)] =>
      destruct b eqn:Hn; [discriminate|]
  end.
  intros [= <- <-]. split; [exact Hk|].
  repeat (apply orb_false_elim in Hn; destruct Hn as [Hn ?]).
  eexists. split; [|repeat split; try reflexivity; eauto].
  - constructor; cbn [listing_key listing_type listing_id trade_id state
                      note meta_json created_at updated_at].
    + exists key. repeat split; [exact Hk|apply trim_idem].
    + now apply nonEmpty_filled.
    + now apply nonEmpty_filled.
    + now apply (coerceText_typed _ _ E3).
    + apply andb_false_elim in Hst.
      destruct Hst as [Hs1|Hs1]; apply negb_false_iff, String.eqb_eq in Hs1;
        rewrite Hs1; auto.
    + now apply (coerceText_typed _ _ E4).
    + now apply (coerceJson_typed _ _ E5).
    + now apply (coerceInt_typed _ _ E6).
    + now apply (coerceInt_typed _ _ E7).
  - cbn [listing_type]. destruct v1 as [|[| |s]]; try discriminate N1.
    reflexivity.
  - cbn [listing_id]. destruct v2 as [|[| |s]]; try discriminate N2.
    reflexivity.
Qed.

Lemma upsert_keeps_wf (listingKey patch : jsval) (now : Z)
                      (t t' : Locks) (o : option Lock) :
  upsertListingLock StringToInt stableStringify listingKey patch now t
    = Ok (t', o) ->
  locks_wf t -> locks_wf t'.
Proof.
  intros Hu [Hn Hw]. apply upsertListingLock_inv in Hu. cbv zeta in Hu.
  destruct Hu as (Hk & row & Hrow & Hkey & _ & _ & _ & _ & _ & _ & _ & _
                  & -> & _).
  split.
  - rewrite upsert_lock_keys.
    destruct (has_lock (listing_key row) t) eqn:E; [exact Hn|].
    apply NoDup_snoc; [exact Hn|].
    rewrite Hkey in *. rewrite <- has_lock_in. congruence.
  - rewrite Forall_forall in *. intros x Hx. apply upsert_lock_in in Hx.
    destruct Hx as [->|[Hx|(old & Hx & ->)]]; [exact Hrow|now apply Hw|].
    specialize (Hw old Hx). destruct Hw, Hrow. constructor; assumption.
Qed.

Lemma filter_keeps_wf (p : Lock -> bool) (t : Locks) :
  locks_wf t -> locks_wf (List.filter p t).
Proof.
  intros [Hn Hw]. split; [now apply nodup_map_filter|].
  rewrite Forall_forall in *. intros x Hx. apply filter_In in Hx.
  now apply Hw.
Qed.

Lemma apply_op_wf (op : LockOp) (t : Locks) :
  locks_wf t -> locks_wf (apply_op StringToInt stableStringify op t).
Proof.
  intros Hw. destruct op as [k p now|k|id]; simpl.
  - destruct (upsertListingLock _ _ k p now t) as [[t' o]|] eqn:E;
      [|exact Hw].
    exact (upsert_keeps_wf _ _ _ _ _ _ E Hw).
  - unfold deleteListingLock. destruct (String.eqb _ ""); [exact Hw|].
    now apply filter_keeps_wf.
  - unfold deleteListingLocksByTrade. destruct (String.eqb _ ""); [exact Hw|].
    now apply filter_keeps_wf.
Qed.

Lemma apply_ops_wf (ops : list LockOp) (t : Locks) :
  locks_wf t -> locks_wf (apply_ops StringToInt stableStringify ops t).
Proof.
  revert t. unfold apply_ops.
  induction ops as [|op ops IH]; intros t Hw; simpl; [exact Hw|].
  apply IH. now apply apply_op_wf.
Qed.

End WithSerializer.

End ListingLockFacts.

Module LockStore.
Import Receipts JSFacts ReceiptsFacts ReceiptsMergeFacts ReceiptsKeys.
Import ReceiptsQueries OrderFacts ListingLocks ListingLockFacts.

Section WithSerializer.

Variable StringToInt : string -> option Z.
Variable stableStringify : jsval -> result string.


(** X16: a call of [upsertListingLock] that returns yields the lock stored
    under the trimmed key, which a later [getListingLock] reads back; its
    state is the lowercased, trimmed state and is "in_flight" or "filled";
    locks under other keys read as before; an existing lock keeps its
    [created_at], and a new key appends one lock to the table. *)
Theorem upsertListingLock_round_trip
    (listingKey patch : jsval) (now : Z) (t t' : Locks) (o : option Lock) :
  upsertListingLock StringToInt stableStringify listingKey patch now t
    = Ok (t', o) ->
  exists r,
    o = Some r /\
    listing_key r = SText (trim (str_or_empty listingKey)) /\
    (state r = SText "in_flight" \/ state r = SText "filled") /\
    getListingLock listingKey t' = Ok (Some r) /\
    (forall other,
       trim (str_or_empty other) <> trim (str_or_empty listingKey) ->
       getListingLock other t' = getListingLock other t) /\
    (forall old, getListingLock listingKey t = Ok (Some old) ->
       created_at r = created_at old /\
       List.length t' = List.length t) /\
    (getListingLock listingKey t = Ok None -> t' = (t ++ [r])%list).
Proof.
  intros Hu. apply upsertListingLock_inv in Hu. cbv zeta in Hu.
  destruct Hu as (Hk & row & Hrow & Hkey & _ & _ & _ & _ & _ & _ & _ & _
                  & -> & ->).
  set (key := trim (str_or_empty listingKey)) in *.
  assert (Hget : forall x (u : Locks),
            getListingLock listingKey u = Ok x ->
            x = select_lock (SText key) u).
  { intros x u. unfold getListingLock. fold key.
    destruct (String.eqb key ""); [discriminate|]. now intros [= <-]. }
  assert (Hget' : forall u : Locks,
            getListingLock listingKey u = Ok (select_lock (SText key) u)).
  { intros u. unfold getListingLock. fold key.
    destruct (String.eqb_spec key ""); [contradiction|reflexivity]. }
  destruct (select_lock (SText key) t) as [old|] eqn:E.
  - exists (merged_lock old row).
    pose proof (select_lock_after_upsert key old row t E Hkey) as Hs.
    split; [exact Hs|].
    pose proof (select_lock_found _ _ _ E) as [_ Ho].
    apply sql_eqb_text in Ho.
    split; [exact Ho|]. split; [exact (wf_state _ Hrow)|].
    split; [now rewrite Hget', Hs|].
    split; [|split].
    + intros other Hne. unfold getListingLock.
      destruct (String.eqb _ ""); [reflexivity|].
      now rewrite (upsert_lock_other row t key _ Hkey Hne).
    + intros old' Ho'. apply Hget in Ho'. rewrite E in Ho'.
      injection Ho' as ->. split; [reflexivity|].
      rewrite <- !(length_map listing_key), upsert_lock_keys.
      assert (Hh : has_lock (listing_key row) t = true).
      { destruct (has_lock (listing_key row) t) eqn:K; [reflexivity|].
        rewrite Hkey in K. apply select_lock_none in K. congruence. }
      now rewrite Hh.
    + intros Hn. apply Hget in Hn. rewrite E in Hn. discriminate.
  - exists row.
    destruct (select_lock_after_insert key row t E Hkey) as [Hs Happ].
    split; [exact Hs|]. split; [exact Hkey|].
    split; [exact (wf_state _ Hrow)|].
    split; [now rewrite Hget', Hs|].
    split; [|split].
    + intros other Hne. unfold getListingLock.
      destruct (String.eqb _ ""); [reflexivity|].
      now rewrite (upsert_lock_other row t key _ Hkey Hne).
    + intros old Ho. apply Hget in Ho. rewrite E in Ho. discriminate.
    + intros _. exact Happ.
Qed.

(** X17: [deleteListingLock] removes the lock under the trimmed key and no
    other: the key then reads as absent, every other key reads as before,
    and deleting again changes nothing.  [deleteListingLocksByTrade]
    removes exactly the locks of that trade: none of them is listed
    afterwards, and every lock of another trade, or of no trade, stays. *)
Theorem deletes_remove_only_their_locks (t : Locks) :
  (forall listingKey t',
     deleteListingLock listingKey t = Ok t' ->
     getListingLock listingKey t' = Ok None /\
     (forall other,
        trim (str_or_empty other) <> trim (str_or_empty listingKey) ->
        getListingLock other t' = getListingLock other t) /\
     deleteListingLock listingKey t' = Ok t') /\
  (forall tradeId t',
     deleteListingLocksByTrade tradeId t = Ok t' ->
     (forall opts, opts <> JNull ->
        listListingLocksByTrade tradeId opts t' = Ok []) /\
     (forall r, In r t' <->
        In r t /\ trade_id r <> SText (trim (str_or_empty tradeId)))).
Proof.
  split.
  - intros lk t'. unfold deleteListingLock, getListingLock.
    set (key := trim (str_or_empty lk)).
    destruct (String.eqb key "") eqn:Hk; [discriminate|].
    intros [= <-]. split; [now rewrite select_lock_removed|].
    split.
    + intros other Hne.
      destruct (String.eqb (trim (str_or_empty other)) ""); [reflexivity|].
      f_equal. apply select_lock_filter. intros x Hx.
      apply sql_eqb_text in Hx. rewrite Hx. simpl.
      destruct (String.eqb_spec (trim (str_or_empty other)) key);
        [contradiction|reflexivity].
    + f_equal. induction t as [|x rest IH]; simpl; [reflexivity|].
      destruct (sql_eqb (listing_key x) (SText key)) eqn:E; simpl;
        [exact IH|]. rewrite E. simpl. now rewrite IH.
  - intros tid t'. unfold deleteListingLocksByTrade.
    set (id := trim (str_or_empty tid)).
    destruct (String.eqb id "") eqn:Hk; [discriminate|].
    intros [= <-]. split.
    + intros opts Ho. unfold listListingLocksByTrade. fold id.
      assert (Hf : forall u : Locks,
                List.filter (fun r => sql_eqb (trade_id r) (SText id))
                  (List.filter
                     (fun r => negb (sql_eqb (trade_id r) (SText id))) u)
                = []).
      { induction u as [|x rest IH]; simpl; [reflexivity|].
        destruct (sql_eqb (trade_id x) (SText id)) eqn:E; simpl;
          [exact IH|]. now rewrite E. }
      destruct opts; try congruence; cbn [with_opts]; rewrite Hk, Hf;
        unfold page; now rewrite skipn_nil, firstn_nil.
    + intros r. rewrite filter_In. split.
      * intros [Hin Hne]. split; [exact Hin|].
        intros E. rewrite E in Hne. simpl in Hne.
        now rewrite String.eqb_refl in Hne.
      * intros [Hin Hne]. split; [exact Hin|].
        destruct (sql_eqb (trade_id r) (SText id)) eqn:E; [|reflexivity].
        apply sql_eqb_text in E. contradiction.
Qed.

(** X18: [listListingLocksByTrade] returns only locks of the table held by
    that trade, newest [updated_at] first and without repetition, at most
    the limit clamped into [1, 2000] (500 when it is not a number); no lock
    of the trade that is left out is newer than a listed one. *)
Theorem listListingLocksByTrade_lists_the_trade
    (ops : list LockOp) (tradeId opts : jsval) (l : list Lock) :
  let t := apply_ops StringToInt stableStringify ops [] in
  listListingLocksByTrade tradeId opts t = Ok l ->
  let id := trim (str_or_empty tradeId) in
  id <> "" /\
  Z.of_nat (List.length l) <= 2000 /\
  (forall r, In r l -> In r t /\ trade_id r = SText id) /\
  NoDup l /\
  StronglySorted (not_older updated_at) l /\
  (forall a b, In a l -> In b t -> trade_id b = SText id ->
     In b l \/ not_older updated_at a b).
Proof.
  intros t Hl id.
  assert (Hw : locks_wf t).
  { apply apply_ops_wf. split; constructor. }
  destruct Hw as [Hn Hw].
  unfold listListingLocksByTrade in Hl. fold id in Hl.
  assert (Hl' : id <> "" /\
            l = page (limit_of 2000 500
                        (get (match opts with JUndef => JObj [] | _ => opts end)
                           "limit")) 0
                  (order_desc updated_at
                     (List.filter
                        (fun r => sql_eqb (trade_id r) (SText id)) t))).
  { destruct opts; simpl in Hl; try discriminate Hl;
      destruct (String.eqb_spec id ""); try discriminate Hl;
      injection Hl as <-; auto. }
  destruct Hl' as [Hid ->].
  set (n := limit_of 2000 500 _).
  assert (Hi : Forall (fun x => is_int (updated_at x)) t).
  { rewrite Forall_forall in *. intros x Hx. exact (wf_updated _ (Hw x Hx)). }
  destruct (query_rows Lock updated_at
              (fun r => sql_eqb (trade_id r) (SText id)) n 0 t Hi)
    as (H1 & H2 & H3 & H4 & H5).
  assert (Hr : 1 <= n <= 2000) by (apply limit_of_range; lia).
  split; [exact Hid|]. split; [rewrite H2; lia|].
  split; [|split; [|split; [exact H3|]]].
  - intros r Hin. destruct (H1 r Hin) as [Hdb Hp]. split; [exact Hdb|].
    now apply sql_eqb_text.
  - apply H4. now apply NoDup_map_inv in Hn.
  - intros a b Ha Hb Hs. apply H5; auto; [lia|].
    rewrite Hs. simpl. apply String.eqb_refl.
Qed.

(** What [next] holds at a column of an existing lock under the empty
    patch. *)
Lemma refresh_next (key : string) (now : Z) (t : Locks) (old : Lock) :
  select_lock (SText key) t = Some old ->
  lock_next key (JObj []) now t =
    JObj [("listing_key", js_of_sql (listing_key old));
          ("listing_type", js_of_sql (listing_type old));
          ("listing_id", js_of_sql (listing_id old));
          ("trade_id", js_of_sql (trade_id old));
          ("state", js_of_sql (state old));
          ("note", js_of_sql (note old));
          ("meta_json", js_of_sql (meta_json old));
          ("created_at", js_of_sql (created_at old));
          ("updated_at", JNum now)].
Proof. intros E. unfold lock_next. rewrite E. reflexivity. Qed.

(** X19: on a table the store wrote, [upsertListingLock(key, {})] of an
    existing lock succeeds and changes nothing but [updated_at], which
    becomes the clock of the call. *)
Theorem empty_patch_refreshes_the_lock
    (ops : list LockOp) (listingKey : jsval) (now : Z) (old : Lock) :
  let t := apply_ops StringToInt stableStringify ops [] in
  getListingLock listingKey t = Ok (Some old) ->
  exists t' r,
    upsertListingLock StringToInt stableStringify listingKey (JObj []) now t
      = Ok (t', Some r) /\
    r = mkLock (listing_key old) (listing_type old) (listing_id old)
          (trade_id old) (state old) (note old) (meta_json old)
          (created_at old) (SInt now) /\
    List.length t' = List.length t.
Proof.
  intros t Hg.
  assert (Hw : locks_wf t).
  { apply apply_ops_wf. split; constructor. }
  destruct Hw as [Hn Hw]. rewrite Forall_forall in Hw.
  unfold getListingLock in Hg.
  set (key := trim (str_or_empty listingKey)) in *.
  destruct (String.eqb key "") eqn:Hk; [discriminate|].
  injection Hg as Hg.
  pose proof (select_lock_found _ _ _ Hg) as [Hin Hkey].
  apply sql_eqb_text in Hkey.
  destruct (Hw old Hin) as [_ (ty & Hty & Hty') (li & Hli & Hli') Htr Hst
                            Hno Hme (c & Hc) _].
  unfold upsertListingLock, getListingLock. fold key. rewrite Hk.
  cbv zeta. fold (lock_next key (JObj []) now t).
  rewrite (refresh_next key now t old Hg).
  unfold get. cbn [assoc String.eqb Ascii.eqb Bool.eqb].
  assert (Es : toLowerCase (trim (str_or_empty (js_of_sql (state old)))) =
               match state old with SText s => s | _ => "" end /\
               js_of_sql (state old) =
               JStr (match state old with SText s => s | _ => "" end)).
  { destruct Hst as [-> | ->]; split; reflexivity. }
  destruct Es as [Es Es'].
  rewrite Es.
  assert (Hv : negb (String.eqb
                 (match state old with SText s => s | _ => "" end)
                 "in_flight") &&
               negb (String.eqb
                 (match state old with SText s => s | _ => "" end)
                 "filled") = false).
  { destruct Hst as [-> | ->]; reflexivity. }
  rewrite Hv, Hty, Hli, Hc. cbn [js_of_sql coerceText toStr].
  assert (Et : exists c3, coerceText (js_of_sql (trade_id old)) = Ok c3 /\
                          to_sql c3 = trade_id old).
  { destruct Htr as [-> | [s ->]]; simpl; eauto. }
  assert (En : exists c4, coerceText (js_of_sql (note old)) = Ok c4 /\
                          to_sql c4 = note old).
  { destruct Hno as [-> | [s ->]]; simpl; eauto. }
  assert (Em : exists c5,
             coerceJson stableStringify (js_of_sql (meta_json old)) = Ok c5 /\
             to_sql c5 = meta_json old).
  { destruct Hme as [-> | [s ->]]; simpl; eauto. }
  destruct Et as (c3 & -> & E3). destruct En as (c4 & -> & E4).
  destruct Em as (c5 & -> & E5).
  cbn [coerceInt isNonEmptyString to_sql].
  apply eqb_neq_empty in Hty', Hli'. rewrite Hty', Hli'. cbn [negb].
  unfold run_upsert_lock. cbn [listing_type listing_id state created_at
    updated_at is_null orb].
  rewrite E3, E4, E5.
  set (row := mkLock _ _ _ _ _ _ _ _ _).
  assert (Hrk : listing_key row = SText key) by reflexivity.
  rewrite (select_lock_after_upsert key old row t Hg Hrk).
  exists (upsert_lock row t), (merged_lock old row).
  split; [reflexivity|]. split.
  - unfold merged_lock, row. cbn. f_equal; [|exact Hc].
    destruct Hst as [E | E]; rewrite E; reflexivity.
  - rewrite <- !(length_map listing_key), upsert_lock_keys.
    assert (Hh : has_lock (listing_key row) t = true).
    { destruct (has_lock (listing_key row) t) eqn:K; [reflexivity|].
      rewrite Hrk in K. apply select_lock_none in K. congruence. }
    now rewrite Hh.
Qed.

End WithSerializer.

(** A lock taken for a trade, flagged with capitals and blanks. *)
Definition plain_json : jsval -> result string := fun _ => Ok "{}".

Definition lock_ops : list LockOp :=
  [OpUpsert (JStr " offer:1 ")
     (JObj [("listing_type", JStr "offer"); ("listing_id", JStr "1");
            ("trade_id", JStr "t1"); ("state", JStr " In_Flight ")]) 1000].

Definition lock_table : Locks :=
  apply_ops ReceiptsUpsert.no_numbers plain_json lock_ops [].

Definition lock_one : Lock :=
  mkLock (SText "offer:1") (SText "offer") (SText "1") (SText "t1")
    (SText "in_flight") SNull SNull (SInt 1000) (SInt 1000).

Lemma lock_one_written :
  upsertListingLock ReceiptsUpsert.no_numbers plain_json (JStr " offer:1 ")
    (JObj [("listing_type", JStr "offer"); ("listing_id", JStr "1");
           ("trade_id", JStr "t1"); ("state", JStr " In_Flight ")]) 1000 []
    = Ok ([lock_one], Some lock_one).
Proof. vm_compute. reflexivity. Defined.

Lemma lock_one_read :
  getListingLock (JStr "offer:1") lock_table = Ok (Some lock_one).
Proof. vm_compute. reflexivity. Defined.

Lemma lock_one_listed :
  listListingLocksByTrade (JStr "t1") JUndef lock_table = Ok [lock_one].
Proof. vm_compute. reflexivity. Defined.

Lemma lock_one_deleted :
  deleteListingLock (JStr "offer:1") [lock_one] = Ok [].
Proof. vm_compute. reflexivity. Defined.

Lemma upsertListingLock_round_trip_witness :
  exists r,
    Some lock_one = Some r /\
    getListingLock (JStr " offer:1 ") [lock_one] = Ok (Some r) /\
    (state r = SText "in_flight" \/ state r = SText "filled").
Proof.
  destruct (upsertListingLock_round_trip ReceiptsUpsert.no_numbers plain_json
              _ _ _ _ _ _ lock_one_written) as (r & Ho & _ & Hs & Hg & _).
  exists r. auto.
Defined.

Lemma deletes_remove_only_their_locks_witness :
  getListingLock (JStr "offer:1") [] = Ok None /\
  deleteListingLock (JStr "offer:1") [] = Ok [].
Proof.
  destruct (proj1 (deletes_remove_only_their_locks [lock_one])
              (JStr "offer:1") [] lock_one_deleted) as (Hg & _ & Hd).
  split; [exact Hg|exact Hd].
Defined.

Lemma listListingLocksByTrade_lists_the_trade_witness :
  listListingLocksByTrade (JStr "t1") JUndef lock_table = Ok [lock_one] /\
  (forall r, In r [lock_one] ->
     In r lock_table /\ trade_id r = SText "t1").
Proof.
  pose proof (listListingLocksByTrade_lists_the_trade
                ReceiptsUpsert.no_numbers plain_json lock_ops (JStr "t1")
                JUndef [lock_one] lock_one_listed) as H.
  cbv zeta in H. destruct H as (_ & _ & Hin & _).
  split; [exact lock_one_listed|exact Hin].
Defined.

Lemma empty_patch_refreshes_the_lock_witness :
  exists t' r,
    upsertListingLock ReceiptsUpsert.no_numbers plain_json (JStr "offer:1")
      (JObj []) 5000 lock_table = Ok (t', Some r) /\
    r = mkLock (SText "offer:1") (SText "offer") (SText "1") (SText "t1")
          (SText "in_flight") SNull SNull (SInt 1000) (SInt 5000) /\
    List.length t' = 1%nat.
Proof.
  exact (empty_patch_refreshes_the_lock ReceiptsUpsert.no_numbers plain_json
           lock_ops (JStr "offer:1") 5000 lock_one lock_one_read).
Defined.

End LockStore.

(* ===================================================================== *)
(** * Settlement driver: the life of a stage *)
(* ===================================================================== *)

Module DriverStages.
Import TradeAuto JSFacts DriverLogic LockFacts.

Lemma set_has_add (k k' : string) (s : jset) :
  set_has k (set_add k' s) = String.eqb k k' || set_has k s.
Proof.
  unfold set_add. destruct (set_has k' s) eqn:E.
  - destruct (String.eqb_spec k k') as [->|]; [now rewrite E|reflexivity].
  - rewrite set_has_app. simpl. rewrite orb_false_r. apply orb_comm.
Qed.



Lemma retry_of_set (k k' : string) (t : Z) (m : Mgr) (r : jmap Z) :
  stage_retry_of k (caches (set_retry m (map_set k' t r))) =
    if String.eqb k k' then t else stage_retry_of k (caches (set_retry m r)).
Proof.
  unfold stage_retry_of. cbn [caches set_retry with_caches k_retry
    stageRetryAfter]. rewrite AutopostBooks.map_get_set.
  now destruct (String.eqb k k').
Qed.

(** The gate of a stage after each of the three marks. *)
Lemma gate_in_flight (key k : string) (t : Z) (m : Mgr) :
  key <> "" ->
  canRunStage k t (markStageInFlight key m) =
    negb (String.eqb k key) && canRunStage k t m.
Proof.
  intros Hk. apply String.eqb_neq in Hk.
  unfold markStageInFlight, canRunStage. rewrite Hk.
  cbn [set_inflight with_caches caches stageDone stageInFlight k_done
       k_inflight k_retry stageRetryAfter stage_retry_of].
  rewrite set_has_add.
  destruct (String.eqb_spec k "") as [->|]; [now rewrite andb_false_r|].
  destruct (map_has k (stageDone m)); [now rewrite andb_false_r|].
  destruct (String.eqb k key); simpl; [reflexivity|].
  reflexivity.
Qed.








Section WithEnv.

Variable env : Env.


End WithEnv.

(** X21: an event that failed is not retried before max(1000, cooldown)
    milliseconds have passed, and may be retried from then on; clearing the
    retry opens it at once; an event without signature never runs; the
    retry marks of events do not touch the gate of any stage whose key does
    not start with "evt:". *)
Theorem event_retry_backs_off
    (flow sig : string) (cd now : Z) (m : Mgr) :
  canRunEvent flow "" now m = false /\
  (sig <> "" ->
   (forall t, canRunEvent flow sig t (markEventRetry flow sig cd now m)
              = (now + Z.max 1000 (if cd =? 0 then 1000 else cd) <=? t)) /\
   (forall t, 0 <= t ->
      canRunEvent flow sig t (clearEventRetry flow sig m) = true) /\
   (forall key t, String.prefix "evt:" key = false ->
      canRunStage key t (markEventRetry flow sig cd now m)
        = canRunStage key t m /\
      canRunStage key t (clearEventRetry flow sig m) = canRunStage key t m)).
Proof.
  split; [reflexivity|]. intros Hs. apply String.eqb_neq in Hs.
  split; [|split].
  - intros t. unfold canRunEvent, markEventRetry. rewrite Hs.
    rewrite retry_of_set, String.eqb_refl. reflexivity.
  - intros t Ht. unfold canRunEvent, clearEventRetry. rewrite Hs.
    unfold stage_retry_of.
    cbn [caches set_retry with_caches k_retry stageRetryAfter].
    rewrite AutopostBooks.map_get_delete, String.eqb_refl.
    apply Z.leb_le. exact Ht.
  - intros key t Hp.
    assert (Hne : String.eqb key (eventRetryKey flow sig) = false).
    { apply String.eqb_neq. intros E. rewrite E in Hp.
      unfold eventRetryKey in Hp. cbn in Hp.
      destruct (flow ++ String ":" sig); discriminate. }
    unfold canRunStage, markEventRetry, clearEventRetry. rewrite Hs.
    unfold stage_retry_of.
    cbn [caches set_retry with_caches k_retry stageRetryAfter stageDone
         stageInFlight k_done k_inflight].
    rewrite AutopostBooks.map_get_set, AutopostBooks.map_get_delete, Hne.
    split; reflexivity.
Qed.

End DriverStages.

(* ===================================================================== *)
(** * Settlement driver: the options of a run *)
(* ===================================================================== *)

Module DriverOptions.
Import TradeAuto JSFacts ReceiptsMergeFacts ReceiptsKeys LockFacts.
Import TradeAutoControl.

(** ** Sets built from a list *)

Lemma set_has_in (k : string) (s : jset) : set_has k s = true <-> In k s.
Proof.
  unfold set_has. rewrite existsb_exists. split.
  - intros (x & Hx & E). apply String.eqb_eq in E. now subst.
  - intros H. exists k. split; [exact H|apply String.eqb_refl].
Qed.

Lemma set_add_in (k x : string) (s : jset) :
  In x (set_add k s) <-> x = k \/ In x s.
Proof.
  unfold set_add. destruct (set_has k s) eqn:E.
  - apply set_has_in in E. split; [auto|]. intros [->|H]; assumption.
  - rewrite in_app_iff. simpl. intuition.
Qed.

Lemma set_add_nodup (k : string) (s : jset) : NoDup s -> NoDup (set_add k s).
Proof.
  intros H. unfold set_add. destruct (set_has k s) eqn:E; [exact H|].
  apply NoDup_snoc; [exact H|]. rewrite <- set_has_in. congruence.
Qed.

Lemma set_add_length (k : string) (s : jset) :
  (List.length (set_add k s) <= S (List.length s))%nat.
Proof.
  unfold set_add. destruct (set_has k s); [lia|].
  rewrite length_app. simpl. lia.
Qed.

Lemma fold_set_add (l : list string) (acc : jset) :
  let s := List.fold_left (fun s c => set_add c s) l acc in
  (NoDup acc -> NoDup s) /\
  (forall x, In x s <-> In x acc \/ In x l) /\
  (List.length s <= List.length acc + List.length l)%nat /\
  (NoDup (acc ++ l) -> s = (acc ++ l)%list).
Proof.
  revert acc. induction l as [|c r IH]; intros acc; simpl.
  - rewrite app_nil_r. repeat split; auto; try tauto. lia.
  - destruct (IH (set_add c acc)) as (H1 & H2 & H3 & H4).
    split; [|split; [|split]].
    + intros Hn. apply H1. now apply set_add_nodup.
    + intros x. rewrite H2, set_add_in. intuition.
    + pose proof (set_add_length c acc). lia.
    + intros Hn.
      assert (Hc : set_has c acc = false).
      { destruct (set_has c acc) eqn:E; [|reflexivity].
        apply set_has_in in E. apply NoDup_remove_2 in Hn.
        elim Hn. apply in_or_app. now left. }
      unfold set_add in *. rewrite Hc in *.
      rewrite H4; rewrite <- app_assoc; [reflexivity|exact Hn].
Qed.

Lemma set_of_spec (l : list string) :
  NoDup (set_of l) /\
  (forall x, In x (set_of l) <-> In x l) /\
  (List.length (set_of l) <= List.length l)%nat /\
  (NoDup l -> set_of l = l).
Proof.
  destruct (fold_set_add l []) as (H1 & H2 & H3 & H4).
  unfold set_of. split; [apply H1; constructor|].
  split; [intros x; rewrite H2; simpl; tauto|].
  split; [exact H3|exact H4].
Qed.

(** ** Channel names *)

Definition no_blank (c : string) : bool :=
  all_chars (fun x => negb (is_ws x)) c.

Lemma channel_ok_inv (c : string) :
  channel_ok c = true ->
  c <> "" /\ (String.length c <= 128)%nat /\ no_blank c = true /\ trim c = c.
Proof.
  unfold channel_ok, has_space. intros H.
  apply andb_prop in H. destruct H as [H Hs].
  apply andb_prop in H. destruct H as [H0 H1].
  rewrite negb_involutive in Hs.
  split; [intros ->; discriminate|].
  split; [apply Z.leb_le in H1; lia|].
  split; [exact Hs|].
  unfold trim. now rewrite (ltrim_no_ws c Hs), (rtrim_no_ws c Hs).
Qed.

Lemma firstn_short {A : Type} (n : nat) (l : list A) :
  (List.length l <= n)%nat -> List.firstn n l = l.
Proof.
  revert n. induction l as [|x r IH]; intros n H; destruct n; simpl in *;
    try reflexivity; [lia|]. f_equal. apply IH. lia.
Qed.

Lemma filter_all {A : Type} (p : A -> bool) (l : list A) :
  (forall x, In x l -> p x = true) -> List.filter p l = l.
Proof.
  induction l as [|x r IH]; simpl; [reflexivity|].
  intros H. rewrite (H x) by now left. f_equal. apply IH. auto.
Qed.

Lemma map_id_on {A : Type} (f : A -> A) (l : list A) :
  (forall x, In x l -> f x = x) -> List.map f l = l.
Proof.
  induction l as [|x r IH]; simpl; [reflexivity|].
  intros H. rewrite (H x) by now left. f_equal. apply IH. auto.
Qed.

Lemma sanitize_length (raw : jsval) :
  (List.length (sanitizeChannels raw) <= 64)%nat.
Proof.
  destruct raw as [| | | | |xs|]; try (simpl; lia).
  unfold sanitizeChannels. set (l := List.firstn 64 _).
  destruct (set_of_spec l) as (_ & _ & H & _).
  assert (List.length l <= 64)%nat
    by (unfold l; rewrite length_firstn; lia).
  lia.
Qed.

(** X22: [sanitizeChannels] returns at most 64 distinct channel names, each
    the trimmed text of an element of the input array, non-empty, at most
    128 characters long and free of white space; anything that is not an
    array gives no channel; sanitizing its own result changes nothing. *)
Theorem sanitizeChannels_gives_clean_names (raw : jsval) :
  let cs := sanitizeChannels raw in
  NoDup cs /\
  (List.length cs <= 64)%nat /\
  (forall c, In c cs ->
     c <> "" /\ (String.length c <= 128)%nat /\ no_blank c = true /\
     exists xs x, raw = JArr xs /\ In x xs /\ c = trim (str_or_empty x)) /\
  (isArray raw = false -> cs = []) /\
  sanitizeChannels (JArr (List.map JStr cs)) = cs.
Proof.
  intros cs.
  assert (Hna : isArray raw = false -> cs = []).
  { unfold cs. destruct raw; simpl; congruence. }
  destruct raw as [| | | | |xs|];
    try (unfold cs; simpl; split; [constructor|]; split; [lia|];
         split; [intros c []|]; split; reflexivity).
  set (l := List.firstn 64
              (List.filter channel_ok
                 (List.map (fun c => trim (str_or_empty c)) xs))).
  assert (Hcs : cs = set_of l) by reflexivity.
  destruct (set_of_spec l) as (H1 & H2 & H3 & H4). rewrite <- Hcs in *.
  assert (Hl : (List.length l <= 64)%nat).
  { unfold l. rewrite length_firstn. lia. }
  assert (Hin : forall c, In c cs ->
            channel_ok c = true /\
            exists x, In x xs /\ c = trim (str_or_empty x)).
  { intros c Hc. apply H2 in Hc. unfold l in Hc.
    rewrite <- (firstn_skipn 64 (List.filter _ _)) in *.
    assert (Hc' : In c (List.filter channel_ok
                          (List.map (fun c => trim (str_or_empty c)) xs))).
    { rewrite <- (firstn_skipn 64 (List.filter _ _)).
      apply in_or_app. left. rewrite firstn_skipn in Hc. exact Hc. }
    apply filter_In in Hc'. destruct Hc' as [Hm Hok].
    apply in_map_iff in Hm. destruct Hm as (x & <- & Hx). eauto. }
  split; [exact H1|]. split; [lia|].
  split; [|split; [exact Hna|]].
  - intros c Hc. destruct (Hin c Hc) as (Hok & x & Hx & E).
    destruct (channel_ok_inv c Hok) as (Hn & Hlen & Hb & _).
    repeat split; try assumption. exists xs, x. auto.
  - unfold sanitizeChannels. rewrite map_map.
    assert (Hm : List.map (fun x => trim (str_or_empty (JStr x))) cs = cs).
    { apply map_id_on. intros c Hc. destruct (Hin c Hc) as (Hok & _).
      destruct (channel_ok_inv c Hok) as (Hn & _ & _ & Ht).
      now apply key_of_key. }
    rewrite Hm.
    rewrite (filter_all channel_ok cs) by (intros c Hc; apply (Hin c Hc)).
    rewrite (firstn_short 64 cs) by lia.
    apply set_of_spec. exact H1.
Qed.

(** ** The options of [start] *)

Lemma clampInt_range (n : option Z) (lo hi fb : Z) :
  lo <= hi -> lo <= clampInt n lo hi fb <= hi.
Proof. intros H. unfold clampInt, clamp. lia. Qed.

Lemma clampInt_default (lo hi fb : Z) :
  lo <= fb <= hi -> clampInt None lo hi fb = fb.
Proof. intros H. unfold clampInt, clamp. lia. Qed.

Lemma clampInt_given (v lo hi fb : Z) :
  lo <= v <= hi -> clampInt (Some v) lo hi fb = v.
Proof. intros H. unfold clampInt, clamp. lia. Qed.

(** X23: the options [start] installs are always within their bounds,
    whatever the caller passes: between 1 and 64 clean channels, the event,
    trade, cache and age limits inside their ranges.  A limit that is not
    given takes the default derived from the others (three cache entries
    per event, 25 stage keys and 8 preimages per trade, the lock age twice
    and the done age four times the event age), and the mode is
    "single_channel" only when asked for, "aggregate" otherwise. *)
Theorem start_options_are_bounded (o : jsval) (op : Opts) (lim : Limits) :
  start_options o = Ok (op, lim) ->
  (channels op = sanitizeChannels (jor (get o "channels") (JArr [])) /\
   (1 <= List.length (channels op) <= 64)%nat) /\
  (200 <= max_events op <= 4000 /\ 10 <= max_trades op <= 500 /\
   30000 <= event_max_age_ms op <= 3600000 /\
   3600 <= default_sol_refund_window_sec op <= 604800 /\
   30 <= welcome_ttl_sec op <= 604800) /\
  (250 <= l_interval_ms lim <= 10000 /\
   500 <= l_dedupe_max lim <= 50000 /\ 500 <= l_stage_max lim <= 50000 /\
   100 <= l_preimage_max lim <= 20000 /\
   30000 <= l_lock_max_age_ms lim <= 86400000 /\
   60000 <= l_done_max_age_ms lim <= 86400000 /\
   50 <= l_debug_max_events lim <= 10000 /\
   250 <= l_tool_timeout_ms lim <= 120000 /\
   500 <= l_sc_ensure_interval_ms lim <= 60000) /\
  ((toIntOrNull (get o "dedupe_max") = None ->
    l_dedupe_max lim = Z.max 2000 (3 * max_events op)) /\
   (toIntOrNull (get o "stage_max") = None ->
    l_stage_max lim = Z.max 2000 (25 * max_trades op)) /\
   (toIntOrNull (get o "preimage_max") = None ->
    l_preimage_max lim = Z.max 500 (8 * max_trades op)) /\
   (toIntOrNull (get o "lock_max_age_ms") = None ->
    l_lock_max_age_ms lim = Z.max 300000 (2 * event_max_age_ms op)) /\
   (toIntOrNull (get o "done_max_age_ms") = None ->
    l_done_max_age_ms lim = Z.max 1200000 (4 * event_max_age_ms op))) /\
  (ln_liquidity_mode op = "single_channel" \/
   ln_liquidity_mode op = "aggregate") /\
  (forall m,
     0 <= lockMaxAgeMs (installed op lim m) /\
     12 <= AcceptLock.lock_limit (installed op lim m)).
Proof.
  unfold start_options. cbv zeta.
  set (chans := sanitizeChannels _).
  destruct (Z.ltb_spec (Z.of_nat (List.length chans)) 1) as [|Hc];
    [discriminate|].
  set (me := clampInt (toIntOrNull (get o "max_events")) 200 4000 1500).
  set (mt := clampInt (toIntOrNull (get o "max_trades")) 10 500 120).
  set (ea := clampInt (toIntOrNull (get o "event_max_age_ms")) 30000
               (60 * 60 * 1000) (10 * 60 * 1000)).
  intros [= <- <-].
  cbn [channels max_events max_trades event_max_age_ms
       default_sol_refund_window_sec welcome_ttl_sec ln_liquidity_mode
       l_interval_ms l_dedupe_max l_stage_max l_preimage_max
       l_lock_max_age_ms l_done_max_age_ms l_debug_max_events
       l_tool_timeout_ms l_sc_ensure_interval_ms].
  pose proof (sanitize_length (jor (get o "channels") (JArr []))) as Hs.
  fold chans in Hs.
  assert (Hme : 200 <= me <= 4000) by (apply clampInt_range; lia).
  assert (Hmt : 10 <= mt <= 500) by (apply clampInt_range; lia).
  assert (Hea : 30000 <= ea <= 3600000) by (apply clampInt_range; lia).
  split; [split; [reflexivity|lia]|].
  split.
  { repeat split; try lia; apply clampInt_range; lia. }
  split.
  { repeat split; apply clampInt_range; lia. }
  split.
  { repeat split; intros ->; rewrite clampInt_default; lia. }
  split.
  { destruct (String.eqb _ "single_channel"); auto. }
  intros m. unfold AcceptLock.lock_limit, limit_max.
  cbn [installed lockMaxAgeMs opts max_trades preimageMax l_lock_max_age_ms
       l_preimage_max].
  set (pm := clampInt (toIntOrNull (get o "preimage_max")) 100 20000 _).
  set (la := clampInt (toIntOrNull (get o "lock_max_age_ms")) 30000 _ _).
  assert (Hpm : 100 <= pm <= 20000) by (apply clampInt_range; lia).
  assert (Hla : 30000 <= la <= 86400000) by (apply clampInt_range; lia).
  split; [lia|].
  destruct (mt =? 0); destruct (Z.max _ pm =? 0) eqn:E; lia.
Qed.

(** A start with one channel written three ways and default limits. *)
Definition default_start : jsval :=
  JObj [("channels",
         JArr [JStr " rfq-main "; JStr "rfq-main"; JStr "bad name"])].

Definition default_limits : Limits :=
  mkLimits 1000 4500 3000 960 1200000 2400000 600 25000 5000.

Lemma default_options :
  start_options default_start = Ok (DriverSamples.opts0, default_limits).
Proof. vm_compute. reflexivity. Defined.

Lemma start_options_are_bounded_witness :
  (1 <= List.length (channels DriverSamples.opts0) <= 64)%nat /\
  l_dedupe_max default_limits
    = Z.max 2000 (3 * max_events DriverSamples.opts0) /\
  12 <= AcceptLock.lock_limit
          (installed DriverSamples.opts0 default_limits DriverSamples.mgr0).
Proof.
  destruct (start_options_are_bounded default_start DriverSamples.opts0
              default_limits default_options)
    as ((_ & Hc) & _ & _ & (Hd & _) & _ & Hm).
  split; [exact Hc|]. split; [now apply Hd|].
  exact (proj2 (Hm DriverSamples.mgr0)).
Defined.

End DriverOptions.

(* ===================================================================== *)
(** * Settlement driver: what a tick and a start leave behind *)
(* ===================================================================== *)

Module DriverFrame.
Import TradeAuto JSFacts DriverLogic.

(** Everything of the manager but its caches and its action counter. *)
Definition frame (m : Mgr) :=
  (running m, tickInFlight m, opts m, lastSeq m, events m,
   (eventsMax m, dedupeMax m, stageMax m, preimageMax m),
   (lockMaxAgeMs m, doneMaxAgeMs m, scEnsureIntervalMs m, nextScEnsureAt m),
   stats_ticks m).

(** What a run is configured with. *)
Definition settings (m : Mgr) :=
  (running m, opts m,
   (eventsMax m, dedupeMax m, stageMax m, preimageMax m),
   (lockMaxAgeMs m, doneMaxAgeMs m, scEnsureIntervalMs m)).

Lemma frame_settings (m m' : Mgr) :
  frame m' = frame m ->
  settings m' = settings m /\ lastSeq m' = lastSeq m /\
  tickInFlight m' = tickInFlight m /\ stats_ticks m' = stats_ticks m /\
  events m' = events m.
Proof. unfold frame, settings. intros H. repeat split; congruence. Qed.

Lemma frame_with_caches m k : frame (with_caches m k) = frame m.
Proof. reflexivity. Qed.

Lemma frame_counted m a :
  frame (with_stats m (stats_ticks m) a) = frame m.
Proof. reflexivity. Qed.

Lemma frame_pruneCaches t now m : frame (pruneCaches t now m) = frame m.
Proof. reflexivity. Qed.

Lemma frame_clearEventRetry f s m : frame (clearEventRetry f s m) = frame m.
Proof. unfold clearEventRetry. now destruct (String.eqb s ""). Qed.

Lemma frame_markEventRetry f s c now m :
  frame (markEventRetry f s c now m) = frame m.
Proof. unfold markEventRetry. now destruct (String.eqb s ""). Qed.

Lemma frame_markStageInFlight k m : frame (markStageInFlight k m) = frame m.
Proof. unfold markStageInFlight. now destruct (String.eqb k ""). Qed.

Lemma frame_markStageSuccess k now m :
  frame (markStageSuccess k now m) = frame m.
Proof. unfold markStageSuccess. now destruct (String.eqb k ""). Qed.

Lemma frame_markStageRetry k c now m :
  frame (markStageRetry k c now m) = frame m.
Proof. unfold markStageRetry. now destruct (String.eqb k ""). Qed.

Lemma frame_set_preimage m p : frame (set_preimage m p) = frame m.
Proof. reflexivity. Qed.

Lemma frame_post_ln_pay t out now m : frame (post_ln_pay t out now m) = frame m.
Proof. unfold post_ln_pay. now destruct (is_hex 64 _). Qed.

Ltac frame_simpl :=
  repeat first
    [ rewrite frame_pruneCaches | rewrite frame_clearEventRetry
    | rewrite frame_markEventRetry | rewrite frame_markStageInFlight
    | rewrite frame_markStageSuccess | rewrite frame_markStageRetry
    | rewrite frame_post_ln_pay | rewrite frame_set_preimage
    | rewrite frame_counted | rewrite frame_with_caches ].

(** The computation leaves the frame alone and the clock does not go
    back. *)
Definition steady {A} (c : M A) : Prop :=
  forall w, frame (w_mgr (snd (c w))) = frame (w_mgr w) /\
            w_now w <= w_now (snd (c w)).

Lemma steady_ret {A} (a : A) : steady (ret a).
Proof. intros w. simpl. split; [reflexivity|lia]. Qed.

Lemma steady_getMgr : steady getMgr.
Proof. intros w. simpl. split; [reflexivity|lia]. Qed.

Lemma steady_getNow : steady getNow.
Proof. intros w. simpl. split; [reflexivity|lia]. Qed.

Lemma steady_runTool env tool args : steady (runTool env tool args).
Proof. intros w. simpl. split; [reflexivity|lia]. Qed.

Lemma steady_update f :
  (forall now m, frame (f now m) = frame m) -> steady (update f).
Proof. intros H w. unfold update. simpl. split; [apply H|lia]. Qed.

Lemma steady_count : steady countAction.
Proof. apply steady_update. intros. apply frame_counted. Qed.

Lemma steady_bind {A B} (c : M A) (k : A -> M B) :
  steady c -> (forall a, steady (k a)) -> steady (bind c k).
Proof.
  intros Hc Hk w. unfold bind. destruct (Hc w) as [H1 H2].
  destruct (c w) as [a w1]. simpl in *. destruct (Hk a w1) as [H3 H4].
  split; [congruence|lia].
Qed.

Lemma steady_loop {A} (body : A -> Z -> M Z) (q : list A) (al : Z) :
  (forall x a, steady (body x a)) -> steady (budget_loop body q al).
Proof.
  intros Hb. revert al. induction q as [|x r IH]; intros al; simpl.
  - apply steady_ret.
  - destruct (al <=? 0); [apply steady_ret|].
    apply steady_bind; [apply Hb|]. intros a. apply IH.
Qed.

Ltac steady_walk extra :=
  repeat (cbv zeta; first
    [ apply steady_ret | apply steady_getMgr | apply steady_getNow
    | apply steady_runTool | apply steady_count
    | apply steady_update; intros; cbv zeta; frame_simpl;
      repeat match goal with
             | |- context [if ?b then _ else _] => destruct b
             end; frame_simpl; reflexivity
    | extra
    | apply steady_bind; [|intros ?]
    | match goal with
      | |- steady (if ?b then _ else _) => destruct b
      | |- steady (match ?x with _ => _ end) => destruct x
      end ]).

Section WithEnv.

Variable env : Env.

Lemma quote_step_steady ls ctx e al : steady (quote_step env ls ctx e al).
Proof. unfold quote_step. steady_walk fail. Qed.

Lemma accept_step_steady ctx e al : steady (accept_step env ctx e al).
Proof. unfold accept_step. steady_walk fail. Qed.

Lemma subscribe_steady flow sig ch al :
  steady (subscribe_then_count env flow sig ch al).
Proof. unfold subscribe_then_count. steady_walk fail. Qed.

Lemma invite_step_steady ctx e al : steady (invite_step env ctx e al).
Proof. unfold invite_step. steady_walk ltac:(apply subscribe_steady). Qed.

Lemma join_step_steady lp ctx e al : steady (join_step env lp ctx e al).
Proof. unfold join_step. steady_walk ltac:(apply subscribe_steady). Qed.

Lemma run_stage_steady key cd prep post al :
  (forall out now m, frame (post out now m) = frame m) ->
  steady (run_stage env key cd prep post al).
Proof.
  intros Hpost. unfold run_stage.
  steady_walk ltac:(apply steady_update; intros; apply Hpost).
Qed.

Lemma sol_claim_steady ls tid ch terms al :
  steady (sol_claim_stage env ls tid ch terms al).
Proof. unfold sol_claim_stage. steady_walk fail. Qed.

Lemma settle_trade_steady lp ls ctx tc al :
  steady (settle_trade env lp ls ctx tc al).
Proof.
  unfold settle_trade.
  steady_walk ltac:(first
    [ apply sol_claim_steady
    | apply run_stage_steady; intros; first
        [ reflexivity | apply frame_post_ln_pay ] ]).
Qed.

Lemma pipelines_steady lp ls ae ctx al :
  steady (pipelines env lp ls ae ctx al).
Proof.
  unfold pipelines.
  apply steady_bind; [apply steady_getMgr|]. intros m. cbv zeta.
  repeat (apply steady_bind;
          [match goal with
           | |- steady (if ?b then _ else _) =>
               destruct b; [apply steady_loop|apply steady_ret]
           end | intros ?]).
  5: destruct (_ && _); [apply steady_loop|apply steady_ret].
  - intros; apply quote_step_steady.
  - intros; apply accept_step_steady.
  - intros; apply invite_step_steady.
  - intros; apply join_step_steady.
  - intros; apply settle_trade_steady.
Qed.

End WithEnv.

(** ** A tick *)

(** Between two worlds of a run: same settings, the sequence number and the
    clock do not go back. *)
Definition onward (w w' : World) : Prop :=
  settings (w_mgr w') = settings (w_mgr w) /\
  lastSeq (w_mgr w) <= lastSeq (w_mgr w') /\
  w_now w <= w_now w'.

Definition moves {A} (c : M A) : Prop := forall w, onward w (snd (c w)).

Lemma onward_refl w : onward w w.
Proof. unfold onward. repeat split; lia. Qed.

Lemma onward_trans w1 w2 w3 : onward w1 w2 -> onward w2 w3 -> onward w1 w3.
Proof.
  unfold onward. intros (A1 & A2 & A3) (B1 & B2 & B3).
  repeat split; [congruence|lia|lia].
Qed.

Lemma moves_steady {A} (c : M A) : steady c -> moves c.
Proof.
  intros H w. destruct (H w) as [Hf Hn].
  apply frame_settings in Hf. destruct Hf as (Hs & Hl & _).
  unfold onward. repeat split; [exact Hs|lia|exact Hn].
Qed.

Lemma moves_bind {A B} (c : M A) (k : A -> M B) :
  moves c -> (forall a, moves (k a)) -> moves (bind c k).
Proof.
  intros Hc Hk w. unfold bind. specialize (Hc w).
  destruct (c w) as [a w1]. simpl in *.
  exact (onward_trans _ _ _ Hc (Hk a w1)).
Qed.

Lemma moves_update f :
  (forall now m, settings (f now m) = settings m /\
                 lastSeq m <= lastSeq (f now m)) ->
  moves (update f).
Proof.
  intros H w. unfold update, onward. simpl.
  destruct (H (w_now w) (w_mgr w)). repeat split; [assumption|assumption|lia].
Qed.

Lemma moves_log (g : Z -> Mgr -> bool * Z * list jsval * Z) :
  (forall now m, lastSeq m <= snd (fst (fst (g now m)))) ->
  moves (update (fun now m =>
           with_log m (fst (fst (fst (g now m)))) (snd (fst (fst (g now m))))
             (snd (fst (g now m))) (snd (g now m)))).
Proof.
  intros H. apply moves_update. intros now m. split; [reflexivity|].
  cbn [with_log lastSeq]. apply H.
Qed.

(** The computation ends with the in-flight flag down. *)
Definition lands {A} (c : M A) : Prop :=
  forall w, tickInFlight (w_mgr (snd (c w))) = false.

Lemma lands_bind {A B} (c : M A) (k : A -> M B) :
  (forall a, lands (k a)) -> lands (bind c k).
Proof.
  intros Hk w. unfold bind. destruct (c w) as [a w1]. apply Hk.
Qed.

(** The tick counter grows by one exactly when the computation returns. *)
Definition ticks_of (r : result unit) : Z :=
  match r with Ok _ => 1 | Err _ => 0 end.

Definition tallies (c : M (result unit)) : Prop :=
  forall w, stats_ticks (w_mgr (snd (c w)))
            = stats_ticks (w_mgr w) + ticks_of (fst (c w)).

Definition silent {A} (c : M A) : Prop :=
  forall w, stats_ticks (w_mgr (snd (c w))) = stats_ticks (w_mgr w).

Lemma silent_steady {A} (c : M A) : steady c -> silent c.
Proof.
  intros H w. destruct (H w) as [Hf _]. apply frame_settings in Hf. tauto.
Qed.

Lemma tallies_bind {A} (c : M A) (k : A -> M (result unit)) :
  silent c -> (forall a, tallies (k a)) -> tallies (bind c k).
Proof.
  intros Hc Hk w. unfold bind. specialize (Hc w).
  destruct (c w) as [a w1]. simpl in *. rewrite (Hk a w1). lia.
Qed.

Lemma silent_update f :
  (forall now m, stats_ticks (f now m) = stats_ticks m) -> silent (update f).
Proof. intros H w. unfold update. simpl. apply H. Qed.

Lemma silent_bind {A B} (c : M A) (k : A -> M B) :
  silent c -> (forall a, silent (k a)) -> silent (bind c k).
Proof.
  intros Hc Hk w. unfold bind. specialize (Hc w).
  destruct (c w) as [a w1]. simpl in *. rewrite (Hk a w1). exact Hc.
Qed.

End DriverFrame.

Module DriverControl.
Import TradeAuto JSFacts DriverLogic DriverFrame DriverTick.
Import TradeAutoControl.

Ltac moves_walk :=
  repeat (cbv zeta; first
    [ apply moves_steady;
      solve [ apply pipelines_steady | steady_walk fail ]
    | apply moves_update; intros; split; [reflexivity|];
      cbn [with_log with_stats lastSeq];
      repeat match goal with
             | |- context [match ?x with _ => _ end] => destruct x
             end; lia
    | apply moves_bind; [|intros ?]
    | match goal with
      | |- moves (if ?b then _ else _) => destruct b
      | |- moves (match ?x with _ => _ end) => destruct x
      end ]).

Ltac silent_walk :=
  repeat (cbv zeta; first
    [ apply silent_steady;
      solve [ apply pipelines_steady | steady_walk fail ]
    | apply silent_update; intros; reflexivity
    | apply silent_bind; [|intros ?]
    | match goal with
      | |- silent (if ?b then _ else _) => destruct b
      | |- silent (match ?x with _ => _ end) => destruct x
      end ]).

Section WithEnv.

Variable env : Env.
Variable hashUnsignedEnvelope : jsval -> result jsval.
Variable scLogInfo : jsval.
Variable scLogRead : Z -> Z -> jsval.

Lemma tick_moves : moves (tick env hashUnsignedEnvelope scLogInfo scLogRead).
Proof. unfold tick. moves_walk. Qed.

Lemma tick_idle (w : World) :
  running (w_mgr w) = false \/ tickInFlight (w_mgr w) = true ->
  (tick env hashUnsignedEnvelope scLogInfo scLogRead) w = (Ok tt, w).
Proof.
  intros H. unfold tick. rewrite run_bind. cbn [getMgr fst snd].
  destruct (running (w_mgr w)); [|reflexivity].
  destruct (tickInFlight (w_mgr w)); [reflexivity|].
  destruct H; discriminate.
Qed.

(** The part of a tick that follows the two checks. *)
Lemma tick_lands_and_tallies (w : World) :
  running (w_mgr w) = true -> tickInFlight (w_mgr w) = false ->
  tickInFlight (w_mgr (snd ((tick env hashUnsignedEnvelope scLogInfo scLogRead) w))) = false /\
  stats_ticks (w_mgr (snd ((tick env hashUnsignedEnvelope scLogInfo scLogRead) w)))
    = stats_ticks (w_mgr w) + ticks_of (fst ((tick env hashUnsignedEnvelope scLogInfo scLogRead) w)).
Proof.
  intros Hr Hf. unfold tick. rewrite run_bind. cbn [getMgr fst snd].
  rewrite Hr, Hf. cbn [negb]. cbv zeta.
  match goal with
  | |- tickInFlight (w_mgr (snd (?c w))) = false /\ _ =>
      assert (Hl : lands c /\ tallies c); [|split; apply Hl]
  end.
  split.
  - repeat (cbv zeta; first
      [ match goal with
        | |- lands (bind (update _) (fun _ => ret _)) =>
            intros w0; reflexivity
        end
      | apply lands_bind; intros ?
      | match goal with
        | |- lands (match ?x with _ => _ end) => destruct x
        end ]).
  - repeat (cbv zeta; first
      [ match goal with
        | |- tallies (bind (update _) (fun _ => ret _)) =>
            intros w0; unfold bind, update, ret;
            cbn [fst snd w_mgr with_log stats_ticks ticks_of]; lia
        | |- tallies (bind (update _)
                        (fun _ => bind (update _) (fun _ => ret _))) =>
            intros w0; unfold bind, update, ret;
            cbn [fst snd w_mgr with_log with_stats stats_ticks ticks_of];
            lia
        end
      | apply tallies_bind; [solve [silent_walk]|intros ?]
      | match goal with
        | |- tallies (match ?x with _ => _ end) => destruct x
        end ]).
Qed.

(** X24: a tick of a manager that is stopped, or whose previous tick is still
    in flight, does nothing at all.  Any tick leaves the run's settings
    (running, options, limits) and the in-flight flag as it found them,
    never moves the sequence number or the clock backwards, and counts
    itself in [stats.ticks] exactly when it ran and returned without
    throwing. *)
Theorem tick_keeps_the_house (w : World) :
  let r := (tick env hashUnsignedEnvelope scLogInfo scLogRead) w in
  (running (w_mgr w) = false \/ tickInFlight (w_mgr w) = true ->
   r = (Ok tt, w)) /\
  settings (w_mgr (snd r)) = settings (w_mgr w) /\
  tickInFlight (w_mgr (snd r)) = tickInFlight (w_mgr w) /\
  lastSeq (w_mgr w) <= lastSeq (w_mgr (snd r)) /\
  w_now w <= w_now (snd r) /\
  (exists new, w_calls (snd r) = (w_calls w ++ new)%list) /\
  stats_ticks (w_mgr (snd r)) =
    stats_ticks (w_mgr w) +
    (if running (w_mgr w) && negb (tickInFlight (w_mgr w))
     then ticks_of (fst r) else 0).
Proof.
  intros r. destruct (tick_moves w) as (Hs & Hl & Hn). fold r in Hs, Hl, Hn.
  split; [apply tick_idle|].
  split; [exact Hs|].
  assert (Hc : exists new, w_calls (snd r) = (w_calls w ++ new)%list).
  { destruct (tick_guarded env hashUnsignedEnvelope scLogInfo scLogRead w)
      as (new & Hnew & _). eauto. }
  destruct (running (w_mgr w)) eqn:Hr.
  - destruct (tickInFlight (w_mgr w)) eqn:Hf.
    + assert (E : r = (Ok tt, w)) by (apply tick_idle; now right).
      rewrite E. cbn [fst snd andb negb].
      split; [exact Hf|]. split; [lia|]. split; [lia|].
      split; [exists []; now rewrite app_nil_r|lia].
    + destruct (tick_lands_and_tallies w Hr Hf) as [H1 H2].
      fold r in H1, H2. cbn [andb negb].
      split; [exact H1|]. split; [exact Hl|]. split; [exact Hn|].
      split; [exact Hc|exact H2].
  - assert (E : r = (Ok tt, w)) by (apply tick_idle; now left).
    rewrite E. cbn [fst snd andb].
    split; [reflexivity|]. split; [lia|]. split; [lia|].
    split; [exists []; now rewrite app_nil_r|lia].
Qed.

(** The argument [start] reads its options from. *)
Definition arg_of (o : jsval) : jsval :=
  match o with JUndef => JObj [] | _ => o end.

Definition subscribe_call (op : Opts) (ok : bool) : Call :=
  mkCall subscribe_tool
    (JObj [("channels", JArr (List.map JStr (channels op)))]) ok.

(** X25: [start] on a running manager changes nothing and calls nothing; with
    no usable channel it throws before touching the manager.  Otherwise it
    installs the clamped options with empty caches and subscribes to the
    channels first; if that call rejects, [start] throws and the manager
    stays stopped; if it resolves, the manager is running with those options
    and limits from then on, even when the first tick throws. *)
Theorem start_subscribes_before_running (o : jsval) (w : World) :
  let r := start env hashUnsignedEnvelope scLogInfo scLogRead o w in
  (running (w_mgr w) = true -> r = (Ok tradeauto_already_running, w)) /\
  (running (w_mgr w) = false ->
   (o = JNull \/ exists e, start_options (arg_of o) = Err e) ->
   exists e, r = (Err e, w)) /\
  (running (w_mgr w) = false -> o <> JNull ->
   forall op lim, start_options (arg_of o) = Ok (op, lim) ->
   let ok := o_ok (env (List.length (w_calls w))) in
   (exists rest,
      w_calls (snd r) = (w_calls w ++ subscribe_call op ok :: rest)%list) /\
   (ok = false ->
      (exists e, fst r = Err e) /\
      w_mgr (snd r) = installed op lim (w_mgr w) /\
      w_calls (snd r) = (w_calls w ++ [subscribe_call op false])%list) /\
   (ok = true ->
      settings (w_mgr (snd r)) =
        (true, op,
         (max_events op, l_dedupe_max lim, l_stage_max lim,
          l_preimage_max lim),
         (l_lock_max_age_ms lim, l_done_max_age_ms lim,
          l_sc_ensure_interval_ms lim)) /\
      running (w_mgr (snd r)) = true /\ opts (w_mgr (snd r)) = op)).
Proof.
  intros r. split; [|split].
  - intros Hr. unfold r, start. rewrite run_bind. cbn [getMgr fst snd].
    now rewrite Hr.
  - intros Hr Hbad. unfold r, start. rewrite run_bind. cbn [getMgr fst snd].
    rewrite Hr. destruct Hbad as [->|[e He]]; [eexists; reflexivity|].
    destruct o; try (eexists; reflexivity); cbn [arg_of] in He;
      rewrite He; eexists; reflexivity.
  - intros Hr Ho op lim Hop ok.
    assert (E : r =
              bind (update (fun _ m => installed op lim m))
                (fun _ =>
                 bind (runTool env subscribe_tool
                         (JObj [("channels",
                                 JArr (List.map JStr (channels op)))]))
                   (fun r0 =>
                    match r0 with
                    | Err e => ret (Err e)
                    | Ok _ =>
                        bind (update (fun now m => set_running now m))
                          (fun _ =>
                           bind (tick env hashUnsignedEnvelope scLogInfo scLogRead)
                             (fun t =>
                              match t with
                              | Err e => ret (Err e)
                              | Ok _ => ret (Ok tradeauto_started)
                              end))
                    end)) w).
    { unfold r, start. rewrite run_bind. cbn [getMgr fst snd]. rewrite Hr.
      destruct o; try contradiction; cbn [arg_of] in Hop; rewrite Hop;
        reflexivity. }
    rewrite E. clear E. rewrite run_bind. cbn [update fst snd].
    rewrite run_bind, run_runTool. cbn [fst snd w_mgr w_now w_calls].
    fold ok. destruct ok eqn:Hok.
    + rewrite run_bind. cbn [update fst snd w_mgr w_now w_calls].
      rewrite run_bind.
      match goal with
      | |- context [tick env hashUnsignedEnvelope scLogInfo scLogRead ?x] =>
          set (w1 := x)
      end.
      pose proof (tick_moves w1) as (Hs & _ & _).
      destruct (tick_guarded env hashUnsignedEnvelope scLogInfo scLogRead w1)
        as (new & Hnew & _).
      assert (Hfin : forall t : result unit,
                snd (match t with
                     | Err e => ret (Err e)
                     | Ok _ => ret (Ok tradeauto_started)
                     end (snd ((tick env hashUnsignedEnvelope scLogInfo scLogRead) w1))) = snd ((tick env hashUnsignedEnvelope scLogInfo scLogRead) w1)).
      { intros [u|e]; reflexivity. }
      rewrite Hfin. split; [|split; [discriminate|]].
      * exists new. rewrite Hnew. unfold w1. cbn [w_calls].
        rewrite <- app_assoc. reflexivity.
      * intros _. rewrite Hs. unfold w1. cbn [w_mgr].
        split; [reflexivity|].
        assert (Hs' := Hs). unfold settings in Hs'.
        unfold w1 in Hs'. cbn [w_mgr set_running installed running opts]
          in Hs'.
        injection Hs' as Hrun Hopts _ _ _ _ _ _ _.
        split; assumption.
    + cbn [ret fst snd w_mgr w_calls].
      split; [exists []; reflexivity|].
      split; [|discriminate].
      intros _. split; [eauto|]. split; reflexivity.
Qed.

(** X26: [stop] leaves a manager that is not running, with no event, no
    sequence number and empty caches, whose options, limits and counters
    are kept; a tick that starts afterwards does nothing, every stage and
    every signed event may run again, and stopping twice is stopping
    once. *)
Theorem stop_forgets_the_run (w : World) :
  let w1 := snd (stop w) in
  running (w_mgr w1) = false /\ tickInFlight (w_mgr w1) = false /\
  lastSeq (w_mgr w1) = 0 /\ events (w_mgr w1) = [] /\
  caches (w_mgr w1) = mkCaches [] [] [] [] [] [] [] [] [] /\
  (opts (w_mgr w1) = opts (w_mgr w) /\
   stats_ticks (w_mgr w1) = stats_ticks (w_mgr w) /\
   stats_actions (w_mgr w1) = stats_actions (w_mgr w) /\
   w_calls w1 = w_calls w /\ w_now w1 = w_now w) /\
  (tick env hashUnsignedEnvelope scLogInfo scLogRead) w1 = (Ok tt, w1) /\
  (forall key t, key <> "" -> 0 <= t ->
     canRunStage key t (w_mgr w1) = true) /\
  (forall flow sig t, sig <> "" -> 0 <= t ->
     canRunEvent flow sig t (w_mgr w1) = true) /\
  snd (stop w1) = w1.
Proof.
  intros w1. unfold w1, stop, update. cbn [snd w_mgr w_now w_calls].
  repeat (split; [reflexivity|]).
  split; [repeat split|].
  split; [apply tick_idle; now left|].
  split; [|split; [|reflexivity]].
  - intros key t Hk Ht. unfold canRunStage.
    destruct (String.eqb_spec key ""); [contradiction|].
    cbn. apply Z.leb_le. exact Ht.
  - intros flow sig t Hs Ht. unfold canRunEvent.
    destruct (String.eqb_spec sig ""); [contradiction|].
    cbn. apply Z.leb_le. exact Ht.
Qed.

End WithEnv.

(** A start of a fresh manager in a world where every call resolves. *)
Definition fresh_mgr : Mgr :=
  mkMgr false false DriverSamples.opts0 0 [] 2000 6000 6000 2000
    1200000 2400000 5000 0 [] [] [] [] [] [] [] [] [] 0 0.

Definition fresh_world : World := mkWorld fresh_mgr 1000 [].

Lemma start_subscribes_before_running_witness :
  running
    (w_mgr (snd (start DriverSamples.env_all_resolve DriverSamples.no_hash
                   (JObj []) (fun _ _ => JObj [])
                   DriverOptions.default_start fresh_world))) = true.
Proof.
  destruct (start_subscribes_before_running DriverSamples.env_all_resolve
              DriverSamples.no_hash (JObj []) (fun _ _ => JObj [])
              DriverOptions.default_start fresh_world) as (_ & _ & H).
  destruct (H eq_refl) with (op := DriverSamples.opts0)
                            (lim := DriverOptions.default_limits)
    as (_ & _ & Hok).
  - discriminate.
  - exact DriverOptions.default_options.
  - exact (proj1 (proj2 (Hok eq_refl))).
Defined.

End DriverControl.

(* ===================================================================== *)
(** * Settlement driver: the contexts a tick builds *)
(* ===================================================================== *)

Module DriverContexts.
Import TradeAuto JSFacts DriverLogic LockFacts.

(** An event the loop of [_buildContexts] does not skip. *)
Definition relevant (e : jsval) : bool :=
  startsWith (envelopeKind e) "swap." && is_object_like (get e "message").

(** Whether the loop takes the event for one of the local peer's own. *)
Definition is_local (localPeer : string) (e : jsval) : bool :=
  isLocalEvent e
  || (negb (String.eqb localPeer "")
      && String.eqb (envelopeSigner e) localPeer).

(** A relevant event of the given kind, local or not. *)
Definition picks (kind : string) (loc : bool) (localPeer : string)
                 (e : jsval) : bool :=
  relevant e && String.eqb (envelopeKind e) kind
  && Bool.eqb (is_local localPeer e) loc.

Definition one_if {A : Type} (b : bool) (x : A) : list A :=
  if b then [x] else [].

Lemma filter_cons_app {A : Type} (p : A -> bool) (x : A) (l : list A) :
  List.filter p (x :: l) = (one_if (p x) x ++ List.filter p l)%list.
Proof. simpl. unfold one_if. now destruct (p x). Qed.

(** An entry of a map after [set] is the new one or an old one. *)
Lemma map_set_in {V} (k : string) (v : V) (m : jmap V) (e : string * V) :
  In e (map_set k v m) -> e = (k, v) \/ In e m.
Proof.
  induction m as [|[k1 v1] r IH]; simpl.
  - intros [<-|[]]. now left.
  - destruct (String.eqb k k1); simpl.
    + intros [<-|H]; [now left|right; now right].
    + intros [<-|H]; [right; now left|].
      destruct (IH H) as [->|H']; [now left|right; now right].
Qed.

Lemma map_get_in {V} (k : string) (v : V) (m : jmap V) :
  map_get k m = Some v -> In (k, v) m.
Proof.
  unfold map_get. induction m as [|[k1 v1] r IH]; simpl; [discriminate|].
  destruct (String.eqb_spec k k1) as [->|Hk].
  - intros [= ->]. now left.
  - intros H. right. now apply IH.
Qed.

Lemma set_has_grows (k x : string) (s : jset) :
  set_has k s = true -> set_has k (set_add x s) = true.
Proof.
  intros H. unfold set_add. destruct (set_has x s); [exact H|].
  rewrite set_has_app, H. reflexivity.
Qed.

Lemma set_has_added (k : string) (s : jset) : set_has k (set_add k s) = true.
Proof.
  unfold set_add. destruct (set_has k s) eqn:E; [exact E|].
  rewrite set_has_app. simpl. rewrite String.eqb_refl.
  now rewrite orb_true_r.
Qed.

Lemma object_like_truthy (v : jsval) :
  is_object_like v = true -> truthy v = true.
Proof. destruct v; simpl; congruence. Qed.

Section Contexts.

Variable hashUnsignedEnvelope : jsval -> result jsval.

(** What one turn of the loop adds to the four event lists and to the set
    of own RFQs. *)
Lemma fold_event_lists (localPeer : string) (now : Z) (c : Ctx) (e : jsval) :
  let c' := fold_event hashUnsignedEnvelope localPeer now c e in
  quoteEvents c' =
    (quoteEvents c ++ one_if (picks "swap.quote" false localPeer e) e)%list /\
  acceptEvents c' =
    (acceptEvents c
       ++ one_if (picks "swap.quote_accept" false localPeer e) e)%list /\
  inviteEvents c' =
    (inviteEvents c
       ++ one_if (picks "swap.swap_invite" false localPeer e) e)%list /\
  myOfferEvents c' =
    (myOfferEvents c
       ++ one_if (picks "swap.svc_announce" true localPeer e) e)%list /\
  myRfqTradeIds c' =
    if picks "swap.rfq" true localPeer e
       && negb (String.eqb (envelopeTradeId e) "")
    then set_add (envelopeTradeId e) (myRfqTradeIds c)
    else myRfqTradeIds c.
Proof.
  unfold fold_event, picks, relevant. cbv zeta.
  fold (is_local localPeer e).
  destruct (startsWith (envelopeKind e) "swap."); cbn [negb andb];
    [|unfold one_if; rewrite !app_nil_r; auto].
  destruct (is_object_like (get e "message")); cbn [negb andb];
    [|unfold one_if; rewrite !app_nil_r; auto].
  match goal with
  | |- context [let '(a, b) := ?x in _] => destruct x as [ctxs terminal]
  end.
  cbn [quoteEvents acceptEvents inviteEvents myOfferEvents myRfqTradeIds].
  destruct (is_local localPeer e); cbn [negb andb Bool.eqb];
    rewrite ?andb_true_r, ?andb_false_r; unfold one_if;
    repeat match goal with
           | |- context [String.eqb (envelopeKind e) ?k] =>
               destruct (String.eqb (envelopeKind e) k)
           end;
    cbn [andb negb]; rewrite ?app_nil_r;
    repeat split; try reflexivity;
    destruct (String.eqb (envelopeTradeId e) ""); reflexivity.
Qed.

Lemma buildContexts_from (localPeer : string) (now : Z) (evs : list jsval)
                         (c : Ctx) :
  let c' := List.fold_left (fold_event hashUnsignedEnvelope localPeer now)
              evs c in
  quoteEvents c' =
    (quoteEvents c
       ++ List.filter (picks "swap.quote" false localPeer) evs)%list /\
  acceptEvents c' =
    (acceptEvents c
       ++ List.filter (picks "swap.quote_accept" false localPeer) evs)%list /\
  inviteEvents c' =
    (inviteEvents c
       ++ List.filter (picks "swap.swap_invite" false localPeer) evs)%list /\
  myOfferEvents c' =
    (myOfferEvents c
       ++ List.filter (picks "swap.svc_announce" true localPeer) evs)%list /\
  (forall t, set_has t (myRfqTradeIds c') = true <->
     set_has t (myRfqTradeIds c) = true \/
     exists e, In e evs /\ picks "swap.rfq" true localPeer e = true /\
               envelopeTradeId e = t /\ t <> "").
Proof.
  revert c. induction evs as [|e r IH]; intros c; simpl.
  - rewrite !app_nil_r. repeat split; auto.
    intros [H|(e & [] & _)]. exact H.
  - destruct (fold_event_lists localPeer now c e) as (Q & A & I & O & R).
    destruct (IH (fold_event hashUnsignedEnvelope localPeer now c e))
      as (Q' & A' & I' & O' & R').
    cbv zeta in *. rewrite Q', A', I', O', Q, A, I, O.
    rewrite <- !app_assoc.
    repeat split;
      try (f_equal; unfold one_if;
           match goal with
           | |- context [picks ?k ?b localPeer e] =>
               destruct (picks k b localPeer e)
           end; reflexivity).
    + intros H. apply R' in H. rewrite R in H.
      destruct H as [H|(e' & He' & P & T & N)].
      * destruct (picks "swap.rfq" true localPeer e
                  && negb (String.eqb (envelopeTradeId e) "")) eqn:E;
          [|now left].
        destruct (String.eqb_spec t (envelopeTradeId e)) as [->|Hne].
        -- right. exists e. apply andb_prop in E. destruct E as [E1 E2].
           apply negb_true_iff, String.eqb_neq in E2. auto.
        -- left. unfold set_add in H.
           destruct (set_has (envelopeTradeId e) (myRfqTradeIds c));
             [exact H|].
           rewrite set_has_app in H. simpl in H.
           apply String.eqb_neq in Hne. rewrite Hne in H.
           now rewrite !orb_false_r in H.
      * right. exists e'. auto.
    + intros H. apply R'. rewrite R.
      destruct H as [H|(e' & [<-|He'] & P & T & N)].
      * left. destruct (_ && _); [now apply set_has_grows|exact H].
      * left. rewrite P. apply String.eqb_neq in N. rewrite T, N.
        cbn [negb andb]. rewrite <- T. apply set_has_added.
      * right. exists e'. auto.
Qed.

(** X27: the event lists a tick works on are exactly the relevant events of
    their kind, in the order of the log: quotes, quote accepts and swap
    invites that are not the local peer's own, and the local peer's own
    service announcements; [myRfqTradeIds] holds exactly the trade ids of
    the local peer's own RFQs.  So no pipeline ever answers an event the
    local peer sent itself. *)
Theorem buildContexts_sorts_events_by_kind
    (evs : list jsval) (localPeer : string) (now : Z) :
  let ctx := buildContexts hashUnsignedEnvelope evs localPeer now in
  quoteEvents ctx = List.filter (picks "swap.quote" false localPeer) evs /\
  acceptEvents ctx =
    List.filter (picks "swap.quote_accept" false localPeer) evs /\
  inviteEvents ctx =
    List.filter (picks "swap.swap_invite" false localPeer) evs /\
  myOfferEvents ctx =
    List.filter (picks "swap.svc_announce" true localPeer) evs /\
  (forall t, set_has t (myRfqTradeIds ctx) = true <->
     exists e, In e evs /\ picks "swap.rfq" true localPeer e = true /\
               envelopeTradeId e = t /\ t <> "") /\
  (forall e, In e (quoteEvents ctx) \/ In e (acceptEvents ctx)
             \/ In e (inviteEvents ctx) ->
     In e evs /\ isLocalEvent e = false /\
     (localPeer <> "" -> envelopeSigner e <> localPeer)).
Proof.
  intros ctx.
  destruct (buildContexts_from localPeer now evs empty_ctx)
    as (Q & A & I & O & R).
  fold (buildContexts hashUnsignedEnvelope evs localPeer now) in Q, A, I, O, R.
  fold ctx in Q, A, I, O, R. simpl in Q, A, I, O.
  split; [exact Q|]. split; [exact A|]. split; [exact I|].
  split; [exact O|]. split.
  - intros t. rewrite R. simpl. split; [intros [H|H]; [discriminate|exact H]|].
    intros H. now right.
  - assert (Hp : forall k e, picks k false localPeer e = true ->
              isLocalEvent e = false /\
              (localPeer <> "" -> envelopeSigner e <> localPeer)).
    { intros k e H. unfold picks in H. apply andb_prop in H.
      destruct H as [_ H]. unfold is_local in H.
      destruct (isLocalEvent e); [discriminate|]. split; [reflexivity|].
      intros Hl. apply String.eqb_neq in Hl. rewrite Hl in H. simpl in H.
      destruct (String.eqb_spec (envelopeSigner e) localPeer);
        [discriminate|assumption]. }
    intros e H. rewrite Q, A, I in H.
    destruct H as [H|[H|H]]; apply filter_In in H; destruct H as [Hin H];
      (split; [exact Hin|exact (Hp _ _ H)]).
Qed.

(** ** Trade contexts *)

(** What the map of trade contexts holds at every turn of the loop. *)
Definition ctx_ok (terminal : jset) (e : string * TradeCtx) : Prop :=
  t_trade_id (snd e) = fst e /\ fst e <> "" /\
  startsWith (t_channel (snd e)) "swap:" = true /\
  (truthy (t_claimed (snd e)) || truthy (t_refunded (snd e))
   || truthy (t_canceled (snd e)) = true ->
   set_has (fst e) terminal = true).

Definition ctxs_ok (c : Ctx) : Prop :=
  NoDup (List.map fst (swapTradeContextsByTrade c)) /\
  Forall (ctx_ok (terminalTradeIds c)) (swapTradeContextsByTrade c).

Lemma ctx_ok_grows (x : string) (s : jset) (e : string * TradeCtx) :
  ctx_ok s e -> ctx_ok (set_add x s) e.
Proof.
  unfold ctx_ok. intros (H1 & H2 & H3 & H4). repeat split; auto.
  intros H. apply set_has_grows. auto.
Qed.

Lemma trade_ctx_update_ok (kind ch : string) (ts : Z) (msg : jsval)
                          (tc : TradeCtx) (k : string) (s : jset) :
  is_object_like msg = true ->
  startsWith ch "swap:" = true ->
  ctx_ok s (k, tc) ->
  let r := trade_ctx_update kind ch ts msg tc in
  ctx_ok (if snd r then set_add k s else s) (k, fst r).
Proof.
  intros Hm Hch (H1 & H2 & H3 & H4). simpl in H1, H2, H3, H4.
  assert (Hne : String.eqb ch "" = false).
  { destruct ch; [discriminate|reflexivity]. }
  apply object_like_truthy in Hm.
  unfold trade_ctx_update. cbv zeta. rewrite Hne.
  repeat match goal with
         | |- context [if String.eqb kind ?x then _ else _] =>
             destruct (String.eqb kind x)
         end;
    cbn [fst snd]; unfold ctx_ok;
    cbn [fst snd t_trade_id t_channel t_claimed t_refunded t_canceled];
    repeat split; auto;
    try (intros _; apply set_has_added).
Qed.

Lemma fold_event_ok (localPeer : string) (now : Z) (c : Ctx) (e : jsval) :
  ctxs_ok c -> ctxs_ok (fold_event hashUnsignedEnvelope localPeer now c e).
Proof.
  intros [Hn Hf]. unfold fold_event. cbv zeta.
  destruct (startsWith (envelopeKind e) "swap."); cbn [negb];
    [|split; assumption].
  destruct (is_object_like (get e "message")) eqn:Hm; cbn [negb];
    [|split; assumption].
  set (tid := envelopeTradeId e).
  set (ch := trim (str_or_empty (get e "channel"))).
  destruct (negb (String.eqb tid "") && startsWith ch "swap:") eqn:Hc.
  2:{ unfold ctxs_ok.
      cbn [swapTradeContextsByTrade terminalTradeIds]. split; assumption. }
  apply andb_prop in Hc. destruct Hc as [Hid Hch].
  apply negb_true_iff, String.eqb_neq in Hid.
  set (tc := match map_get tid (swapTradeContextsByTrade c) with
             | Some t => t
             | None => empty_trade_ctx tid ch
             end).
  assert (Htc : ctx_ok (terminalTradeIds c) (tid, tc)).
  { unfold tc. destruct (map_get tid (swapTradeContextsByTrade c)) as [t|]
      eqn:E.
    - apply map_get_in in E. rewrite Forall_forall in Hf. exact (Hf _ E).
    - unfold ctx_ok. cbn. repeat split; auto. discriminate. }
  pose proof (trade_ctx_update_ok (envelopeKind e) ch (eventTs e now)
                (get e "message") tc tid (terminalTradeIds c) Hm Hch Htc)
    as Hup. cbv zeta in Hup.
  destruct (trade_ctx_update (envelopeKind e) ch (eventTs e now)
              (get e "message") tc) as [tc' term].
  cbn [fst snd] in Hup.
  unfold ctxs_ok. cbn [swapTradeContextsByTrade terminalTradeIds].
  split; [now apply AutopostBooks.keys_set|].
  rewrite Forall_forall in *. intros x Hx. apply map_set_in in Hx.
  destruct Hx as [->|Hx]; [exact Hup|].
  destruct term; [apply ctx_ok_grows|]; now apply Hf.
Qed.

Lemma buildContexts_ok (evs : list jsval) (localPeer : string) (now : Z) :
  ctxs_ok (buildContexts hashUnsignedEnvelope evs localPeer now).
Proof.
  unfold buildContexts.
  assert (H0 : ctxs_ok empty_ctx) by (split; constructor).
  revert H0. generalize empty_ctx.
  induction evs as [|e r IH]; intros c Hc; simpl; [exact Hc|].
  apply IH. now apply fold_event_ok.
Qed.

End Contexts.

(** ** The order of settlement *)

Definition not_before (a b : TradeCtx) : Prop := t_last_ts b <= t_last_ts a.

Lemma insert_by_ts_perm (x : TradeCtx) (l : list TradeCtx) :
  Permutation (insert_by_ts x l) (x :: l).
Proof.
  induction l as [|y r IH]; simpl; [reflexivity|].
  destruct (t_last_ts x <? t_last_ts y); [|reflexivity].
  rewrite IH. apply perm_swap.
Qed.

Lemma insert_by_ts_sorted (x : TradeCtx) (l : list TradeCtx) :
  StronglySorted not_before l -> StronglySorted not_before (insert_by_ts x l).
Proof.
  induction 1 as [|y r Hr IH Hy]; simpl.
  - constructor; constructor.
  - destruct (Z.ltb_spec (t_last_ts x) (t_last_ts y)) as [Hlt|Hge].
    + constructor; [exact IH|].
      apply (Permutation_Forall (Permutation_sym (insert_by_ts_perm x r))).
      constructor; [unfold not_before; lia|exact Hy].
    + constructor; [now constructor|].
      constructor; [exact Hge|].
      rewrite Forall_forall in *. intros z Hz. specialize (Hy z Hz).
      unfold not_before in *. lia.
Qed.

Lemma swapTradeContexts_perm (c : Ctx) :
  Permutation (swapTradeContexts c)
    (List.map snd (swapTradeContextsByTrade c)).
Proof.
  unfold swapTradeContexts.
  induction (List.map snd (swapTradeContextsByTrade c)) as [|x r IH];
    simpl; [constructor|].
  rewrite insert_by_ts_perm. now constructor.
Qed.

Lemma swapTradeContexts_sorted (c : Ctx) :
  StronglySorted not_before (swapTradeContexts c).
Proof.
  unfold swapTradeContexts.
  induction (List.map snd (swapTradeContextsByTrade c)) as [|x r IH];
    simpl; [constructor|].
  now apply insert_by_ts_sorted.
Qed.

(** X28: the trade contexts a tick settles come one per trade id, most
    recently active first; each has a non-empty trade id and a channel that
    starts with "swap:", and a context that holds a claimed, refunded or
    cancel message has its trade id among the terminal ones; the settlement
    loop takes the first [max_trades] of them, so a trade it leaves out was
    not active later than one it takes. *)
Theorem trade_contexts_are_settled_newest_first
    (hashUnsignedEnvelope : jsval -> result jsval)
    (evs : list jsval) (localPeer : string) (now : Z) (n : Z) :
  let ctx := buildContexts hashUnsignedEnvelope evs localPeer now in
  let all := swapTradeContexts ctx in
  NoDup (List.map t_trade_id all) /\
  StronglySorted not_before all /\
  (forall tc, In tc all ->
     map_get (t_trade_id tc) (swapTradeContextsByTrade ctx) = Some tc /\
     t_trade_id tc <> "" /\
     startsWith (t_channel tc) "swap:" = true /\
     (truthy (t_claimed tc) || truthy (t_refunded tc)
      || truthy (t_canceled tc) = true ->
      set_has (t_trade_id tc) (terminalTradeIds ctx) = true)) /\
  (forall a b, In a (take_z n all) -> In b all ->
     In b (take_z n all) \/ not_before a b).
Proof.
  intros ctx all.
  destruct (buildContexts_ok hashUnsignedEnvelope evs localPeer now)
    as [Hn Hf]. fold ctx in Hn, Hf.
  pose proof (swapTradeContexts_perm ctx) as Hp. fold all in Hp.
  pose proof (swapTradeContexts_sorted ctx) as Hs. fold all in Hs.
  rewrite Forall_forall in Hf.
  assert (Hids : List.map t_trade_id
                   (List.map snd (swapTradeContextsByTrade ctx))
                 = List.map fst (swapTradeContextsByTrade ctx)).
  { rewrite map_map. apply map_ext_in. intros x Hx.
    exact (proj1 (Hf x Hx)). }
  split; [|split; [exact Hs|split]].
  - apply (Permutation_NoDup (Permutation_sym (Permutation_map _ Hp))).
    now rewrite Hids.
  - intros tc Hin. apply (Permutation_in _ Hp) in Hin.
    apply in_map_iff in Hin. destruct Hin as ([k t] & E & Hin).
    simpl in E. subst t. destruct (Hf _ Hin) as (H1 & H2 & H3 & H4).
    simpl in H1, H2, H3, H4. rewrite H1.
    split; [|auto].
    clear -Hn Hin. induction (swapTradeContextsByTrade ctx) as [|[k1 t1] r IH];
      simpl in *; [contradiction|].
    unfold map_get. simpl. inversion Hn as [|? ? Hx Hr]; subst.
    destruct Hin as [[= -> ->]|Hin].
    + now rewrite String.eqb_refl.
    + destruct (String.eqb_spec k k1) as [->|Hne].
      * elim Hx. apply in_map_iff. exists (k1, tc). auto.
      * now apply IH.
  - intros a b Ha Hb. unfold take_z in *.
    now apply (OrderFacts.sorted_firstn_rest TradeCtx not_before
                 (Z.to_nat n) all a b Hs).
Qed.

End DriverContexts.

(* ===================================================================== *)
(** * Settlement driver: the event window and the caches *)
(* ===================================================================== *)

Module DriverCaches.
Import TradeAuto JSFacts DriverLogic LockFacts.

(** ** Dropping the oldest entries *)

Lemma drop_oldest_suffix {A} (max : Z) (l : list A) :
  exists dropped, l = (dropped ++ drop_oldest max l)%list.
Proof.
  induction l as [|x r IH]; [exists []; reflexivity|].
  unfold drop_oldest. fold (@drop_oldest A).
  destruct (max <? _).
  - destruct IH as [d Hd]. exists (x :: d). simpl. now rewrite <- Hd.
  - exists []. reflexivity.
Qed.

Lemma drop_oldest_length {A} (max : Z) (l : list A) :
  0 <= max -> Z.of_nat (List.length (drop_oldest max l)) <= max.
Proof.
  intros Hm. induction l as [|x r IH]; [simpl; lia|].
  unfold drop_oldest. fold (@drop_oldest A).
  destruct (Z.ltb_spec max (Z.of_nat (List.length (x :: r)))); [exact IH|lia].
Qed.

Lemma drop_oldest_in {A} (max : Z) (l : list A) (x : A) :
  In x (drop_oldest max l) -> In x l.
Proof.
  destruct (drop_oldest_suffix max l) as [d Hd]. intros H.
  rewrite Hd. apply in_or_app. now right.
Qed.

Lemma limit_max_pos (limit : Z) : 1 <= limit_max limit.
Proof. unfold limit_max. lia. Qed.

Lemma limit_max_id (limit : Z) : 1 <= limit -> limit_max limit = limit.
Proof. unfold limit_max. intros H. destruct (Z.eqb_spec limit 0); lia. Qed.

(** X29: [_appendEvents] appends the new events and then drops from the
    front: what it keeps is an end piece of the old window followed by the
    new events; with new events and a non-negative bound the window holds at
    most [eventsMax] events, nothing is dropped when everything fits, the
    new events are all kept when they fit by themselves, and an empty batch
    leaves the window alone. *)
Theorem appendEvents_keeps_the_newest (evs : list jsval) (m : Mgr) :
  let out := appendEvents evs m in
  (exists dropped, (events m ++ evs)%list = (dropped ++ out)%list) /\
  (evs = [] -> out = events m) /\
  (evs <> [] -> 0 <= eventsMax m ->
   Z.of_nat (List.length out) <= eventsMax m) /\
  (Z.of_nat (List.length (events m ++ evs)) <= eventsMax m ->
   out = (events m ++ evs)%list) /\
  (evs <> [] -> Z.of_nat (List.length evs) <= eventsMax m ->
   exists older dropped,
     events m = (dropped ++ older)%list /\ out = (older ++ evs)%list).
Proof.
  intros out. unfold out, appendEvents.
  destruct evs as [|e r].
  - rewrite app_nil_r. split; [exists []; reflexivity|].
    split; [reflexivity|]. split; [congruence|].
    split; [reflexivity|congruence].
  - set (evs := e :: r). set (all := (events m ++ evs)%list).
    set (len := Z.of_nat (List.length all)).
    destruct (Z.ltb_spec (eventsMax m) len) as [Hlt|Hge].
    + set (k := Z.to_nat (len - eventsMax m)).
      split; [exists (List.firstn k all); now rewrite firstn_skipn|].
      split; [discriminate|].
      split.
      { intros _ Hm. rewrite length_skipn. unfold k, len in *. lia. }
      split; [intros H; unfold len in *; lia|].
      intros _ Hfit.
      assert (Hk : (k <= List.length (events m))%nat).
      { unfold k, len, all in *. rewrite length_app in *. lia. }
      exists (List.skipn k (events m)), (List.firstn k (events m)).
      split; [now rewrite firstn_skipn|].
      unfold all. rewrite skipn_app.
      replace (k - List.length (events m))%nat with 0%nat by lia.
      reflexivity.
    + split; [exists []; reflexivity|].
      split; [discriminate|].
      split; [intros _ _; exact Hge|].
      split; [reflexivity|].
      intros _ _. exists (events m), []. split; reflexivity.
Qed.

(** ** The sweeps of [_pruneCaches] *)

(** Every cache of [k'] holds only entries of the same cache of [k]. *)
Record within (k' k : Caches) : Prop := mkWithin {
  in_quoted : incl (k_quoted k') (k_quoted k);
  in_accepted : incl (k_accepted k') (k_accepted k);
  in_lock : incl (k_lock k') (k_lock k);
  in_invited : incl (k_invited k') (k_invited k);
  in_joined : incl (k_joined k') (k_joined k);
  in_done : incl (k_done k') (k_done k);
  in_inflight : incl (k_inflight k') (k_inflight k);
  in_retry : incl (k_retry k') (k_retry k);
  in_preimage : incl (k_preimage k') (k_preimage k)
}.

Lemma within_refl (k : Caches) : within k k.
Proof. constructor; apply incl_refl. Qed.

Lemma within_trans (a b c : Caches) : within a b -> within b c -> within a c.
Proof.
  intros [] []. constructor; eapply incl_tran; eassumption.
Qed.

(** Nothing of the trade is left in the caches. *)
Definition purged (tradeId : string) (k : Caches) : Prop :=
  (forall e, In e (k_lock k) -> fst e <> tradeId) /\
  (forall e, In e (k_preimage k) -> fst e <> tradeId) /\
  (forall e, In e (k_done k) ->
     has_prefix (tradeId ++ ":") (fst e) = false) /\
  (forall e, In e (k_inflight k) -> has_prefix (tradeId ++ ":") e = false) /\
  (forall e, In e (k_retry k) ->
     has_prefix (tradeId ++ ":") (fst e) = false).

Lemma purged_within (t : string) (k' k : Caches) :
  within k' k -> purged t k -> purged t k'.
Proof.
  intros [] (H1 & H2 & H3 & H4 & H5). repeat split; intros e He; auto.
Qed.

Lemma map_delete_in {V} (k : string) (m : jmap V) (e : string * V) :
  In e (map_delete k m) -> In e m /\ fst e <> k.
Proof.
  induction m as [|[k1 v1] r IH]; simpl; [intros []|].
  destruct (String.eqb_spec k k1) as [->|Hk].
  - intros H. destruct (IH H). auto.
  - intros [<-|H]; [split; [now left|simpl; congruence]|].
    destruct (IH H). auto.
Qed.

Lemma incl_filter {A} (p : A -> bool) (l : list A) : incl (List.filter p l) l.
Proof. intros x H. now apply filter_In in H. Qed.

Lemma incl_drop {A} (max : Z) (l : list A) : incl (drop_oldest max l) l.
Proof. intros x. apply drop_oldest_in. Qed.

Lemma pruneById_within (t : string) (k : Caches) :
  within (pruneTradeCachesById t k) k.
Proof.
  unfold pruneTradeCachesById. destruct (String.eqb t "");
    [apply within_refl|].
  constructor; cbn; try apply incl_refl; try apply incl_filter;
    intros e He; now apply map_delete_in in He.
Qed.

Lemma pruneById_purged (t : string) (k : Caches) :
  t <> "" -> purged t (pruneTradeCachesById t k).
Proof.
  intros Ht. apply String.eqb_neq in Ht.
  unfold pruneTradeCachesById. rewrite Ht. unfold purged. cbn.
  repeat split; intros e He;
    try (apply map_delete_in in He; tauto);
    apply filter_In in He; destruct He as [_ He];
    now apply negb_true_iff in He.
Qed.

Lemma prune_all_within (tids : list string) (k : Caches) :
  within (List.fold_left (fun k tid => pruneTradeCachesById (trim tid) k)
            tids k) k.
Proof.
  revert k. induction tids as [|t r IH]; intros k; simpl;
    [apply within_refl|].
  eapply within_trans; [apply IH|apply pruneById_within].
Qed.

Lemma prune_all_purged (tids : list string) (k : Caches) (t : string) :
  In t tids -> trim t <> "" ->
  purged (trim t)
    (List.fold_left (fun k tid => pruneTradeCachesById (trim tid) k) tids k).
Proof.
  revert k. induction tids as [|x r IH]; intros k; simpl; [intros []|].
  intros [->|Hin] Ht.
  - eapply purged_within; [apply prune_all_within|].
    now apply pruneById_purged.
  - now apply IH.
Qed.

Lemma sweep_within (m : Mgr) (now : Z) (k : Caches) :
  within (sweep m now k) k.
Proof.
  unfold sweep, pruneSetByLimit, pruneMapByLimit. cbv zeta.
  constructor; cbn; try apply incl_drop;
    (eapply incl_tran; [apply incl_drop|apply incl_filter]).
Qed.

(** X30: after [_pruneCaches] every cache is within its size limit (at least
    one entry is always allowed) and holds only entries it held before;
    locks older than [lock_max_age_ms] and stage marks older than
    [done_max_age_ms] are gone; and for every terminal trade id the lock,
    the preimage and every stage key of the trade are gone, so nothing of a
    finished trade is kept. *)
Theorem pruneCaches_bounds_the_caches
    (tids : list string) (now : Z) (m : Mgr) :
  let k' := caches (pruneCaches tids now m) in
  within k' (caches m) /\
  (Z.of_nat (List.length (k_quoted k')) <= Z.max 1 (dedupeMax m) /\
   Z.of_nat (List.length (k_accepted k')) <= Z.max 1 (dedupeMax m) /\
   Z.of_nat (List.length (k_invited k')) <= Z.max 1 (dedupeMax m) /\
   Z.of_nat (List.length (k_joined k')) <= Z.max 1 (dedupeMax m) /\
   Z.of_nat (List.length (k_done k')) <= Z.max 1 (stageMax m) /\
   Z.of_nat (List.length (k_inflight k')) <= Z.max 1 (stageMax m) /\
   Z.of_nat (List.length (k_retry k')) <= Z.max 1 (stageMax m) /\
   Z.of_nat (List.length (k_preimage k')) <= Z.max 1 (preimageMax m) /\
   Z.of_nat (List.length (k_lock k'))
     <= Z.max 1 (Z.max (if max_trades (opts m) =? 0 then 120
                        else max_trades (opts m)) (preimageMax m))) /\
  (forall e, In e (k_lock k') ->
     fst e <> "" /\ now - snd e <= lockMaxAgeMs m) /\
  (forall e, In e (k_done k') \/ In e (k_retry k') ->
     now - snd e <= doneMaxAgeMs m) /\
  (forall t, In t tids -> trim t <> "" -> purged (trim t) k').
Proof.
  intros k'.
  set (k0 := List.fold_left (fun k tid => pruneTradeCachesById (trim tid) k)
               tids (caches m)).
  assert (Hk' : k' = sweep m now k0) by reflexivity.
  assert (Hw : within k' k0) by (rewrite Hk'; apply sweep_within).
  assert (Hlim : forall l, limit_max l <= Z.max 1 l).
  { intros l. unfold limit_max. destruct (Z.eqb_spec l 0); lia. }
  split; [|split; [|split; [|split]]].
  - eapply within_trans; [exact Hw|apply prune_all_within].
  - rewrite Hk'. unfold sweep, pruneSetByLimit, pruneMapByLimit. cbv zeta.
    cbn [k_quoted k_accepted k_lock k_invited k_joined k_done k_inflight
         k_retry k_preimage].
    repeat split;
      (eapply Z.le_trans; [apply drop_oldest_length|apply Hlim]);
      pose proof (limit_max_pos (dedupeMax m));
      pose proof (limit_max_pos (stageMax m));
      pose proof (limit_max_pos (preimageMax m));
      match goal with
      | |- 0 <= limit_max ?l => pose proof (limit_max_pos l); lia
      end.
  - intros e He. rewrite Hk' in He. unfold sweep, pruneMapByLimit in He.
    cbv zeta in He. cbn [k_lock] in He.
    apply drop_oldest_in, filter_In in He. destruct He as [_ He].
    apply andb_prop in He. destruct He as [H1 H2].
    apply negb_true_iff in H1, H2.
    split; [now apply String.eqb_neq|]. apply Z.ltb_ge in H2. exact H2.
  - intros e He. rewrite Hk' in He. unfold sweep, pruneMapByLimit in He.
    cbv zeta in He. cbn [k_done k_retry] in He.
    destruct He as [He|He]; apply drop_oldest_in, filter_In in He;
      destruct He as [_ He]; apply negb_true_iff, Z.ltb_ge in He; exact He.
  - intros t Hin Ht. eapply purged_within; [exact Hw|].
    now apply prune_all_purged.
Qed.

End DriverCaches.
